(** * The platform-agnostic audio core of quantum/audio/audio.c

    A shallow embedding of the tone stack, the melody sequencer, the state
    ticker, the tempo functions and the on/off switch, followed by the
    properties checked against them.

    - C [float] is IEEE 754 binary32: [spec_float] with a 24 bit mantissa
      and [emax = 128], round to nearest even (the operations of
      [SpecFloat]).
    - [uint8_t], [uint16_t] and [uint32_t] are [Z] with the wrap-around
      written out ([wrap8], [wrap16], [wrap32]).
    - The global variables of the file are the fields of [state]; the
      functions are state transformers.
    - Calls that leave the file ([audio_driver_initialize],
      [audio_driver_start], [audio_driver_stop]) are recorded in [trace],
      together with the entries into [audio_play_tone] and
      [audio_stop_tone].
    - The build modelled is the default one: [AUDIO_TONE_STACKSIZE] is 8
      and [AUDIO_ENABLE_TONE_MULTIPLEXING] is not defined. *)

From Stdlib Require Import ZArith Bool List Lia SpecFloat.
From stdpp Require Import base list.

Local Open Scope Z_scope.

(** ** binary32 arithmetic *)

(** C [float]. *)
Abbreviation float := spec_float.

Module F32.

Definition prec : Z := 24.
Definition emax : Z := 128.

Definition mul : float -> float -> float := SFmul prec emax.
Definition div : float -> float -> float := SFdiv prec emax.
Definition sub : float -> float -> float := SFsub prec emax.

(** [a == b], [a < b], [a <= b] and [a >= b] of C; all false on a NaN. *)
Definition eqb : float -> float -> bool := SFeqb.
Definition ltb : float -> float -> bool := SFltb.
Definition leb : float -> float -> bool := SFleb.
Definition geb (a b : float) : bool := SFleb b a.

(** Conversion of an integer to [float] (round to nearest even). *)
Definition of_int (z : Z) : float := binary_normalize prec emax z 0 false.

(** Truncation toward zero, the value part of the conversion of a [float]
    to an integer type. *)
Definition trunc (f : float) : Z :=
  match f with
  | S754_finite s m e =>
      let a := if 0 <=? e then Z.pos m * 2 ^ e else Z.pos m / 2 ^ (- e) in
      if s then - a else a
  | _ => 0
  end.

Definition zero : float := S754_zero false.
Definition one : float := of_int 1.
Definition minus_one : float := of_int (-1).

End F32.

Global Instance float_inhabited : Inhabited float := populate F32.zero.

Definition wrap8 (z : Z) : Z := z mod 2 ^ 8.
Definition wrap16 (z : Z) : Z := z mod 2 ^ 16.
Definition wrap32 (z : Z) : Z := z mod 2 ^ 32.

(** Conversion of a [float] to [uint32_t]. C leaves it undefined when the
    truncated value is not representable; the model wraps. *)
Definition to_uint32 (f : float) : Z := wrap32 (F32.trunc f).

(** ** Data *)

(** [#define AUDIO_TONE_STACKSIZE 8] *)
Definition AUDIO_TONE_STACKSIZE : nat := 8.

(** A MUSICAL_NOTE, [float[2]]: frequency and duration. *)
Definition note : Type := float * float.

(** What [notes_pointer] can point to: nothing yet, the file's own [click]
    array (which [audio_play_click] overwrites in place), or an array owned
    by the caller. *)
Inductive song_ref : Type :=
| NullSong
| ClickSong
| Song (notes : list note).

Inductive event : Type :=
| DriverInitialize
| DriverStart
| DriverStop
| CallPlayTone (frequency : float)
| CallStopTone (frequency : float).

Record state : Type := {
  active_tones : Z;              (* uint8_t *)
  frequencies : list float;      (* float[AUDIO_TONE_STACKSIZE] *)
  playing_melody : bool;
  playing_note : bool;
  state_changed : bool;
  notes_pointer : song_ref;
  notes_count : Z;               (* uint16_t *)
  notes_repeat : bool;
  note_length : float;
  note_tempo : Z;                (* uint8_t *)
  current_note : Z;              (* uint16_t *)
  note_position : Z;             (* uint32_t *)
  note_resting : bool;
  click : list note;             (* float click[2][2] *)
  audio_initialized : bool;
  audio_enable : bool;           (* audio_config.enable *)
  vibrato : bool;                (* extern, owned by voices.c *)
  glissando : bool;              (* extern, owned by voices.c *)
  trace : list event             (* calls made so far, oldest first *)
}.

Definition set_active_tones (v : Z) (s : state) : state :=
  {| active_tones := v; frequencies := frequencies s; playing_melody := playing_melody s;
     playing_note := playing_note s; state_changed := state_changed s;
     notes_pointer := notes_pointer s; notes_count := notes_count s;
     notes_repeat := notes_repeat s; note_length := note_length s;
     note_tempo := note_tempo s; current_note := current_note s;
     note_position := note_position s; note_resting := note_resting s; click := click s;
     audio_initialized := audio_initialized s; audio_enable := audio_enable s;
     vibrato := vibrato s; glissando := glissando s; trace := trace s |}.

Definition set_frequencies (v : list float) (s : state) : state :=
  {| active_tones := active_tones s; frequencies := v; playing_melody := playing_melody s;
     playing_note := playing_note s; state_changed := state_changed s;
     notes_pointer := notes_pointer s; notes_count := notes_count s;
     notes_repeat := notes_repeat s; note_length := note_length s;
     note_tempo := note_tempo s; current_note := current_note s;
     note_position := note_position s; note_resting := note_resting s; click := click s;
     audio_initialized := audio_initialized s; audio_enable := audio_enable s;
     vibrato := vibrato s; glissando := glissando s; trace := trace s |}.

Definition set_playing_melody (v : bool) (s : state) : state :=
  {| active_tones := active_tones s; frequencies := frequencies s; playing_melody := v;
     playing_note := playing_note s; state_changed := state_changed s;
     notes_pointer := notes_pointer s; notes_count := notes_count s;
     notes_repeat := notes_repeat s; note_length := note_length s;
     note_tempo := note_tempo s; current_note := current_note s;
     note_position := note_position s; note_resting := note_resting s; click := click s;
     audio_initialized := audio_initialized s; audio_enable := audio_enable s;
     vibrato := vibrato s; glissando := glissando s; trace := trace s |}.

Definition set_playing_note (v : bool) (s : state) : state :=
  {| active_tones := active_tones s; frequencies := frequencies s;
     playing_melody := playing_melody s; playing_note := v; state_changed := state_changed s;
     notes_pointer := notes_pointer s; notes_count := notes_count s;
     notes_repeat := notes_repeat s; note_length := note_length s;
     note_tempo := note_tempo s; current_note := current_note s;
     note_position := note_position s; note_resting := note_resting s; click := click s;
     audio_initialized := audio_initialized s; audio_enable := audio_enable s;
     vibrato := vibrato s; glissando := glissando s; trace := trace s |}.

Definition set_state_changed (v : bool) (s : state) : state :=
  {| active_tones := active_tones s; frequencies := frequencies s;
     playing_melody := playing_melody s; playing_note := playing_note s; state_changed := v;
     notes_pointer := notes_pointer s; notes_count := notes_count s;
     notes_repeat := notes_repeat s; note_length := note_length s;
     note_tempo := note_tempo s; current_note := current_note s;
     note_position := note_position s; note_resting := note_resting s; click := click s;
     audio_initialized := audio_initialized s; audio_enable := audio_enable s;
     vibrato := vibrato s; glissando := glissando s; trace := trace s |}.

Definition set_notes_pointer (v : song_ref) (s : state) : state :=
  {| active_tones := active_tones s; frequencies := frequencies s;
     playing_melody := playing_melody s; playing_note := playing_note s;
     state_changed := state_changed s; notes_pointer := v; notes_count := notes_count s;
     notes_repeat := notes_repeat s; note_length := note_length s;
     note_tempo := note_tempo s; current_note := current_note s;
     note_position := note_position s; note_resting := note_resting s; click := click s;
     audio_initialized := audio_initialized s; audio_enable := audio_enable s;
     vibrato := vibrato s; glissando := glissando s; trace := trace s |}.

Definition set_notes_count (v : Z) (s : state) : state :=
  {| active_tones := active_tones s; frequencies := frequencies s;
     playing_melody := playing_melody s; playing_note := playing_note s;
     state_changed := state_changed s; notes_pointer := notes_pointer s; notes_count := v;
     notes_repeat := notes_repeat s; note_length := note_length s;
     note_tempo := note_tempo s; current_note := current_note s;
     note_position := note_position s; note_resting := note_resting s; click := click s;
     audio_initialized := audio_initialized s; audio_enable := audio_enable s;
     vibrato := vibrato s; glissando := glissando s; trace := trace s |}.

Definition set_notes_repeat (v : bool) (s : state) : state :=
  {| active_tones := active_tones s; frequencies := frequencies s;
     playing_melody := playing_melody s; playing_note := playing_note s;
     state_changed := state_changed s; notes_pointer := notes_pointer s;
     notes_count := notes_count s; notes_repeat := v; note_length := note_length s;
     note_tempo := note_tempo s; current_note := current_note s;
     note_position := note_position s; note_resting := note_resting s; click := click s;
     audio_initialized := audio_initialized s; audio_enable := audio_enable s;
     vibrato := vibrato s; glissando := glissando s; trace := trace s |}.

Definition set_note_length (v : float) (s : state) : state :=
  {| active_tones := active_tones s; frequencies := frequencies s;
     playing_melody := playing_melody s; playing_note := playing_note s;
     state_changed := state_changed s; notes_pointer := notes_pointer s;
     notes_count := notes_count s; notes_repeat := notes_repeat s; note_length := v;
     note_tempo := note_tempo s; current_note := current_note s;
     note_position := note_position s; note_resting := note_resting s; click := click s;
     audio_initialized := audio_initialized s; audio_enable := audio_enable s;
     vibrato := vibrato s; glissando := glissando s; trace := trace s |}.

Definition set_note_tempo (v : Z) (s : state) : state :=
  {| active_tones := active_tones s; frequencies := frequencies s;
     playing_melody := playing_melody s; playing_note := playing_note s;
     state_changed := state_changed s; notes_pointer := notes_pointer s;
     notes_count := notes_count s; notes_repeat := notes_repeat s;
     note_length := note_length s; note_tempo := v; current_note := current_note s;
     note_position := note_position s; note_resting := note_resting s; click := click s;
     audio_initialized := audio_initialized s; audio_enable := audio_enable s;
     vibrato := vibrato s; glissando := glissando s; trace := trace s |}.

Definition set_current_note (v : Z) (s : state) : state :=
  {| active_tones := active_tones s; frequencies := frequencies s;
     playing_melody := playing_melody s; playing_note := playing_note s;
     state_changed := state_changed s; notes_pointer := notes_pointer s;
     notes_count := notes_count s; notes_repeat := notes_repeat s;
     note_length := note_length s; note_tempo := note_tempo s; current_note := v;
     note_position := note_position s; note_resting := note_resting s; click := click s;
     audio_initialized := audio_initialized s; audio_enable := audio_enable s;
     vibrato := vibrato s; glissando := glissando s; trace := trace s |}.

Definition set_note_position (v : Z) (s : state) : state :=
  {| active_tones := active_tones s; frequencies := frequencies s;
     playing_melody := playing_melody s; playing_note := playing_note s;
     state_changed := state_changed s; notes_pointer := notes_pointer s;
     notes_count := notes_count s; notes_repeat := notes_repeat s;
     note_length := note_length s; note_tempo := note_tempo s;
     current_note := current_note s; note_position := v; note_resting := note_resting s;
     click := click s; audio_initialized := audio_initialized s;
     audio_enable := audio_enable s; vibrato := vibrato s; glissando := glissando s;
     trace := trace s |}.

Definition set_note_resting (v : bool) (s : state) : state :=
  {| active_tones := active_tones s; frequencies := frequencies s;
     playing_melody := playing_melody s; playing_note := playing_note s;
     state_changed := state_changed s; notes_pointer := notes_pointer s;
     notes_count := notes_count s; notes_repeat := notes_repeat s;
     note_length := note_length s; note_tempo := note_tempo s;
     current_note := current_note s; note_position := note_position s; note_resting := v;
     click := click s; audio_initialized := audio_initialized s;
     audio_enable := audio_enable s; vibrato := vibrato s; glissando := glissando s;
     trace := trace s |}.

Definition set_click (v : list note) (s : state) : state :=
  {| active_tones := active_tones s; frequencies := frequencies s;
     playing_melody := playing_melody s; playing_note := playing_note s;
     state_changed := state_changed s; notes_pointer := notes_pointer s;
     notes_count := notes_count s; notes_repeat := notes_repeat s;
     note_length := note_length s; note_tempo := note_tempo s;
     current_note := current_note s; note_position := note_position s;
     note_resting := note_resting s; click := v; audio_initialized := audio_initialized s;
     audio_enable := audio_enable s; vibrato := vibrato s; glissando := glissando s;
     trace := trace s |}.

Definition set_audio_initialized (v : bool) (s : state) : state :=
  {| active_tones := active_tones s; frequencies := frequencies s;
     playing_melody := playing_melody s; playing_note := playing_note s;
     state_changed := state_changed s; notes_pointer := notes_pointer s;
     notes_count := notes_count s; notes_repeat := notes_repeat s;
     note_length := note_length s; note_tempo := note_tempo s;
     current_note := current_note s; note_position := note_position s;
     note_resting := note_resting s; click := click s; audio_initialized := v;
     audio_enable := audio_enable s; vibrato := vibrato s; glissando := glissando s;
     trace := trace s |}.

Definition set_audio_enable (v : bool) (s : state) : state :=
  {| active_tones := active_tones s; frequencies := frequencies s;
     playing_melody := playing_melody s; playing_note := playing_note s;
     state_changed := state_changed s; notes_pointer := notes_pointer s;
     notes_count := notes_count s; notes_repeat := notes_repeat s;
     note_length := note_length s; note_tempo := note_tempo s;
     current_note := current_note s; note_position := note_position s;
     note_resting := note_resting s; click := click s;
     audio_initialized := audio_initialized s; audio_enable := v; vibrato := vibrato s;
     glissando := glissando s; trace := trace s |}.

Definition set_trace (v : list event) (s : state) : state :=
  {| active_tones := active_tones s; frequencies := frequencies s;
     playing_melody := playing_melody s; playing_note := playing_note s;
     state_changed := state_changed s; notes_pointer := notes_pointer s;
     notes_count := notes_count s; notes_repeat := notes_repeat s;
     note_length := note_length s; note_tempo := note_tempo s;
     current_note := current_note s; note_position := note_position s;
     note_resting := note_resting s; click := click s;
     audio_initialized := audio_initialized s; audio_enable := audio_enable s;
     vibrato := vibrato s; glissando := glissando s; trace := v |}.

Definition emit (e : event) (s : state) : state := set_trace (trace s ++ [e]) s.

(** The array [notes_pointer] points to, and the frequency and the duration
    of its [i]-th note (cells [0] and [1] of row [i]). *)
Definition song (s : state) : list note :=
  match notes_pointer s with
  | NullSong => []
  | ClickSong => click s
  | Song l => l
  end.

Definition note_frequency (s : state) (i : Z) : float := fst (song s !!! Z.to_nat i).
Definition note_duration (s : state) (i : Z) : float := snd (song s !!! Z.to_nat i).

(** ** Loops over [frequencies] *)

(** [for (int i = n - 1; i >= 0; i--) { found = (frequencies[i] == frequency);
    if (found) break; }]: the index at which the loop breaks, if it does. *)
Fixpoint scan_down (fr : list float) (frequency : float) (n : nat) : option nat :=
  match n with
  | O => None
  | S i => if F32.eqb (fr !!! i) frequency then Some i else scan_down fr frequency i
  end.

(** [for (int j = i; j < i + count; j++) { frequencies[j] = frequencies[j + 1];
    frequencies[j + 1] = x; }] *)
Fixpoint shift_loop (count : nat) (j : nat) (x : float) (fr : list float) : list float :=
  match count with
  | O => fr
  | S c => shift_loop c (S j) x (<[S j := x]> (<[j := fr !!! S j]> fr))
  end.

(** [for (int i = i0; i < i0 + count; i++) { frequencies[i] = frequencies[i + 1]; }] *)
Fixpoint evict_loop (count : nat) (i : nat) (fr : list float) : list float :=
  match count with
  | O => fr
  | S c => evict_loop c (S i) (<[i := fr !!! S i]> fr)
  end.

(** [for (uint8_t i = i0; i < i0 + count; i++) { frequencies[i] = -1.0f; }] *)
Fixpoint clear_loop (count : nat) (i : nat) (fr : list float) : list float :=
  match count with
  | O => fr
  | S c => clear_loop c (S i) (<[i := F32.minus_one]> fr)
  end.

(** [if (frequency < 0.0f) frequency = -1 * frequency;] *)
Definition normalize (frequency : float) : float :=
  if F32.ltb frequency F32.zero then F32.mul (F32.of_int (-1)) frequency else frequency.

(** [frequencies[i] = x] for an [int] index. *)
Definition store (fr : list float) (i : Z) (x : float) : list float :=
  if i <? 0 then fr else <[Z.to_nat i := x]> fr.

(** ** The functions of audio.c *)

Section Functions.

(** [audio_init] is reached from the other functions, and calls
    [audio_play_melody] itself.  The functions are first written over what a
    nested call of [audio_init] does. *)
Variable init : state -> state.

Definition ensure_init (s : state) : state :=
  if audio_initialized s then s else init s.

Definition stop_all_ (s : state) : state :=
  let s := ensure_init s in
  let s := set_active_tones 0 s in
  let s := emit DriverStop s in
  let s := set_playing_melody false s in
  let s := set_playing_note false s in
  set_frequencies (clear_loop AUDIO_TONE_STACKSIZE 0 (frequencies s)) s.

Definition stop_tone_ (frequency : float) (s : state) : state :=
  let s := emit (CallStopTone frequency) s in
  let frequency := normalize frequency in
  if playing_note s then
    let s := ensure_init s in
    match scan_down (frequencies s) frequency AUDIO_TONE_STACKSIZE with
    | None => s
    | Some i =>
        let fr := <[i := F32.minus_one]> (frequencies s) in
        let fr := shift_loop (AUDIO_TONE_STACKSIZE - 1 - i) i F32.minus_one fr in
        let s := set_frequencies fr s in
        let s := set_state_changed true s in
        let s := set_active_tones (wrap8 (active_tones s - 1)) s in
        let s := if active_tones s <? 0 then set_active_tones 0 s else s in
        if active_tones s =? 0
        then set_playing_note false (emit DriverStop s)
        else s
    end
  else s.

Definition play_tone_ (frequency : float) (s : state) : state :=
  let s := emit (CallPlayTone frequency) s in
  if negb (audio_enable s) then s else
  let s := ensure_init s in
  let frequency := normalize frequency in
  match scan_down (frequencies s) frequency (Z.to_nat (active_tones s)) with
  | Some i =>
      set_frequencies
        (shift_loop (Z.to_nat (active_tones s) - 1 - i) i frequency (frequencies s)) s
  | None =>
      let s := set_active_tones (wrap8 (active_tones s + 1)) s in
      let s :=
        if Z.of_nat AUDIO_TONE_STACKSIZE <? active_tones s then
          let s := set_active_tones (Z.of_nat AUDIO_TONE_STACKSIZE) s in
          set_frequencies (evict_loop (Z.to_nat (active_tones s) - 1) 0 (frequencies s)) s
        else s in
      let s := set_state_changed true s in
      let s := set_playing_note true s in
      let s := set_frequencies (store (frequencies s) (active_tones s - 1) frequency) s in
      if active_tones s =? 1 then emit DriverStart s else s
  end.

Definition play_melody_ (np : song_ref) (n_count : Z) (n_repeat : bool) (s : state)
  : state :=
  if negb (audio_enable s) then s else
  let s := ensure_init s in
  let s := if playing_note s then stop_all_ s else s in
  let s := set_playing_melody true s in
  let s := set_note_resting false s in
  let s := set_notes_pointer np s in
  let s := set_notes_count n_count s in
  let s := set_notes_repeat n_repeat s in
  let s := set_current_note 0 s in
  let s :=
    set_note_length
      (F32.mul (note_duration s (current_note s))
               (F32.div (F32.of_int 60) (F32.of_int (note_tempo s)))) s in
  let s := set_note_position 0 s in
  play_tone_ (note_frequency s (current_note s)) s.

End Functions.

(** What the file takes from its headers and its platform: the notes of
    [STARTUP_SONG], the value [audio_init] finds for [audio_config.enable]
    (read from the EEPROM where there is one, [true] otherwise), and
    [TEMPO_DEFAULT]. *)
Class platform : Type := {
  STARTUP_SONG : list note;
  stored_enable : bool;
  TEMPO_DEFAULT : Z
}.

Section Platform.

Context `{platform}.

(** [PLAY_SONG(startup_song)] runs with [audio_initialized] set, so every
    [audio_init] below it returns at once. *)
Definition audio_init (s : state) : state :=
  if audio_initialized s then s else
  let s := set_audio_enable stored_enable s in
  let s :=
    if negb (audio_initialized s)
    then set_audio_initialized true (emit DriverInitialize s)
    else s in
  if audio_enable s
  then play_melody_ (fun s' => s') (Song STARTUP_SONG)
                    (wrap16 (Z.of_nat (length STARTUP_SONG))) false s
  else s.

Definition audio_stop_all : state -> state := stop_all_ audio_init.
Definition audio_stop_tone : float -> state -> state := stop_tone_ audio_init.
Definition audio_play_tone : float -> state -> state := play_tone_ audio_init.
Definition audio_play_melody : song_ref -> Z -> bool -> state -> state :=
  play_melody_ audio_init.

Definition audio_play_click (delay : Z) (frequency : float) (duration : Z) (s : state)
  : state :=
  let duration_tone :=
    F32.mul (F32.of_int (64 ÷ 60 * note_tempo s))
            (F32.div (F32.of_int duration) (F32.of_int 1000)) in
  let duration_delay :=
    F32.mul (F32.of_int (64 ÷ 60 * note_tempo s))
            (F32.div (F32.of_int delay) (F32.of_int 1000)) in
  if F32.leb (F32.of_int delay) F32.zero then
    let s := set_click [(frequency, duration_tone); (F32.zero, F32.zero)] s in
    audio_play_melody ClickSong 1 false s
  else
    let s := set_click [(F32.zero, duration_delay); (frequency, duration_tone)] s in
    audio_play_melody ClickSong 2 false s.

Definition audio_is_playing_note (s : state) : bool := playing_note s.
Definition audio_is_playing_melody (s : state) : bool := playing_melody s.
Definition audio_get_number_of_active_tones (s : state) : Z := active_tones s.

Definition audio_get_frequency (tone_index : Z) (s : state) : float :=
  if active_tones s <=? tone_index then F32.zero
  else frequencies s !!! Z.to_nat (active_tones s - tone_index - 1).

(** *** audio_advance_state *)

(** The melody block either leaves the function ([return true]) or falls
    through with the current [goto_next_note]. *)
Inductive outcome : Type :=
| Return (r : bool) (s : state)
| Continue (goto_next_note : bool) (s : state).

(** [60.0f / note_tempo] *)
Definition tempo_scale (s : state) : float :=
  F32.div (F32.of_int 60) (F32.of_int (note_tempo s)).

(** [note_position = note_position - (note_length * end)] *)
Definition carry_overshoot (end_ : float) (s : state) : state :=
  set_note_position
    (to_uint32 (F32.sub (F32.of_int (note_position s)) (F32.mul (note_length s) end_))) s.

Definition note_stage (s : state) : bool :=
  if playing_note s then (if vibrato s || glissando s then true else false) else false.

Definition melody_stage (step : Z) (end_ : float) (goto_next_note : bool) (s : state)
  : outcome :=
  if playing_melody s then
    let s := set_note_position (wrap32 (note_position s + step)) s in
    let goto_next_note :=
      F32.geb (F32.of_int (note_position s)) (F32.mul (note_length s) end_) in
    if goto_next_note then
      let previous_note := current_note s in
      let s := set_current_note (wrap16 (current_note s + 1)) s in
      if (notes_count s <=? current_note s) && negb (notes_repeat s) then
        let s := set_playing_melody false s in
        Return true (audio_stop_tone (note_frequency s previous_note) s)
      else
        let s := if notes_count s <=? current_note s then set_current_note 0 s else s in
        if negb (note_resting s)
           && F32.eqb (note_frequency s previous_note) (note_frequency s (current_note s))
        then
          let s := set_note_resting true s in
          let s := set_current_note previous_note s in
          let shortRest : note := (F32.zero, F32.of_int 2) in
          let s := audio_play_tone (fst shortRest) s in
          let s := audio_stop_tone (note_frequency s previous_note) s in
          let s := carry_overshoot end_ s in
          let s := set_note_length (F32.mul (snd shortRest) (tempo_scale s)) s in
          Continue goto_next_note s
        else
          let s := set_note_resting false s in
          let s := audio_play_tone (note_frequency s (current_note s)) s in
          let s :=
            if negb (F32.eqb (note_frequency s previous_note)
                             (note_frequency s (current_note s)))
            then audio_stop_tone (note_frequency s previous_note) s
            else s in
          let s := carry_overshoot end_ s in
          let s :=
            set_note_length
              (F32.mul (note_duration s (current_note s)) (tempo_scale s)) s in
          Continue goto_next_note s
    else Continue goto_next_note s
  else Continue goto_next_note s.

Definition idle_stage (s : state) : state :=
  if negb (playing_note s) && negb (playing_melody s) then audio_stop_all s else s.

Definition latch_stage (goto_next_note : bool) (s : state) : bool * state :=
  if state_changed s then (true, set_state_changed false s) else (goto_next_note, s).

Definition audio_advance_state (step : Z) (end_ : float) (s : state) : bool * state :=
  match melody_stage step end_ (note_stage s) s with
  | Return r s' => (r, s')
  | Continue goto_next_note s' => latch_stage goto_next_note (idle_stage s')
  end.

(** *** Tempo *)

Definition audio_set_tempo (tempo : Z) (s : state) : state :=
  if tempo <? 10 then set_note_tempo 10 s else set_note_tempo tempo s.

Definition audio_increase_tempo (tempo_change : Z) (s : state) : state :=
  if 255 - note_tempo s <? tempo_change
  then set_note_tempo 255 s
  else set_note_tempo (wrap8 (note_tempo s + tempo_change)) s.

Definition audio_decrease_tempo (tempo_change : Z) (s : state) : state :=
  if note_tempo s - 10 <=? tempo_change
  then set_note_tempo 10 s
  else set_note_tempo (wrap8 (note_tempo s - tempo_change)) s.

(** *** The state before any call *)

(** [float frequencies[AUDIO_TONE_STACKSIZE] = {-1.0}] sets the first cell;
    the others are zero, like every other global without an initializer. *)
Definition initial_state : state :=
  {| active_tones := 0;
     frequencies := F32.minus_one :: replicate (AUDIO_TONE_STACKSIZE - 1) F32.zero;
     playing_melody := false;
     playing_note := false;
     state_changed := false;
     notes_pointer := NullSong;
     notes_count := 0;
     notes_repeat := false;
     note_length := F32.zero;
     note_tempo := wrap8 TEMPO_DEFAULT;
     current_note := 0;
     note_position := 0;
     note_resting := false;
     click := replicate 2 (F32.zero, F32.zero);
     audio_initialized := false;
     audio_enable := false;
     vibrato := false;
     glissando := false;
     trace := [] |}.

(** A run of ticks: [audio_advance_state] once per [(step, end)]. *)
Definition tick (t : Z * float) (s : state) : state :=
  snd (audio_advance_state (fst t) (snd t) s).

Definition run_ticks (ts : list (Z * float)) (s : state) : state :=
  fold_left (fun s t => tick t s) ts s.

End Platform.
(** ** The switch functions and the processed frequency *)

(** C [double], and its conversion to [float]. *)
Module F64.

Definition prec : Z := 53.
Definition emax : Z := 1024.

Definition mul : spec_float -> spec_float -> spec_float := SFmul prec emax.
Definition of_int (z : Z) : spec_float := binary_normalize prec emax z 0 false.

Definition to_float (d : spec_float) : float :=
  match d with
  | S754_finite s m e => binary_round F32.prec F32.emax s m e
  | _ => d
  end.

End F64.

(** Conversion of an [int] to [int8_t] (the wrap-around of gcc). *)
Definition to_int8 (z : Z) : Z := (z + 128) mod 256 - 128.

(** What [audio_get_processed_frequency] takes from voices.c and math.h:
    [voice_envelope], which has variables of its own, and [pow]. *)
Class voices : Type := {
  voices_state : Type;
  voice_envelope : float -> voices_state -> float * voices_state;
  pow : spec_float -> spec_float -> spec_float
}.

(** The variables of the file together with what [eeconfig_update_audio]
    has written: the enable bit of each value, oldest first.  On a platform
    with an EEPROM [audio_init] reads the bit back; [stored_enable] is what
    it finds at power-up, so the switch functions are looked at on an
    initialized subsystem, where [audio_init] reads nothing any more. *)
Record board_state : Type := {
  audio : state;
  eeprom_audio : list bool
}.

(** What the switch functions take from the keyboard: the notes of
    [AUDIO_ON_SONG] and [AUDIO_OFF_SONG], and the hook [audio_on_user]. *)
Class board : Type := {
  AUDIO_ON_SONG : list note;
  AUDIO_OFF_SONG : list note;
  audio_on_user : board_state -> board_state
}.

Section Switch.

Context `{platform} `{voices} `{board}.

(** [pow(2, c / x / 12 / 2)] for an [int] constant [c] and a [float] [x]. *)
Definition glide (c : Z) (x : float) : spec_float :=
  pow (F64.of_int 2)
      (F32.div (F32.div (F32.div (F32.of_int c) x) (F32.of_int 12)) (F32.of_int 2)).

(** A negative [index] is outside the array in C; the model reads cell 0
    then. *)
Definition audio_get_processed_frequency (tone_index : Z) (s : state) (vs : voices_state)
  : float * voices_state :=
  let frequency := F32.zero in
  if active_tones s <=? tone_index then (F32.zero, vs) else
  let index := to_int8 (active_tones s - tone_index - 1) in
  if F32.leb (frequencies s !!! Z.to_nat index) F32.zero then (F32.zero, vs) else
  let frequency :=
    if glissando s then
      if negb (F32.eqb frequency (F32.of_int 0))
         && F32.ltb frequency (frequencies s !!! Z.to_nat index)
         && SFltb frequency
              (F64.mul (frequencies s !!! Z.to_nat index)
                       (glide (-440) (frequencies s !!! Z.to_nat index)))
      then F64.to_float (F64.mul frequency (glide 440 frequency))
      else if negb (F32.eqb frequency (F32.of_int 0))
              && F32.ltb (frequencies s !!! Z.to_nat index) frequency
              && SFltb (F64.mul (frequencies s !!! Z.to_nat index)
                                (glide 440 (frequencies s !!! Z.to_nat index)))
                       frequency
      then F64.to_float (F64.mul frequency (glide (-440) frequency))
      else frequencies s !!! Z.to_nat index
    else frequencies s !!! Z.to_nat index in
  voice_envelope frequency vs.

(** [PLAY_SONG(song)] *)
Definition PLAY_SONG (notes : list note) (s : state) : state :=
  audio_play_melody (Song notes) (wrap16 (Z.of_nat (length notes))) false s.

Definition with_audio (f : state -> state) (b : board_state) : board_state :=
  {| audio := f (audio b); eeprom_audio := eeprom_audio b |}.

(** [eeconfig_update_audio(audio_config.raw)] *)
Definition eeconfig_update_audio (b : board_state) : board_state :=
  {| audio := audio b; eeprom_audio := eeprom_audio b ++ [audio_enable (audio b)] |}.

Definition audio_toggle (b : board_state) : board_state :=
  let b := with_audio (fun s => set_audio_enable (xorb (audio_enable s) true) s) b in
  let b := eeconfig_update_audio b in
  if audio_enable (audio b) then audio_on_user b else b.

Definition audio_on (b : board_state) : board_state :=
  let b := with_audio (set_audio_enable true) b in
  let b := eeconfig_update_audio b in
  let b := audio_on_user b in
  with_audio (PLAY_SONG AUDIO_ON_SONG) b.

(** [wait_ms(100)] lets the timer of the driver run: [ticks] are the calls
    of [audio_advance_state] it makes meanwhile. *)
Definition audio_off (ticks : list (Z * float)) (b : board_state) : board_state :=
  let b := with_audio (PLAY_SONG AUDIO_OFF_SONG) b in
  let b := with_audio (run_ticks ticks) b in
  let b := with_audio audio_stop_all b in
  let b := with_audio (set_audio_enable false) b in
  eeconfig_update_audio b.

Definition audio_is_on (b : board_state) : bool := audio_enable (audio b).

End Switch.

(** * The vocabulary of the properties *)

(** ** [==] on binary32 *)

(** What [==] compares: the two zeros are one value, a NaN is none. *)
Inductive fclass : Type :=
| CZero
| CInf (s : bool)
| CFin (s : bool) (m : positive) (e : Z).

Definition class_of (f : float) : option fclass :=
  match f with
  | S754_zero _ => Some CZero
  | S754_infinity s => Some (CInf s)
  | S754_nan => None
  | S754_finite s m e => Some (CFin s m e)
  end.

(** ** The tone stack *)

(** The active tones, oldest first: the first [active_tones] cells. *)
Definition stack (s : state) : list float :=
  take (Z.to_nat (active_tones s)) (frequencies s).

(** No two cells compare equal with [==]. *)
Fixpoint distinct (l : list float) : Prop :=
  match l with
  | [] => True
  | x :: l' => Forall (fun y => F32.eqb x y = false) l' /\ distinct l'
  end.

(** Whether [f] is among the active tones, as [audio_play_tone] looks for it. *)
Definition is_active (f : float) (s : state) : bool :=
  existsb (fun y => F32.eqb y (normalize f)) (stack s).

(** The bodies of the tone functions, past their guards. *)

(** [audio_play_tone] from the search loop on, [frequency] normalized. *)
Definition request_tone (frequency : float) (s : state) : state :=
  match scan_down (frequencies s) frequency (Z.to_nat (active_tones s)) with
  | Some i =>
      set_frequencies
        (shift_loop (Z.to_nat (active_tones s) - 1 - i) i frequency (frequencies s)) s
  | None =>
      let s := set_active_tones (wrap8 (active_tones s + 1)) s in
      let s :=
        if Z.of_nat AUDIO_TONE_STACKSIZE <? active_tones s then
          let s := set_active_tones (Z.of_nat AUDIO_TONE_STACKSIZE) s in
          set_frequencies (evict_loop (Z.to_nat (active_tones s) - 1) 0 (frequencies s)) s
        else s in
      let s := set_state_changed true s in
      let s := set_playing_note true s in
      let s := set_frequencies (store (frequencies s) (active_tones s - 1) frequency) s in
      if active_tones s =? 1 then emit DriverStart s else s
  end.

(** [audio_stop_tone] from the search loop on, [frequency] normalized. *)
Definition release_tone (frequency : float) (s : state) : state :=
  match scan_down (frequencies s) frequency AUDIO_TONE_STACKSIZE with
  | None => s
  | Some i =>
      let fr := <[i := F32.minus_one]> (frequencies s) in
      let fr := shift_loop (AUDIO_TONE_STACKSIZE - 1 - i) i F32.minus_one fr in
      let s := set_frequencies fr s in
      let s := set_state_changed true s in
      let s := set_active_tones (wrap8 (active_tones s - 1)) s in
      let s := if active_tones s <? 0 then set_active_tones 0 s else s in
      if active_tones s =? 0
      then set_playing_note false (emit DriverStop s)
      else s
  end.

(** [audio_stop_all] past its guard. *)
Definition silence (s : state) : state :=
  let s := set_active_tones 0 s in
  let s := emit DriverStop s in
  let s := set_playing_melody false s in
  let s := set_playing_note false s in
  set_frequencies (clear_loop AUDIO_TONE_STACKSIZE 0 (frequencies s)) s.

(** The invariant of the tone stack: the array has its eight cells, the
    count stays within them, no two active tones compare equal,
    [playing_note] tells whether a tone is active, and tones are only active
    on an initialized subsystem. *)
Record tone_inv (s : state) : Prop := {
  inv_length : length (frequencies s) = AUDIO_TONE_STACKSIZE;
  inv_count : 0 <= active_tones s <= Z.of_nat AUDIO_TONE_STACKSIZE;
  inv_distinct : distinct (stack s);
  inv_playing : playing_note s = (1 <=? active_tones s);
  inv_live : playing_note s = true -> audio_initialized s = true
}.

(** ** The sequencer *)

(** The sequencer and configuration variables. *)
Definition sequencer (s : state) :=
  (playing_melody s, notes_pointer s, notes_count s, notes_repeat s, note_length s,
   note_tempo s, current_note s, note_position s, note_resting s, click s,
   audio_initialized s, audio_enable s, vibrato s, glissando s).

(** The state the melody block leaves, on either way out. *)
Definition outcome_state (o : outcome) : state :=
  match o with Return _ s | Continue _ s => s end.

(** The state once [note_position += step] is done, the test
    [note_position >= (note_length * end)] that follows, and the state once
    [current_note++] is done. *)
Definition stepped (step : Z) (s : state) : state :=
  set_note_position (wrap32 (note_position s + step)) s.

Definition note_over (step : Z) (end_ : float) (s : state) : bool :=
  F32.geb (F32.of_int (note_position (stepped step s)))
          (F32.mul (note_length (stepped step s)) end_).

Definition advanced (step : Z) (s : state) : state :=
  set_current_note (wrap16 (current_note s + 1)) (stepped step s).

(** The call on which the melody block returns: a melody plays, its current
    note is over, that note is the last one, and the melody does not
    repeat. *)
Definition melody_ends (step : Z) (end_ : float) (s : state) : bool :=
  playing_melody s && note_over step end_ s
  && (notes_count s <=? current_note (advanced step s)) && negb (notes_repeat s).

(** The same test and the carried overshoot, on the values. *)
Definition over (nl : float) (pos step : Z) (end_ : float) : bool :=
  F32.geb (F32.of_int (wrap32 (pos + step))) (F32.mul nl end_).

Definition carried (nl : float) (pos step : Z) (end_ : float) : Z :=
  to_uint32 (F32.sub (F32.of_int (wrap32 (pos + step))) (F32.mul nl end_)).

(** [60.0f / note_tempo] at tempo [T]. *)
Definition scale (T : Z) : float := F32.div (F32.of_int 60) (F32.of_int T).

(** An initialized, enabled subsystem with the song [notes] installed. *)
Definition mk (notes : list note) (count : Z) (rep : bool) (T : Z) (ck : list note)
    (v g : bool) (a : Z) (fr : list float) (pm pn chg : bool) (nl : float)
    (cur pos : Z) (rest : bool) (tr : list event) : state :=
  {| active_tones := a; frequencies := fr; playing_melody := pm; playing_note := pn;
     state_changed := chg; notes_pointer := Song notes; notes_count := count;
     notes_repeat := rep; note_length := nl; note_tempo := T; current_note := cur;
     note_position := pos; note_resting := rest; click := ck;
     audio_initialized := true; audio_enable := true; vibrato := v; glissando := g;
     trace := tr |}.

(** The frequency of note [i] of [notes]. *)
Definition pitch (notes : list note) (i : Z) : float := fst (notes !!! Z.to_nat i).

(** The frequencies [audio_play_tone] and [audio_stop_tone] were called with. *)
Definition requested (evs : list event) : list float :=
  omap (fun e => match e with CallPlayTone x => Some x | _ => None end) evs.

Definition released (evs : list event) : list float :=
  omap (fun e => match e with CallStopTone x => Some x | _ => None end) evs.

(** ** Calls of the public functions *)

Inductive call : Type :=
| Init
| StopAll
| StopTone (frequency : float)
| PlayTone (frequency : float)
| PlayMelody (np : song_ref) (n_count : Z) (n_repeat : bool)
| PlayClick (delay : Z) (frequency : float) (duration : Z)
| AdvanceState (step : Z) (end_ : float)
| SetTempo (tempo : Z)
| IncreaseTempo (tempo_change : Z)
| DecreaseTempo (tempo_change : Z).

Section Vocabulary.

Context `{platform}.

(** A run of [audio_play_tone] calls. *)
Definition play_tones (fs : list float) (s : state) : state :=
  fold_left (fun s f => audio_play_tone f s) fs s.

Definition exec (c : call) (s : state) : state :=
  match c with
  | Init => audio_init s
  | StopAll => audio_stop_all s
  | StopTone f => audio_stop_tone f s
  | PlayTone f => audio_play_tone f s
  | PlayMelody np n r => audio_play_melody np n r s
  | PlayClick delay f duration => audio_play_click delay f duration s
  | AdvanceState step end_ => snd (audio_advance_state step end_ s)
  | SetTempo t => audio_set_tempo t s
  | IncreaseTempo t => audio_increase_tempo t s
  | DecreaseTempo t => audio_decrease_tempo t s
  end.

Definition run (cs : list call) (s : state) : state :=
  fold_left (fun s c => exec c s) cs s.

End Vocabulary.

(** ** Two notes of one pitch *)

(** The cells past the stack hold no value that compares equal to the
    (normalized) frequency [f]. *)
Definition free_tail (f : float) (tl : list float) : Prop :=
  length tl = 7%nat /\ Forall (fun x => F32.eqb x (normalize f) = false) tl.

(** A subsystem on which a melody of pitch [f] can be started: enabled,
    initialized, the invariant holds and, when no tone is active (so that
    [audio_play_melody] does not call [audio_stop_all]), no stale cell
    compares equal to [f]. *)
Definition ready (f : float) (s : state) : Prop :=
  audio_enable s = true /\ audio_initialized s = true /\ tone_inv s
  /\ (playing_note s = false -> free_tail f (drop 1 (frequencies s))).

(** Where the sequencer is in a melody of two notes of one pitch: on the
    first note, on the inserted rest, on the second note, past the end. *)
Inductive phase : Type := First | Rest | Second | Done.

(** What the sequencer has called from the start of the first note on. *)
Definition phase_events (f : float) (p : phase) : list event :=
  match p with
  | First => []
  | Rest => [CallPlayTone F32.zero; CallStopTone f]
  | Second => [CallPlayTone F32.zero; CallStopTone f; CallPlayTone f]
  | Done => [CallPlayTone F32.zero; CallStopTone f; CallPlayTone f; CallStopTone f]
  end.

(** The state in each phase of the melody [(f, d1), (f, d2)] at tempo [T];
    [tr0] is the trace at the start of the first note and [tl] what the
    cells 1 to 7 held then. *)
Definition phase_state (f d1 d2 : float) (T : Z) (ck : list note) (v g : bool)
    (tr0 : list event) (tl : list float) (p : phase) (pos : Z) (chg : bool) : state :=
  let st := mk [(f, d1); (f, d2)] 2 false T ck v g in
  match p with
  | First =>
      st 1 (normalize f :: tl) true true chg
         (F32.mul d1 (scale T)) 0 pos false tr0
  | Rest =>
      st 1 (F32.zero :: drop 1 tl ++ [F32.minus_one]) true true chg
         (F32.mul (F32.of_int 2) (scale T)) 0 pos true
         (tr0 ++ [CallPlayTone F32.zero; CallStopTone f])
  | Second =>
      st 2 (F32.zero :: normalize f :: drop 2 tl ++ [F32.minus_one]) true true chg
         (F32.mul d2 (scale T)) 1 pos false
         (tr0 ++ [CallPlayTone F32.zero; CallStopTone f; CallPlayTone f])
  | Done =>
      st 1 (F32.zero :: drop 2 tl ++ [F32.minus_one; F32.minus_one]) false true chg
         (F32.mul d2 (scale T)) 2 pos false
         (tr0 ++ [CallPlayTone F32.zero; CallStopTone f; CallPlayTone f; CallStopTone f])
  end.

(** The phase after a tick, and where the sequencer is in the note then. *)
Definition next_phase (d1 d2 : float) (T : Z) (p : phase) (pos : Z) (t : Z * float)
  : phase * Z :=
  let nl := match p with
            | First => F32.mul d1 (scale T)
            | Rest => F32.mul (F32.of_int 2) (scale T)
            | _ => F32.mul d2 (scale T)
            end in
  match p with
  | Done => (Done, pos)
  | _ =>
      if over nl pos (fst t) (snd t) then
        match p with
        | First => (Rest, carried nl pos (fst t) (snd t))
        | Rest => (Second, carried nl pos (fst t) (snd t))
        | _ => (Done, wrap32 (pos + fst t))
        end
      else (p, wrap32 (pos + fst t))
  end.

Definition run_phases (d1 d2 : float) (T : Z) (ts : list (Z * float)) (p : phase) (pos : Z)
  : phase * Z :=
  fold_left (fun q t => next_phase d1 d2 T (fst q) (snd q) t) ts (p, pos).

(** The melody of C2: the note 440 Hz of duration 4, twice. *)
Definition same_note_twice : list note :=
  [(F32.of_int 440, F32.of_int 4); (F32.of_int 440, F32.of_int 4)].

(** ** The length of a melody *)

(** The binary32 value of a whole number [q] from 1 to [2^24 - 1]: the
    mantissa is [q] shifted to the left until it has its 24 bits, [width q]
    being the number of bits of [q]. *)
Definition width (q : Z) : Z := Z.pos (digits2_pos (Z.to_pos q)).

Definition whole (q : Z) : float :=
  S754_finite false (Z.to_pos (q * 2 ^ (24 - width q))) (width q - 24).

(** The sum of a list of step sizes or note lengths. *)
Definition total (l : list Z) : Z := foldr Z.add 0 l.

(** The sequencer is [pos] time units into note [i] of the melody [notes],
    whose notes last [Ls] time units at tempo [T]. *)
Definition playing_at (notes : list note) (Ls : list Z) (T : Z) (i : nat) (pos : Z)
    (s : state) : Prop :=
  sequencer s
  = (true, Song notes, Z.of_nat (length notes), false, F32.of_int (Ls !!! i), T,
     Z.of_nat i, pos, false, click s, true, true, vibrato s, glissando s).

(** The melody is over. *)
Definition finished (s : state) : Prop :=
  audio_initialized s = true /\ playing_melody s = false.

(** After ticks that sum to [e] the sequencer is [e] time units into the
    melody, or the melody is over and [e] is its length or more. *)
Definition elapsed (notes : list note) (Ls : list Z) (T : Z) (e : Z) (s : state) : Prop :=
  (exists i pos, (i < length notes)%nat /\ 0 <= pos < Ls !!! i
                 /\ e = total (take i Ls) + pos /\ playing_at notes Ls T i pos s)
  \/ (total Ls <= e /\ finished s).

(** ** The calls to the driver *)

(** Whether the driver runs after the calls of [tr]: the last of
    [audio_driver_start] and [audio_driver_stop] decides. *)
Definition running (tr : list event) : bool :=
  fold_left (fun r e => match e with DriverStart => true | DriverStop => false | _ => r end)
            tr false.

(** The number of calls of [audio_driver_initialize]. *)
Definition initializations (tr : list event) : nat :=
  fold_left (fun n e => match e with DriverInitialize => S n | _ => n end) tr 0%nat.

Definition is_driver_call (e : event) : bool :=
  match e with
  | DriverInitialize | DriverStart | DriverStop => true
  | CallPlayTone _ | CallStopTone _ => false
  end.

(** The first call to the driver. *)
Definition first_driver_call (tr : list event) : option event := find is_driver_call tr.

(** The tone stack and the driver agree: the driver runs exactly while a
    note plays, and it was initialized once, before any other call to it,
    exactly when [audio_initialized] is set. *)
Record driver_inv (s : state) : Prop := {
  drv_tone : tone_inv s;
  drv_running : running (trace s) = playing_note s;
  drv_init : initializations (trace s) = if audio_initialized s then 1%nat else 0%nat;
  drv_first :
    first_driver_call (trace s)
    = if audio_initialized s then Some DriverInitialize else None
}.

(** The number of calls of [audio_driver_start]. *)
Definition starts (tr : list event) : nat :=
  fold_left (fun n e => match e with DriverStart => S n | _ => n end) tr 0%nat.

(** ** The place in the song *)

(** The variables that say which song plays and where in it. *)
Definition cursor (s : state) :=
  (audio_initialized s, playing_melody s, notes_pointer s, notes_count s,
   notes_repeat s, current_note s).

(** The song [np] of [n] notes is installed; while it plays the current
    note is one of its notes, and it plays on when it repeats. *)
Definition in_song (np : song_ref) (n : Z) (r : bool) (s : state) : Prop :=
  audio_initialized s = true
  /\ notes_pointer s = np /\ notes_count s = n /\ notes_repeat s = r
  /\ (playing_melody s = true -> 0 <= current_note s < n)
  /\ (r = true -> playing_melody s = true).

(** ** A switched-off subsystem *)

(** Initialized, disabled, and nothing plays. *)
Definition switched_off (s : state) : Prop :=
  audio_initialized s = true /\ audio_enable s = false
  /\ playing_note s = false /\ playing_melody s = false /\ active_tones s = 0.

(** What a call may do to a disabled, initialized subsystem: the stack
    loses tones at most, [audio_driver_start] is not called, and no melody
    starts. *)
Record quieter (s s' : state) : Prop := {
  q_enable : audio_enable s' = false;
  q_initialized : audio_initialized s' = true;
  q_inv : tone_inv s';
  q_stack : stack s' `sublist_of` stack s;
  q_starts : starts (trace s') = starts (trace s);
  q_melody : playing_melody s = false -> playing_melody s' = false
}.

(** ** One tone at a time *)

(** A melody the sequencer can play without a rest of its own: every
    frequency is a number, and a note differs from the one that follows it
    (for a repeating melody the first note follows the last). *)
Definition melodic (notes : list note) (r : bool) : Prop :=
  Forall (fun nt => F32.eqb (fst nt) (fst nt) = true) notes
  /\ (forall i, (S i < length notes)%nat ->
        F32.eqb (normalize (fst (notes !!! i))) (normalize (fst (notes !!! S i))) = false)
  /\ (r = true ->
        F32.eqb (normalize (fst (notes !!! (length notes - 1)%nat)))
                (normalize (fst (notes !!! 0%nat))) = false).

(** No cell of [tl] compares equal to a note of the melody. *)
Definition quiet_tail (notes : list note) (tl : list float) : Prop :=
  forall i, (i < length notes)%nat -> free_tail (fst (notes !!! i)) tl.

(** The melody [notes] is installed and is in charge of the stack: while it
    plays, the current note is the only active tone and no other cell
    compares equal to a note; once it is over, no tone is active. *)
Definition solo (notes : list note) (r : bool) (s : state) : Prop :=
  audio_initialized s = true /\ audio_enable s = true
  /\ notes_pointer s = Song notes /\ notes_count s = Z.of_nat (length notes)
  /\ notes_repeat s = r /\ note_resting s = false
  /\ if playing_melody s
     then 0 <= current_note s < Z.of_nat (length notes)
          /\ active_tones s = 1 /\ playing_note s = true
          /\ exists tl, frequencies s = normalize (pitch notes (current_note s)) :: tl
                        /\ quiet_tail notes tl
     else active_tones s = 0 /\ playing_note s = false.

(** ** A rest that stays *)

(** The frequencies of [notes] are numbers other than 0. *)
Definition voiced (notes : list note) : Prop :=
  Forall (fun nt => F32.eqb (fst nt) (fst nt) = true
                    /\ F32.eqb (normalize (fst nt)) F32.zero = false) notes.

(** No cell of [l] compares equal to a note of the melody. *)
Definition unmatched (notes : list note) (l : list float) : Prop :=
  forall i, (i < length notes)%nat ->
    Forall (fun x => F32.eqb x (normalize (fst (notes !!! i))) = false) l.

(** The melody [notes] plays, or has played, without repeat.  The cells are
    [base], the tones that stay, then [cp], the tone of the current note
    when it is on the stack, then unused cells no note compares equal
    to. *)
Definition sequenced (notes : list note) (base cp tl : list float) (s : state) : Prop :=
  audio_initialized s = true /\ audio_enable s = true
  /\ notes_pointer s = Song notes /\ notes_count s = Z.of_nat (length notes)
  /\ notes_repeat s = false
  /\ frequencies s = base ++ cp ++ tl /\ length (base ++ cp ++ tl) = AUDIO_TONE_STACKSIZE
  /\ active_tones s = Z.of_nat (length (base ++ cp))
  /\ playing_note s = (1 <=? active_tones s)
  /\ unmatched notes tl
  /\ (playing_melody s = true -> 0 <= current_note s < Z.of_nat (length notes))
  /\ (cp = []
      \/ (playing_melody s = true /\ note_resting s = false
          /\ cp = [normalize (pitch notes (current_note s))])).

(** What the transitions of the melody block start from: the state [s0]
    in which [current_note] has been set, [c] the index of the note that
    is over. *)
Definition advancing (notes : list note) (base cp tl : list float) (c : Z) (s0 : state)
  : Prop :=
  (base = [] \/ base = [F32.zero])
  /\ 0 <= c < Z.of_nat (length notes)
  /\ audio_initialized s0 = true /\ audio_enable s0 = true
  /\ notes_pointer s0 = Song notes /\ notes_count s0 = Z.of_nat (length notes)
  /\ notes_repeat s0 = false /\ playing_melody s0 = true
  /\ frequencies s0 = base ++ cp ++ tl
  /\ length (base ++ cp ++ tl) = AUDIO_TONE_STACKSIZE
  /\ active_tones s0 = Z.of_nat (length (base ++ cp))
  /\ playing_note s0 = (1 <=? active_tones s0)
  /\ unmatched notes tl
  /\ (cp = [] \/ cp = [normalize (pitch notes c)]).

(** While the sequencer rests it is on the first of two notes that compare
    equal, and the rest is the only tone. *)
Definition at_rest (notes : list note) (base cp : list float) (s : state) : Prop :=
  note_resting s = true ->
  base = [F32.zero] /\ cp = [] /\ playing_melody s = true
  /\ current_note s + 1 < Z.of_nat (length notes)
  /\ F32.eqb (pitch notes (current_note s)) (pitch notes (current_note s + 1)) = true.

(** No rest was requested since the melody started at [tr0]. *)
Definition before_rest (notes : list note) (tr0 : list event) (s : state) : Prop :=
  exists cp tl new,
    sequenced notes [] cp tl s /\ note_resting s = false
    /\ trace s = tr0 ++ new /\ ~ In (CallPlayTone F32.zero) new.

(** A rest was requested since the melody started at [tr0]: its tone is at
    the bottom of the stack, and [audio_driver_stop] was not called since. *)
Definition after_rest (notes : list note) (tr0 : list event) (s : state) : Prop :=
  exists cp tl l1 l2,
    sequenced notes [F32.zero] cp tl s /\ at_rest notes [F32.zero] cp s
    /\ trace s = tr0 ++ l1 ++ CallPlayTone F32.zero :: l2
    /\ ~ In (CallPlayTone F32.zero) l1 /\ ~ In DriverStop l2.

(** ** A platform to run on *)

(** A two-note startup song, audio enabled, 120 beats per minute. *)
Definition reference_platform : platform :=
  {| STARTUP_SONG := [(F32.of_int 440, F32.of_int 8); (F32.of_int 880, F32.of_int 8)];
     stored_enable := true;
     TEMPO_DEFAULT := 120 |}.

Section Reference.

#[local] Existing Instance reference_platform.

(** The subsystem after [audio_init] and a first [audio_stop_all]:
    initialized, enabled, silent. *)
Definition quiet : state := audio_stop_all (audio_init initial_state).

(** The tones 1 Hz and 2 Hz requested in this order. *)
Definition two_tones : state := play_tones [F32.of_int 1; F32.of_int 2] quiet.

(** Nine tones, 1 Hz to 9 Hz. *)
Definition nine : list float := map F32.of_int [1; 2; 3; 4; 5; 6; 7; 8; 9].

Definition full_stack : state := play_tones (take 8 nine) quiet.

(** [audio_play_click(0, 1000, 5)] at 120 beats per minute. *)
Definition click_state : state := audio_play_click 0 (F32.of_int 1000) 5 quiet.

(** The note length of C5 as the spec words it, in binary32:
    (64 / 60) * 120 * (5 / 1000), times 60 / 120. *)
Definition click_length_spec : float :=
  F32.mul (F32.mul (F32.mul (F32.div (F32.of_int 64) (F32.of_int 60)) (F32.of_int 120))
                   (F32.div (F32.of_int 5) (F32.of_int 1000)))
          (F32.div (F32.of_int 60) (F32.of_int 120)).

(** 60 beats per minute: a duration of [d] lasts [d] time units. *)
Definition slow : state := audio_set_tempo 60 quiet.

Definition two_notes : list note :=
  [(F32.of_int 440, F32.of_int 4); (F32.of_int 880, F32.of_int 4)].

(** Three notes of 4, 2 and 8 time units at 120 beats per minute. *)
Definition three_notes : list note :=
  [(F32.of_int 440, F32.of_int 8); (F32.of_int 880, F32.of_int 4);
   (F32.of_int 440, F32.of_int 16)].

(** Three notes of duration 5: 2.5 time units each at 120 beats per minute. *)
Definition odd_notes : list note :=
  [(F32.of_int 440, F32.of_int 5); (F32.of_int 880, F32.of_int 5);
   (F32.of_int 440, F32.of_int 5)].

(** A note played twice, then a third note: 880 Hz, a note of frequency 0,
    a note whose frequency is not a number. *)
Definition repeat_octave : list note :=
  [(F32.of_int 440, F32.of_int 4); (F32.of_int 440, F32.of_int 4);
   (F32.of_int 880, F32.of_int 4)].

Definition repeat_zero : list note :=
  [(F32.of_int 440, F32.of_int 4); (F32.of_int 440, F32.of_int 4);
   (F32.zero, F32.of_int 4)].

Definition repeat_nan : list note :=
  [(F32.of_int 440, F32.of_int 4); (F32.of_int 440, F32.of_int 4);
   (S754_nan, F32.of_int 4)].

(** Two notes of frequency 0. *)
Definition zero_twice : list note :=
  [(F32.zero, F32.of_int 4); (F32.zero, F32.of_int 4)].

End Reference.

(** ** A board to run on *)

(** An envelope that passes the frequency on. *)
Definition reference_voices : voices :=
  {| voices_state := unit;
     voice_envelope := fun f vs => (f, vs);
     pow := fun _ _ => F32.one |}.

(** [two_notes] for both songs, and an [audio_on_user] that does nothing. *)
Definition reference_board : board :=
  {| AUDIO_ON_SONG := [(F32.of_int 440, F32.of_int 4); (F32.of_int 880, F32.of_int 4)];
     AUDIO_OFF_SONG := [(F32.of_int 880, F32.of_int 4); (F32.of_int 440, F32.of_int 4)];
     audio_on_user := fun b => b |}.

Section ReferenceBoard.

#[local] Existing Instance reference_platform.

(** The subsystem after [audio_init]: the startup song plays. *)
Definition started : state := audio_init initial_state.

(** Two tones active and audio disabled. *)
Definition muted : state := set_audio_enable false two_tones.

(** A board on which two tones play. *)
Definition playing_board : board_state := {| audio := two_tones; eeprom_audio := [] |}.

End ReferenceBoard.

(** * Facts about the embedding *)

(** ** [==] on binary32 *)

Lemma eqb_class (x y : float) :
  F32.eqb x y = true <-> exists c, class_of x = Some c /\ class_of y = Some c.
Proof.
  unfold F32.eqb, SFeqb.
  destruct x as [sx|sx| |sx mx ex], y as [sy|sy| |sy my ey]; simpl;
    repeat match goal with b : bool |- _ => destruct b end; simpl;
    try change (Pos.compare_cont Eq mx my) with (mx ?= my)%positive;
    try (destruct (Z.compare_spec ex ey) as [He|He|He];
         destruct (Pos.compare_spec mx my) as [Hm|Hm|Hm]; simpl; subst);
    (split; [intros H; try discriminate; eauto
            | intros (c & H1 & H2); try reflexivity; try congruence]);
    simplify_eq; lia.
Qed.

Lemma eqb_sym (x y : float) : F32.eqb x y = F32.eqb y x.
Proof.
  apply eq_true_iff_eq. rewrite !eqb_class.
  split; intros (c & H1 & H2); eauto.
Qed.

Lemma eqb_trans (x y z : float) :
  F32.eqb x y = true -> F32.eqb y z = true -> F32.eqb x z = true.
Proof.
  rewrite !eqb_class. intros (c & H1 & H2) (c' & H3 & H4).
  exists c. split; congruence.
Qed.

Lemma eqb_refl_l (x y : float) : F32.eqb x y = true -> F32.eqb x x = true.
Proof. intros H. apply eqb_trans with y; [|rewrite eqb_sym]; exact H. Qed.

(** Two values told apart through an equal pair. *)
Lemma eqb_false_trans (x y z : float) :
  F32.eqb x y = false -> F32.eqb y z = true -> F32.eqb x z = false.
Proof.
  intros Hxy Hyz. destruct (F32.eqb x z) eqn:Hxz; [|reflexivity].
  rewrite <- Hxy. symmetry. apply eqb_trans with z; [exact Hxz|].
  rewrite eqb_sym. exact Hyz.
Qed.

(** ** The loops, as operations on the list *)

Section Loops.

Implicit Types (l fr : list float) (x y : float).

Lemma insert_at l1 l2 x y : <[length l1 := x]> (l1 ++ y :: l2) = l1 ++ x :: l2.
Proof.
  replace (length l1) with (length l1 + 0)%nat by lia.
  rewrite insert_app_r. reflexivity.
Qed.

Lemma read_at l1 l2 y : (l1 ++ y :: l2) !!! length l1 = y.
Proof. apply list_lookup_total_middle. reflexivity. Qed.

Lemma insert_after l1 l2 x y z :
  <[S (length l1) := x]> (l1 ++ y :: z :: l2) = l1 ++ y :: x :: l2.
Proof.
  replace (l1 ++ y :: z :: l2) with ((l1 ++ [y]) ++ z :: l2)
    by (rewrite <- app_assoc; reflexivity).
  replace (S (length l1)) with (length (l1 ++ [y]))
    by (rewrite length_app; simpl; lia).
  rewrite insert_at, <- app_assoc. reflexivity.
Qed.

Lemma read_after l1 l2 y z : (l1 ++ y :: z :: l2) !!! S (length l1) = z.
Proof.
  replace (l1 ++ y :: z :: l2) with ((l1 ++ [y]) ++ z :: l2)
    by (rewrite <- app_assoc; reflexivity).
  replace (S (length l1)) with (length (l1 ++ [y]))
    by (rewrite length_app; simpl; lia).
  apply read_at.
Qed.

Lemma clear_loop_spec l2 : forall l1 l3,
  clear_loop (length l2) (length l1) (l1 ++ l2 ++ l3)
  = l1 ++ replicate (length l2) F32.minus_one ++ l3.
Proof.
  induction l2 as [|y l2 IH]; intros l1 l3; simpl; [reflexivity|].
  rewrite insert_at.
  replace (l1 ++ F32.minus_one :: l2 ++ l3)
    with ((l1 ++ [F32.minus_one]) ++ l2 ++ l3)
    by (rewrite <- app_assoc; reflexivity).
  replace (S (length l1)) with (length (l1 ++ [F32.minus_one]))
    by (rewrite length_app; simpl; lia).
  rewrite IH, <- app_assoc. reflexivity.
Qed.

(** The cell at [j] is dropped, the [count] cells above it move down by
    one, and [x] fills the gap at the top (no cell is touched when
    [count = 0]). *)
Lemma shift_loop_spec l2 : forall l1 l3 x y,
  shift_loop (length l2) (length l1) x (l1 ++ y :: l2 ++ l3)
  = l1 ++ l2 ++ (match l2 with [] => y | _ => x end) :: l3.
Proof.
  induction l2 as [|z l2 IH]; intros l1 l3 x y; simpl; [reflexivity|].
  rewrite read_after, insert_at, insert_after.
  replace (l1 ++ z :: x :: l2 ++ l3) with ((l1 ++ [z]) ++ x :: l2 ++ l3)
    by (rewrite <- app_assoc; reflexivity).
  replace (S (length l1)) with (length (l1 ++ [z]))
    by (rewrite length_app; simpl; lia).
  rewrite IH, <- app_assoc. simpl. destruct l2; reflexivity.
Qed.

Lemma last_cons_default l : forall x d d', List.last (x :: l) d = List.last (x :: l) d'.
Proof.
  induction l as [|z l IH]; intros x d d'; [reflexivity|].
  change (List.last (z :: l) d = List.last (z :: l) d'). apply IH.
Qed.

(** The cell at [i] is dropped and the [count] cells above it move down by
    one; the topmost of them is left in place as well. *)
Lemma evict_loop_spec l2 : forall l1 l3 y,
  evict_loop (length l2) (length l1) (l1 ++ y :: l2 ++ l3)
  = l1 ++ l2 ++ List.last l2 y :: l3.
Proof.
  induction l2 as [|z l2 IH]; intros l1 l3 y; [reflexivity|].
  cbn [evict_loop length app].
  rewrite read_after, insert_at.
  replace (l1 ++ z :: z :: l2 ++ l3) with ((l1 ++ [z]) ++ z :: l2 ++ l3)
    by (rewrite <- app_assoc; reflexivity).
  replace (S (length l1)) with (length (l1 ++ [z]))
    by (rewrite length_app; simpl; lia).
  rewrite IH, <- app_assoc. cbn [app].
  destruct l2 as [|w l2]; [reflexivity|].
  rewrite (last_cons_default l2 w z y). reflexivity.
Qed.

Lemma length_clear_loop c : forall i fr, length (clear_loop c i fr) = length fr.
Proof. induction c; intros; simpl; [|rewrite IHc, length_insert]; reflexivity. Qed.

Lemma length_shift_loop c : forall j x fr, length (shift_loop c j x fr) = length fr.
Proof. induction c; intros; simpl; [|rewrite IHc, !length_insert]; reflexivity. Qed.

Lemma length_evict_loop c : forall i fr, length (evict_loop c i fr) = length fr.
Proof. induction c; intros; simpl; [|rewrite IHc, length_insert]; reflexivity. Qed.

(** [scan_down] breaks at the highest matching index below [n]. *)
Lemma scan_down_Some fr x n i :
  scan_down fr x n = Some i ->
  (i < n)%nat /\ F32.eqb (fr !!! i) x = true
  /\ forall k, (i < k < n)%nat -> F32.eqb (fr !!! k) x = false.
Proof.
  induction n as [|n IH]; simpl; [discriminate|].
  destruct (F32.eqb (fr !!! n) x) eqn:E.
  - intros [= <-]. repeat split; [lia|exact E|]. intros k Hk. lia.
  - intros H. destruct (IH H) as (Hi & He & Hk).
    repeat split; [lia|exact He|].
    intros k Hlt. destruct (decide (k = n)) as [->|Hne]; [exact E|].
    apply Hk. lia.
Qed.

Lemma scan_down_None fr x n :
  scan_down fr x n = None <-> forall k, (k < n)%nat -> F32.eqb (fr !!! k) x = false.
Proof.
  induction n as [|n IH]; simpl.
  - split; [intros _ k Hk; lia|reflexivity].
  - destruct (F32.eqb (fr !!! n) x) eqn:E.
    + split; [discriminate|]. intros H. rewrite (H n) in E by lia. discriminate.
    + rewrite IH. split; intros H k Hk.
      * destruct (decide (k = n)) as [->|Hne]; [exact E|]. apply H. lia.
      * apply H. lia.
Qed.

End Loops.

(** ** The tone stack *)

Section StackLists.

Implicit Types (l fr : list float) (x y : float).

Lemma Forall_sublist_of (P : float -> Prop) l1 l2 :
  l1 `sublist_of` l2 -> Forall P l2 -> Forall P l1.
Proof.
  induction 1 as [|z l1 l2 _ IH|z l1 l2 _ IH]; intros H;
    [constructor| |]; inversion H; subst; auto.
Qed.

Lemma distinct_sublist l1 l2 : l1 `sublist_of` l2 -> distinct l2 -> distinct l1.
Proof.
  induction 1 as [|z l1 l2 Hs IH|z l1 l2 Hs IH]; simpl; [tauto| |].
  - intros [Hz Hd]. split; [|auto]. eapply Forall_sublist_of; eassumption.
  - intros [_ Hd]. auto.
Qed.

Lemma distinct_snoc l x :
  distinct l -> Forall (fun y => F32.eqb y x = false) l -> distinct (l ++ [x]).
Proof.
  induction l as [|z l IH]; simpl; [intros; split; [constructor|exact I]|].
  intros [Hz Hd] Hx. inversion Hx; subst. split; [|auto].
  apply Forall_app. split; [exact Hz|]. constructor; [assumption|constructor].
Qed.

(** In a duplicate-free list every other cell differs from the one at [i]. *)
Lemma distinct_delete l : forall i,
  distinct l -> (i < length l)%nat ->
  Forall (fun y => F32.eqb y (l !!! i) = false) (delete i l).
Proof.
  induction l as [|z l IH]; intros i Hd Hi; simpl in *; [lia|].
  destruct Hd as [Hz Hd]. destruct i as [|i]; simpl.
  - eapply Forall_impl; [exact Hz|]. intros y Hy. rewrite eqb_sym. exact Hy.
  - constructor; [|apply IH; [exact Hd|lia]].
    rewrite Forall_lookup in Hz. apply (Hz i).
    apply list_lookup_lookup_total_lt. lia.
Qed.

Lemma delete_at l1 l2 y i : length l1 = i -> delete i (l1 ++ y :: l2) = l1 ++ l2.
Proof. intros <-. apply delete_middle. Qed.

Lemma take_delete_sublist l : forall n i, take n (delete i l) `sublist_of` take (S n) l.
Proof.
  induction l as [|z l IH]; intros n i; [destruct n, i; constructor|].
  destruct i as [|i]; simpl.
  - apply sublist_cons. reflexivity.
  - destruct n as [|n]; simpl; [apply sublist_nil_l|]. apply sublist_skip, IH.
Qed.

(** The decomposition of the array used by the loops. *)
Lemma split_at fr i a :
  (i < a <= length fr)%nat ->
  fr = take i fr ++ fr !!! i :: take (a - 1 - i) (drop (S i) fr) ++ drop a fr.
Proof.
  intros H.
  rewrite <- (take_drop_middle fr i (fr !!! i)) at 1
    by (apply list_lookup_lookup_total_lt; lia).
  do 2 f_equal.
  rewrite <- (take_drop (a - 1 - i) (drop (S i) fr)) at 1.
  rewrite drop_drop. do 2 f_equal. lia.
Qed.

(** The inner loop of [audio_play_tone]: the cell at [i] goes, the active
    cells above it move down, [x] becomes the top active cell. *)
Lemma shift_loop_rotate fr i a x :
  (i < a <= length fr)%nat ->
  shift_loop (a - 1 - i) i x fr
  = take i fr ++ take (a - 1 - i) (drop (S i) fr)
      ++ (if decide (S i = a) then fr !!! i else x) :: drop a fr.
Proof.
  intros H.
  pose proof (shift_loop_spec (take (a - 1 - i) (drop (S i) fr)) (take i fr)
                (drop a fr) x (fr !!! i)) as E.
  assert (H2 : length (take (a - 1 - i) (drop (S i) fr)) = (a - 1 - i)%nat)
    by (apply length_take_le; rewrite length_drop; lia).
  rewrite H2 in E. rewrite (length_take_le fr i) in E by lia.
  rewrite <- (split_at fr i a H) in E. rewrite E. do 2 f_equal.
  destruct (take (a - 1 - i) (drop (S i) fr)); simpl in H2;
    case_decide; try lia; reflexivity.
Qed.

(** The loops of [audio_stop_tone]: the cell at [i] goes, every cell above
    it moves down, [-1.0f] fills the last cell. *)
Lemma shift_loop_remove fr i n :
  length fr = n -> (i < n)%nat ->
  shift_loop (n - 1 - i) i F32.minus_one (<[i := F32.minus_one]> fr)
  = delete i fr ++ [F32.minus_one].
Proof.
  intros <- H. rewrite delete_take_drop, <- app_assoc.
  pose proof (shift_loop_spec (drop (S i) fr) (take i fr) [] F32.minus_one
                F32.minus_one) as E.
  rewrite length_drop, (length_take_le fr i), app_nil_r in E by lia.
  replace (take i fr ++ F32.minus_one :: drop (S i) fr)
    with (<[i := F32.minus_one]> fr) in E.
  - replace (length fr - S i)%nat with (length fr - 1 - i)%nat in E by lia.
    rewrite E. destruct (drop (S i) fr); reflexivity.
  - rewrite <- (take_drop_middle fr i (fr !!! i)) at 1
      by (apply list_lookup_lookup_total_lt; lia).
    rewrite <- (length_take_le fr i) at 1 by lia. apply insert_at.
Qed.

(** The eviction loop of [audio_play_tone] followed by the store at the top
    of a full array. *)
Lemma evict_loop_full fr x n :
  length fr = S n ->
  <[n := x]> (evict_loop n 0 fr) = drop 1 fr ++ [x].
Proof.
  destruct fr as [|y l2]; simpl; [discriminate|]. intros [= <-].
  pose proof (evict_loop_spec l2 [] [] y) as E. simpl in E.
  rewrite app_nil_r in E. rewrite E.
  rewrite <- (Nat.add_0_r (length l2)) at 1. rewrite insert_app_r. reflexivity.
Qed.

End StackLists.

(** ** The bodies of the tone functions, past their guards *)

Lemma play_tone_unfold init f s :
  play_tone_ init f s
  = let s1 := emit (CallPlayTone f) s in
    if audio_enable s1 then request_tone (normalize f) (ensure_init init s1) else s1.
Proof. unfold play_tone_. cbv zeta. destruct (audio_enable _); reflexivity. Qed.

Lemma stop_tone_unfold init f s :
  stop_tone_ init f s
  = let s1 := emit (CallStopTone f) s in
    if playing_note s1 then release_tone (normalize f) (ensure_init init s1) else s1.
Proof. reflexivity. Qed.

Lemma stop_all_unfold init s : stop_all_ init s = silence (ensure_init init s).
Proof. reflexivity. Qed.

(** ** The invariant of the tone stack *)

Lemma tone_inv_same (s s' : state) :
  active_tones s' = active_tones s ->
  frequencies s' = frequencies s ->
  playing_note s' = playing_note s ->
  audio_initialized s' = audio_initialized s ->
  tone_inv s -> tone_inv s'.
Proof.
  intros Ha Hf Hp Hi [H1 H2 H3 H4 H5].
  split; unfold stack in *; rewrite ?Ha, ?Hf, ?Hp, ?Hi; assumption.
Qed.

Section StackFacts.

Implicit Types (l fr : list float) (x y : float).

Lemma distinct_rotate l1 l2 y top :
  distinct (l1 ++ y :: l2) -> F32.eqb y top = true -> distinct (l1 ++ l2 ++ [top]).
Proof.
  intros Hd He. rewrite app_assoc. apply distinct_snoc.
  - eapply distinct_sublist; [|exact Hd].
    apply sublist_app; [reflexivity|]. apply sublist_cons. reflexivity.
  - pose proof (distinct_delete (l1 ++ y :: l2) (length l1) Hd) as H.
    rewrite delete_middle, read_at in H.
    eapply Forall_impl; [apply H; rewrite length_app; simpl; lia|].
    intros z Hz. simpl in Hz. eapply eqb_false_trans; eassumption.
Qed.

Lemma Forall_take_below (P : float -> Prop) fr n :
  (forall k, (k < n)%nat -> P (fr !!! k)) -> (n <= length fr)%nat ->
  Forall P (take n fr).
Proof.
  intros H Hn. apply Forall_lookup. intros k z Hk.
  assert (Hlt : (k < n)%nat).
  { apply lookup_lt_Some in Hk. rewrite length_take in Hk. lia. }
  rewrite lookup_take_lt in Hk by exact Hlt.
  apply list_lookup_total_correct in Hk. subst z. apply H, Hlt.
Qed.

Lemma take_push fr a x :
  (a < length fr)%nat -> take (S a) (<[a := x]> fr) = take a fr ++ [x].
Proof.
  intros H. rewrite (take_S_r _ a x).
  - rewrite take_insert_ge by lia. reflexivity.
  - apply list_lookup_insert_eq. exact H.
Qed.

(** The active cells when the search loop of [audio_play_tone] broke at [i]. *)
Lemma take_split fr i a :
  (i < a <= length fr)%nat ->
  take a fr = take i fr ++ fr !!! i :: take (a - 1 - i) (drop (S i) fr).
Proof.
  intros H. rewrite (split_at fr i a H) at 1.
  replace (take i fr ++ fr !!! i :: take (a - 1 - i) (drop (S i) fr) ++ drop a fr)
    with ((take i fr ++ fr !!! i :: take (a - 1 - i) (drop (S i) fr)) ++ drop a fr)
    by (rewrite <- app_assoc; reflexivity).
  apply take_app_length'. rewrite length_app. simpl.
  rewrite !length_take, length_drop. lia.
Qed.

Lemma take_rotated fr i a top :
  (i < a <= length fr)%nat ->
  take a (take i fr ++ take (a - 1 - i) (drop (S i) fr) ++ top :: drop a fr)
  = take i fr ++ take (a - 1 - i) (drop (S i) fr) ++ [top].
Proof.
  intros H.
  replace (take i fr ++ take (a - 1 - i) (drop (S i) fr) ++ top :: drop a fr)
    with ((take i fr ++ take (a - 1 - i) (drop (S i) fr) ++ [top]) ++ drop a fr)
    by (rewrite <- !app_assoc; reflexivity).
  apply take_app_length'. rewrite !length_app. simpl.
  rewrite !length_take, length_drop. lia.
Qed.

Lemma drop_rotated fr i a top :
  (i < a <= length fr)%nat ->
  drop a (take i fr ++ take (a - 1 - i) (drop (S i) fr) ++ top :: drop a fr)
  = drop a fr.
Proof.
  intros H.
  replace (take i fr ++ take (a - 1 - i) (drop (S i) fr) ++ top :: drop a fr)
    with ((take i fr ++ take (a - 1 - i) (drop (S i) fr) ++ [top]) ++ drop a fr)
    by (rewrite <- !app_assoc; reflexivity).
  apply drop_app_length'. rewrite !length_app. simpl.
  rewrite !length_take, length_drop. lia.
Qed.

End StackFacts.

Arguments shift_loop : simpl never.
Arguments evict_loop : simpl never.
Arguments clear_loop : simpl never.
Arguments scan_down : simpl never.

Lemma wrap8_small z : 0 <= z < 256 -> wrap8 z = z.
Proof. intros H. unfold wrap8. apply Z.mod_small. lia. Qed.

Ltac stacksize :=
  change (Z.of_nat AUDIO_TONE_STACKSIZE) with 8 in *;
  change AUDIO_TONE_STACKSIZE with 8%nat in *.

(** *** What the bodies compute *)

Lemma request_tone_found f s i :
  (Z.to_nat (active_tones s) <= length (frequencies s))%nat ->
  scan_down (frequencies s) f (Z.to_nat (active_tones s)) = Some i ->
  request_tone f s
  = set_frequencies
      (take i (frequencies s)
         ++ take (Z.to_nat (active_tones s) - 1 - i) (drop (S i) (frequencies s))
         ++ (if decide (S i = Z.to_nat (active_tones s)) then frequencies s !!! i else f)
         :: drop (Z.to_nat (active_tones s)) (frequencies s)) s.
Proof.
  intros Hl E. unfold request_tone. rewrite E.
  apply scan_down_Some in E as (Hi & _ & _).
  rewrite shift_loop_rotate by lia. reflexivity.
Qed.

Lemma request_tone_push f s :
  0 <= active_tones s < Z.of_nat AUDIO_TONE_STACKSIZE ->
  scan_down (frequencies s) f (Z.to_nat (active_tones s)) = None ->
  request_tone f s
  = let s' := set_frequencies (<[Z.to_nat (active_tones s) := f]> (frequencies s))
                (set_playing_note true
                   (set_state_changed true
                      (set_active_tones (active_tones s + 1) s))) in
    if active_tones s =? 0 then emit DriverStart s' else s'.
Proof.
  intros Ha E. unfold request_tone. rewrite E. stacksize.
  cbv zeta. simpl. rewrite wrap8_small by lia.
  destruct (Z.ltb_spec 8 (active_tones s + 1)); [lia|]. simpl.
  unfold store. destruct (Z.ltb_spec (active_tones s + 1 - 1) 0); [lia|].
  replace (active_tones s + 1 - 1) with (active_tones s) by lia.
  replace (active_tones s + 1 =? 1) with (active_tones s =? 0)
    by (destruct (Z.eqb_spec (active_tones s) 0), (Z.eqb_spec (active_tones s + 1) 1);
        try reflexivity; lia).
  reflexivity.
Qed.

Lemma request_tone_evict f s :
  active_tones s = Z.of_nat AUDIO_TONE_STACKSIZE ->
  length (frequencies s) = AUDIO_TONE_STACKSIZE ->
  scan_down (frequencies s) f (Z.to_nat (active_tones s)) = None ->
  request_tone f s
  = set_frequencies (drop 1 (frequencies s) ++ [f])
      (set_playing_note true (set_state_changed true s)).
Proof.
  intros Ha Hl E. unfold request_tone. rewrite E. stacksize.
  cbv zeta. simpl. rewrite Ha. simpl. unfold store. simpl.
  change (Z.to_nat (8 - 1)) with 7%nat.
  rewrite (evict_loop_full (frequencies s) f 7 Hl).
  destruct s; simpl in *; subst; reflexivity.
Qed.

Lemma release_tone_found f s i :
  length (frequencies s) = AUDIO_TONE_STACKSIZE ->
  1 <= active_tones s <= 255 ->
  scan_down (frequencies s) f AUDIO_TONE_STACKSIZE = Some i ->
  release_tone f s
  = let s' := set_active_tones (active_tones s - 1)
                (set_state_changed true
                   (set_frequencies (delete i (frequencies s) ++ [F32.minus_one]) s)) in
    if active_tones s =? 1 then set_playing_note false (emit DriverStop s') else s'.
Proof.
  intros Hl Ha E. unfold release_tone. rewrite E.
  apply scan_down_Some in E as (Hi & _ & _).
  rewrite (shift_loop_remove _ i _ Hl Hi).
  cbv zeta. simpl. rewrite wrap8_small by lia.
  destruct (Z.ltb_spec (active_tones s - 1) 0); [lia|]. simpl.
  replace (active_tones s - 1 =? 0) with (active_tones s =? 1)
    by (destruct (Z.eqb_spec (active_tones s) 1), (Z.eqb_spec (active_tones s - 1) 0);
        try reflexivity; lia).
  reflexivity.
Qed.

Lemma silence_frequencies s :
  length (frequencies s) = AUDIO_TONE_STACKSIZE ->
  frequencies (silence s) = replicate AUDIO_TONE_STACKSIZE F32.minus_one.
Proof.
  intros Hl. unfold silence. simpl.
  pose proof (clear_loop_spec (frequencies s) [] []) as E.
  simpl in E. rewrite app_nil_r, Hl in E. rewrite E, app_nil_r. reflexivity.
Qed.

(** *** The invariant is kept *)

Lemma request_tone_inv f s :
  tone_inv s -> audio_initialized s = true -> tone_inv (request_tone f s).
Proof.
  intros [Hl Hc Hd Hp _] Hi. unfold stack in Hd.
  destruct (scan_down (frequencies s) f (Z.to_nat (active_tones s))) as [i|] eqn:E.
  - rewrite (request_tone_found f s i) by (stacksize; lia || exact E).
    apply scan_down_Some in E as (Hi' & He & _).
    split; simpl; try assumption; [| |auto].
    + rewrite length_app, length_app. cbn [length].
      rewrite !length_take, !length_drop. stacksize. lia.
    + unfold stack. simpl. rewrite take_rotated by (stacksize; lia).
      rewrite (take_split _ i) in Hd by (stacksize; lia).
      eapply distinct_rotate; [exact Hd|].
      case_decide; [eapply eqb_refl_l|]; exact He.
  - assert (HE : Forall (fun y => F32.eqb y f = false)
                   (take (Z.to_nat (active_tones s)) (frequencies s))).
    { apply Forall_take_below; [|stacksize; lia]. apply scan_down_None, E. }
    destruct (decide (active_tones s = Z.of_nat AUDIO_TONE_STACKSIZE)) as [Ha|Ha].
    + rewrite request_tone_evict by assumption.
      rewrite Ha in Hd, HE. stacksize. change (Z.to_nat 8) with 8%nat in *.
      rewrite take_ge in Hd, HE by lia.
      split; simpl; [| | | |auto].
      * rewrite length_app, length_drop, Hl. reflexivity.
      * exact Hc.
      * unfold stack. simpl. rewrite Ha.
        rewrite take_ge by (rewrite length_app, length_drop, Hl; simpl; lia).
        apply distinct_snoc.
        -- eapply distinct_sublist; [|exact Hd]. apply sublist_drop.
        -- eapply Forall_sublist_of; [|exact HE]. apply sublist_drop.
      * rewrite Ha. reflexivity.
    + rewrite request_tone_push by (lia || exact E).
      cbv zeta. stacksize.
      match goal with |- tone_inv (if _ then emit _ ?s' else _) =>
        assert (tone_inv s') end.
      { split; simpl; [| | | |auto].
        * rewrite length_insert. exact Hl.
        * stacksize. lia.
        * unfold stack; simpl.
          replace (Z.to_nat (active_tones s + 1)) with (S (Z.to_nat (active_tones s)))
            by lia.
          rewrite take_push by lia. apply distinct_snoc; assumption.
        * symmetry. apply Z.leb_le. lia. }
      destruct (_ =? 0); [|assumption].
      eapply tone_inv_same; [| | | |eassumption]; reflexivity.
Qed.

Lemma release_tone_inv f s :
  tone_inv s -> playing_note s = true -> tone_inv (release_tone f s).
Proof.
  intros Hinv Hplay. pose proof Hinv as [Hl Hc Hd Hp Hlive]. unfold stack in Hd.
  assert (Hpos : 1 <= active_tones s) by (apply Z.leb_le; congruence).
  destruct (scan_down (frequencies s) f AUDIO_TONE_STACKSIZE) as [i|] eqn:E.
  2:{ unfold release_tone. rewrite E. exact Hinv. }
  rewrite (release_tone_found f s i) by (assumption || (stacksize; lia)).
  apply scan_down_Some in E as (Hi & _ & _).
  cbv zeta.
  match goal with |- tone_inv (if _ then set_playing_note _ (emit _ ?s') else _) =>
    assert (Hl' : length (frequencies s') = AUDIO_TONE_STACKSIZE);
    [|assert (Hd' : distinct (stack s'))] end.
  { simpl. rewrite length_app, length_delete; [simpl; rewrite Hl; stacksize; lia|].
    apply lookup_lt_is_Some. lia. }
  { unfold stack. simpl. rewrite take_app_le.
    - eapply distinct_sublist; [|exact Hd].
      replace (Z.to_nat (active_tones s)) with (S (Z.to_nat (active_tones s - 1))) by lia.
      apply take_delete_sublist.
    - rewrite length_delete by (apply lookup_lt_is_Some; lia). stacksize. lia. }
  destruct (Z.eqb_spec (active_tones s) 1) as [Hz|Hnz]; split; simpl;
    try assumption; stacksize; try lia; try discriminate.
  rewrite Hplay. symmetry. apply Z.leb_le. lia.
Qed.

Lemma silence_inv s :
  length (frequencies s) = AUDIO_TONE_STACKSIZE -> tone_inv (silence s).
Proof.
  intros Hl. split.
  - rewrite silence_frequencies, length_replicate by exact Hl. reflexivity.
  - simpl. stacksize. lia.
  - exact I.
  - reflexivity.
  - discriminate.
Qed.

Lemma request_tone_playing f s : tone_inv s -> playing_note (request_tone f s) = true.
Proof.
  intros [Hl Hc Hd Hp _]. unfold request_tone.
  destruct (scan_down _ _ _) as [i|] eqn:E.
  - apply scan_down_Some in E as (Hi & _ & _). simpl.
    rewrite Hp. apply Z.leb_le. lia.
  - cbv zeta. destruct (_ =? 1); reflexivity.
Qed.

(** Fields outside the tone stack do not matter to the invariant. *)
Create HintDb tone_inv.

Lemma inv_set_state_changed v s : tone_inv s -> tone_inv (set_state_changed v s).
Proof. apply tone_inv_same; reflexivity. Qed.
Lemma inv_set_playing_melody v s : tone_inv s -> tone_inv (set_playing_melody v s).
Proof. apply tone_inv_same; reflexivity. Qed.
Lemma inv_set_notes_pointer v s : tone_inv s -> tone_inv (set_notes_pointer v s).
Proof. apply tone_inv_same; reflexivity. Qed.
Lemma inv_set_notes_count v s : tone_inv s -> tone_inv (set_notes_count v s).
Proof. apply tone_inv_same; reflexivity. Qed.
Lemma inv_set_notes_repeat v s : tone_inv s -> tone_inv (set_notes_repeat v s).
Proof. apply tone_inv_same; reflexivity. Qed.
Lemma inv_set_note_length v s : tone_inv s -> tone_inv (set_note_length v s).
Proof. apply tone_inv_same; reflexivity. Qed.
Lemma inv_set_note_tempo v s : tone_inv s -> tone_inv (set_note_tempo v s).
Proof. apply tone_inv_same; reflexivity. Qed.
Lemma inv_set_current_note v s : tone_inv s -> tone_inv (set_current_note v s).
Proof. apply tone_inv_same; reflexivity. Qed.
Lemma inv_set_note_position v s : tone_inv s -> tone_inv (set_note_position v s).
Proof. apply tone_inv_same; reflexivity. Qed.
Lemma inv_set_note_resting v s : tone_inv s -> tone_inv (set_note_resting v s).
Proof. apply tone_inv_same; reflexivity. Qed.
Lemma inv_set_click v s : tone_inv s -> tone_inv (set_click v s).
Proof. apply tone_inv_same; reflexivity. Qed.
Lemma inv_set_audio_initialized s : tone_inv s -> tone_inv (set_audio_initialized true s).
Proof. intros [H1 H2 H3 H4 H5]. split; auto. Qed.
Lemma inv_set_audio_enable v s : tone_inv s -> tone_inv (set_audio_enable v s).
Proof. apply tone_inv_same; reflexivity. Qed.
Lemma inv_set_trace v s : tone_inv s -> tone_inv (set_trace v s).
Proof. apply tone_inv_same; reflexivity. Qed.
Lemma inv_emit e s : tone_inv s -> tone_inv (emit e s).
Proof. apply tone_inv_same; reflexivity. Qed.

#[export] Hint Resolve inv_set_state_changed inv_set_playing_melody inv_set_notes_pointer inv_set_notes_count inv_set_notes_repeat inv_set_note_length inv_set_note_tempo inv_set_current_note inv_set_note_position inv_set_note_resting inv_set_click inv_set_audio_initialized inv_set_audio_enable inv_set_trace inv_emit
  : tone_inv.

(** ** What the tone functions leave alone *)

Lemma request_tone_sequencer f s : sequencer (request_tone f s) = sequencer s.
Proof.
  unfold request_tone. destruct (scan_down _ _ _); [reflexivity|].
  cbv zeta. destruct (_ =? 1); destruct (_ <? _); reflexivity.
Qed.

Lemma release_tone_sequencer f s : sequencer (release_tone f s) = sequencer s.
Proof.
  unfold release_tone. destruct (scan_down _ _ _); [|reflexivity].
  cbv zeta. destruct (_ =? 0); destruct (_ <? _); reflexivity.
Qed.

Lemma sequencer_ready s s' :
  sequencer s' = sequencer s ->
  audio_enable s' = audio_enable s /\ audio_initialized s' = audio_initialized s.
Proof. unfold sequencer. intros E. injection E. auto. Qed.

Section WithInit.

Variable init : state -> state.
Hypothesis init_inv : forall s, tone_inv s -> tone_inv (init s).
Hypothesis init_playing :
  forall s, tone_inv s -> playing_note s = true -> playing_note (init s) = true.
Hypothesis init_initialized : forall s, audio_initialized (init s) = true.

Lemma ensure_init_initialized s : audio_initialized (ensure_init init s) = true.
Proof. unfold ensure_init. destruct (audio_initialized s) eqn:E; auto. Qed.

Lemma ensure_init_inv s : tone_inv s -> tone_inv (ensure_init init s).
Proof. unfold ensure_init. destruct (audio_initialized s); auto. Qed.

Lemma ensure_init_playing s :
  tone_inv s -> playing_note s = true -> playing_note (ensure_init init s) = true.
Proof. unfold ensure_init. destruct (audio_initialized s); auto. Qed.

Lemma play_tone__inv f s : tone_inv s -> tone_inv (play_tone_ init f s).
Proof.
  intros H. rewrite play_tone_unfold. cbv zeta.
  assert (H1 : tone_inv (emit (CallPlayTone f) s)) by auto with tone_inv.
  destruct (audio_enable _); [|exact H1].
  apply request_tone_inv; [apply ensure_init_inv, H1|apply ensure_init_initialized].
Qed.

Lemma play_tone__playing f s :
  tone_inv s -> audio_enable s = true -> playing_note (play_tone_ init f s) = true.
Proof.
  intros H He. rewrite play_tone_unfold. cbv zeta.
  change (audio_enable (emit (CallPlayTone f) s)) with (audio_enable s). rewrite He.
  apply request_tone_playing, ensure_init_inv. auto with tone_inv.
Qed.

Lemma stop_tone__inv f s : tone_inv s -> tone_inv (stop_tone_ init f s).
Proof.
  intros H. rewrite stop_tone_unfold. cbv zeta.
  assert (H1 : tone_inv (emit (CallStopTone f) s)) by auto with tone_inv.
  destruct (playing_note (emit (CallStopTone f) s)) eqn:Hp; [|exact H1].
  apply release_tone_inv; [apply ensure_init_inv, H1|].
  apply ensure_init_playing; assumption.
Qed.

Lemma stop_all__inv s : tone_inv s -> tone_inv (stop_all_ init s).
Proof.
  intros H. rewrite stop_all_unfold. apply silence_inv.
  apply ensure_init_inv in H. apply H.
Qed.

Lemma play_melody__inv np n r s : tone_inv s -> tone_inv (play_melody_ init np n r s).
Proof.
  intros H. unfold play_melody_. destruct (negb (audio_enable s)); [exact H|].
  cbv zeta. apply play_tone__inv.
  assert (H1 : tone_inv (if playing_note (ensure_init init s)
                         then stop_all_ init (ensure_init init s)
                         else ensure_init init s))
    by (destruct (playing_note _); [apply stop_all__inv|]; apply ensure_init_inv, H).
  auto 10 with tone_inv.
Qed.

Lemma play_melody__live np n r s :
  audio_enable s = true -> audio_initialized (play_melody_ init np n r s) = true.
Proof.
  intros He. unfold play_melody_. rewrite He. cbn [negb]. cbv zeta.
  set (s1 := if playing_note (ensure_init init s)
             then stop_all_ init (ensure_init init s)
             else ensure_init init s).
  assert (H1 : audio_initialized s1 = true).
  { unfold s1. destruct (playing_note _); [|apply ensure_init_initialized].
    rewrite stop_all_unfold. unfold silence. simpl.
    apply ensure_init_initialized. }
  clearbody s1. rewrite play_tone_unfold. cbv zeta.
  destruct (audio_enable (emit _ _)).
  - match goal with |- audio_initialized (request_tone ?f ?s0) = true =>
      pose proof (request_tone_sequencer f s0) as E end.
    apply sequencer_ready in E as [_ ->]. apply ensure_init_initialized.
  - simpl. exact H1.
Qed.

End WithInit.

(** ** The functions on an initialized subsystem *)

(** Two states with the same variables are the same state. *)
Lemma state_eq (s s' : state) :
  active_tones s = active_tones s' ->
  frequencies s = frequencies s' ->
  playing_melody s = playing_melody s' ->
  playing_note s = playing_note s' ->
  state_changed s = state_changed s' ->
  notes_pointer s = notes_pointer s' ->
  notes_count s = notes_count s' ->
  notes_repeat s = notes_repeat s' ->
  note_length s = note_length s' ->
  note_tempo s = note_tempo s' ->
  current_note s = current_note s' ->
  note_position s = note_position s' ->
  note_resting s = note_resting s' ->
  click s = click s' ->
  audio_initialized s = audio_initialized s' ->
  audio_enable s = audio_enable s' ->
  vibrato s = vibrato s' ->
  glissando s = glissando s' ->
  trace s = trace s' ->
  s = s'.
Proof. destruct s, s'. simpl. intros. subst. reflexivity. Qed.

Section Ready.

Context `{platform}.

Lemma audio_init_done s : audio_initialized s = true -> audio_init s = s.
Proof. intros Hi. unfold audio_init. rewrite Hi. reflexivity. Qed.

Lemma audio_init_fresh s :
  audio_initialized s = false ->
  audio_init s
  = let s1 :=
      set_audio_initialized true (emit DriverInitialize (set_audio_enable stored_enable s)) in
    if stored_enable
    then play_melody_ (fun s' => s') (Song STARTUP_SONG)
                      (wrap16 (Z.of_nat (length STARTUP_SONG))) false s1
    else s1.
Proof. intros Hi. unfold audio_init. rewrite Hi. simpl. rewrite Hi. reflexivity. Qed.

Lemma ensure_init_done init s : audio_initialized s = true -> ensure_init init s = s.
Proof. intros Hi. unfold ensure_init. rewrite Hi. reflexivity. Qed.

Lemma audio_play_tone_ready f s :
  audio_enable s = true -> audio_initialized s = true ->
  audio_play_tone f s = request_tone (normalize f) (emit (CallPlayTone f) s).
Proof.
  intros He Hi. unfold audio_play_tone. rewrite play_tone_unfold. cbv zeta.
  change (audio_enable (emit (CallPlayTone f) s)) with (audio_enable s). rewrite He.
  rewrite ensure_init_done by exact Hi. reflexivity.
Qed.

Lemma audio_play_tone_disabled f s :
  audio_enable s = false -> audio_play_tone f s = emit (CallPlayTone f) s.
Proof.
  intros He. unfold audio_play_tone. rewrite play_tone_unfold. cbv zeta.
  change (audio_enable (emit (CallPlayTone f) s)) with (audio_enable s). rewrite He.
  reflexivity.
Qed.

Lemma audio_stop_tone_ready f s :
  audio_initialized s = true ->
  audio_stop_tone f s
  = if playing_note s
    then release_tone (normalize f) (emit (CallStopTone f) s)
    else emit (CallStopTone f) s.
Proof.
  intros Hi. unfold audio_stop_tone. rewrite stop_tone_unfold. cbv zeta.
  change (playing_note (emit (CallStopTone f) s)) with (playing_note s).
  rewrite ensure_init_done by exact Hi. reflexivity.
Qed.

Lemma audio_stop_all_ready s : audio_initialized s = true -> audio_stop_all s = silence s.
Proof.
  intros Hi. unfold audio_stop_all. rewrite stop_all_unfold, ensure_init_done by exact Hi.
  reflexivity.
Qed.

Lemma audio_play_melody_ready np n r s :
  audio_enable s = true -> audio_initialized s = true ->
  audio_play_melody np n r s
  = let s := if playing_note s then silence s else s in
    let s := set_playing_melody true s in
    let s := set_note_resting false s in
    let s := set_notes_pointer np s in
    let s := set_notes_count n s in
    let s := set_notes_repeat r s in
    let s := set_current_note 0 s in
    let s :=
      set_note_length
        (F32.mul (note_duration s (current_note s))
                 (F32.div (F32.of_int 60) (F32.of_int (note_tempo s)))) s in
    let s := set_note_position 0 s in
    audio_play_tone (note_frequency s (current_note s)) s.
Proof.
  intros He Hi. unfold audio_play_melody, audio_play_tone, play_melody_.
  rewrite He. cbn [negb].
  rewrite stop_all_unfold, !ensure_init_done by exact Hi. cbv zeta. reflexivity.
Qed.

(** On an initialized subsystem the nested [audio_init] is never reached. *)
Lemma play_melody__initialized init1 init2 np n r s :
  audio_initialized s = true ->
  play_melody_ init1 np n r s = play_melody_ init2 np n r s.
Proof.
  intros Hi. unfold play_melody_. destruct (negb (audio_enable s)); [reflexivity|].
  rewrite !ensure_init_done by exact Hi. cbv zeta.
  rewrite !stop_all_unfold, !ensure_init_done by exact Hi.
  rewrite !play_tone_unfold. cbv zeta.
  rewrite !ensure_init_done; try reflexivity;
    destruct (playing_note s); simpl; exact Hi.
Qed.

(** [audio_init] written with the public [audio_play_melody], the way the
    source has it. *)
Lemma audio_init_unfold s :
  audio_init s
  = if audio_initialized s then s else
    let s := set_audio_enable stored_enable s in
    let s :=
      if negb (audio_initialized s)
      then set_audio_initialized true (emit DriverInitialize s)
      else s in
    if audio_enable s
    then audio_play_melody (Song STARTUP_SONG)
                           (wrap16 (Z.of_nat (length STARTUP_SONG))) false s
    else s.
Proof.
  destruct (audio_initialized s) eqn:Hi; [apply audio_init_done, Hi|].
  rewrite audio_init_fresh by exact Hi. cbv zeta. simpl. rewrite Hi. simpl.
  destruct stored_enable; [|reflexivity].
  apply play_melody__initialized. reflexivity.
Qed.

End Ready.

(** ** The invariant over the public functions *)

Section Invariant.

Context `{platform}.

(** Inside [audio_init] the nested call may be taken to do anything that
    keeps the invariant: it is never reached. *)
Lemma init_startup_song s :
  audio_initialized s = true ->
  play_melody_ (fun s' => s') (Song STARTUP_SONG)
               (wrap16 (Z.of_nat (length STARTUP_SONG))) false s
  = play_melody_ (set_audio_initialized true) (Song STARTUP_SONG)
                 (wrap16 (Z.of_nat (length STARTUP_SONG))) false s.
Proof. apply play_melody__initialized. Qed.

Lemma audio_init_inv s : tone_inv s -> tone_inv (audio_init s).
Proof.
  intros Hs. destruct (audio_initialized s) eqn:Hi.
  - rewrite audio_init_done by exact Hi. exact Hs.
  - rewrite audio_init_fresh by exact Hi. cbv zeta.
    assert (H1 : tone_inv (set_audio_initialized true
                   (emit DriverInitialize (set_audio_enable stored_enable s))))
      by auto using inv_set_audio_initialized with tone_inv.
    destruct stored_enable; [|exact H1].
    rewrite init_startup_song by reflexivity.
    apply play_melody__inv; auto using inv_set_audio_initialized.
Qed.

Lemma audio_init_playing s :
  tone_inv s -> playing_note s = true -> playing_note (audio_init s) = true.
Proof.
  intros Hs Hp. pose proof (inv_live s Hs Hp) as Hi.
  rewrite audio_init_done by exact Hi. exact Hp.
Qed.

Lemma audio_init_initialized s : audio_initialized (audio_init s) = true.
Proof.
  destruct (audio_initialized s) eqn:Hi.
  - rewrite audio_init_done by exact Hi. exact Hi.
  - rewrite audio_init_fresh by exact Hi. cbv zeta.
    destruct stored_enable; [|reflexivity].
    rewrite init_startup_song by reflexivity.
    apply play_melody__live; reflexivity.
Qed.

Lemma audio_play_tone_inv f s : tone_inv s -> tone_inv (audio_play_tone f s).
Proof. apply play_tone__inv; first [exact audio_init_inv|exact audio_init_playing|exact audio_init_initialized]. Qed.

Lemma audio_stop_tone_inv f s : tone_inv s -> tone_inv (audio_stop_tone f s).
Proof. apply stop_tone__inv; first [exact audio_init_inv|exact audio_init_playing|exact audio_init_initialized]. Qed.

Lemma audio_stop_all_inv s : tone_inv s -> tone_inv (audio_stop_all s).
Proof. apply stop_all__inv; first [exact audio_init_inv|exact audio_init_playing|exact audio_init_initialized]. Qed.

Lemma audio_play_melody_inv np n r s : tone_inv s -> tone_inv (audio_play_melody np n r s).
Proof. apply play_melody__inv; first [exact audio_init_inv|exact audio_init_playing|exact audio_init_initialized]. Qed.

Lemma audio_play_click_inv delay f duration s :
  tone_inv s -> tone_inv (audio_play_click delay f duration s).
Proof.
  intros Hs. unfold audio_play_click. cbv zeta.
  destruct (F32.leb _ _); apply audio_play_melody_inv; auto with tone_inv.
Qed.

Lemma inv_carry_overshoot end_ s : tone_inv s -> tone_inv (carry_overshoot end_ s).
Proof. apply inv_set_note_position. Qed.

Ltac inv_steps :=
  repeat first
    [ assumption
    | apply audio_play_tone_inv
    | apply audio_stop_tone_inv
    | apply audio_stop_all_inv
    | apply inv_carry_overshoot
    | progress auto with tone_inv
    | match goal with
      | |- tone_inv (if ?b then _ else _) => destruct b
      | |- tone_inv (outcome_state (if ?b then _ else _)) => destruct b
      | |- tone_inv (outcome_state (Return _ _)) => cbn [outcome_state]
      | |- tone_inv (outcome_state (Continue _ _)) => cbn [outcome_state]
      | |- tone_inv (set_state_changed _ _) => apply inv_set_state_changed
      | |- tone_inv (set_playing_melody _ _) => apply inv_set_playing_melody
      | |- tone_inv (set_note_length _ _) => apply inv_set_note_length
      | |- tone_inv (set_note_tempo _ _) => apply inv_set_note_tempo
      | |- tone_inv (set_current_note _ _) => apply inv_set_current_note
      | |- tone_inv (set_note_position _ _) => apply inv_set_note_position
      | |- tone_inv (set_note_resting _ _) => apply inv_set_note_resting
      end ].

Lemma melody_stage_inv step end_ g s :
  tone_inv s -> tone_inv (outcome_state (melody_stage step end_ g s)).
Proof. intros Hs. unfold melody_stage. cbv zeta. inv_steps. Qed.

Lemma audio_advance_state_inv step end_ s :
  tone_inv s -> tone_inv (snd (audio_advance_state step end_ s)).
Proof.
  intros Hs. unfold audio_advance_state.
  pose proof (melody_stage_inv step end_ (note_stage s) s Hs) as Hm.
  destruct (melody_stage _ _ _ _) as [r s'|g s']; cbn [outcome_state] in Hm; [exact Hm|].
  unfold latch_stage, idle_stage.
  destruct (negb _ && negb _); destruct (state_changed _) eqn:E; cbn [snd]; inv_steps.
Qed.

Lemma tempo_inv s :
  tone_inv s ->
  forall t, tone_inv (audio_set_tempo t s) /\ tone_inv (audio_increase_tempo t s)
            /\ tone_inv (audio_decrease_tempo t s).
Proof.
  intros Hs t. unfold audio_set_tempo, audio_increase_tempo, audio_decrease_tempo.
  split; [|split]; inv_steps.
Qed.

Lemma initial_state_inv : tone_inv initial_state.
Proof.
  split; simpl; [reflexivity|stacksize; lia|exact I|reflexivity|discriminate].
Qed.

End Invariant.

Section Tones.

Context `{platform}.

Lemma audio_play_tone_sequencer f s :
  audio_enable s = true -> audio_initialized s = true ->
  sequencer (audio_play_tone f s) = sequencer s.
Proof.
  intros He Hi. rewrite audio_play_tone_ready by assumption.
  rewrite request_tone_sequencer. reflexivity.
Qed.

Lemma audio_stop_tone_sequencer f s :
  audio_initialized s = true -> sequencer (audio_stop_tone f s) = sequencer s.
Proof.
  intros Hi. rewrite audio_stop_tone_ready by assumption.
  destruct (playing_note s); [|reflexivity].
  rewrite release_tone_sequencer. reflexivity.
Qed.

(** On a subsystem that is enabled and initialized, with [n] free cells,
    [n] frequencies that differ from the active ones and from each other
    are appended in order. *)
Lemma play_tones_append fs : forall s,
  audio_enable s = true -> audio_initialized s = true -> tone_inv s ->
  (length (stack s) + length fs <= AUDIO_TONE_STACKSIZE)%nat ->
  distinct (stack s ++ map normalize fs) ->
  let s' := play_tones fs s in
  stack s' = stack s ++ map normalize fs
  /\ audio_enable s' = true /\ audio_initialized s' = true /\ tone_inv s'.
Proof.
  induction fs as [|f fs IH]; intros s He Hi Hinv Hlen Hd; simpl.
  - rewrite app_nil_r. auto.
  - pose proof Hinv as [Hl Hc _ _].
    assert (Hst : length (stack s) = Z.to_nat (active_tones s)).
    { unfold stack. apply length_take_le. stacksize. lia. }
    simpl in Hlen.
    assert (Hnone : scan_down (frequencies (emit (CallPlayTone f) s)) (normalize f)
                      (Z.to_nat (active_tones (emit (CallPlayTone f) s))) = None).
    { apply scan_down_None. intros k Hk. simpl in *.
      assert (Hdk : distinct (stack s ++ [normalize f])).
      { eapply distinct_sublist; [|exact Hd]. simpl.
        apply sublist_app; [reflexivity|]. apply sublist_skip, sublist_nil_l. }
      pose proof (distinct_delete _ (length (stack s)) Hdk) as Hf.
      rewrite delete_middle, read_at, app_nil_r in Hf.
      specialize (Hf ltac:(rewrite length_app; simpl; lia)).
      rewrite Forall_lookup in Hf. apply (Hf k).
      unfold stack. rewrite lookup_take_lt by lia.
      apply list_lookup_lookup_total_lt. stacksize. lia. }
    assert (Hstep : stack (audio_play_tone f s) = stack s ++ [normalize f]).
    { rewrite audio_play_tone_ready by assumption.
      rewrite request_tone_push by (simpl; stacksize; lia || exact Hnone).
      cbv zeta. destruct (_ =? 0); unfold stack; simpl;
        (replace (Z.to_nat (active_tones s + 1)) with (S (Z.to_nat (active_tones s)))
           by lia);
        apply take_push; stacksize; lia. }
    destruct (sequencer_ready _ _ (audio_play_tone_sequencer f s He Hi)) as [He' Hi'].
    specialize (IH (audio_play_tone f s)).
    rewrite Hstep, <- app_assoc in IH. simpl in IH.
    apply IH.
    + congruence.
    + congruence.
    + apply audio_play_tone_inv, Hinv.
    + rewrite length_app. simpl. lia.
    + exact Hd.
Qed.

End Tones.

(** ** Calls of the public functions *)

Lemma existsb_false_Forall (p : float -> bool) (l : list float) :
  existsb p l = false <-> Forall (fun y => p y = false) l.
Proof.
  induction l as [|x l IH]; simpl.
  - split; [constructor|reflexivity].
  - rewrite orb_false_iff, IH, Forall_cons. reflexivity.
Qed.

Lemma scan_down_stack (s : state) (x : float) :
  (Z.to_nat (active_tones s) <= length (frequencies s))%nat ->
  scan_down (frequencies s) x (Z.to_nat (active_tones s)) = None
  <-> existsb (fun y => F32.eqb y x) (stack s) = false.
Proof.
  intros Hle. rewrite scan_down_None, existsb_false_Forall. unfold stack. split.
  - intros Hk. apply Forall_take_below; assumption.
  - intros Hf k Hk. rewrite Forall_lookup in Hf. apply (Hf k).
    rewrite lookup_take_lt by exact Hk. apply list_lookup_lookup_total_lt. lia.
Qed.

Lemma distinct_NoDup (l : list float) :
  distinct l -> Forall (fun x => F32.eqb x x = true) l -> NoDup l.
Proof.
  induction l as [|x l IH]; simpl; [constructor|].
  intros [Hx Hd] Hr. inversion Hr; subst. constructor; [|auto].
  intros Hin. rewrite Forall_forall in Hx. specialize (Hx x Hin). congruence.
Qed.

Lemma stack_length (s : state) :
  tone_inv s -> length (stack s) = Z.to_nat (active_tones s).
Proof. intros [Hl Hc _ _ _]. unfold stack. apply length_take_le. stacksize. lia. Qed.

Section Calls.

Context `{platform}.

Lemma exec_inv c s : tone_inv s -> tone_inv (exec c s).
Proof.
  intros Hs. destruct c; simpl;
    auto using audio_init_inv, audio_stop_all_inv, audio_stop_tone_inv,
      audio_play_tone_inv, audio_play_melody_inv, audio_play_click_inv,
      audio_advance_state_inv;
    apply tempo_inv, Hs.
Qed.

Lemma run_inv cs : forall s, tone_inv s -> tone_inv (run cs s).
Proof.
  induction cs as [|c cs IH]; intros s Hs; simpl; [exact Hs|].
  apply IH, exec_inv, Hs.
Qed.

Lemma play_tones_inv fs : forall s, tone_inv s -> tone_inv (play_tones fs s).
Proof.
  induction fs as [|f fs IH]; intros s Hs; simpl; [exact Hs|].
  apply IH, audio_play_tone_inv, Hs.
Qed.

Lemma reachable_inv cs : tone_inv (run cs initial_state).
Proof. apply run_inv, initial_state_inv. Qed.

End Calls.

(** ** The paths through the melody block of [audio_advance_state] *)

Section Paths.
Context `{platform}.
Variables (step : Z) (end_ : float) (g : bool) (s : state).

Local Abbreviation stepped := (stepped step s).
Local Abbreviation note_over := (note_over step end_ s).
Local Abbreviation advanced := (advanced step s).

Lemma melody_stage_idle :
  playing_melody s = false -> melody_stage step end_ g s = Continue g s.
Proof. intros Hm. unfold melody_stage. rewrite Hm. reflexivity. Qed.

Lemma melody_stage_wait :
  playing_melody s = true -> note_over = false ->
  melody_stage step end_ g s = Continue false stepped.
Proof.
  intros Hm Hg. unfold melody_stage. rewrite Hm. cbv zeta.
  fold stepped. fold note_over. rewrite Hg. reflexivity.
Qed.

Lemma melody_stage_end :
  playing_melody s = true -> note_over = true ->
  (notes_count s <=? current_note advanced) = true -> notes_repeat s = false ->
  melody_stage step end_ g s
  = Return true (audio_stop_tone (note_frequency s (current_note s))
                   (set_playing_melody false advanced)).
Proof.
  intros Hm Hg He Hr. unfold melody_stage. rewrite Hm. cbv zeta.
  fold stepped. fold note_over. rewrite Hg.
  change (current_note stepped) with (current_note s). fold advanced.
  change (notes_count advanced) with (notes_count s).
  change (notes_repeat advanced) with (notes_repeat s).
  rewrite He, Hr. reflexivity.
Qed.

Lemma melody_stage_rest :
  playing_melody s = true -> note_over = true ->
  (notes_count s <=? current_note advanced) = false ->
  note_resting s = false ->
  F32.eqb (note_frequency s (current_note s)) (note_frequency s (current_note advanced))
  = true ->
  melody_stage step end_ g s
  = Continue true
      (let s1 := set_current_note (current_note s) (set_note_resting true advanced) in
       let s2 := audio_play_tone F32.zero s1 in
       let s3 := audio_stop_tone (note_frequency s2 (current_note s)) s2 in
       let s4 := carry_overshoot end_ s3 in
       set_note_length (F32.mul (F32.of_int 2) (tempo_scale s4)) s4).
Proof.
  intros Hm Hg He Hr Hf. unfold melody_stage. rewrite Hm. cbv zeta.
  fold stepped. fold note_over. rewrite Hg.
  change (current_note stepped) with (current_note s). fold advanced.
  change (notes_count advanced) with (notes_count s).
  rewrite He. cbn [andb].
  change (note_resting advanced) with (note_resting s). rewrite Hr. cbn [negb andb].
  change (note_frequency advanced) with (note_frequency s). rewrite Hf.
  reflexivity.
Qed.

Lemma melody_stage_next :
  playing_melody s = true -> note_over = true ->
  (notes_count s <=? current_note advanced) = false ->
  negb (note_resting s)
  && F32.eqb (note_frequency s (current_note s)) (note_frequency s (current_note advanced))
  = false ->
  melody_stage step end_ g s
  = Continue true
      (let s1 := set_note_resting false advanced in
       let s2 := audio_play_tone (note_frequency s1 (current_note s1)) s1 in
       let s3 :=
         if negb (F32.eqb (note_frequency s2 (current_note s))
                          (note_frequency s2 (current_note s2)))
         then audio_stop_tone (note_frequency s2 (current_note s)) s2
         else s2 in
       let s4 := carry_overshoot end_ s3 in
       set_note_length (F32.mul (note_duration s4 (current_note s4)) (tempo_scale s4)) s4).
Proof.
  intros Hm Hg He Hf. unfold melody_stage. rewrite Hm. cbv zeta.
  fold stepped. fold note_over. rewrite Hg.
  change (current_note stepped) with (current_note s). fold advanced.
  change (notes_count advanced) with (notes_count s).
  rewrite He. cbn [andb].
  change (note_resting advanced) with (note_resting s).
  change (note_frequency advanced) with (note_frequency s). rewrite Hf.
  reflexivity.
Qed.

End Paths.

(** ** A melody in flight *)

Lemma scan_down_S fr x i :
  scan_down fr x (S i) = if F32.eqb (fr !!! i) x then Some i else scan_down fr x i.
Proof. reflexivity. Qed.

Lemma normalize_zero : normalize F32.zero = F32.zero.
Proof. reflexivity. Qed.

Section Machine.

Context `{platform}.

(** The song, and what a run of ticks leaves alone. *)
Variables (notes : list note) (count : Z) (rep : bool).
Variables (T : Z) (ck : list note) (v g : bool).

Local Abbreviation mk := (mk notes count rep T ck v g).
Local Abbreviation pitch := (pitch notes).
Local Abbreviation scale := (scale T).

Lemma play_tone_mk a fr pm pn chg nl cur pos rest tr x :
  1 <= a < Z.of_nat AUDIO_TONE_STACKSIZE ->
  scan_down fr (normalize x) (Z.to_nat a) = None ->
  audio_play_tone x (mk a fr pm pn chg nl cur pos rest tr)
  = mk (a + 1) (<[Z.to_nat a := normalize x]> fr) pm true true nl cur pos rest
       (tr ++ [CallPlayTone x]).
Proof.
  intros Ha Hs. rewrite audio_play_tone_ready by reflexivity.
  change (emit (CallPlayTone x) (mk a fr pm pn chg nl cur pos rest tr))
    with (mk a fr pm pn chg nl cur pos rest (tr ++ [CallPlayTone x])).
  rewrite request_tone_push;
    [|change (0 <= a < Z.of_nat AUDIO_TONE_STACKSIZE); lia|exact Hs]. cbv zeta.
  change (active_tones (mk a fr pm pn chg nl cur pos rest (tr ++ [CallPlayTone x])))
    with a.
  destruct (Z.eqb_spec a 0); [lia|]. reflexivity.
Qed.

Lemma play_tone_mk_first fr pm pn chg nl cur pos rest tr x :
  audio_play_tone x (mk 0 fr pm pn chg nl cur pos rest tr)
  = mk 1 (<[0%nat := normalize x]> fr) pm true true nl cur pos rest
       ((tr ++ [CallPlayTone x]) ++ [DriverStart]).
Proof.
  rewrite audio_play_tone_ready by reflexivity.
  change (emit (CallPlayTone x) (mk 0 fr pm pn chg nl cur pos rest tr))
    with (mk 0 fr pm pn chg nl cur pos rest (tr ++ [CallPlayTone x])).
  rewrite request_tone_push; [reflexivity|stacksize; simpl; lia|reflexivity].
Qed.

Lemma stop_tone_mk a fr pm chg nl cur pos rest tr x i :
  2 <= a <= Z.of_nat AUDIO_TONE_STACKSIZE -> length fr = AUDIO_TONE_STACKSIZE ->
  scan_down fr (normalize x) AUDIO_TONE_STACKSIZE = Some i ->
  audio_stop_tone x (mk a fr pm true chg nl cur pos rest tr)
  = mk (a - 1) (delete i fr ++ [F32.minus_one]) pm true true nl cur pos rest
       (tr ++ [CallStopTone x]).
Proof.
  intros Ha Hl Hs. rewrite audio_stop_tone_ready by reflexivity.
  change (playing_note (mk a fr pm true chg nl cur pos rest tr)) with true. cbv iota.
  change (emit (CallStopTone x) (mk a fr pm true chg nl cur pos rest tr))
    with (mk a fr pm true chg nl cur pos rest (tr ++ [CallStopTone x])).
  rewrite (release_tone_found _ _ i); [|exact Hl| |exact Hs].
  2:{ change (active_tones (mk a fr pm true chg nl cur pos rest (tr ++ [CallStopTone x])))
        with a. change (Z.of_nat AUDIO_TONE_STACKSIZE) with 8 in Ha. lia. }
  cbv zeta.
  change (active_tones (mk a fr pm true chg nl cur pos rest (tr ++ [CallStopTone x])))
    with a.
  destruct (Z.eqb_spec a 1); [lia|]. reflexivity.
Qed.

(** The note is not over: only [note_position] moves (and the latch falls). *)
Lemma tick_wait a fr chg nl cur pos rest tr step end_ :
  over nl pos step end_ = false ->
  audio_advance_state step end_ (mk a fr true true chg nl cur pos rest tr)
  = (chg, mk a fr true true false nl cur (wrap32 (pos + step)) rest tr).
Proof.
  intros G. unfold audio_advance_state.
  rewrite melody_stage_wait; [|reflexivity|exact G].
  unfold stepped, idle_stage, latch_stage. simpl. destruct chg; reflexivity.
Qed.

(** The melody is over and a tone is left: nothing moves (but the latch). *)
Lemma tick_idle a fr chg nl cur pos rest tr step end_ :
  audio_advance_state step end_ (mk a fr false true chg nl cur pos rest tr)
  = (chg || (v || g), mk a fr false true false nl cur pos rest tr).
Proof.
  unfold audio_advance_state. rewrite melody_stage_idle by reflexivity.
  unfold idle_stage, latch_stage, note_stage. simpl.
  destruct chg; [reflexivity|]. destruct (v || g); reflexivity.
Qed.

(** Two notes of one pitch in a row: the rest is inserted. *)
Lemma tick_rest a fr chg nl cur pos tr step end_ i :
  over nl pos step end_ = true ->
  (count <=? wrap16 (cur + 1)) = false ->
  F32.eqb (pitch cur) (pitch (wrap16 (cur + 1))) = true ->
  1 <= a < Z.of_nat AUDIO_TONE_STACKSIZE -> length fr = AUDIO_TONE_STACKSIZE ->
  scan_down fr F32.zero (Z.to_nat a) = None ->
  scan_down (<[Z.to_nat a := F32.zero]> fr) (normalize (pitch cur)) AUDIO_TONE_STACKSIZE
  = Some i ->
  audio_advance_state step end_ (mk a fr true true chg nl cur pos false tr)
  = (true,
     mk a (delete i (<[Z.to_nat a := F32.zero]> fr) ++ [F32.minus_one]) true true false
        (F32.mul (F32.of_int 2) scale) cur (carried nl pos step end_) true
        (tr ++ [CallPlayTone F32.zero; CallStopTone (pitch cur)])).
Proof.
  intros G He Hp Ha Hl Hs0 Hs1. unfold audio_advance_state.
  rewrite melody_stage_rest; [|reflexivity|exact G|exact He|reflexivity|exact Hp].
  cbv zeta.
  change (set_current_note (current_note (mk a fr true true chg nl cur pos false tr))
            (set_note_resting true
               (advanced step (mk a fr true true chg nl cur pos false tr))))
    with (mk a fr true true chg nl cur (wrap32 (pos + step)) true tr).
  rewrite play_tone_mk; [|exact Ha|rewrite normalize_zero; exact Hs0].
  rewrite normalize_zero.
  change (note_frequency (mk _ _ _ _ _ _ _ _ _ _) _) with (pitch cur).
  rewrite (stop_tone_mk _ _ _ _ _ _ _ _ _ _ i);
    [|change (Z.of_nat AUDIO_TONE_STACKSIZE) with 8 in *; lia
     |rewrite length_insert; exact Hl|exact Hs1].
  unfold idle_stage, latch_stage. simpl.
  replace (a + 1 - 1) with a by lia. rewrite <- app_assoc. reflexivity.
Qed.

(** The note after a rest, or a note of another pitch than the one before:
    it is requested, and the one before is released when the two differ. *)
Lemma tick_resume a fr chg nl cur pos rest tr step end_ :
  over nl pos step end_ = true ->
  (count <=? wrap16 (cur + 1)) = false ->
  rest = true ->
  F32.eqb (pitch cur) (pitch (wrap16 (cur + 1))) = true ->
  1 <= a < Z.of_nat AUDIO_TONE_STACKSIZE ->
  scan_down fr (normalize (pitch (wrap16 (cur + 1)))) (Z.to_nat a) = None ->
  audio_advance_state step end_ (mk a fr true true chg nl cur pos rest tr)
  = (true,
     mk (a + 1) (<[Z.to_nat a := normalize (pitch (wrap16 (cur + 1)))]> fr) true true false
        (F32.mul (snd (notes !!! Z.to_nat (wrap16 (cur + 1)))) scale) (wrap16 (cur + 1))
        (carried nl pos step end_) false
        (tr ++ [CallPlayTone (pitch (wrap16 (cur + 1)))])).
Proof.
  intros G He -> Hp Ha Hs. unfold audio_advance_state.
  rewrite melody_stage_next; [|reflexivity|exact G|exact He|reflexivity].
  cbv zeta.
  change (set_note_resting false (advanced step (mk a fr true true chg nl cur pos true tr)))
    with (mk a fr true true chg nl (wrap16 (cur + 1)) (wrap32 (pos + step)) false tr).
  change (note_frequency (mk _ _ _ _ _ _ _ _ _ _) (current_note (mk _ _ _ _ _ _ _ _ _ _)))
    with (pitch (wrap16 (cur + 1))).
  rewrite play_tone_mk; [|exact Ha|exact Hs].
  change (note_frequency (mk _ _ _ _ _ _ _ _ _ _)
            (current_note (mk a fr true true chg nl cur pos true tr)))
    with (pitch cur).
  change (note_frequency (mk _ _ _ _ _ _ _ _ _ _) (current_note (mk _ _ _ _ _ _ _ _ _ _)))
    with (pitch (wrap16 (cur + 1))).
  rewrite Hp. cbn [negb].
  unfold idle_stage, latch_stage. simpl. reflexivity.
Qed.

(** The last note of a melody that does not repeat is over, and another
    tone stays active. *)
Lemma tick_end a fr chg nl cur pos rest tr step end_ i :
  rep = false ->
  over nl pos step end_ = true ->
  (count <=? wrap16 (cur + 1)) = true ->
  2 <= a <= Z.of_nat AUDIO_TONE_STACKSIZE -> length fr = AUDIO_TONE_STACKSIZE ->
  scan_down fr (normalize (pitch cur)) AUDIO_TONE_STACKSIZE = Some i ->
  audio_advance_state step end_ (mk a fr true true chg nl cur pos rest tr)
  = (true,
     mk (a - 1) (delete i fr ++ [F32.minus_one]) false true true nl (wrap16 (cur + 1))
        (wrap32 (pos + step)) rest (tr ++ [CallStopTone (pitch cur)])).
Proof.
  intros Hr G He Ha Hl Hs. unfold audio_advance_state.
  rewrite melody_stage_end; [|reflexivity|exact G|exact He|exact Hr].
  change (set_playing_melody false (advanced step (mk a fr true true chg nl cur pos rest tr)))
    with (mk a fr false true chg nl (wrap16 (cur + 1)) (wrap32 (pos + step)) rest tr).
  change (note_frequency (mk _ _ _ _ _ _ _ _ _ _) _) with (pitch cur).
  rewrite (stop_tone_mk _ _ _ _ _ _ _ _ _ _ i); [reflexivity|exact Ha|exact Hl|exact Hs].
Qed.

End Machine.

(** ** Normalized frequencies *)

(** A rounded result keeps the sign it was given. *)
Lemma binary_round_aux_sign sx mx ex lx :
  match binary_round_aux F32.prec F32.emax sx mx ex lx with
  | S754_zero s | S754_infinity s | S754_finite s _ _ => s = sx
  | S754_nan => True
  end.
Proof.
  unfold binary_round_aux.
  destruct (shr_fexp _ _ _ _ _) as [mrs' e'].
  destruct (shr_fexp _ _ _ _ _) as [mrs'' e''].
  destruct (shr_m mrs''); [reflexivity| |exact I].
  destruct (_ <=? _); reflexivity.
Qed.

(** No normalized frequency compares equal to [-1.0f], the filler of the
    cells past the stack. *)
Lemma minus_one_normalize (f : float) : F32.eqb F32.minus_one (normalize f) = false.
Proof.
  unfold normalize. destruct (F32.ltb f F32.zero) eqn:Hlt.
  - destruct f as [s|s| |s m e]; try discriminate.
    + destruct s; [reflexivity|discriminate].
    + destruct s; [|discriminate].
      change (F32.of_int (-1)) with (S754_finite true 8388608 (-23)).
      unfold F32.mul, SFmul. cbn [xorb].
      pose proof (binary_round_aux_sign false (Z.pos (8388608 * m)) (-23 + e) loc_Exact)
        as Hs.
      destruct (binary_round_aux _ _ _ _ _ _) as [s|s| |s m' e']; subst; reflexivity.
  - destruct f as [s|s| |s m e]; try reflexivity.
    + destruct s; [discriminate|reflexivity].
    + destruct s; [discriminate|reflexivity].
Qed.

(** A rounded result of a mantissa that is not negative is a number. *)
Lemma iter_pos_keeps {A : Type} (P : A -> Prop) (f : A -> A) :
  (forall x, P x -> P (f x)) -> forall p x, P x -> P (SpecFloat.iter_pos f p x).
Proof. intros Hf. induction p; intros x Hx; simpl; auto. Qed.

Lemma shr_1_nonneg (mrs : shr_record) : 0 <= shr_m mrs -> 0 <= shr_m (shr_1 mrs).
Proof. destruct mrs as [m r s]. simpl. destruct m as [|[p|p|]|p]; simpl; lia. Qed.

Lemma shr_fexp_nonneg (m e : Z) (l : location) :
  0 <= m -> 0 <= shr_m (fst (shr_fexp F32.prec F32.emax m e l)).
Proof.
  intros Hm. unfold shr_fexp, shr.
  assert (H0 : 0 <= shr_m (shr_record_of_loc m l)) by (destruct l as [|[]]; exact Hm).
  destruct (_ - e); cbn [fst]; [exact H0| |exact H0].
  apply iter_pos_keeps; [exact shr_1_nonneg|exact H0].
Qed.

Lemma binary_round_aux_number (sx : bool) (mx ex : Z) (lx : location) :
  0 <= mx -> binary_round_aux F32.prec F32.emax sx mx ex lx <> S754_nan.
Proof.
  intros Hm. unfold binary_round_aux.
  pose proof (shr_fexp_nonneg mx ex lx Hm) as H1.
  destruct (shr_fexp _ _ mx ex lx) as [mrs' e']. cbn [fst] in H1.
  assert (H2 : 0 <= round_nearest_even (shr_m mrs') (loc_of_shr_record mrs')).
  { unfold round_nearest_even. destruct (loc_of_shr_record mrs') as [|[]]; try lia.
    destruct (Z.even _); lia. }
  apply (shr_fexp_nonneg _ e' loc_Exact) in H2.
  destruct (shr_fexp _ _ _ e' loc_Exact) as [mrs'' e'']. cbn [fst] in H2.
  destruct (shr_m mrs''); [discriminate|destruct (_ <=? _); discriminate|lia].
Qed.

Lemma eqb_refl (x : float) : x <> S754_nan -> F32.eqb x x = true.
Proof.
  intros Hx. apply eqb_class. destruct x; try congruence; eexists; split; reflexivity.
Qed.

(** A frequency that is a number stays one when it is normalized. *)
Lemma normalize_eqb (f : float) :
  F32.eqb f f = true -> F32.eqb (normalize f) (normalize f) = true.
Proof.
  intros Hf. unfold normalize. destruct (F32.ltb f F32.zero); [|exact Hf].
  apply eqb_refl. destruct f as [s|s| |s m e]; try discriminate.
  change (F32.of_int (-1)) with (S754_finite true 8388608 (-23)).
  unfold F32.mul, SFmul. apply binary_round_aux_number. lia.
Qed.
(** ** Two notes of one pitch *)

Section SameNote.

Context `{platform}.

Variables (f d1 d2 : float).
Hypothesis f_eq : F32.eqb f f = true.
Hypothesis nf_sound : F32.eqb (normalize f) F32.zero = false.

Variables (T : Z) (ck : list note) (v g : bool) (tr0 : list event).

Local Abbreviation phase_state := (phase_state f d1 d2 T ck v g tr0).
Local Abbreviation next_phase := (next_phase d1 d2 T).
Local Abbreviation run_phases := (run_phases d1 d2 T).

Lemma phase_trace tl p pos chg :
  trace (phase_state tl p pos chg) = tr0 ++ phase_events f p.
Proof. destruct p; simpl; rewrite ?app_nil_r; reflexivity. Qed.

Lemma nf_eq : F32.eqb (normalize f) (normalize f) = true.
Proof. apply normalize_eqb. exact f_eq. Qed.

Lemma zero_nf : F32.eqb F32.zero (normalize f) = false.
Proof. rewrite eqb_sym. exact nf_sound. Qed.

Ltac open_tail Hfree :=
  let Hl := fresh "Hl" in
  let F1 := fresh "F" in let F2 := fresh "F" in let F3 := fresh "F" in
  let F4 := fresh "F" in let F5 := fresh "F" in let F6 := fresh "F" in
  let F7 := fresh "F" in let Hf := fresh "Hf" in
  destruct Hfree as [Hl Hf];
  match type of Hl with
  | length ?tl = _ =>
      destruct tl as [|? [|? [|? [|? [|? [|? [|? [|? ?]]]]]]]]; try discriminate Hl
  end;
  apply Forall_cons in Hf as [F1 Hf]; apply Forall_cons in Hf as [F2 Hf];
  apply Forall_cons in Hf as [F3 Hf]; apply Forall_cons in Hf as [F4 Hf];
  apply Forall_cons in Hf as [F5 Hf]; apply Forall_cons in Hf as [F6 Hf];
  apply Forall_cons in Hf as [F7 Hf]; clear Hl Hf.

Ltac scan :=
  unfold pitch; simpl;
  repeat match goal with
         | |- context [Z.to_nat ?z] =>
             let n := eval vm_compute in (Z.to_nat z) in change (Z.to_nat z) with n
         end;
  unfold AUDIO_TONE_STACKSIZE;
  repeat (rewrite scan_down_S; simpl;
          rewrite ?minus_one_normalize, ?zero_nf, ?nf_eq, ?nf_sound;
          repeat match goal with
                 | E : F32.eqb ?x (normalize f) = false |- context [F32.eqb ?x (normalize f)] =>
                     rewrite E
                 end);
  reflexivity.

Lemma first_to_rest tl pos chg step end_ :
  free_tail f tl ->
  over (F32.mul d1 (scale T)) pos step end_ = true ->
  audio_advance_state step end_ (phase_state tl First pos chg)
  = (true, phase_state tl Rest (carried (F32.mul d1 (scale T)) pos step end_) false).
Proof.
  intros Hfree G. open_tail Hfree. unfold phase_state.
  rewrite (tick_rest _ _ _ _ _ _ _ _ _ _ _ _ _ _ _ _ 0%nat);
    [reflexivity|exact G|reflexivity|exact f_eq|stacksize; lia|reflexivity|scan|scan].
Qed.

Lemma rest_to_second tl pos chg step end_ :
  free_tail f tl ->
  over (F32.mul (F32.of_int 2) (scale T)) pos step end_ = true ->
  audio_advance_state step end_ (phase_state tl Rest pos chg)
  = (true, phase_state tl Second
             (carried (F32.mul (F32.of_int 2) (scale T)) pos step end_) false).
Proof.
  intros Hfree G. open_tail Hfree. unfold phase_state.
  rewrite tick_resume;
    [|exact G|reflexivity|reflexivity|exact f_eq|stacksize; lia|scan].
  rewrite <- app_assoc. reflexivity.
Qed.

Lemma second_to_done tl pos chg step end_ :
  free_tail f tl ->
  over (F32.mul d2 (scale T)) pos step end_ = true ->
  audio_advance_state step end_ (phase_state tl Second pos chg)
  = (true, phase_state tl Done (wrap32 (pos + step)) true).
Proof.
  intros Hfree G. open_tail Hfree. unfold phase_state.
  rewrite (tick_end _ _ _ _ _ _ _ _ _ _ _ _ _ _ _ _ _ 1%nat);
    [|reflexivity|exact G|reflexivity|stacksize; lia|reflexivity|scan].
  rewrite <- app_assoc. reflexivity.
Qed.

(** A tick moves the sequencer on by at most one phase, never back. *)
Lemma phase_tick tl p pos chg t :
  free_tail f tl ->
  exists chg',
    tick t (phase_state tl p pos chg)
    = phase_state tl (fst (next_phase p pos t)) (snd (next_phase p pos t)) chg'.
Proof.
  intros Hfree. destruct t as [step end_]. unfold tick, next_phase. cbn [fst snd].
  destruct p.
  - destruct (over (F32.mul d1 (scale T)) pos step end_) eqn:G.
    + rewrite first_to_rest by assumption. eexists. reflexivity.
    + unfold phase_state. rewrite tick_wait by exact G. eexists. reflexivity.
  - destruct (over (F32.mul (F32.of_int 2) (scale T)) pos step end_) eqn:G.
    + rewrite rest_to_second by assumption. eexists. reflexivity.
    + unfold phase_state. rewrite tick_wait by exact G. eexists. reflexivity.
  - destruct (over (F32.mul d2 (scale T)) pos step end_) eqn:G.
    + rewrite second_to_done by assumption. eexists. reflexivity.
    + unfold phase_state. rewrite tick_wait by exact G. eexists. reflexivity.
  - unfold phase_state. rewrite tick_idle. eexists. reflexivity.
Qed.

Lemma phase_run tl ts : forall p pos chg,
  free_tail f tl ->
  exists chg',
    run_ticks ts (phase_state tl p pos chg)
    = phase_state tl (fst (run_phases ts p pos)) (snd (run_phases ts p pos)) chg'.
Proof.
  induction ts as [|t ts IH]; intros p pos chg Hfree; simpl.
  - eexists. reflexivity.
  - destruct (phase_tick tl p pos chg t Hfree) as (chg1 & ->).
    unfold run_phases. simpl. destruct (next_phase p pos t) as [p1 pos1].
    apply IH. exact Hfree.
Qed.

End SameNote.

(** [audio_play_melody] on a ready subsystem puts the sequencer on the first
    note. *)
Lemma play_melody_first `{platform} (f d1 d2 : float) (s0 : state) :
  ready f s0 ->
  exists tl, free_tail f tl /\
  audio_play_melody (Song [(f, d1); (f, d2)]) 2 false s0
  = phase_state f d1 d2 (note_tempo s0) (click s0) (vibrato s0) (glissando s0)
      ((trace s0 ++ (if playing_note s0 then [DriverStop] else []))
         ++ [CallPlayTone f; DriverStart])
      tl First 0 true.
Proof.
  intros (He & Hi & [Hl Ha _ Hp _] & Hc).
  exists (if playing_note s0 then replicate 7 F32.minus_one else drop 1 (frequencies s0)).
  split.
  { destruct (playing_note s0); [|apply Hc; reflexivity].
    split; [reflexivity|]. repeat constructor; apply minus_one_normalize. }
  rewrite audio_play_melody_ready by assumption. cbv zeta.
  match goal with |- audio_play_tone _ ?X = _ =>
    assert (E : X = mk [(f, d1); (f, d2)] 2 false (note_tempo s0) (click s0) (vibrato s0)
                       (glissando s0) 0
                       (if playing_note s0 then replicate 8 F32.minus_one
                        else frequencies s0) true false
                       (state_changed s0) (F32.mul d1 (scale (note_tempo s0))) 0 0 false
                       (trace s0 ++ (if playing_note s0 then [DriverStop] else [])))
  end.
  { destruct (playing_note s0) eqn:Hpn.
    - apply state_eq; try reflexivity; try assumption.
      simpl. apply silence_frequencies. exact Hl.
    - symmetry in Hp. apply Z.leb_gt in Hp.
      apply state_eq; try reflexivity; try assumption; simpl.
      + lia.
      + rewrite app_nil_r. reflexivity. }
  rewrite E. change (note_frequency (mk _ _ _ _ _ _ _ _ _ _ _ _ _ _ _ _ _) _) with f.
  rewrite play_tone_mk_first. unfold phase_state. rewrite <- !app_assoc.
  destruct (playing_note s0); [reflexivity|].
  destruct (frequencies s0) as [|x0 fr]; [discriminate Hl|]. reflexivity.
Qed.

(** The whole playback: after any run of ticks the sequencer is in one of
    the four phases. *)
Lemma same_note_run `{platform} (f d1 d2 : float) (s0 : state) (ts : list (Z * float)) :
  F32.eqb f f = true -> F32.eqb (normalize f) F32.zero = false -> ready f s0 ->
  let s1 := audio_play_melody (Song [(f, d1); (f, d2)]) 2 false s0 in
  let q := run_phases d1 d2 (note_tempo s0) ts First 0 in
  trace s1 = trace s0 ++ (if playing_note s0 then [DriverStop] else [])
               ++ [CallPlayTone f; DriverStart]
  /\ exists tl chg,
       run_ticks ts s1
       = phase_state f d1 d2 (note_tempo s0) (click s0) (vibrato s0) (glissando s0)
           (trace s1) tl (fst q) (snd q) chg.
Proof.
  intros Hf Hz Hr s1 q.
  destruct (play_melody_first f d1 d2 s0 Hr) as (tl & Hfree & E).
  assert (Et : trace s1 = (trace s0 ++ (if playing_note s0 then [DriverStop] else []))
                            ++ [CallPlayTone f; DriverStart])
    by (unfold s1; rewrite E; reflexivity).
  split; [rewrite Et, <- app_assoc; reflexivity|].
  exists tl. unfold s1 at 1. rewrite E, <- Et.
  apply phase_run; assumption.
Qed.

(** ** The length of a melody *)

(** *** Whole numbers as [float] *)

(** The number of bits of a positive number. *)
Lemma digits_bounds (p : positive) :
  2 ^ (Z.pos (digits2_pos p) - 1) <= Z.pos p < 2 ^ Z.pos (digits2_pos p).
Proof.
  induction p as [p IH|p IH|]; cbn [digits2_pos]; [| |simpl; lia];
    rewrite Pos2Z.inj_succ;
    (replace (Z.succ (Z.pos (digits2_pos p)) - 1) with (Z.succ (Z.pos (digits2_pos p) - 1))
       by lia);
    rewrite !Z.pow_succ_r by lia; lia.
Qed.

Lemma digits_unique (p : positive) (d : Z) :
  2 ^ (d - 1) <= Z.pos p < 2 ^ d -> Z.pos (digits2_pos p) = d.
Proof.
  intros Hd. pose proof (digits_bounds p) as Hp.
  assert (H0 : 0 < d).
  { destruct (Z.ltb_spec 0 d) as [|Hle]; [assumption|].
    destruct (Z.eq_dec d 0) as [->|]; [simpl in Hd; lia|].
    rewrite (Z.pow_neg_r 2 d) in Hd by lia. lia. }
  assert (H1 : Z.pos (digits2_pos p) - 1 < d).
  { apply (Z.pow_lt_mono_r_iff 2); lia. }
  assert (H2 : d - 1 < Z.pos (digits2_pos p)).
  { apply (Z.pow_lt_mono_r_iff 2); lia. }
  lia.
Qed.

(** Shifts to the left, and to the right again. *)
Lemma iter_xO_pow (m k : positive) : Z.pos (Pos.iter xO m k) = Z.pos m * 2 ^ Z.pos k.
Proof.
  induction k as [|k IH] using Pos.peano_ind.
  - simpl. lia.
  - rewrite Pos.iter_succ, Pos2Z.inj_xO, IH, Pos2Z.inj_succ, Z.pow_succ_r by lia. lia.
Qed.

Lemma iter_pos_iter {A : Type} (f : A -> A) (k : positive) :
  forall x, SpecFloat.iter_pos f k x = Pos.iter f x k.
Proof.
  induction k as [k IH|k IH|]; intros x; simpl.
  - rewrite !IH, !Pos.iter_swap. reflexivity.
  - rewrite !IH. reflexivity.
  - reflexivity.
Qed.

Lemma shr_iter_xO (k : positive) : forall m,
  SpecFloat.iter_pos shr_1 k {| shr_m := Z.pos (Pos.iter xO m k); shr_r := false; shr_s := false |}
  = {| shr_m := Z.pos m; shr_r := false; shr_s := false |}.
Proof.
  intros m. rewrite iter_pos_iter. revert m.
  induction k as [|k IH] using Pos.peano_ind; intros m.
  - reflexivity.
  - rewrite !Pos.iter_succ.
    replace (xO (Pos.iter xO m k)) with (Pos.iter xO (xO m) k) by apply Pos.iter_swap.
    rewrite IH. reflexivity.
Qed.

(** A mantissa of 24 bits followed by [t] zero bits is rounded to its 24
    bits, and nothing is lost. *)
Lemma shr_fexp_exact (m n : positive) (x t : Z) :
  Z.pos (digits2_pos m) = 24 -> 0 <= t -> -149 <= x + t ->
  Z.pos n = Z.pos m * 2 ^ t ->
  shr_fexp F32.prec F32.emax (Z.pos n) x loc_Exact
  = ({| shr_m := Z.pos m; shr_r := false; shr_s := false |}, x + t).
Proof.
  intros Hd Ht Hx Hn.
  assert (Hdn : Z.pos (digits2_pos n) = 24 + t).
  { apply digits_unique. rewrite Hn. pose proof (digits_bounds m) as Hm. rewrite Hd in Hm.
    replace (24 + t - 1) with (23 + t) by lia. rewrite !Z.pow_add_r by lia.
    change (24 - 1) with 23 in Hm.
    assert (0 < 2 ^ t) by (apply Z.pow_pos_nonneg; lia). nia. }
  unfold shr_fexp, shr. cbn [Zdigits2 shr_record_of_loc].
  replace (fexp F32.prec F32.emax (Z.pos (digits2_pos n) + x) - x) with t
    by (rewrite Hdn; unfold fexp, emin, F32.prec, F32.emax; lia).
  destruct t as [|k|k]; [| |lia].
  - rewrite Z.pow_0_r, Z.mul_1_r in Hn. injection Hn as ->.
    rewrite Z.add_0_r. reflexivity.
  - rewrite <- iter_xO_pow in Hn. injection Hn as ->.
    rewrite shr_iter_xO. reflexivity.
Qed.

Lemma round_exact (s : bool) (m n : positive) (x t : Z) :
  Z.pos (digits2_pos m) = 24 -> 0 <= t -> -149 <= x + t <= 104 ->
  Z.pos n = Z.pos m * 2 ^ t ->
  binary_round_aux F32.prec F32.emax s (Z.pos n) x loc_Exact = S754_finite s m (x + t).
Proof.
  intros Hd Ht Hx Hn. unfold binary_round_aux.
  rewrite (shr_fexp_exact m n x t) by (assumption || lia).
  cbn [shr_m loc_of_shr_record round_nearest_even].
  rewrite (shr_fexp_exact m m (x + t) 0) by (assumption || lia).
  cbn [shr_m]. rewrite Z.add_0_r.
  replace (x + t <=? F32.emax - F32.prec) with true
    by (symmetry; apply Z.leb_le; unfold F32.emax, F32.prec; lia).
  reflexivity.
Qed.

(** The mantissa of [whole q] has 24 bits. *)
Lemma width_bounds (q : Z) : 1 <= q -> 2 ^ (width q - 1) <= q < 2 ^ width q.
Proof.
  intros Hq. unfold width. pose proof (digits_bounds (Z.to_pos q)) as Hb.
  rewrite Z2Pos.id in Hb by lia. exact Hb.
Qed.

Lemma width_range (q : Z) : 1 <= q < 2 ^ 24 -> 1 <= width q <= 24.
Proof.
  intros Hq. pose proof (width_bounds q ltac:(lia)) as Hb.
  split; [unfold width; lia|].
  assert (width q - 1 < 24); [|lia].
  apply (Z.pow_lt_mono_r_iff 2); lia.
Qed.

Lemma whole_mantissa (q : Z) :
  1 <= q < 2 ^ 24 ->
  2 ^ 23 <= q * 2 ^ (24 - width q) < 2 ^ 24.
Proof.
  intros Hq. pose proof (width_bounds q ltac:(lia)) as Hb.
  pose proof (width_range q Hq) as Hw.
  assert (H23 : 2 ^ 23 = 2 ^ (width q - 1) * 2 ^ (24 - width q))
    by (rewrite <- Z.pow_add_r by lia; f_equal; lia).
  assert (H24 : 2 ^ 24 = 2 ^ width q * 2 ^ (24 - width q))
    by (rewrite <- Z.pow_add_r by lia; f_equal; lia).
  rewrite H23, H24.
  assert (0 < 2 ^ (24 - width q)) by (apply Z.pow_pos_nonneg; lia).
  split; [apply Z.mul_le_mono_nonneg_r; lia|apply Z.mul_lt_mono_pos_r; lia].
Qed.

Lemma whole_digits (q : Z) :
  1 <= q < 2 ^ 24 -> Z.pos (digits2_pos (Z.to_pos (q * 2 ^ (24 - width q)))) = 24.
Proof.
  intros Hq. pose proof (whole_mantissa q Hq) as Hm.
  apply digits_unique. rewrite Z2Pos.id by lia. exact Hm.
Qed.

(** However [q] is written as a mantissa and an exponent, it is normalized
    to [whole q]. *)
Lemma normalize_whole (q k : Z) :
  1 <= q < 2 ^ 24 -> 0 <= k ->
  binary_normalize F32.prec F32.emax (q * 2 ^ k) (- k) false = whole q.
Proof.
  intros Hq Hk. pose proof (width_bounds q ltac:(lia)) as Hb.
  pose proof (width_range q Hq) as Hw. pose proof (whole_mantissa q Hq) as Hm.
  assert (Hpk : 0 < 2 ^ k) by (apply Z.pow_pos_nonneg; lia).
  destruct (q * 2 ^ k) as [|n|n] eqn:En; [nia| |nia].
  assert (Hdn : Z.pos (digits2_pos n) = width q + k).
  { apply digits_unique. rewrite <- En.
    replace (width q + k - 1) with (width q - 1 + k) by lia.
    rewrite !Z.pow_add_r by lia.
    split; [apply Z.mul_le_mono_nonneg_r; lia|apply Z.mul_lt_mono_pos_r; lia]. }
  unfold binary_normalize, binary_round, shl_align.
  replace (fexp F32.prec F32.emax (Z.pos (digits2_pos n) + - k)) with (width q - 24)
    by (rewrite Hdn; unfold fexp, emin, F32.prec, F32.emax; lia).
  unfold whole.
  destruct (width q - 24 - - k) as [|t|j] eqn:Et.
  - rewrite (round_exact false (Z.to_pos (q * 2 ^ (24 - width q))) n (- k) 0).
    + f_equal. lia.
    + apply whole_digits. exact Hq.
    + lia.
    + lia.
    + rewrite Z2Pos.id, Z.pow_0_r, Z.mul_1_r, <- En by lia. f_equal. f_equal. lia.
  - rewrite (round_exact false (Z.to_pos (q * 2 ^ (24 - width q))) n (- k) (Z.pos t)).
    + f_equal. lia.
    + apply whole_digits. exact Hq.
    + lia.
    + lia.
    + rewrite Z2Pos.id, <- En, <- Z.mul_assoc, <- Z.pow_add_r by lia. f_equal. f_equal. lia.
  - assert (Ei : Pos.iter xO n j = Z.to_pos (q * 2 ^ (24 - width q))).
    { apply Pos2Z.inj. rewrite iter_xO_pow, Z2Pos.id, <- En, <- Z.mul_assoc, <- Z.pow_add_r
        by lia. f_equal. f_equal. lia. }
    rewrite Ei.
    rewrite (round_exact false (Z.to_pos (q * 2 ^ (24 - width q))) _ (width q - 24) 0).
    + f_equal. lia.
    + apply whole_digits. exact Hq.
    + lia.
    + lia.
    + rewrite Z.pow_0_r, Z.mul_1_r. reflexivity.
Qed.

Lemma of_int_whole (q : Z) : 1 <= q < 2 ^ 24 -> F32.of_int q = whole q.
Proof.
  intros Hq. rewrite <- (normalize_whole q 0) by lia.
  unfold F32.of_int. rewrite Z.pow_0_r, Z.mul_1_r. reflexivity.
Qed.

(** The operations of the sequencer on whole numbers: the product with
    [1.0f], the conversion back to an integer, the comparison and the
    difference. *)
Lemma mul_one_whole (q : Z) : 1 <= q < 2 ^ 24 -> F32.mul (whole q) F32.one = whole q.
Proof.
  intros Hq. pose proof (width_range q Hq) as Hw. pose proof (whole_mantissa q Hq) as Hm.
  unfold whole. change F32.one with (S754_finite false 8388608 (-23)).
  unfold F32.mul, SFmul. cbn [xorb].
  rewrite (round_exact false (Z.to_pos (q * 2 ^ (24 - width q))) _ _ 23).
  - f_equal. lia.
  - apply whole_digits. exact Hq.
  - lia.
  - lia.
  - rewrite Pos2Z.inj_mul. reflexivity.
Qed.

Lemma trunc_whole (q : Z) : 1 <= q < 2 ^ 24 -> F32.trunc (whole q) = q.
Proof.
  intros Hq. pose proof (width_range q Hq) as Hw. pose proof (whole_mantissa q Hq) as Hm.
  unfold whole, F32.trunc. rewrite Z2Pos.id by lia.
  destruct (Z.leb_spec 0 (width q - 24)) as [H0|H0].
  - replace (width q - 24) with 0 by lia. replace (24 - width q) with 0 by lia.
    rewrite Z.pow_0_r. lia.
  - replace (- (width q - 24)) with (24 - width q) by lia.
    apply Z.div_mul. apply Z.pow_nonzero; lia.
Qed.

Lemma width_mono (a b : Z) : 1 <= a <= b -> width a <= width b.
Proof.
  intros Hab. pose proof (width_bounds a ltac:(lia)) as Ha.
  pose proof (width_bounds b ltac:(lia)) as Hb.
  assert (width a - 1 < width b); [|lia].
  apply (Z.pow_lt_mono_r_iff 2); [lia|unfold width; lia|lia].
Qed.

Lemma leb_whole (a b : Z) :
  1 <= a < 2 ^ 24 -> 1 <= b < 2 ^ 24 -> F32.leb (whole a) (whole b) = (a <=? b).
Proof.
  intros Ha Hb.
  pose proof (width_range a Ha) as Hwa. pose proof (width_range b Hb) as Hwb.
  pose proof (whole_mantissa a Ha) as Hma. pose proof (whole_mantissa b Hb) as Hmb.
  unfold whole, F32.leb, SFleb, SFcompare.
  destruct (Z.compare_spec (width a - 24) (width b - 24)) as [He|He|He].
  - change (Pos.compare_cont Eq ?x ?y) with (Pos.compare x y).
    rewrite <- Z2Pos.inj_compare by lia.
    replace (width b) with (width a) in * by lia.
    assert (0 < 2 ^ (24 - width a)) by (apply Z.pow_pos_nonneg; lia).
    destruct (Z.compare_spec (a * 2 ^ (24 - width a)) (b * 2 ^ (24 - width a)))
      as [Hc|Hc|Hc]; symmetry.
    + apply Z.leb_le. apply Z.mul_cancel_r in Hc; lia.
    + apply Z.leb_le. apply Z.mul_lt_mono_pos_r in Hc; lia.
    + apply Z.leb_gt. apply Z.mul_lt_mono_pos_r in Hc; lia.
  - symmetry. apply Z.leb_le.
    destruct (Z.le_gt_cases a b) as [|Hgt]; [assumption|].
    pose proof (width_mono b a ltac:(lia)). lia.
  - symmetry. apply Z.leb_gt.
    destruct (Z.lt_ge_cases b a) as [|Hge]; [assumption|].
    pose proof (width_mono a b ltac:(lia)). lia.
Qed.

Lemma shl_align_pow (m : positive) (e e' : Z) :
  e' <= e -> Z.pos (fst (shl_align m e e')) = Z.pos m * 2 ^ (e - e').
Proof.
  intros He. unfold shl_align. destruct (e' - e) as [|j|j] eqn:Ej; cbn [fst].
  - replace (e - e') with 0 by lia. rewrite Z.pow_0_r. lia.
  - lia.
  - rewrite iter_xO_pow. f_equal. f_equal. lia.
Qed.

Lemma sub_whole (a b : Z) :
  1 <= b -> b < a -> a < 2 ^ 24 -> F32.sub (whole a) (whole b) = whole (a - b).
Proof.
  intros Hb Hab Ha.
  pose proof (width_range a ltac:(lia)) as Hwa. pose proof (width_range b ltac:(lia)) as Hwb.
  pose proof (whole_mantissa a ltac:(lia)) as Hma.
  pose proof (whole_mantissa b ltac:(lia)) as Hmb.
  pose proof (width_mono b a ltac:(lia)) as Hw.
  unfold whole at 1 2. unfold F32.sub, SFsub. cbv zeta.
  rewrite Z.min_r by lia. cbn [cond_Zopp].
  rewrite !shl_align_pow by lia. rewrite !Z2Pos.id by lia.
  rewrite Z.sub_diag, Z.pow_0_r, Z.mul_1_r.
  replace (a * 2 ^ (24 - width a) * 2 ^ (width a - 24 - (width b - 24))
           - b * 2 ^ (24 - width b)) with ((a - b) * 2 ^ (24 - width b)).
  2:{ rewrite <- Z.mul_assoc, <- Z.pow_add_r by lia.
      replace (24 - width a + (width a - 24 - (width b - 24))) with (24 - width b) by lia.
      lia. }
  replace (width b - 24) with (- (24 - width b)) by lia.
  apply normalize_whole; lia.
Qed.

Lemma sub_whole_same (a : Z) : 1 <= a < 2 ^ 24 -> F32.sub (whole a) (whole a) = F32.zero.
Proof.
  intros Ha. unfold whole, F32.sub, SFsub. cbv zeta.
  rewrite Z.min_id, Z.sub_diag. reflexivity.
Qed.

Lemma wrap32_small (z : Z) : 0 <= z < 2 ^ 32 -> wrap32 z = z.
Proof. intros Hz. unfold wrap32. apply Z.mod_small. exact Hz. Qed.

(** For a note of [L] time units and a position [pos + st] below [2 L],
    both whole numbers: the test [note_position >= note_length * 1.0f] is
    the comparison of [L] and the position, and the overshoot carried
    into the next note is their difference. *)
Lemma over_whole (L pos st : Z) :
  1 <= L < 2 ^ 23 -> 0 <= pos < L -> 1 <= st <= L ->
  over (F32.of_int L) pos st F32.one = (L <=? pos + st).
Proof.
  intros HL Hpos Hst. unfold over. rewrite wrap32_small by lia.
  rewrite !of_int_whole, mul_one_whole by lia.
  apply leb_whole; lia.
Qed.

Lemma carried_whole (L pos st : Z) :
  1 <= L < 2 ^ 23 -> 0 <= pos < L -> 1 <= st <= L -> L <= pos + st ->
  carried (F32.of_int L) pos st F32.one = pos + st - L.
Proof.
  intros HL Hpos Hst Hle. unfold carried. rewrite wrap32_small by lia.
  rewrite !of_int_whole, mul_one_whole by lia. unfold to_uint32.
  destruct (Z.eq_dec (pos + st) L) as [->|Hne].
  - rewrite sub_whole_same by lia. rewrite Z.sub_diag. reflexivity.
  - rewrite sub_whole, trunc_whole by lia. apply wrap32_small. lia.
Qed.

Lemma wrap16_small (z : Z) : 0 <= z < 2 ^ 16 -> wrap16 z = z.
Proof. intros Hz. unfold wrap16. apply Z.mod_small. exact Hz. Qed.

(** *** Sums *)

Lemma total_app (l k : list Z) : total (l ++ k) = total l + total k.
Proof. unfold total. induction l as [|x l IH]; simpl; [reflexivity|]. rewrite IH. lia. Qed.

Lemma total_take_S (l : list Z) (i : nat) (x : Z) :
  l !! i = Some x -> total (take (S i) l) = total (take i l) + x.
Proof.
  intros Hx. rewrite (take_S_r _ _ _ Hx), total_app. unfold total. simpl. lia.
Qed.

Lemma total_nonneg (l : list Z) : Forall (fun x => 0 <= x) l -> 0 <= total l.
Proof. unfold total. induction 1; simpl; lia. Qed.

Lemma total_take_le (l : list Z) (i : nat) :
  Forall (fun x => 0 <= x) l -> total (take i l) <= total l.
Proof.
  intros Hl. rewrite <- (take_drop i l) at 2. rewrite total_app.
  pose proof (total_nonneg (drop i l) (Forall_drop _ _ _ Hl)). lia.
Qed.

(** *** The sequencer between two ticks *)

Lemma note_over_over (st : Z) (e : float) (s : state) :
  note_over st e s = over (note_length s) (note_position s) st e.
Proof. reflexivity. Qed.

Lemma idle_stage_melody `{platform} (s : state) : playing_melody s = true -> idle_stage s = s.
Proof. intros Hm. unfold idle_stage. rewrite Hm, andb_false_r. reflexivity. Qed.

Lemma latch_stage_sequencer (g : bool) (s : state) :
  sequencer (snd (latch_stage g s)) = sequencer s.
Proof. unfold latch_stage. destruct (state_changed s); reflexivity. Qed.

(** The variables of a state built by assignments. *)
Ltac fields :=
  cbn [active_tones frequencies playing_melody playing_note state_changed notes_pointer
       notes_count notes_repeat note_length note_tempo current_note note_position
       note_resting click audio_initialized audio_enable vibrato glissando trace
       set_active_tones set_frequencies set_playing_melody set_playing_note
       set_state_changed set_notes_pointer set_notes_count set_notes_repeat
       set_note_length set_note_tempo set_current_note set_note_position
       set_note_resting set_click set_audio_initialized set_audio_enable set_trace
       carry_overshoot stepped advanced emit silence].

Ltac fields_in H :=
  cbn [active_tones frequencies playing_melody playing_note state_changed notes_pointer
       notes_count notes_repeat note_length note_tempo current_note note_position
       note_resting click audio_initialized audio_enable vibrato glissando trace
       set_active_tones set_frequencies set_playing_melody set_playing_note
       set_state_changed set_notes_pointer set_notes_count set_notes_repeat
       set_note_length set_note_tempo set_current_note set_note_position
       set_note_resting set_click set_audio_initialized set_audio_enable set_trace
       carry_overshoot stepped advanced emit silence] in H.

Section Timing.

Context `{platform}.

(** A melody whose notes last whole numbers [Ls] of time units at tempo
    [T], each below [2^23], with no two notes of one pitch in a row. *)
Variables (notes : list note) (Ls : list Z) (T : Z).
Hypothesis notes_fit : Z.of_nat (length notes) < 65536.
Hypothesis whole :
  Forall2 (fun (nt : note) L => 1 <= L < 2 ^ 23 /\ F32.mul (snd nt) (scale T) = F32.of_int L)
          notes Ls.
Hypothesis no_repeat :
  forall i, (S i < length notes)%nat ->
            F32.eqb (fst (notes !!! i)) (fst (notes !!! S i)) = false.

Local Abbreviation playing_at := (playing_at notes Ls T).
Local Abbreviation elapsed := (elapsed notes Ls T).

Lemma whole_length i :
  (i < length notes)%nat ->
  1 <= Ls !!! i < 2 ^ 23 /\ F32.mul (snd (notes !!! i)) (scale T) = F32.of_int (Ls !!! i).
Proof.
  intros Hi. destruct (lookup_lt_is_Some_2 notes i Hi) as [nt Hnt].
  destruct (Forall2_lookup_l _ _ _ _ _ whole Hnt) as (L & HL & Hw).
  rewrite (list_lookup_total_correct _ _ _ Hnt), (list_lookup_total_correct _ _ _ HL).
  exact Hw.
Qed.

Lemma playing_at_sequencer i pos s s' :
  sequencer s' = sequencer s -> playing_at i pos s -> playing_at i pos s'.
Proof.
  unfold playing_at. intros E Hs. rewrite E, Hs. rewrite Hs in E.
  unfold sequencer in E. injection E as _ _ _ _ _ _ _ _ _ -> _ _ -> ->. reflexivity.
Qed.

(** The note is not over. *)
Lemma playing_wait i pos st s :
  playing_at i pos s -> over (F32.of_int (Ls !!! i)) pos st F32.one = false ->
  playing_at i (wrap32 (pos + st)) (tick (st, F32.one) s).
Proof.
  intros Hs G. pose proof Hs as E. unfold playing_at, sequencer in E.
  injection E as Hm Hp Hc Hr Hl HT Hcur Hpos Hrest Hi He.
  unfold tick, audio_advance_state. cbn [fst snd].
  rewrite melody_stage_wait;
    [|exact Hm|rewrite note_over_over, Hl, Hpos; exact G].
  rewrite idle_stage_melody by exact Hm.
  apply playing_at_sequencer with (stepped st s); [apply latch_stage_sequencer|].
  unfold playing_at in *. unfold sequencer in *. fields.
  injection Hs as -> -> -> -> -> -> -> -> -> -> ->. reflexivity.
Qed.

(** The note is over and another one follows. *)
Lemma playing_next i pos st s :
  playing_at i pos s -> (S i < length notes)%nat ->
  over (F32.of_int (Ls !!! i)) pos st F32.one = true ->
  playing_at (S i) (carried (F32.of_int (Ls !!! i)) pos st F32.one) (tick (st, F32.one) s).
Proof.
  intros Hs Hlt G. pose proof Hs as E. unfold playing_at, sequencer in E.
  injection E as Hm Hp Hc Hr Hl HT Hcur Hpos Hrest Hi He.
  assert (Hw : wrap16 (current_note s + 1) = Z.of_nat (S i))
    by (rewrite Hcur, wrap16_small by lia; lia).
  unfold tick, audio_advance_state. cbn [fst snd].
  rewrite melody_stage_next; [|exact Hm|rewrite note_over_over, Hl, Hpos; exact G| |].
  2:{ change (current_note (advanced st s)) with (wrap16 (current_note s + 1)).
      rewrite Hw, Hc. apply Z.leb_gt. lia. }
  2:{ change (current_note (advanced st s)) with (wrap16 (current_note s + 1)).
      rewrite Hw, Hrest, Hcur. unfold note_frequency, song. rewrite Hp.
      rewrite !Nat2Z.id. cbn [negb andb]. apply no_repeat. exact Hlt. }
  cbv zeta.
  set (s1 := set_note_resting false (advanced st s)).
  assert (He1 : audio_enable s1 = true) by exact He.
  assert (Hi1 : audio_initialized s1 = true) by exact Hi.
  set (s2 := audio_play_tone (note_frequency s1 (current_note s1)) s1).
  assert (E2 : sequencer s2 = sequencer s1)
    by (apply audio_play_tone_sequencer; assumption).
  set (s3 := if negb (F32.eqb (note_frequency s2 (current_note s))
                              (note_frequency s2 (current_note s2)))
             then audio_stop_tone (note_frequency s2 (current_note s)) s2 else s2).
  assert (E3 : sequencer s3 = sequencer s1).
  { unfold s3. destruct (negb _); [|exact E2].
    rewrite audio_stop_tone_sequencer; [exact E2|].
    apply sequencer_ready in E2 as [_ ->]. exact Hi1. }
  clearbody s3. clear E2. clearbody s2. clear s2.
  unfold s1 in E3. unfold sequencer in E3. fields_in E3.
  injection E3 as Em3 Ep3 Ec3 Er3 El3 ET3 Ecur3 Epos3 Erest3 Eck3 Ei3 Ee3 Ev3 Eg3.
  assert (Hnl : F32.mul (note_duration (carry_overshoot F32.one s3)
                           (current_note (carry_overshoot F32.one s3)))
                        (tempo_scale (carry_overshoot F32.one s3))
                = F32.of_int (Ls !!! S i)).
  { unfold note_duration, song, tempo_scale. fields.
    rewrite Ep3, Hp, Ecur3, Hw, ET3, HT, Nat2Z.id.
    exact (proj2 (whole_length (S i) Hlt)). }
  rewrite Hnl.
  set (s5 := set_note_length _ (carry_overshoot F32.one s3)).
  assert (Hm5 : playing_melody s5 = true) by (unfold s5; fields; congruence).
  rewrite idle_stage_melody by exact Hm5.
  apply playing_at_sequencer with s5; [apply latch_stage_sequencer|].
  unfold playing_at, sequencer, s5, carried. fields.
  rewrite Em3, Ep3, Ec3, Er3, El3, ET3, Ecur3, Epos3, Erest3, Ei3, Ee3.
  rewrite Hm, Hp, Hc, Hr, Hl, HT, Hw, Hpos, Hi, He. reflexivity.
Qed.

(** The last note is over. *)
Lemma playing_end i pos st s :
  playing_at i pos s -> S i = length notes ->
  over (F32.of_int (Ls !!! i)) pos st F32.one = true ->
  finished (tick (st, F32.one) s).
Proof.
  intros Hs Hlast G. pose proof Hs as E. unfold playing_at, sequencer in E.
  injection E as Hm Hp Hc Hr Hl HT Hcur Hpos Hrest Hi He.
  assert (Hw : wrap16 (current_note s + 1) = Z.of_nat (S i))
    by (rewrite Hcur, wrap16_small by lia; lia).
  unfold tick, audio_advance_state. cbn [fst snd].
  rewrite melody_stage_end;
    [|exact Hm|rewrite note_over_over, Hl, Hpos; exact G| |exact Hr].
  2:{ change (current_note (advanced st s)) with (wrap16 (current_note s + 1)).
      rewrite Hw, Hc. apply Z.leb_le. lia. }
  cbn [snd].
  match goal with |- finished (audio_stop_tone ?x ?s') =>
    pose proof (audio_stop_tone_sequencer x s' Hi) as E end.
  unfold sequencer in E. fields_in E. injection E as Em _ _ _ _ _ _ _ _ _ Ei _ _ _.
  split; congruence.
Qed.

(** Nothing restarts a melody that is over. *)
Lemma finished_tick t s : finished s -> finished (tick t s).
Proof.
  intros [Hi Hm]. destruct t as [st e]. unfold tick, audio_advance_state. cbn [fst snd].
  rewrite melody_stage_idle by exact Hm.
  pose proof (latch_stage_sequencer (note_stage s) (idle_stage s)) as E.
  assert (Hid : finished (idle_stage s)).
  { unfold idle_stage. destruct (negb _ && negb _); [|split; assumption].
    rewrite audio_stop_all_ready by exact Hi. split; [exact Hi|reflexivity]. }
  destruct Hid as [Hi' Hm']. unfold sequencer in E.
  injection E as Em _ _ _ _ _ _ _ _ _ Ei _ _ _. split; congruence.
Qed.

Lemma lengths_nonneg : Forall (fun x => 0 <= x) Ls.
Proof.
  apply Forall_lookup. intros i L HL.
  destruct (Forall2_lookup_r _ _ _ _ _ whole HL) as (nt & _ & Hw & _). lia.
Qed.

Lemma elapsed_tick e st s :
  1 <= st -> Forall (fun L => st <= L) Ls ->
  elapsed e s -> elapsed (e + st) (tick (st, F32.one) s).
Proof.
  intros H1 Hst [(i & pos & Hi & Hpos & He & Hs)|[He Hs]].
  2:{ right. split; [lia|]. apply finished_tick. exact Hs. }
  destruct (whole_length i Hi) as [HL _].
  assert (Hlen : length Ls = length notes) by (symmetry; exact (Forall2_length _ _ _ whole)).
  assert (HLi : Ls !! i = Some (Ls !!! i))
    by (apply list_lookup_lookup_total_lt; lia).
  assert (Hsti : st <= Ls !!! i)
    by (rewrite Forall_lookup in Hst; exact (Hst i _ HLi)).
  pose proof (over_whole (Ls !!! i) pos st HL Hpos ltac:(lia)) as Ho.
  destruct (Z.leb_spec (Ls !!! i) (pos + st)) as [Hle|Hgt].
  - pose proof (carried_whole (Ls !!! i) pos st HL Hpos ltac:(lia) Hle) as Hca.
    destruct (decide (S i = length notes)) as [Hlast|Hmore].
    + right. split; [|exact (playing_end i pos st s Hs Hlast Ho)].
      rewrite <- (firstn_all Ls), Hlen, <- Hlast, (total_take_S _ _ _ HLi). lia.
    + left. assert (Hlt : (S i < length notes)%nat) by lia.
      exists (S i), (pos + st - Ls !!! i).
      assert (HLn : Ls !! S i = Some (Ls !!! S i))
        by (apply list_lookup_lookup_total_lt; lia).
      split; [exact Hlt|]. split.
      { rewrite Forall_lookup in Hst. pose proof (Hst (S i) _ HLn). lia. }
      split; [rewrite (total_take_S _ _ _ HLi); lia|].
      rewrite <- Hca. apply playing_next; assumption.
  - left. exists i, (pos + st). split; [exact Hi|]. split; [lia|]. split; [lia|].
    rewrite <- (wrap32_small (pos + st)) by lia. apply playing_wait; assumption.
Qed.

Lemma elapsed_run steps : forall e s,
  Forall (fun st => 1 <= st /\ Forall (fun L => st <= L) Ls) steps ->
  elapsed e s ->
  elapsed (e + total steps) (run_ticks (map (fun st => (st, F32.one)) steps) s).
Proof.
  induction steps as [|st steps IH]; intros e s Hall He; simpl.
  - change (total []) with 0. rewrite Z.add_0_r. exact He.
  - apply Forall_cons in Hall as [[H1 Hst] Hall].
    change (total (st :: steps)) with (st + total steps). rewrite Z.add_assoc.
    apply IH; [exact Hall|]. apply elapsed_tick; assumption.
Qed.

Lemma elapsed_playing e s : elapsed e s -> playing_melody s = (e <? total Ls).
Proof.
  intros [(i & pos & Hi & Hpos & He & Hs)|[He [_ Hm]]].
  - unfold playing_at, sequencer in Hs. injection Hs as -> _ _ _ _ _ _ _ _ _ _.
    symmetry. apply Z.ltb_lt.
    assert (Hlen : length Ls = length notes)
      by (symmetry; exact (Forall2_length _ _ _ whole)).
    assert (HLi : Ls !! i = Some (Ls !!! i))
      by (apply list_lookup_lookup_total_lt; lia).
    pose proof (total_take_le Ls (S i) lengths_nonneg) as Hle.
    rewrite (total_take_S _ _ _ HLi) in Hle. lia.
  - rewrite Hm. symmetry. apply Z.ltb_ge. exact He.
Qed.

(** [audio_play_melody] puts the sequencer at the start of the first note. *)
Lemma play_melody_elapsed s0 :
  audio_enable s0 = true -> audio_initialized s0 = true -> note_tempo s0 = T ->
  (0 < length notes)%nat ->
  elapsed 0 (audio_play_melody (Song notes) (Z.of_nat (length notes)) false s0).
Proof.
  intros He Hi HT Hn. left. exists 0%nat, 0.
  destruct (whole_length 0%nat Hn) as [HL Hw].
  split; [exact Hn|]. split; [lia|]. split; [reflexivity|].
  rewrite audio_play_melody_ready by assumption. cbv zeta.
  match goal with |- playing_at _ _ (audio_play_tone ?x ?s') =>
    apply playing_at_sequencer with s'; [apply audio_play_tone_sequencer|]
  end.
  - destruct (playing_note s0); exact He.
  - destruct (playing_note s0); exact Hi.
  - unfold playing_at, sequencer. fields. unfold note_duration, song. fields.
    change (Z.to_nat 0) with 0%nat.
    replace (note_tempo (if playing_note s0 then silence s0 else s0)) with T
      by (destruct (playing_note s0); symmetry; exact HT).
    fold (scale T). rewrite Hw.
    destruct (playing_note s0); fields; rewrite ?He, ?Hi; reflexivity.
Qed.

End Timing.
(** ** The driver follows the tone stack *)

Lemma running_snoc (tr : list event) (e : event) :
  running (tr ++ [e])
  = match e with DriverStart => true | DriverStop => false | _ => running tr end.
Proof. unfold running. rewrite fold_left_app. reflexivity. Qed.

Lemma initializations_snoc (tr : list event) (e : event) :
  initializations (tr ++ [e])
  = match e with DriverInitialize => S (initializations tr) | _ => initializations tr end.
Proof. unfold initializations. rewrite fold_left_app. reflexivity. Qed.

Lemma first_driver_call_snoc (tr : list event) (e : event) :
  first_driver_call (tr ++ [e])
  = match first_driver_call tr with
    | Some x => Some x
    | None => if is_driver_call e then Some e else None
    end.
Proof.
  unfold first_driver_call. induction tr as [|x tr IH]; simpl.
  - destruct (is_driver_call e); reflexivity.
  - destruct (is_driver_call x); [reflexivity|exact IH].
Qed.

Lemma driver_inv_same (s s' : state) :
  active_tones s' = active_tones s ->
  frequencies s' = frequencies s ->
  playing_note s' = playing_note s ->
  audio_initialized s' = audio_initialized s ->
  trace s' = trace s ->
  driver_inv s -> driver_inv s'.
Proof.
  intros Ea Ef Ep Ei Et [Ht Hr Hn Hf]. split.
  - eapply tone_inv_same; eassumption.
  - rewrite Et, Ep. exact Hr.
  - rewrite Et, Ei. exact Hn.
  - rewrite Et, Ei. exact Hf.
Qed.

Lemma drv_set_state_changed v s : driver_inv s -> driver_inv (set_state_changed v s).
Proof. apply driver_inv_same; reflexivity. Qed.
Lemma drv_set_playing_melody v s : driver_inv s -> driver_inv (set_playing_melody v s).
Proof. apply driver_inv_same; reflexivity. Qed.
Lemma drv_set_notes_pointer v s : driver_inv s -> driver_inv (set_notes_pointer v s).
Proof. apply driver_inv_same; reflexivity. Qed.
Lemma drv_set_notes_count v s : driver_inv s -> driver_inv (set_notes_count v s).
Proof. apply driver_inv_same; reflexivity. Qed.
Lemma drv_set_notes_repeat v s : driver_inv s -> driver_inv (set_notes_repeat v s).
Proof. apply driver_inv_same; reflexivity. Qed.
Lemma drv_set_note_length v s : driver_inv s -> driver_inv (set_note_length v s).
Proof. apply driver_inv_same; reflexivity. Qed.
Lemma drv_set_note_tempo v s : driver_inv s -> driver_inv (set_note_tempo v s).
Proof. apply driver_inv_same; reflexivity. Qed.
Lemma drv_set_current_note v s : driver_inv s -> driver_inv (set_current_note v s).
Proof. apply driver_inv_same; reflexivity. Qed.
Lemma drv_set_note_position v s : driver_inv s -> driver_inv (set_note_position v s).
Proof. apply driver_inv_same; reflexivity. Qed.
Lemma drv_set_note_resting v s : driver_inv s -> driver_inv (set_note_resting v s).
Proof. apply driver_inv_same; reflexivity. Qed.
Lemma drv_set_click v s : driver_inv s -> driver_inv (set_click v s).
Proof. apply driver_inv_same; reflexivity. Qed.
Lemma drv_set_audio_enable v s : driver_inv s -> driver_inv (set_audio_enable v s).
Proof. apply driver_inv_same; reflexivity. Qed.

Lemma drv_emit_play f s : driver_inv s -> driver_inv (emit (CallPlayTone f) s).
Proof.
  intros [Ht Hr Hn Hf]. split; [auto with tone_inv| | |]; simpl.
  - rewrite running_snoc. exact Hr.
  - rewrite initializations_snoc. exact Hn.
  - rewrite first_driver_call_snoc, Hf. destruct (audio_initialized s); reflexivity.
Qed.

Lemma drv_emit_stop f s : driver_inv s -> driver_inv (emit (CallStopTone f) s).
Proof.
  intros [Ht Hr Hn Hf]. split; [auto with tone_inv| | |]; simpl.
  - rewrite running_snoc. exact Hr.
  - rewrite initializations_snoc. exact Hn.
  - rewrite first_driver_call_snoc, Hf. destruct (audio_initialized s); reflexivity.
Qed.

Create HintDb driver_inv.

#[export] Hint Resolve drv_set_state_changed drv_set_playing_melody drv_set_notes_pointer
  drv_set_notes_count drv_set_notes_repeat drv_set_note_length drv_set_note_tempo
  drv_set_current_note drv_set_note_position drv_set_note_resting drv_set_click
  drv_set_audio_enable drv_emit_play drv_emit_stop : driver_inv.

(** The first call of [audio_driver_initialize]. *)
Lemma drv_initialize s :
  audio_initialized s = false -> driver_inv s ->
  driver_inv (set_audio_initialized true (emit DriverInitialize s)).
Proof.
  intros Hi [Ht Hr Hn Hf]. split; simpl.
  - auto using inv_set_audio_initialized with tone_inv.
  - rewrite running_snoc. exact Hr.
  - rewrite initializations_snoc, Hn, Hi. reflexivity.
  - rewrite first_driver_call_snoc, Hf, Hi. reflexivity.
Qed.

(** Once the driver is initialized, a further call to it leaves the first
    one in place. *)
Lemma first_call_kept (s s' : state) :
  audio_initialized s = true -> audio_initialized s' = true ->
  first_driver_call (trace s) = (if audio_initialized s then Some DriverInitialize else None) ->
  trace s' = trace s \/ (exists e, trace s' = trace s ++ [e]) ->
  first_driver_call (trace s')
  = if audio_initialized s' then Some DriverInitialize else None.
Proof.
  intros Hi Hi' Hf [->|[e ->]]; rewrite Hi' in *; rewrite Hi in Hf; [exact Hf|].
  rewrite first_driver_call_snoc, Hf. reflexivity.
Qed.

Lemma request_tone_drv f s :
  driver_inv s -> audio_initialized s = true -> driver_inv (request_tone f s).
Proof.
  intros [Ht Hr Hn Hf] Hi. pose proof Ht as [Hl Hc Hd Hp _].
  split; [apply request_tone_inv; assumption| | |].
  - rewrite request_tone_playing by exact Ht.
    destruct (scan_down (frequencies s) f (Z.to_nat (active_tones s))) as [i|] eqn:E.
    + rewrite (request_tone_found f s i) by (stacksize; lia || exact E). simpl.
      apply scan_down_Some in E as (Hlt & _ & _).
      rewrite Hr, Hp. apply Z.leb_le. lia.
    + destruct (decide (active_tones s = Z.of_nat AUDIO_TONE_STACKSIZE)) as [Ha|Ha].
      * rewrite request_tone_evict by assumption. simpl.
        rewrite Hr, Hp, Ha. reflexivity.
      * rewrite request_tone_push by (lia || exact E). cbv zeta.
        destruct (Z.eqb_spec (active_tones s) 0) as [H0|H0]; simpl.
        -- apply running_snoc.
        -- rewrite Hr, Hp. apply Z.leb_le. lia.
  - pose proof (request_tone_sequencer f s) as Es.
    apply sequencer_ready in Es as [_ ->]. rewrite Hi.
    rewrite Hi in Hn. rewrite <- Hn.
    unfold request_tone. destruct (scan_down _ _ _); [reflexivity|].
    cbv zeta. destruct (_ =? 1); destruct (_ <? _); simpl;
      rewrite ?initializations_snoc; reflexivity.
  - apply (first_call_kept s); [exact Hi| |exact Hf|].
    + pose proof (request_tone_sequencer f s) as Es.
      apply sequencer_ready in Es as [_ ->]. exact Hi.
    + unfold request_tone. destruct (scan_down _ _ _); [left; reflexivity|].
      cbv zeta. destruct (_ =? 1); destruct (_ <? _); simpl; eauto.
Qed.

Lemma release_tone_drv f s :
  driver_inv s -> playing_note s = true -> driver_inv (release_tone f s).
Proof.
  intros [Ht Hr Hn Hf] Hplay. pose proof Ht as [Hl Hc Hd Hp Hlive].
  assert (Hpos : 1 <= active_tones s) by (apply Z.leb_le; congruence).
  split; [apply release_tone_inv; assumption| | |].
  - destruct (scan_down (frequencies s) f AUDIO_TONE_STACKSIZE) as [i|] eqn:E.
    2:{ unfold release_tone. rewrite E. exact Hr. }
    rewrite (release_tone_found f s i) by (assumption || (stacksize; lia)).
    cbv zeta. destruct (_ =? 1); simpl; [apply running_snoc|exact Hr].
  - pose proof (release_tone_sequencer f s) as Es.
    apply sequencer_ready in Es as [_ ->]. rewrite <- Hn.
    unfold release_tone. destruct (scan_down _ _ _); [|reflexivity].
    cbv zeta. destruct (_ =? 0); destruct (_ <? _); simpl;
      rewrite ?initializations_snoc; reflexivity.
  - apply (first_call_kept s); [exact (Hlive Hplay)| |exact Hf|].
    + pose proof (release_tone_sequencer f s) as Es.
      apply sequencer_ready in Es as [_ ->]. exact (Hlive Hplay).
    + unfold release_tone. destruct (scan_down _ _ _); [|left; reflexivity].
      cbv zeta. destruct (_ =? 0); destruct (_ <? _); simpl; eauto.
Qed.

Lemma silence_drv s :
  driver_inv s -> audio_initialized s = true -> driver_inv (silence s).
Proof.
  intros [Ht Hr Hn Hf] Hi. split; [apply silence_inv, Ht|apply running_snoc| |].
  - simpl. rewrite initializations_snoc. exact Hn.
  - apply (first_call_kept s); [exact Hi|exact Hi|exact Hf|].
    right. eexists. reflexivity.
Qed.

Section DriverWithInit.

Variable init : state -> state.
Hypothesis init_drv : forall s, driver_inv s -> driver_inv (init s).
Hypothesis init_playing :
  forall s, tone_inv s -> playing_note s = true -> playing_note (init s) = true.
Hypothesis init_initialized : forall s, audio_initialized (init s) = true.

Lemma ensure_init_drv s : driver_inv s -> driver_inv (ensure_init init s).
Proof. unfold ensure_init. destruct (audio_initialized s); auto. Qed.

Lemma play_tone__drv f s : driver_inv s -> driver_inv (play_tone_ init f s).
Proof.
  intros Hs. rewrite play_tone_unfold. cbv zeta.
  assert (H1 : driver_inv (emit (CallPlayTone f) s)) by auto with driver_inv.
  destruct (audio_enable _); [|exact H1].
  apply request_tone_drv; [apply ensure_init_drv, H1|].
  apply ensure_init_initialized, init_initialized.
Qed.

Lemma stop_tone__drv f s : driver_inv s -> driver_inv (stop_tone_ init f s).
Proof.
  intros Hs. rewrite stop_tone_unfold. cbv zeta.
  assert (H1 : driver_inv (emit (CallStopTone f) s)) by auto with driver_inv.
  destruct (playing_note (emit (CallStopTone f) s)) eqn:Hp; [|exact H1].
  apply release_tone_drv; [apply ensure_init_drv, H1|].
  apply ensure_init_playing; [exact init_playing|apply H1|exact Hp].
Qed.

Lemma stop_all__drv s : driver_inv s -> driver_inv (stop_all_ init s).
Proof.
  intros Hs. rewrite stop_all_unfold.
  apply silence_drv; [apply ensure_init_drv, Hs|].
  apply ensure_init_initialized, init_initialized.
Qed.

Lemma play_melody__drv np n r s : driver_inv s -> driver_inv (play_melody_ init np n r s).
Proof.
  intros Hs. unfold play_melody_. destruct (negb (audio_enable s)); [exact Hs|].
  cbv zeta. apply play_tone__drv.
  assert (H1 : driver_inv (if playing_note (ensure_init init s)
                           then stop_all_ init (ensure_init init s)
                           else ensure_init init s))
    by (destruct (playing_note _); [apply stop_all__drv|]; apply ensure_init_drv, Hs).
  auto 10 with driver_inv.
Qed.

End DriverWithInit.

Section DriverInvariant.

Context `{platform}.

(** Inside [audio_init] the nested call is never reached; it may be taken
    to be the first call of [audio_driver_initialize] alone. *)
Lemma audio_init_drv s : driver_inv s -> driver_inv (audio_init s).
Proof.
  intros Hs. destruct (audio_initialized s) eqn:Hi.
  - rewrite audio_init_done by exact Hi. exact Hs.
  - rewrite audio_init_fresh by exact Hi. cbv zeta.
    assert (H1 : driver_inv (set_audio_initialized true
                   (emit DriverInitialize (set_audio_enable stored_enable s))))
      by (apply drv_initialize; [exact Hi|auto with driver_inv]).
    destruct stored_enable; [|exact H1].
    rewrite (play_melody__initialized _
               (fun s' => if audio_initialized s' then s'
                          else set_audio_initialized true (emit DriverInitialize s')))
      by reflexivity.
    apply play_melody__drv; [| |exact H1].
    + intros s' Hs'. destruct (audio_initialized s') eqn:Hi'; [exact Hs'|].
      apply drv_initialize; assumption.
    + intros s'. destruct (audio_initialized s') eqn:Hi'; [exact Hi'|reflexivity].
Qed.

Lemma audio_play_tone_drv f s : driver_inv s -> driver_inv (audio_play_tone f s).
Proof.
  apply play_tone__drv;
    first [exact audio_init_drv|exact audio_init_playing|exact audio_init_initialized].
Qed.

Lemma audio_stop_tone_drv f s : driver_inv s -> driver_inv (audio_stop_tone f s).
Proof.
  apply stop_tone__drv;
    first [exact audio_init_drv|exact audio_init_playing|exact audio_init_initialized].
Qed.

Lemma audio_stop_all_drv s : driver_inv s -> driver_inv (audio_stop_all s).
Proof.
  apply stop_all__drv;
    first [exact audio_init_drv|exact audio_init_playing|exact audio_init_initialized].
Qed.

Lemma audio_play_melody_drv np n r s :
  driver_inv s -> driver_inv (audio_play_melody np n r s).
Proof.
  apply play_melody__drv;
    first [exact audio_init_drv|exact audio_init_playing|exact audio_init_initialized].
Qed.

Lemma audio_play_click_drv delay f duration s :
  driver_inv s -> driver_inv (audio_play_click delay f duration s).
Proof.
  intros Hs. unfold audio_play_click. cbv zeta.
  destruct (F32.leb _ _); apply audio_play_melody_drv; auto with driver_inv.
Qed.

Ltac drv_steps :=
  repeat first
    [ assumption
    | apply audio_play_tone_drv
    | apply audio_stop_tone_drv
    | apply audio_stop_all_drv
    | apply drv_set_note_position
    | progress auto with driver_inv
    | match goal with
      | |- driver_inv (if ?b then _ else _) => destruct b
      | |- driver_inv (outcome_state (if ?b then _ else _)) => destruct b
      | |- driver_inv (outcome_state (Return _ _)) => cbn [outcome_state]
      | |- driver_inv (outcome_state (Continue _ _)) => cbn [outcome_state]
      | |- driver_inv (carry_overshoot _ _) => apply drv_set_note_position
      | |- driver_inv (set_state_changed _ _) => apply drv_set_state_changed
      | |- driver_inv (set_playing_melody _ _) => apply drv_set_playing_melody
      | |- driver_inv (set_note_length _ _) => apply drv_set_note_length
      | |- driver_inv (set_note_tempo _ _) => apply drv_set_note_tempo
      | |- driver_inv (set_current_note _ _) => apply drv_set_current_note
      | |- driver_inv (set_note_position _ _) => apply drv_set_note_position
      | |- driver_inv (set_note_resting _ _) => apply drv_set_note_resting
      end ].

Lemma melody_stage_drv step end_ g s :
  driver_inv s -> driver_inv (outcome_state (melody_stage step end_ g s)).
Proof. intros Hs. unfold melody_stage. cbv zeta. drv_steps. Qed.

Lemma audio_advance_state_drv step end_ s :
  driver_inv s -> driver_inv (snd (audio_advance_state step end_ s)).
Proof.
  intros Hs. unfold audio_advance_state.
  pose proof (melody_stage_drv step end_ (note_stage s) s Hs) as Hm.
  destruct (melody_stage _ _ _ _) as [r s'|g s']; cbn [outcome_state] in Hm; [exact Hm|].
  unfold latch_stage, idle_stage.
  destruct (negb _ && negb _); destruct (state_changed _) eqn:E; cbn [snd]; drv_steps.
Qed.

Lemma initial_state_drv : driver_inv initial_state.
Proof. split; [apply initial_state_inv|reflexivity|reflexivity|reflexivity]. Qed.

Lemma exec_drv c s : driver_inv s -> driver_inv (exec c s).
Proof.
  intros Hs. destruct c; simpl;
    auto using audio_init_drv, audio_stop_all_drv, audio_stop_tone_drv,
      audio_play_tone_drv, audio_play_melody_drv, audio_play_click_drv,
      audio_advance_state_drv;
    unfold audio_set_tempo, audio_increase_tempo, audio_decrease_tempo; drv_steps.
Qed.

Lemma run_drv cs : forall s, driver_inv s -> driver_inv (run cs s).
Proof.
  induction cs as [|c cs IH]; intros s Hs; simpl; [exact Hs|].
  apply IH, exec_drv, Hs.
Qed.

End DriverInvariant.

(** ** The top of the stack *)

Lemma request_tone_top (f : float) (s : state) :
  tone_inv s -> F32.eqb f f = true ->
  1 <= active_tones (request_tone f s) <= Z.of_nat AUDIO_TONE_STACKSIZE
  /\ F32.eqb (frequencies (request_tone f s)
                !!! Z.to_nat (active_tones (request_tone f s) - 1)) f = true.
Proof.
  intros [Hl Hc _ _ _] Hf. stacksize.
  destruct (scan_down (frequencies s) f (Z.to_nat (active_tones s))) as [i|] eqn:E.
  - rewrite (request_tone_found f s i) by (rewrite ?Hl; first [lia|exact E]).
    apply scan_down_Some in E as (Hi & He & _). simpl. split; [lia|].
    assert (Hti : length (take i (frequencies s)) = i) by (apply length_take_le; lia).
    assert (Htj : length (take (Z.to_nat (active_tones s) - 1 - i)
                            (drop (S i) (frequencies s)))
                  = (Z.to_nat (active_tones s) - 1 - i)%nat)
      by (apply length_take_le; rewrite length_drop; lia).
    rewrite app_assoc.
    replace (Z.to_nat (active_tones s - 1))
      with (length (take i (frequencies s)
                      ++ take (Z.to_nat (active_tones s) - 1 - i)
                           (drop (S i) (frequencies s))))
      by (rewrite length_app, Hti, Htj; lia).
    rewrite read_at. case_decide; [exact He|exact Hf].
  - destruct (Z.eq_dec (active_tones s) 8) as [Ha|Ha].
    + rewrite request_tone_evict by (stacksize; assumption). simpl. rewrite Ha.
      split; [lia|]. change (Z.to_nat (8 - 1)) with 7%nat.
      replace 7%nat with (length (drop 1 (frequencies s)))
        by (rewrite length_drop; lia).
      rewrite <- (app_nil_r (_ ++ [f])), <- app_assoc. simpl.
      rewrite read_at. exact Hf.
    + rewrite request_tone_push by (stacksize; first [lia|exact E]). cbv zeta.
      assert (Hr : (<[Z.to_nat (active_tones s) := f]> (frequencies s))
                     !!! Z.to_nat (active_tones s + 1 - 1) = f).
      { replace (active_tones s + 1 - 1) with (active_tones s) by lia.
        apply list_lookup_total_insert_eq. lia. }
      destruct (active_tones s =? 0); simpl; rewrite Hr; (split; [lia|exact Hf]).
Qed.

(** [audio_get_frequency] reads the stack from its top. *)
Lemma get_frequency_stack `{platform} (s : state) (i : Z) :
  tone_inv s -> 0 <= i < active_tones s ->
  audio_get_frequency i s = reverse (stack s) !!! Z.to_nat i.
Proof.
  intros Hinv Hi. pose proof (stack_length s Hinv) as Hlen.
  destruct Hinv as [Hl Hc _ _ _]. stacksize.
  unfold audio_get_frequency. destruct (Z.leb_spec (active_tones s) i); [lia|].
  symmetry. apply list_lookup_total_correct.
  rewrite reverse_lookup by lia. unfold stack in *.
  rewrite lookup_take_lt by lia.
  replace (length (take (Z.to_nat (active_tones s)) (frequencies s)) - S (Z.to_nat i))%nat
    with (Z.to_nat (active_tones s - i - 1)) by lia.
  apply list_lookup_lookup_total_lt. lia.
Qed.

(** ** The search of [audio_stop_tone] *)

(** The loop breaks at [i] when cell [i] matches and no cell above does. *)
Lemma scan_down_at (fr : list float) (x : float) (n i : nat) :
  (i < n)%nat -> F32.eqb (fr !!! i) x = true ->
  (forall k, (i < k < n)%nat -> F32.eqb (fr !!! k) x = false) ->
  scan_down fr x n = Some i.
Proof.
  intros Hi He Hk. destruct (scan_down fr x n) as [j|] eqn:E.
  - apply scan_down_Some in E as (Hj & Hej & Hkj). f_equal.
    destruct (lt_eq_lt_dec i j) as [[Hlt|Heq]|Hgt]; [|congruence|].
    + rewrite (Hk j) in Hej by lia. discriminate.
    + rewrite (Hkj i) in He by lia. discriminate.
  - rewrite scan_down_None in E. rewrite (E i Hi) in He. discriminate.
Qed.

Lemma Forall_drop_lookup (P : float -> Prop) (fr : list float) (n k : nat) :
  Forall P (drop n fr) -> (n <= k < length fr)%nat -> P (fr !!! k).
Proof.
  intros Hf Hk. rewrite Forall_lookup in Hf. apply (Hf (k - n)%nat).
  rewrite lookup_drop. replace (n + (k - n))%nat with k by lia.
  apply list_lookup_lookup_total_lt. lia.
Qed.

Lemma take_delete_ge (l : list float) (n i : nat) :
  (n <= i < length l)%nat -> take n (delete i l) = take n l.
Proof.
  intros Hn. rewrite delete_take_drop, take_app_le by (rewrite length_take; lia).
  rewrite take_take. f_equal. lia.
Qed.

(** ** The start of a melody *)

Section Start.

Context `{platform}.

(** [audio_play_melody] on an enabled, initialized subsystem: what was
    active is dropped, and the first note is pushed on the empty stack. *)
Lemma play_melody_start (s : state) (np : song_ref) (n : Z) (r : bool) :
  audio_enable s = true -> audio_initialized s = true -> tone_inv s ->
  exists s0,
    audio_play_melody np n r s
    = emit DriverStart
        (set_frequencies
           (<[0%nat := normalize (note_frequency (set_notes_pointer np s) 0)]>
              (frequencies s0))
           (set_playing_note true
              (set_state_changed true
                 (set_active_tones 1
                    (emit (CallPlayTone (note_frequency (set_notes_pointer np s) 0))
                       (set_note_position 0
                          (set_note_length
                             (F32.mul (note_duration (set_notes_pointer np s) 0)
                                (F32.div (F32.of_int 60) (F32.of_int (note_tempo s))))
                             (set_current_note 0
                                (set_notes_repeat r
                                   (set_notes_count n
                                      (set_notes_pointer np
                                         (set_note_resting false
                                            (set_playing_melody true s0)))))))))))))
    /\ s0 = (if playing_note s then silence s else s)
    /\ length (frequencies s0) = AUDIO_TONE_STACKSIZE.
Proof.
  intros He Hi Hinv.
  set (s0 := if playing_note s then silence s else s).
  assert (H0 : active_tones s0 = 0 /\ audio_enable s0 = true
               /\ audio_initialized s0 = true /\ note_tempo s0 = note_tempo s
               /\ click s0 = click s
               /\ length (frequencies s0) = AUDIO_TONE_STACKSIZE).
  { unfold s0. destruct Hinv as [Hl Hc _ Hp _].
    destruct (playing_note s) eqn:E.
    - repeat split; try assumption. unfold silence. simpl.
      rewrite length_clear_loop. exact Hl.
    - repeat split; try assumption.
      symmetry in Hp. apply Z.leb_gt in Hp. lia. }
  destruct H0 as (Ha & He0 & Hi0 & Ht0 & Hc0 & Hl0).
  exists s0. split; [|split; [reflexivity|exact Hl0]].
  rewrite audio_play_melody_ready by assumption. cbv zeta. fold s0.
  rewrite audio_play_tone_ready by (fields; assumption).
  assert (Enf : forall i, note_frequency (set_notes_pointer np s) i
                          = fst (song (set_notes_pointer np s0) !!! Z.to_nat i))
    by (intros i; unfold note_frequency, song; fields; rewrite Hc0; reflexivity).
  assert (End : forall i, note_duration (set_notes_pointer np s) i
                          = snd (song (set_notes_pointer np s0) !!! Z.to_nat i))
    by (intros i; unfold note_duration, song; fields; rewrite Hc0; reflexivity).
  rewrite Enf, End, <- Ht0. clearbody s0.
  match goal with |- request_tone ?f ?s1 = _ =>
    rewrite (request_tone_push f s1)
      by (fields; rewrite ?Ha; stacksize; first [lia|reflexivity]) end.
  cbv zeta. fields. rewrite Ha. reflexivity.
Qed.

End Start.

(** ** Calls that only shrink the stack *)

Lemma starts_snoc (tr : list event) (e : event) :
  starts (tr ++ [e]) = match e with DriverStart => S (starts tr) | _ => starts tr end.
Proof. unfold starts. rewrite fold_left_app. reflexivity. Qed.

Lemma release_tone_shrinks (f : float) (s : state) :
  tone_inv s -> playing_note s = true ->
  stack (release_tone f s) `sublist_of` stack s
  /\ starts (trace (release_tone f s)) = starts (trace s).
Proof.
  intros [Hl Hc _ Hp _] Hplay. stacksize.
  assert (Ha : 1 <= active_tones s)
    by (rewrite Hplay in Hp; symmetry in Hp; apply Z.leb_le in Hp; exact Hp).
  destruct (scan_down (frequencies s) f AUDIO_TONE_STACKSIZE) as [j|] eqn:Ej.
  2:{ unfold release_tone. rewrite Ej. split; reflexivity. }
  rewrite (release_tone_found f s j) by (stacksize; first [lia|assumption]).
  apply scan_down_Some in Ej as (Hj & _ & _). stacksize.
  assert (Hst : take (Z.to_nat (active_tones s - 1))
                  (delete j (frequencies s) ++ [F32.minus_one])
                `sublist_of` take (Z.to_nat (active_tones s)) (frequencies s)).
  { rewrite take_app_le
      by (rewrite length_delete; [lia|apply lookup_lt_is_Some; lia]).
    replace (Z.to_nat (active_tones s)) with (S (Z.to_nat (active_tones s - 1))) by lia.
    apply take_delete_sublist. }
  cbv zeta. destruct (_ =? 1); unfold stack; fields; rewrite ?starts_snoc;
    (split; [exact Hst|reflexivity]).
Qed.

Lemma silence_shrinks (s : state) :
  stack (silence s) = [] /\ starts (trace (silence s)) = starts (trace s).
Proof. unfold stack. fields. rewrite starts_snoc. split; reflexivity. Qed.

Section Disabled.

Context `{platform}.

Lemma quieter_refl s :
  audio_enable s = false -> audio_initialized s = true -> tone_inv s -> quieter s s.
Proof. intros. split; auto. Qed.

Lemma quieter_trans s1 s2 s3 : quieter s1 s2 -> quieter s2 s3 -> quieter s1 s3.
Proof.
  intros [_ _ _ Hs Ht Hm] [He Hi Hv Hs' Ht' Hm'].
  split; auto; try congruence.
  etransitivity; eassumption.
Qed.

(** A change of variables other than the stack, the switches and the
    record of the calls. *)
Lemma quieter_same s s' :
  audio_enable s = false -> audio_initialized s = true -> tone_inv s ->
  active_tones s' = active_tones s -> frequencies s' = frequencies s ->
  playing_note s' = playing_note s -> audio_initialized s' = audio_initialized s ->
  audio_enable s' = audio_enable s ->
  starts (trace s') = starts (trace s) ->
  (playing_melody s = false -> playing_melody s' = false) ->
  quieter s s'.
Proof.
  intros He Hi Hv Ea Ef Ep Ei Ee Et Em. split; try congruence.
  - eapply tone_inv_same; eassumption.
  - unfold stack. rewrite Ea, Ef. reflexivity.
  - exact Em.
Qed.

Lemma audio_play_tone_quieter f s :
  audio_enable s = false -> audio_initialized s = true -> tone_inv s ->
  quieter s (audio_play_tone f s).
Proof.
  intros He Hi Hv. rewrite audio_play_tone_disabled by exact He.
  apply quieter_same; auto. fields. apply starts_snoc.
Qed.

Lemma audio_stop_tone_quieter f s :
  audio_enable s = false -> audio_initialized s = true -> tone_inv s ->
  quieter s (audio_stop_tone f s).
Proof.
  intros He Hi Hv. rewrite audio_stop_tone_ready by exact Hi.
  assert (H1 : quieter s (emit (CallStopTone f) s))
    by (apply quieter_same; auto; fields; apply starts_snoc).
  destruct (playing_note s) eqn:Hp; [|exact H1].
  apply (quieter_trans _ _ _ H1).
  set (s1 := emit (CallStopTone f) s) in *.
  destruct H1 as [He1 Hi1 Hv1 _ _ _].
  destruct (release_tone_shrinks (normalize f) s1 Hv1 Hp) as [Hs Ht].
  pose proof (release_tone_sequencer (normalize f) s1) as Hseq.
  unfold sequencer in Hseq. injection Hseq as Em _ _ _ _ _ _ _ _ _ Ei Ee _ _.
  split; try congruence.
  - apply release_tone_inv; assumption.
  - intros Hm1. rewrite Em. exact Hm1.
Qed.

Lemma audio_stop_all_quieter s :
  audio_enable s = false -> audio_initialized s = true -> tone_inv s ->
  quieter s (audio_stop_all s).
Proof.
  intros He Hi Hv. rewrite audio_stop_all_ready by exact Hi.
  destruct (silence_shrinks s) as [Hs Ht].
  split; try assumption.
  - apply silence_inv, Hv.
  - rewrite Hs. apply sublist_nil_l.
  - intros _. reflexivity.
Qed.

Lemma audio_play_melody_quieter np n r s :
  audio_enable s = false -> audio_initialized s = true -> tone_inv s ->
  quieter s (audio_play_melody np n r s).
Proof.
  intros He Hi Hv. unfold audio_play_melody, play_melody_. rewrite He.
  apply quieter_refl; assumption.
Qed.

Lemma quieter_assign s s0 s1 :
  quieter s s0 ->
  active_tones s1 = active_tones s0 -> frequencies s1 = frequencies s0 ->
  playing_note s1 = playing_note s0 ->
  audio_initialized s1 = audio_initialized s0 ->
  audio_enable s1 = audio_enable s0 -> trace s1 = trace s0 ->
  (playing_melody s0 = false -> playing_melody s1 = false) ->
  quieter s s1.
Proof.
  intros H0 Ea Ef Ep Ei Ee Et Em. apply (quieter_trans _ _ _ H0).
  destruct H0 as [He0 Hi0 Hv0 _ _ _].
  apply quieter_same; try assumption. rewrite Et. reflexivity.
Qed.

Lemma quieter_set_note_position v s s0 : quieter s s0 -> quieter s (set_note_position v s0).
Proof. intros H0. apply (quieter_assign s s0); auto. Qed.
Lemma quieter_set_note_length v s s0 : quieter s s0 -> quieter s (set_note_length v s0).
Proof. intros H0. apply (quieter_assign s s0); auto. Qed.
Lemma quieter_set_note_tempo v s s0 : quieter s s0 -> quieter s (set_note_tempo v s0).
Proof. intros H0. apply (quieter_assign s s0); auto. Qed.
Lemma quieter_set_current_note v s s0 : quieter s s0 -> quieter s (set_current_note v s0).
Proof. intros H0. apply (quieter_assign s s0); auto. Qed.
Lemma quieter_set_note_resting v s s0 : quieter s s0 -> quieter s (set_note_resting v s0).
Proof. intros H0. apply (quieter_assign s s0); auto. Qed.
Lemma quieter_set_state_changed v s s0 : quieter s s0 -> quieter s (set_state_changed v s0).
Proof. intros H0. apply (quieter_assign s s0); auto. Qed.
Lemma quieter_set_click v s s0 : quieter s s0 -> quieter s (set_click v s0).
Proof. intros H0. apply (quieter_assign s s0); auto. Qed.
Lemma quieter_melody_off s s0 : quieter s s0 -> quieter s (set_playing_melody false s0).
Proof. intros H0. apply (quieter_assign s s0); auto. Qed.

Lemma quieter_play_tone f s s0 : quieter s s0 -> quieter s (audio_play_tone f s0).
Proof.
  intros H0. apply (quieter_trans _ _ _ H0).
  destruct H0 as [He0 Hi0 Hv0 _ _ _]. apply audio_play_tone_quieter; assumption.
Qed.

Lemma quieter_stop_tone f s s0 : quieter s s0 -> quieter s (audio_stop_tone f s0).
Proof.
  intros H0. apply (quieter_trans _ _ _ H0).
  destruct H0 as [He0 Hi0 Hv0 _ _ _]. apply audio_stop_tone_quieter; assumption.
Qed.

Lemma quieter_stop_all s s0 : quieter s s0 -> quieter s (audio_stop_all s0).
Proof.
  intros H0. apply (quieter_trans _ _ _ H0).
  destruct H0 as [He0 Hi0 Hv0 _ _ _]. apply audio_stop_all_quieter; assumption.
Qed.

Lemma quieter_play_melody np n r s s0 :
  quieter s s0 -> quieter s (audio_play_melody np n r s0).
Proof.
  intros H0. apply (quieter_trans _ _ _ H0).
  destruct H0 as [He0 Hi0 Hv0 _ _ _]. apply audio_play_melody_quieter; assumption.
Qed.

Ltac quieter_steps :=
  repeat first
    [ assumption
    | apply quieter_play_tone
    | apply quieter_stop_tone
    | apply quieter_stop_all
    | apply quieter_play_melody
    | match goal with
      | |- quieter _ (if ?b then _ else _) => destruct b
      | |- quieter _ (outcome_state (if ?b then _ else _)) => destruct b
      | |- quieter _ (outcome_state (Return _ _)) => cbn [outcome_state]
      | |- quieter _ (outcome_state (Continue _ _)) => cbn [outcome_state]
      | |- quieter _ (carry_overshoot _ _) => apply quieter_set_note_position
      | |- quieter _ (set_state_changed _ _) => apply quieter_set_state_changed
      | |- quieter _ (set_playing_melody false _) => apply quieter_melody_off
      | |- quieter _ (set_note_length _ _) => apply quieter_set_note_length
      | |- quieter _ (set_note_tempo _ _) => apply quieter_set_note_tempo
      | |- quieter _ (set_current_note _ _) => apply quieter_set_current_note
      | |- quieter _ (set_note_position _ _) => apply quieter_set_note_position
      | |- quieter _ (set_note_resting _ _) => apply quieter_set_note_resting
      | |- quieter _ (set_click _ _) => apply quieter_set_click
      end ].

Lemma melody_stage_quieter step end_ g s s0 :
  quieter s s0 -> quieter s (outcome_state (melody_stage step end_ g s0)).
Proof. intros H0. unfold melody_stage. cbv zeta. quieter_steps. Qed.

Lemma exec_quieter c s s0 : quieter s s0 -> quieter s (exec c s0).
Proof.
  intros H0. destruct c; simpl.
  - rewrite audio_init_done by apply H0. exact H0.
  - quieter_steps.
  - quieter_steps.
  - quieter_steps.
  - quieter_steps.
  - unfold audio_play_click. cbv zeta. quieter_steps.
  - unfold audio_advance_state.
    pose proof (melody_stage_quieter step end_ (note_stage s0) s s0 H0) as Hm.
    destruct (melody_stage _ _ _ _) as [r s'|g s']; cbn [outcome_state] in Hm;
      [exact Hm|].
    unfold latch_stage, idle_stage.
    destruct (negb _ && negb _); destruct (state_changed _) eqn:E; cbn [snd];
      quieter_steps.
  - unfold audio_set_tempo. quieter_steps.
  - unfold audio_increase_tempo. quieter_steps.
  - unfold audio_decrease_tempo. quieter_steps.
Qed.

Lemma run_quieter cs s : forall s0, quieter s s0 -> quieter s (run cs s0).
Proof.
  induction cs as [|c cs IH]; intros s0 H0; simpl; [exact H0|].
  apply IH, exec_quieter, H0.
Qed.

End Disabled.

(** ** The place in the song over a tick *)

Section Cursor.

Context `{platform}.

Lemma cursor_of_sequencer (s s' : state) : sequencer s' = sequencer s -> cursor s' = cursor s.
Proof.
  unfold sequencer, cursor. intros E.
  injection E as Em Enp Ec Er _ _ Ecur _ _ _ Ei _ _ _.
  rewrite Em, Enp, Ec, Er, Ecur, Ei. reflexivity.
Qed.

Lemma cursor_play_tone (f : float) (s : state) :
  audio_initialized s = true -> cursor (audio_play_tone f s) = cursor s.
Proof.
  intros Hi. destruct (audio_enable s) eqn:He.
  - apply cursor_of_sequencer, audio_play_tone_sequencer; assumption.
  - rewrite audio_play_tone_disabled by exact He. reflexivity.
Qed.

Lemma cursor_stop_tone (f : float) (s : state) :
  audio_initialized s = true -> cursor (audio_stop_tone f s) = cursor s.
Proof. intros Hi. apply cursor_of_sequencer, audio_stop_tone_sequencer, Hi. Qed.

Lemma cursor_initialized (s s' : state) :
  cursor s' = cursor s -> audio_initialized s = true -> audio_initialized s' = true.
Proof. unfold cursor. intros E Hi. injection E as -> _ _ _ _ _. exact Hi. Qed.

(** The tone calls of the melody block and the assignments after them. *)
Lemma cursor_note_change (f1 f2 : float) (b : bool) (e : float) (v : state -> float)
    (s : state) :
  audio_initialized s = true ->
  let s2 := audio_play_tone f1 s in
  let s3 := if b then audio_stop_tone f2 s2 else s2 in
  let s4 := carry_overshoot e s3 in
  cursor (set_note_length (v s4) s4) = cursor s.
Proof.
  intros Hi s2 s3 s4.
  assert (E2 : cursor s2 = cursor s) by (apply cursor_play_tone, Hi).
  assert (E3 : cursor s3 = cursor s).
  { unfold s3. destruct b; [|exact E2].
    rewrite cursor_stop_tone by (apply (cursor_initialized s); assumption).
    exact E2. }
  exact E3.
Qed.

Lemma in_song_cursor (np : song_ref) (n : Z) (r : bool) (s : state)
    (i m : bool) (c : Z) :
  cursor s = (i, m, np, n, r, c) ->
  i = true -> (m = true -> 0 <= c < n) -> (r = true -> m = true) ->
  in_song np n r s.
Proof.
  unfold cursor, in_song. intros E Hi Hc Hr.
  injection E as -> -> -> -> -> ->. repeat apply conj; auto.
Qed.

Lemma melody_stage_in_song (np : song_ref) (n : Z) (r : bool) (step : Z) (end_ : float)
    (g : bool) (s : state) :
  1 <= n <= 65535 -> in_song np n r s ->
  in_song np n r (outcome_state (melody_stage step end_ g s)).
Proof.
  intros Hn Hs. pose proof Hs as (Hi & Hnp & Hc & Hr & Hcur & Hrep).
  destruct (playing_melody s) eqn:Hm.
  2:{ rewrite melody_stage_idle by exact Hm. exact Hs. }
  specialize (Hcur eq_refl).
  destruct (note_over step end_ s) eqn:Hg.
  2:{ rewrite melody_stage_wait by assumption. cbn [outcome_state].
      apply (in_song_cursor _ _ _ _ true true (current_note s)); auto.
      unfold cursor, stepped. fields. rewrite Hi, Hm, Hnp, Hc, Hr. reflexivity. }
  assert (Hw : current_note (advanced step s) = current_note s + 1
               \/ (current_note (advanced step s) = 0 /\ current_note s = 65535)).
  { unfold advanced, stepped. fields. unfold wrap16.
    destruct (Z.eq_dec (current_note s) 65535) as [E|E].
    - right. rewrite E. split; reflexivity.
    - left. apply Z.mod_small. lia. }
  assert (Hadv : audio_initialized (advanced step s) = true) by exact Hi.
  unfold melody_stage. rewrite Hm. cbv zeta.
  fold (stepped step s). fold (note_over step end_ s). rewrite Hg.
  change (current_note (stepped step s)) with (current_note s).
  fold (advanced step s).
  change (notes_count (advanced step s)) with (notes_count s).
  change (notes_repeat (advanced step s)) with (notes_repeat s).
  change (note_resting (advanced step s)) with (note_resting s).
  rewrite Hc, Hr.
  destruct (Z.leb_spec n (current_note (advanced step s))) as [Hle|Hlt].
  - destruct r; cbn [negb andb].
    + (* the song starts again *)
      set (s1 := set_current_note 0 (advanced step s)).
      assert (E1 : cursor s1 = (true, true, np, n, true, 0))
        by (unfold cursor, s1, advanced, stepped; fields;
            rewrite Hi, Hm, Hnp, Hc, Hr; reflexivity).
      assert (Hi1 : audio_initialized s1 = true) by exact Hi.
      clearbody s1.
      match goal with |- context [if ?b then Continue _ _ else _] => destruct b end;
        cbn [outcome_state].
      * set (s2 := set_current_note (current_note s) (set_note_resting true s1)).
        assert (E2 : cursor s2 = (true, true, np, n, true, current_note s)).
        { unfold cursor in *. unfold s2. fields.
          injection E1 as -> -> -> -> -> _. reflexivity. }
        assert (Hi2 : audio_initialized s2 = true) by exact Hi1.
        clearbody s2.
        apply (in_song_cursor _ _ _ _ true true (current_note s)); auto.
        rewrite <- E2.
        apply (cursor_note_change F32.zero _ true end_
                 (fun s4 => F32.mul (F32.of_int 2) (tempo_scale s4)) s2 Hi2).
      * set (s2 := set_note_resting false s1).
        assert (E2 : cursor s2 = (true, true, np, n, true, 0)) by exact E1.
        assert (Hi2 : audio_initialized s2 = true) by exact Hi1.
        clearbody s2.
        apply (in_song_cursor _ _ _ _ true true 0); auto; [|lia].
        rewrite <- E2.
        apply (cursor_note_change _ _ _ end_
                 (fun s4 => F32.mul (note_duration s4 (current_note s4)) (tempo_scale s4))
                 s2 Hi2).
    + (* the song is over *)
      cbn [outcome_state].
      apply (in_song_cursor _ _ _ _ true false (current_note (advanced step s)));
        [|reflexivity|discriminate|discriminate].
      rewrite cursor_stop_tone by exact Hi.
      unfold cursor, advanced, stepped. fields. rewrite Hi, Hnp, Hc, Hr. reflexivity.
  - cbn [andb].
    assert (Hin : 0 <= current_note (advanced step s) < n) by lia.
    set (s1 := advanced step s) in *.
    assert (E1 : cursor s1 = (true, true, np, n, r, current_note s1))
      by (unfold cursor, s1, advanced, stepped; fields;
          rewrite Hi, Hm, Hnp, Hc, Hr; reflexivity).
    generalize dependent (current_note s1). intros c1 Hw Hlt Hin E1.
    clearbody s1.
    match goal with |- context [if ?b then Continue _ _ else _] => destruct b end;
      cbn [outcome_state].
    * set (s2 := set_current_note (current_note s) (set_note_resting true s1)).
      assert (E2 : cursor s2 = (true, true, np, n, r, current_note s)).
      { unfold cursor in *. unfold s2. fields.
        injection E1 as -> -> -> -> -> _. reflexivity. }
      assert (Hi2 : audio_initialized s2 = true) by exact Hadv.
      clearbody s2.
      apply (in_song_cursor _ _ _ _ true true (current_note s)); auto.
      rewrite <- E2.
      apply (cursor_note_change F32.zero _ true end_
               (fun s4 => F32.mul (F32.of_int 2) (tempo_scale s4)) s2 Hi2).
    * set (s2 := set_note_resting false s1).
      assert (E2 : cursor s2 = (true, true, np, n, r, c1)) by exact E1.
      assert (Hi2 : audio_initialized s2 = true) by exact Hadv.
      clearbody s2.
      apply (in_song_cursor _ _ _ _ true true c1); auto.
      rewrite <- E2.
      apply (cursor_note_change _ _ _ end_
               (fun s4 => F32.mul (note_duration s4 (current_note s4)) (tempo_scale s4))
               s2 Hi2).
Qed.

Lemma tick_in_song (np : song_ref) (n : Z) (r : bool) (t : Z * float) (s : state) :
  1 <= n <= 65535 -> in_song np n r s -> in_song np n r (tick t s).
Proof.
  intros Hn Hs. unfold tick, audio_advance_state.
  pose proof (melody_stage_in_song np n r (fst t) (snd t) (note_stage s) s Hn Hs) as Hm.
  destruct (melody_stage _ _ _ _) as [b s'|g s']; cbn [outcome_state] in Hm; [exact Hm|].
  assert (Hid : in_song np n r (idle_stage s')).
  { unfold idle_stage. destruct (negb (playing_note s') && negb (playing_melody s')) eqn:E;
      [|exact Hm].
    apply andb_prop in E as [_ E]. apply negb_true_iff in E.
    destruct Hm as (Hi & Hnp & Hc & Hr & Hcur & Hrep).
    rewrite audio_stop_all_ready by exact Hi.
    unfold in_song, silence. fields. repeat apply conj; auto.
    - discriminate.
    - intros Ht. specialize (Hrep Ht). congruence. }
  unfold latch_stage. destruct (state_changed (idle_stage s')); exact Hid.
Qed.

Lemma run_ticks_in_song (np : song_ref) (n : Z) (r : bool) (ts : list (Z * float)) :
  1 <= n <= 65535 -> forall s, in_song np n r s -> in_song np n r (run_ticks ts s).
Proof.
  intros Hn. induction ts as [|t ts IH]; intros s Hs; [exact Hs|].
  apply IH, tick_in_song; assumption.
Qed.

End Cursor.

(** ** The driver over ticks *)

Lemma run_ticks_drv `{platform} (ts : list (Z * float)) :
  forall s, driver_inv s -> driver_inv (run_ticks ts s).
Proof.
  induction ts as [|t ts IH]; intros s Hs; [exact Hs|].
  apply IH. unfold tick. apply audio_advance_state_drv, Hs.
Qed.

(** A subsystem with an empty stack on which [quieter] calls follow. *)
Lemma quieter_silent (s s' : state) :
  quieter s s' -> active_tones s = 0 -> playing_melody s = false -> switched_off s'.
Proof.
  intros [He Hi Hv Hs _ Hm] Ha Hpm.
  assert (Hst : stack s = []) by (unfold stack; rewrite Ha; reflexivity).
  rewrite Hst in Hs. apply sublist_nil_r in Hs.
  pose proof (stack_length s' Hv) as Hl. rewrite Hs in Hl. simpl in Hl.
  destruct Hv as [_ Hc _ Hp _].
  assert (Ha' : active_tones s' = 0) by lia.
  unfold switched_off. rewrite Hp, Ha'. repeat apply conj; auto.
Qed.

(** ** A delay as [float] *)

Lemma delay_leb_zero (delay : Z) :
  0 <= delay <= 65535 -> F32.leb (F32.of_int delay) F32.zero = (delay =? 0).
Proof.
  intros Hd. destruct (Z.eqb_spec delay 0) as [->|Hne]; [reflexivity|].
  rewrite of_int_whole by lia. reflexivity.
Qed.

Lemma take_delete_lt (l : list float) (n i : nat) :
  (i < S n <= length l)%nat -> take n (delete i l) = delete i (take (S n) l).
Proof.
  intros Hn. rewrite !delete_take_drop.
  rewrite take_take, Nat.min_l by lia.
  rewrite take_app_ge by (rewrite length_take; lia).
  rewrite length_take, Nat.min_l by lia.
  f_equal. rewrite take_drop_commute.
  replace (S i + (n - i))%nat with (S n) by lia. reflexivity.
Qed.

(** ** One tone at a time *)

(** [==] does not tell apart what [normalize] makes equal. *)
Lemma normalize_respects (x y : float) :
  F32.eqb x y = true -> F32.eqb (normalize x) (normalize y) = true.
Proof.
  intros E. pose proof (eqb_refl_l x y E) as Hx.
  apply eqb_class in E as (c & Hcx & Hcy).
  destruct x as [sx|sx| |sx mx ex], y as [sy|sy| |sy my ey]; simpl in Hcx, Hcy;
    try congruence.
  - destruct sx, sy; reflexivity.
  - replace sy with sx by congruence. apply normalize_eqb, Hx.
  - replace sy with sx by congruence. replace my with mx by congruence.
    replace ey with ex by congruence. apply normalize_eqb, Hx.
Qed.

Lemma normalize_differs (x y : float) :
  F32.eqb (normalize x) (normalize y) = false -> F32.eqb x y = false.
Proof.
  intros E. destruct (F32.eqb x y) eqn:Exy; [|reflexivity].
  rewrite (normalize_respects x y Exy) in E. discriminate.
Qed.

Section Solo.

Context `{platform}.

(** A second tone, pushed on a stack of one. *)
Lemma play_second_tone (f x : float) (tl : list float) (s : state) :
  audio_enable s = true -> audio_initialized s = true ->
  active_tones s = 1 -> frequencies s = x :: tl -> length tl = 7%nat ->
  F32.eqb x (normalize f) = false ->
  audio_play_tone f s
  = set_frequencies (x :: normalize f :: drop 1 tl)
      (set_playing_note true
         (set_state_changed true (set_active_tones 2 (emit (CallPlayTone f) s)))).
Proof.
  intros He Hi Ha Hfr Hl Hx. rewrite audio_play_tone_ready by assumption.
  rewrite request_tone_push.
  - cbv zeta. fields. rewrite Ha, Hfr. change (1 =? 0) with false. cbv iota.
    destruct tl as [|y tl]; [discriminate|]. reflexivity.
  - fields. rewrite Ha. stacksize. lia.
  - fields. rewrite Ha, Hfr. apply scan_down_None. intros k Hk.
    replace k with 0%nat by (change (Z.to_nat 1) with 1%nat in Hk; lia). exact Hx.
Qed.

(** The oldest tone stopped, when no cell above it matches. *)
Lemma stop_oldest_tone (f x : float) (rest : list float) (s : state) :
  audio_initialized s = true -> playing_note s = true ->
  1 <= active_tones s <= 8 -> frequencies s = x :: rest -> length rest = 7%nat ->
  F32.eqb x (normalize f) = true ->
  Forall (fun y => F32.eqb y (normalize f) = false) rest ->
  audio_stop_tone f s
  = let s' := set_active_tones (active_tones s - 1)
                (set_state_changed true
                   (set_frequencies (rest ++ [F32.minus_one])
                      (emit (CallStopTone f) s))) in
    if active_tones s =? 1 then set_playing_note false (emit DriverStop s') else s'.
Proof.
  intros Hi Hp Ha Hfr Hl Hx Hrest. rewrite audio_stop_tone_ready by exact Hi.
  rewrite Hp. rewrite (release_tone_found _ _ 0).
  - fields. rewrite Hfr. reflexivity.
  - fields. rewrite Hfr. simpl. rewrite Hl. reflexivity.
  - fields. lia.
  - fields. rewrite Hfr. apply scan_down_at; stacksize.
    + lia.
    + exact Hx.
    + intros k Hk. destruct k as [|k]; [lia|].
      change ((x :: rest) !!! S k) with (rest !!! k).
      rewrite Forall_lookup in Hrest. apply (Hrest k).
      apply list_lookup_lookup_total_lt. lia.
Qed.

(** The melody block when the current note is over, the melody goes on
    and no rest is due: the next note, or the first one again, starts. *)
Lemma melody_stage_change (step : Z) (end_ : float) (g : bool) (s : state) :
  playing_melody s = true -> note_over step end_ s = true ->
  (notes_count s <=? current_note (advanced step s)) && negb (notes_repeat s) = false ->
  let s0 := if notes_count s <=? current_note (advanced step s)
            then set_current_note 0 (advanced step s) else advanced step s in
  negb (note_resting s)
  && F32.eqb (note_frequency s (current_note s)) (note_frequency s (current_note s0))
  = false ->
  melody_stage step end_ g s
  = Continue true
      (let s1 := set_note_resting false s0 in
       let s2 := audio_play_tone (note_frequency s1 (current_note s1)) s1 in
       let s3 :=
         if negb (F32.eqb (note_frequency s2 (current_note s))
                          (note_frequency s2 (current_note s2)))
         then audio_stop_tone (note_frequency s2 (current_note s)) s2
         else s2 in
       let s4 := carry_overshoot end_ s3 in
       set_note_length (F32.mul (note_duration s4 (current_note s4)) (tempo_scale s4)) s4).
Proof.
  intros Hm Hg He. cbv zeta.
  destruct (notes_count s <=? current_note (advanced step s)) eqn:Hle; intros Hf;
    unfold melody_stage; rewrite Hm; cbv zeta;
    fold (stepped step s); fold (note_over step end_ s); rewrite Hg;
    change (current_note (stepped step s)) with (current_note s);
    fold (advanced step s);
    change (notes_count (advanced step s)) with (notes_count s);
    change (notes_repeat (advanced step s)) with (notes_repeat s);
    rewrite Hle; cbn [andb] in He |- *; rewrite ?He; cbv iota.
  - change (note_resting (set_current_note 0 (advanced step s))) with (note_resting s).
    change (note_frequency (set_current_note 0 (advanced step s)))
      with (note_frequency s).
    rewrite Hf. reflexivity.
  - change (note_resting (advanced step s)) with (note_resting s).
    change (note_frequency (advanced step s)) with (note_frequency s).
    rewrite Hf. reflexivity.
Qed.

Lemma quiet_tail_shift (notes : list note) (tl : list float) :
  quiet_tail notes tl -> length tl = 7%nat ->
  quiet_tail notes (drop 1 tl ++ [F32.minus_one]).
Proof.
  intros Htl Hl i Hi. destruct (Htl i Hi) as [_ Hf]. split.
  - rewrite length_app, length_drop, Hl. reflexivity.
  - apply Forall_app. split; [apply Forall_drop, Hf|].
    constructor; [apply minus_one_normalize|constructor].
Qed.

Lemma quiet_tail_cleared (notes : list note) : quiet_tail notes (replicate 7 F32.minus_one).
Proof.
  intros i Hi. split; [reflexivity|].
  repeat constructor; apply minus_one_normalize.
Qed.

Section Change.

Variables (notes : list note) (r : bool) (end_ : float) (c j : Z) (tl : list float)
  (s0 : state).

Hypothesis number : Forall (fun nt => F32.eqb (fst nt) (fst nt) = true) notes.
Hypothesis Hc : 0 <= c < Z.of_nat (length notes).
Hypothesis Hj : 0 <= j < Z.of_nat (length notes).
Hypothesis differ : F32.eqb (normalize (pitch notes c)) (normalize (pitch notes j)) = false.
Hypothesis Htl : quiet_tail notes tl.
Hypothesis Hi0 : audio_initialized s0 = true.
Hypothesis He0 : audio_enable s0 = true.
Hypothesis Hnp0 : notes_pointer s0 = Song notes.
Hypothesis Hn0 : notes_count s0 = Z.of_nat (length notes).
Hypothesis Hr0 : notes_repeat s0 = r.
Hypothesis Hm0 : playing_melody s0 = true.
Hypothesis Hcur0 : current_note s0 = j.
Hypothesis Ha0 : active_tones s0 = 1.
Hypothesis Hp0 : playing_note s0 = true.
Hypothesis Hfr0 : frequencies s0 = normalize (pitch notes c) :: tl.

Lemma pitch_number (i : Z) :
  0 <= i < Z.of_nat (length notes) ->
  F32.eqb (normalize (pitch notes i)) (normalize (pitch notes i)) = true.
Proof.
  intros Hi. apply normalize_eqb. unfold pitch.
  rewrite Forall_lookup in number.
  apply (number (Z.to_nat i)). apply list_lookup_lookup_total_lt.
  unfold note in *. lia.
Qed.

Lemma change_solo :
  let s1 := set_note_resting false s0 in
  let s2 := audio_play_tone (note_frequency s1 (current_note s1)) s1 in
  let s3 :=
    if negb (F32.eqb (note_frequency s2 c) (note_frequency s2 (current_note s2)))
    then audio_stop_tone (note_frequency s2 c) s2
    else s2 in
  let s4 := carry_overshoot end_ s3 in
  solo notes r
    (set_note_length (F32.mul (note_duration s4 (current_note s4)) (tempo_scale s4)) s4).
Proof.
  intros s1 s2 s3 s4.
  assert (Hl : length tl = 7%nat)
    by (destruct (Htl (Z.to_nat c)) as [Hl _]; [lia|exact Hl]).
  assert (Enf1 : forall i, note_frequency s1 i = pitch notes i)
    by (intros i; unfold note_frequency, song, pitch, s1; fields; rewrite Hnp0;
        reflexivity).
  assert (E2 : s2 = set_frequencies
                      (normalize (pitch notes c) :: normalize (pitch notes j) :: drop 1 tl)
                      (set_playing_note true
                         (set_state_changed true
                            (set_active_tones 2 (emit (CallPlayTone (pitch notes j)) s1))))).
  { unfold s2. rewrite Enf1. change (current_note s1) with (current_note s0).
    rewrite Hcur0.
    apply (play_second_tone (pitch notes j) (normalize (pitch notes c)) tl s1);
      assumption. }
  assert (Enf2 : forall i, note_frequency s2 i = pitch notes i)
    by (intros i; rewrite E2; exact (Enf1 i)).
  assert (Ecur2 : current_note s2 = j) by (rewrite E2; exact Hcur0).
  assert (E3 : s3 = set_active_tones 1
                      (set_state_changed true
                         (set_frequencies
                            (normalize (pitch notes j) :: drop 1 tl ++ [F32.minus_one])
                            (emit (CallStopTone (pitch notes c)) s2)))).
  { unfold s3. rewrite !Enf2, Ecur2.
    rewrite (normalize_differs _ _ differ). cbn [negb].
    rewrite (stop_oldest_tone (pitch notes c) (normalize (pitch notes c))
               (normalize (pitch notes j) :: drop 1 tl) s2).
    - rewrite E2. reflexivity.
    - rewrite E2. exact Hi0.
    - rewrite E2. reflexivity.
    - rewrite E2. fields. lia.
    - rewrite E2. reflexivity.
    - simpl. rewrite length_drop, Hl. reflexivity.
    - apply pitch_number, Hc.
    - constructor; [rewrite eqb_sym; exact differ|].
      apply Forall_drop. destruct (Htl (Z.to_nat c)) as [_ Hf]; [lia|].
      unfold pitch. exact Hf. }
  unfold solo, s4. rewrite E3, E2. unfold s1. fields. rewrite Hm0.
  repeat apply conj; try assumption; try reflexivity; try lia.
  exists (drop 1 tl ++ [F32.minus_one]). rewrite Hcur0.
  split; [reflexivity|apply quiet_tail_shift; assumption].
Qed.

End Change.

Lemma tick_solo (notes : list note) (r : bool) (t : Z * float) (s : state) :
  1 <= Z.of_nat (length notes) <= 65535 -> melodic notes r ->
  solo notes r s -> solo notes r (tick t s).
Proof.
  intros Hn (Hnum & Hnext & Hwrap) (Hi & He & Hnp & Hc & Hr & Hrest & Hpm).
  unfold tick, audio_advance_state.
  assert (Hfin : forall g s', solo notes r s' ->
                   solo notes r (snd (latch_stage g (idle_stage s')))).
  { intros g s' Hs'.
    assert (Hid : solo notes r (idle_stage s')).
    { destruct (playing_melody s') eqn:Hm'; [rewrite idle_stage_melody; assumption|].
      destruct Hs' as (Hi' & He' & Hnp' & Hc' & Hr' & Hrest' & Hpm').
      rewrite Hm' in Hpm'. destruct Hpm' as (Ha' & Hp').
      unfold idle_stage. rewrite Hp', Hm'. cbn [negb andb].
      rewrite audio_stop_all_ready by exact Hi'.
      unfold solo. fields. repeat apply conj; auto. }
    unfold latch_stage. destruct (state_changed (idle_stage s')); cbn [snd]; [|exact Hid].
    unfold solo in *. fields. exact Hid. }
  destruct (playing_melody s) eqn:Hm.
  2:{ rewrite melody_stage_idle by exact Hm. apply Hfin. destruct Hpm as (Ha & Hp).
      unfold solo. rewrite Hm. repeat apply conj; auto. }
  destruct Hpm as (Hcur & Ha & Hp & tl & Hfr & Htl).
  assert (Enf : forall i, note_frequency s i = pitch notes i)
    by (intros i; unfold note_frequency, song, pitch; rewrite Hnp; reflexivity).
  destruct (note_over (fst t) (snd t) s) eqn:Hg.
  2:{ rewrite melody_stage_wait by assumption. apply Hfin.
      unfold solo, stepped. fields. rewrite Hm.
      repeat apply conj; auto; try lia. exists tl. auto. }
  assert (Hadv : current_note (advanced (fst t) s) = current_note s + 1)
    by (unfold advanced, stepped; fields; apply wrap16_small; lia).
  destruct (Z.leb_spec (notes_count s) (current_note (advanced (fst t) s))) as [Hle|Hlt].
  - assert (Hlast : current_note s = Z.of_nat (length notes) - 1) by lia.
    assert (Elast : pitch notes (current_note s) = fst (notes !!! (length notes - 1)%nat)).
    { rewrite Hlast. unfold pitch. f_equal. f_equal. unfold note in *. lia. }
    apply Z.leb_le in Hle.
    destruct r.
    + (* the first note again *)
      assert (Hdiff : F32.eqb (normalize (pitch notes (current_note s)))
                              (normalize (pitch notes 0)) = false)
        by (rewrite Elast; apply Hwrap; reflexivity).
      rewrite melody_stage_change; try assumption.
      * rewrite Hle. cbv zeta. apply Hfin.
        apply (change_solo notes true (snd t) (current_note s) 0 tl); auto; lia.
      * rewrite Hle, Hr. reflexivity.
      * rewrite Hle. cbv zeta. rewrite Hrest. cbn [negb andb].
        fields. rewrite !Enf. apply normalize_differs, Hdiff.
    + (* the melody is over *)
      rewrite melody_stage_end by assumption. cbn [snd].
      rewrite (stop_oldest_tone _ (normalize (pitch notes (current_note s))) tl).
      * cbv zeta. fields. rewrite Ha. change (1 =? 1) with true. cbv iota.
        unfold solo. fields. repeat apply conj; auto.
      * exact Hi.
      * exact Hp.
      * fields. lia.
      * exact Hfr.
      * destruct (Htl (Z.to_nat (current_note s))) as [Hl _];
          [unfold note in *; lia|exact Hl].
      * rewrite Enf. apply (pitch_number notes Hnum). exact Hcur.
      * rewrite Enf. destruct (Htl (Z.to_nat (current_note s))) as [_ Hf];
          [unfold note in *; lia|exact Hf].
  - assert (Hdiff : F32.eqb (normalize (pitch notes (current_note s)))
                            (normalize (pitch notes (current_note s + 1))) = false).
    { unfold pitch.
      replace (Z.to_nat (current_note s + 1)) with (S (Z.to_nat (current_note s))) by lia.
      apply Hnext. unfold note in *. lia. }
    apply Z.leb_gt in Hlt.
    rewrite melody_stage_change; try assumption.
    + rewrite Hlt. cbv zeta. apply Hfin.
      apply (change_solo notes r (snd t) (current_note s) (current_note s + 1) tl);
        auto; lia.
    + rewrite Hlt. reflexivity.
    + rewrite Hlt. cbv zeta. rewrite Hrest. cbn [negb andb].
      rewrite Hadv, !Enf. apply normalize_differs, Hdiff.
Qed.

Lemma run_ticks_solo (notes : list note) (r : bool) (ts : list (Z * float)) :
  1 <= Z.of_nat (length notes) <= 65535 -> melodic notes r ->
  forall s, solo notes r s -> solo notes r (run_ticks ts s).
Proof.
  intros Hn Hmel. induction ts as [|t ts IH]; intros s Hs; [exact Hs|].
  apply IH, tick_solo; assumption.
Qed.

(** [audio_play_melody] puts the melody in charge. *)
Lemma play_melody_solo (notes : list note) (r : bool) (s : state) :
  audio_enable s = true -> audio_initialized s = true -> tone_inv s ->
  1 <= Z.of_nat (length notes) <= 65535 ->
  (playing_note s = false -> quiet_tail notes (drop 1 (frequencies s))) ->
  solo notes r (audio_play_melody (Song notes) (Z.of_nat (length notes)) r s).
Proof.
  intros He Hi Hv Hn Htail.
  destruct (play_melody_start s (Song notes) (Z.of_nat (length notes)) r He Hi Hv)
    as (s0 & E & E0 & Hl0).
  rewrite E. unfold solo. fields.
  assert (Hs0 : audio_initialized s0 = true /\ audio_enable s0 = true)
    by (rewrite E0; destruct (playing_note s); auto).
  destruct Hs0 as [Hi0 He0].
  repeat apply conj; auto; try lia.
  destruct (frequencies s0) as [|x tl] eqn:Efr; [discriminate|].
  exists tl. split; [reflexivity|].
  destruct (playing_note s) eqn:Hp.
  - assert (Etl : x :: tl = replicate AUDIO_TONE_STACKSIZE F32.minus_one).
    { rewrite <- Efr, E0. apply silence_frequencies. apply Hv. }
    injection Etl as _ ->. apply quiet_tail_cleared.
  - specialize (Htail eq_refl). rewrite E0 in Efr. rewrite Efr in Htail. exact Htail.
Qed.

End Solo.

(** ** Tone calls on known cells *)

Section Cells.

Context `{platform}.

(** A frequency no active tone compares equal to is written to the first
    unused cell. *)
Lemma play_tone_pushes (f x0 : float) (st tl : list float) (s : state) :
  audio_enable s = true -> audio_initialized s = true ->
  frequencies s = st ++ x0 :: tl -> active_tones s = Z.of_nat (length st) ->
  (length st < AUDIO_TONE_STACKSIZE)%nat ->
  Forall (fun y => F32.eqb y (normalize f) = false) st ->
  audio_play_tone f s
  = let s' := set_frequencies (st ++ normalize f :: tl)
                (set_playing_note true
                   (set_state_changed true
                      (set_active_tones (Z.of_nat (length st) + 1)
                         (emit (CallPlayTone f) s)))) in
    if active_tones s =? 0 then emit DriverStart s' else s'.
Proof.
  intros He Hi Hfr Ha Hl Hst. stacksize.
  rewrite audio_play_tone_ready by assumption. rewrite request_tone_push.
  - cbv zeta. fields. rewrite Ha, Hfr, Nat2Z.id, insert_at. reflexivity.
  - fields. rewrite Ha. stacksize. lia.
  - fields. rewrite Ha, Hfr, Nat2Z.id. apply scan_down_None. intros k Hk.
    rewrite lookup_total_app_l by exact Hk.
    rewrite Forall_lookup in Hst. apply (Hst k).
    apply list_lookup_lookup_total_lt. exact Hk.
Qed.

(** A frequency an active tone compares equal to: that tone moves to the
    top. *)
Lemma play_tone_found (f x : float) (l1 l2 tl : list float) (s : state) :
  audio_enable s = true -> audio_initialized s = true ->
  frequencies s = l1 ++ x :: l2 ++ tl ->
  active_tones s = Z.of_nat (length (l1 ++ x :: l2)) ->
  F32.eqb x (normalize f) = true ->
  Forall (fun y => F32.eqb y (normalize f) = false) l2 ->
  audio_play_tone f s
  = set_frequencies (l1 ++ l2 ++ (if decide (l2 = []) then x else normalize f) :: tl)
      (emit (CallPlayTone f) s).
Proof.
  intros He Hi Hfr Ha Hx Hl2.
  assert (Hla : Z.to_nat (active_tones s) = (length l1 + S (length l2))%nat)
    by (rewrite Ha, Nat2Z.id, length_app; reflexivity).
  rewrite audio_play_tone_ready by assumption.
  rewrite (request_tone_found _ _ (length l1)).
  - fields. rewrite Hla, Hfr. f_equal.
    rewrite take_app_length.
    replace (length l1 + S (length l2) - 1 - length l1)%nat with (length l2) by lia.
    replace (S (length l1)) with (length (l1 ++ [x])) by (rewrite length_app; simpl; lia).
    replace (l1 ++ x :: l2 ++ tl) with ((l1 ++ [x]) ++ l2 ++ tl)
      by (rewrite <- app_assoc; reflexivity).
    rewrite drop_app_length, take_app_length.
    replace ((l1 ++ [x]) ++ l2 ++ tl) with ((l1 ++ x :: l2) ++ tl)
      by (rewrite <- !app_assoc; reflexivity).
    replace (length l1 + S (length l2))%nat with (length (l1 ++ x :: l2))
      by (rewrite length_app; reflexivity).
    rewrite drop_app_length.
    replace ((l1 ++ x :: l2) ++ tl) with (l1 ++ x :: l2 ++ tl)
      by (rewrite <- !app_assoc; reflexivity).
    rewrite read_at. do 2 f_equal.
    destruct l2 as [|y l2]; simpl.
    + rewrite decide_True by (rewrite length_app; simpl; lia). reflexivity.
    + rewrite decide_False by (rewrite !length_app; simpl; lia). reflexivity.
  - fields. rewrite Hla, Hfr, !length_app. simpl. rewrite length_app. lia.
  - fields. rewrite Hla, Hfr. apply scan_down_at.
    + lia.
    + rewrite read_at. exact Hx.
    + intros k Hk.
      replace (l1 ++ x :: l2 ++ tl) with ((l1 ++ [x]) ++ l2 ++ tl)
        by (rewrite <- app_assoc; reflexivity).
      rewrite lookup_total_app_r by (rewrite length_app; simpl; lia).
      rewrite length_app. simpl.
      rewrite lookup_total_app_l by lia.
      rewrite Forall_lookup in Hl2. apply (Hl2 (k - (length l1 + 1))%nat).
      apply list_lookup_lookup_total_lt. lia.
Qed.

(** A frequency is released at the highest cell that compares equal to
    it. *)
Lemma stop_tone_at (f x : float) (l1 l2 : list float) (s : state) :
  audio_initialized s = true -> playing_note s = true ->
  1 <= active_tones s <= 8 ->
  frequencies s = l1 ++ x :: l2 -> length (l1 ++ x :: l2) = AUDIO_TONE_STACKSIZE ->
  F32.eqb x (normalize f) = true ->
  Forall (fun y => F32.eqb y (normalize f) = false) l2 ->
  audio_stop_tone f s
  = let s' := set_active_tones (active_tones s - 1)
                (set_state_changed true
                   (set_frequencies (l1 ++ l2 ++ [F32.minus_one])
                      (emit (CallStopTone f) s))) in
    if active_tones s =? 1 then set_playing_note false (emit DriverStop s') else s'.
Proof.
  intros Hi Hp Ha Hfr Hl Hx Hl2. rewrite audio_stop_tone_ready by exact Hi.
  rewrite Hp. rewrite (release_tone_found _ _ (length l1)).
  - fields. rewrite Hfr. rewrite (delete_at l1 l2 x _ eq_refl), <- app_assoc.
    reflexivity.
  - fields. rewrite Hfr. exact Hl.
  - fields. lia.
  - fields. rewrite Hfr. rewrite length_app in Hl. simpl in Hl. apply scan_down_at.
    + stacksize. lia.
    + rewrite read_at. exact Hx.
    + intros k Hk. stacksize.
      replace (l1 ++ x :: l2) with ((l1 ++ [x]) ++ l2)
        by (rewrite <- app_assoc; reflexivity).
      rewrite lookup_total_app_r by (rewrite length_app; simpl; lia).
      rewrite length_app. simpl.
      rewrite Forall_lookup in Hl2. apply (Hl2 (k - (length l1 + 1))%nat).
      apply list_lookup_lookup_total_lt. lia.
Qed.

(** A frequency no cell compares equal to: nothing is released. *)
Lemma stop_tone_miss (f : float) (s : state) :
  audio_initialized s = true ->
  (playing_note s = true ->
   length (frequencies s) = AUDIO_TONE_STACKSIZE
   /\ Forall (fun y => F32.eqb y (normalize f) = false) (frequencies s)) ->
  audio_stop_tone f s = emit (CallStopTone f) s.
Proof.
  intros Hi Hfr. rewrite audio_stop_tone_ready by exact Hi.
  destruct (playing_note s); [|reflexivity].
  destruct (Hfr eq_refl) as [Hl Hf]. unfold release_tone.
  replace (scan_down (frequencies (emit (CallStopTone f) s)) (normalize f)
             AUDIO_TONE_STACKSIZE) with (@None nat); [reflexivity|].
  symmetry. apply scan_down_None. intros k Hk. fields.
  rewrite Forall_lookup in Hf. apply (Hf k).
  apply list_lookup_lookup_total_lt. lia.
Qed.

End Cells.

(** ** A melody with a rest in it *)

Lemma unmatched_snoc (notes : list note) (l : list float) :
  unmatched notes l -> unmatched notes (l ++ [F32.minus_one]).
Proof.
  intros Hl i Hi. apply Forall_app. split; [apply Hl, Hi|].
  constructor; [apply minus_one_normalize|constructor].
Qed.

Lemma unmatched_tail (notes : list note) (x : float) (l : list float) :
  unmatched notes (x :: l) -> unmatched notes l.
Proof. intros Hl i Hi. specialize (Hl i Hi). inversion Hl; assumption. Qed.

Section Voiced.

Context `{platform}.

Variable notes : list note.
Hypothesis notes_voiced : voiced notes.

Lemma voiced_number (i : Z) :
  0 <= i < Z.of_nat (length notes) ->
  F32.eqb (normalize (pitch notes i)) (normalize (pitch notes i)) = true.
Proof.
  intros Hi. apply normalize_eqb. unfold pitch, voiced in *.
  rewrite Forall_lookup in notes_voiced.
  apply (notes_voiced (Z.to_nat i)). apply list_lookup_lookup_total_lt.
  unfold note in *. lia.
Qed.

Lemma voiced_nonzero (i : Z) :
  0 <= i < Z.of_nat (length notes) ->
  F32.eqb (normalize (pitch notes i)) F32.zero = false.
Proof.
  intros Hi. unfold pitch, voiced in *.
  rewrite Forall_lookup in notes_voiced.
  apply (notes_voiced (Z.to_nat i)). apply list_lookup_lookup_total_lt.
  unfold note in *. lia.
Qed.

Lemma zero_unvoiced (i : Z) :
  0 <= i < Z.of_nat (length notes) ->
  F32.eqb F32.zero (normalize (pitch notes i)) = false.
Proof. intros Hi. rewrite eqb_sym. apply voiced_nonzero, Hi. Qed.

(** A request for a note is not the request for a rest. *)
Lemma voiced_request (i : Z) :
  0 <= i < Z.of_nat (length notes) ->
  CallPlayTone (pitch notes i) <> CallPlayTone F32.zero.
Proof.
  intros Hi E. pose proof (voiced_nonzero i Hi) as Hz.
  injection E as E. rewrite E in Hz. discriminate.
Qed.

Lemma unmatched_at (l : list float) (i : Z) :
  unmatched notes l -> 0 <= i < Z.of_nat (length notes) ->
  Forall (fun x => F32.eqb x (normalize (pitch notes i)) = false) l.
Proof. intros Hl Hi. apply (Hl (Z.to_nat i)). unfold note in *. lia. Qed.

End Voiced.

Section Advance.

Context `{platform}.

Variable notes : list note.
Hypothesis notes_voiced : voiced notes.

Lemma advancing_sequenced (base cp tl : list float) (j : Z) (v e : float) (s : state) :
  advancing notes base cp tl j s -> current_note s = j -> note_resting s = false ->
  sequenced notes base cp tl (set_note_length v (carry_overshoot e s))
  /\ note_resting (set_note_length v (carry_overshoot e s)) = false
  /\ playing_melody (set_note_length v (carry_overshoot e s)) = true
  /\ current_note (set_note_length v (carry_overshoot e s)) = j.
Proof.
  intros (Hb & Hj & Hi & He & Hnp & Hn & Hr & Hm & Hfr & Hl & Ha & Hp & Htl & Hcp)
    Hcur Hrest.
  unfold sequenced. fields. rewrite Hcur.
  repeat apply conj; auto.
  destruct Hcp as [->| ->]; auto.
Qed.

(** A note starts: it is requested, and the note that is over is released
    unless the two compare equal. *)
Lemma advance_sequenced (base cp tl : list float) (c j : Z) (end_ : float) (s0 : state) :
  advancing notes base cp tl c s0 ->
  0 <= j < Z.of_nat (length notes) -> current_note s0 = j ->
  (F32.eqb (pitch notes c) (pitch notes j) = true -> cp = [] /\ base = [F32.zero]) ->
  let s1 := set_note_resting false s0 in
  let s2 := audio_play_tone (note_frequency s1 (current_note s1)) s1 in
  let s3 :=
    if negb (F32.eqb (note_frequency s2 c) (note_frequency s2 (current_note s2)))
    then audio_stop_tone (note_frequency s2 c) s2
    else s2 in
  let s4 := carry_overshoot end_ s3 in
  let s5 :=
    set_note_length (F32.mul (note_duration s4 (current_note s4)) (tempo_scale s4)) s4 in
  exists cp' tl' evs,
    sequenced notes base cp' tl' s5 /\ note_resting s5 = false
    /\ playing_melody s5 = true /\ current_note s5 = j
    /\ trace s5 = trace s0 ++ evs
    /\ ~ In (CallPlayTone F32.zero) evs
    /\ (base = [F32.zero] -> ~ In DriverStop evs)
    /\ (F32.eqb (pitch notes c) (pitch notes j) = true ->
        evs = [CallPlayTone (pitch notes j)] /\ cp' = [normalize (pitch notes j)]).
Proof.
  intros (base_cases & c_range & s0_initialized & s0_enabled & s0_song & s0_count
          & s0_once & s0_playing & s0_cells & s0_length & s0_active & s0_note
          & s0_tail & cp_cases) j_range s0_current Hraw s1 s2 s3 s4 s5.
  pose proof (voiced_number notes notes_voiced c c_range) as Hnc.
  pose proof (voiced_number notes notes_voiced j j_range) as Hnj.
  pose proof (zero_unvoiced notes notes_voiced c c_range) as Hzc.
  pose proof (zero_unvoiced notes notes_voiced j j_range) as Hzj.
  pose proof (voiced_request notes notes_voiced j j_range) as Hrj.
  pose proof (unmatched_at notes tl c s0_tail c_range) as Htc.
  pose proof (unmatched_at notes tl j s0_tail j_range) as Htj.
  assert (Enf1 : forall i, note_frequency s1 i = pitch notes i)
    by (intros i; unfold note_frequency, song, pitch, s1; fields; rewrite s0_song;
        reflexivity).
  assert (Ecur1 : current_note s1 = j) by exact s0_current.
  assert (Hi1 : audio_initialized s1 = true) by exact s0_initialized.
  assert (He1 : audio_enable s1 = true) by exact s0_enabled.
  assert (Hraw' : F32.eqb (normalize (pitch notes c)) (normalize (pitch notes j)) = false ->
                  F32.eqb (pitch notes c) (pitch notes j) = false)
    by apply normalize_differs.
  assert (Hclose : forall cp' tl' evs,
            advancing notes base cp' tl' j s3 -> current_note s3 = j ->
            note_resting s3 = false -> trace s3 = trace s0 ++ evs ->
            ~ In (CallPlayTone F32.zero) evs ->
            (base = [F32.zero] -> ~ In DriverStop evs) ->
            (F32.eqb (pitch notes c) (pitch notes j) = true ->
             evs = [CallPlayTone (pitch notes j)] /\ cp' = [normalize (pitch notes j)]) ->
            exists cp' tl' evs,
              sequenced notes base cp' tl' s5 /\ note_resting s5 = false
              /\ playing_melody s5 = true /\ current_note s5 = j
              /\ trace s5 = trace s0 ++ evs
              /\ ~ In (CallPlayTone F32.zero) evs
              /\ (base = [F32.zero] -> ~ In DriverStop evs)
              /\ (F32.eqb (pitch notes c) (pitch notes j) = true ->
                  evs = [CallPlayTone (pitch notes j)]
                  /\ cp' = [normalize (pitch notes j)])).
  { intros cp' tl' evs Hadv Hcur Hrest Htr Hno Hstop Hrep. exists cp', tl', evs.
    destruct (advancing_sequenced base cp' tl' j
                (F32.mul (note_duration s4 (current_note s4)) (tempo_scale s4)) end_ s3
                Hadv Hcur Hrest) as (Q1 & Q2 & Q3 & Q4).
    split; [exact Q1|]. split; [exact Q2|]. split; [exact Q3|]. split; [exact Q4|].
    split; [exact Htr|]. split; [exact Hno|]. split; [exact Hstop|exact Hrep]. }
  clearbody s5. clear s4.
  destruct tl as [|x0 tl0];
    [destruct base_cases as [->| ->], cp_cases as [->| ->]; discriminate|].
  pose proof (unmatched_tail notes x0 tl0 s0_tail) as Htl0.
  pose proof Htc as Htc'. pose proof Htj as Htj'.
  apply Forall_cons in Htc' as [_ Htc0].
  apply Forall_cons in Htj' as [_ Htj0].
  assert (Hlen0 : forall (l : list float), length (l ++ x0 :: tl0) = AUDIO_TONE_STACKSIZE ->
                    length ((l ++ tl0) ++ [F32.minus_one]) = AUDIO_TONE_STACKSIZE)
    by (intros l E; rewrite !length_app in *; simpl in *; lia).
  destruct (F32.eqb (normalize (pitch notes c)) (normalize (pitch notes j))) eqn:Enorm.
  all: destruct (F32.eqb (pitch notes c) (pitch notes j)) eqn:Eraw.
  all: try discriminate (Hraw' eq_refl).
  all: destruct base_cases as [Eb|Eb], cp_cases as [Ecp|Ecp].
  all: try (destruct (Hraw eq_refl) as [Ecp' Eb']; congruence).
  all: rewrite Eb, Ecp in *.
  all: cbn [app length] in s0_cells, s0_length, s0_active.
  all: change (Z.of_nat 0) with 0 in s0_active; change (Z.of_nat 1) with 1 in s0_active;
       change (Z.of_nat 2) with 2 in s0_active.
  all: assert (Ha1 : active_tones s1 = active_tones s0) by reflexivity;
       rewrite s0_active in Ha1.
  all: assert (Hp1 : playing_note s1 = playing_note s0) by reflexivity;
       rewrite s0_note, s0_active in Hp1; cbn in Hp1.
  all: assert (Hfr1 : frequencies s1 = frequencies s0) by reflexivity;
       rewrite s0_cells in Hfr1.
  - (* the repeated note, after its rest *)
    assert (E2 : s2 = set_frequencies (F32.zero :: normalize (pitch notes j) :: tl0)
        (set_playing_note true (set_state_changed true (set_active_tones 2 (emit (CallPlayTone
            (pitch notes j)) s1))))).
    { unfold s2. rewrite Enf1, Ecur1.
      rewrite (play_tone_pushes (pitch notes j) x0 [F32.zero] tl0 s1 He1 Hi1 Hfr1 Ha1);
        [cbv zeta; rewrite Ha1; reflexivity|simpl; stacksize; lia|repeat (constructor; [first
            [exact Hzj|exact Enorm]|]); constructor]. }
    assert (Enf2 : forall i, note_frequency s2 i = pitch notes i) by (intros i; rewrite E2;
        exact (Enf1 i)).
    assert (Ecur2 : current_note s2 = j) by (rewrite E2; exact Ecur1).
    assert (Hi2 : audio_initialized s2 = true) by (rewrite E2; exact Hi1).
    assert (Hp2 : playing_note s2 = true) by (rewrite E2; reflexivity).
    assert (Ha2 : active_tones s2 = 2) by (rewrite E2; reflexivity).
    assert (Hfr2 : frequencies s2 = F32.zero :: normalize (pitch notes j) :: tl0) by (rewrite
        E2; reflexivity).
    assert (E3 : s3 = s2) by (unfold s3; rewrite !Enf2, Ecur2, Eraw; reflexivity).
    apply (Hclose [normalize (pitch notes j)] (tl0) [CallPlayTone (pitch notes j)]).
    + rewrite E3, ?E2. unfold advancing, s1. fields.
      repeat apply conj; auto; try reflexivity; try (simpl in *; rewrite ?length_app in *;
          simpl in *; lia);
        try (apply unmatched_snoc; assumption).
    + rewrite E3, ?E2. exact s0_current.
    + rewrite E3, ?E2. reflexivity.
    + rewrite E3, ?E2. unfold s1. fields. rewrite <- ?app_assoc. reflexivity.
    + cbn [In]. intuition congruence.
    + cbn [In]. intuition congruence.
    + intros E. first [discriminate E|split; reflexivity].
  - (* equal up to the sign, no tone active *)
    assert (E2 : s2 = emit DriverStart (set_frequencies (normalize (pitch notes j) :: tl0)
        (set_playing_note true (set_state_changed true (set_active_tones 1 (emit (CallPlayTone
            (pitch notes j)) s1)))))).
    { unfold s2. rewrite Enf1, Ecur1.
      rewrite (play_tone_pushes (pitch notes j) x0 [] tl0 s1 He1 Hi1 Hfr1 Ha1);
        [cbv zeta; rewrite Ha1; reflexivity|simpl; stacksize; lia|repeat (constructor; [first
            [exact Hzj|exact Enorm]|]); constructor]. }
    assert (Enf2 : forall i, note_frequency s2 i = pitch notes i) by (intros i; rewrite E2;
        exact (Enf1 i)).
    assert (Ecur2 : current_note s2 = j) by (rewrite E2; exact Ecur1).
    assert (Hi2 : audio_initialized s2 = true) by (rewrite E2; exact Hi1).
    assert (Hp2 : playing_note s2 = true) by (rewrite E2; reflexivity).
    assert (Ha2 : active_tones s2 = 1) by (rewrite E2; reflexivity).
    assert (Hfr2 : frequencies s2 = normalize (pitch notes j) :: tl0) by (rewrite E2;
        reflexivity).
    assert (E3 : s3 = set_playing_note false (emit DriverStop (set_active_tones 0
        (set_state_changed true (set_frequencies (tl0 ++ [F32.minus_one]) (emit (CallStopTone
            (pitch notes c)) s2)))))).
    { unfold s3. rewrite !Enf2, Ecur2, Eraw. cbn [negb].
      assert (Egjc : F32.eqb (normalize (pitch notes j)) (normalize (pitch notes c)) = true) by
          (rewrite eqb_sym; exact Enorm).
      rewrite (stop_tone_at (pitch notes c) (normalize (pitch notes j)) [] (tl0) s2 Hi2 Hp2);
        [cbv zeta; rewrite Ha2; reflexivity|rewrite Ha2; lia|exact Hfr2|simpl in *; lia|exact
            Egjc|].
      repeat (constructor; [first [exact Hzc|exact Egjc]|]). first [exact Htc0|exact Htc]. }
    apply (Hclose [] (tl0 ++ [F32.minus_one]) [CallPlayTone (pitch notes j); DriverStart;
        CallStopTone (pitch notes c); DriverStop]).
    + rewrite E3, ?E2. unfold advancing, s1. fields.
      repeat apply conj; auto; try reflexivity; try (simpl in *; rewrite ?length_app in *;
          simpl in *; lia);
        try (apply unmatched_snoc; assumption).
    + rewrite E3, ?E2. exact s0_current.
    + rewrite E3, ?E2. reflexivity.
    + rewrite E3, ?E2. unfold s1. fields. rewrite <- ?app_assoc. reflexivity.
    + cbn [In]. intuition congruence.
    + cbn [In]. intuition congruence.
    + intros E. first [discriminate E|split; reflexivity].
  - (* equal up to the sign, the note active *)
    assert (E2 : s2 = set_frequencies (normalize (pitch notes c) :: x0 :: tl0) (emit
        (CallPlayTone (pitch notes j)) s1)).
    { unfold s2. rewrite Enf1, Ecur1.
      rewrite (play_tone_found (pitch notes j) (normalize (pitch notes c)) [] [] (x0 :: tl0) s1
          He1 Hi1 Hfr1 Ha1 Enorm ltac:(constructor)).
      rewrite decide_True by reflexivity. reflexivity. }
    assert (Enf2 : forall i, note_frequency s2 i = pitch notes i) by (intros i; rewrite E2;
        exact (Enf1 i)).
    assert (Ecur2 : current_note s2 = j) by (rewrite E2; exact Ecur1).
    assert (Hi2 : audio_initialized s2 = true) by (rewrite E2; exact Hi1).
    assert (Hp2 : playing_note s2 = true) by (rewrite E2; exact Hp1).
    assert (Ha2 : active_tones s2 = 1) by (rewrite E2; exact Ha1).
    assert (Hfr2 : frequencies s2 = normalize (pitch notes c) :: x0 :: tl0) by (rewrite E2;
        reflexivity).
    assert (E3 : s3 = set_playing_note false (emit DriverStop (set_active_tones 0
        (set_state_changed true (set_frequencies ((x0 :: tl0) ++ [F32.minus_one]) (emit
            (CallStopTone (pitch notes c)) s2)))))).
    { unfold s3. rewrite !Enf2, Ecur2, Eraw. cbn [negb].
      assert (Egjc : F32.eqb (normalize (pitch notes j)) (normalize (pitch notes c)) = true) by
          (rewrite eqb_sym; exact Enorm).
      rewrite (stop_tone_at (pitch notes c) (normalize (pitch notes c)) [] (x0 :: tl0) s2 Hi2
          Hp2);
        [cbv zeta; rewrite Ha2; reflexivity|rewrite Ha2; lia|exact Hfr2|simpl in *; lia|exact
            Hnc|].
      repeat (constructor; [first [exact Hzc|exact Egjc]|]). first [exact Htc0|exact Htc]. }
    apply (Hclose [] ((x0 :: tl0) ++ [F32.minus_one]) [CallPlayTone (pitch notes j);
        CallStopTone (pitch notes c); DriverStop]).
    + rewrite E3, ?E2. unfold advancing, s1. fields.
      repeat apply conj; auto; try reflexivity; try (simpl in *; rewrite ?length_app in *;
          simpl in *; lia);
        try (apply unmatched_snoc; assumption).
    + rewrite E3, ?E2. exact s0_current.
    + rewrite E3, ?E2. reflexivity.
    + rewrite E3, ?E2. unfold s1. fields. rewrite <- ?app_assoc. reflexivity.
    + cbn [In]. intuition congruence.
    + cbn [In]. intuition congruence.
    + intros E. first [discriminate E|split; reflexivity].
  - (* equal up to the sign, the rest active *)
    assert (E2 : s2 = set_frequencies (F32.zero :: normalize (pitch notes j) :: tl0)
        (set_playing_note true (set_state_changed true (set_active_tones 2 (emit (CallPlayTone
            (pitch notes j)) s1))))).
    { unfold s2. rewrite Enf1, Ecur1.
      rewrite (play_tone_pushes (pitch notes j) x0 [F32.zero] tl0 s1 He1 Hi1 Hfr1 Ha1);
        [cbv zeta; rewrite Ha1; reflexivity|simpl; stacksize; lia|repeat (constructor; [first
            [exact Hzj|exact Enorm]|]); constructor]. }
    assert (Enf2 : forall i, note_frequency s2 i = pitch notes i) by (intros i; rewrite E2;
        exact (Enf1 i)).
    assert (Ecur2 : current_note s2 = j) by (rewrite E2; exact Ecur1).
    assert (Hi2 : audio_initialized s2 = true) by (rewrite E2; exact Hi1).
    assert (Hp2 : playing_note s2 = true) by (rewrite E2; reflexivity).
    assert (Ha2 : active_tones s2 = 2) by (rewrite E2; reflexivity).
    assert (Hfr2 : frequencies s2 = F32.zero :: normalize (pitch notes j) :: tl0) by (rewrite
        E2; reflexivity).
    assert (E3 : s3 = set_active_tones 1 (set_state_changed true (set_frequencies (F32.zero ::
        tl0 ++ [F32.minus_one]) (emit (CallStopTone (pitch notes c)) s2)))).
    { unfold s3. rewrite !Enf2, Ecur2, Eraw. cbn [negb].
      assert (Egjc : F32.eqb (normalize (pitch notes j)) (normalize (pitch notes c)) = true) by
          (rewrite eqb_sym; exact Enorm).
      rewrite (stop_tone_at (pitch notes c) (normalize (pitch notes j)) [F32.zero] (tl0) s2 Hi2
          Hp2);
        [cbv zeta; rewrite Ha2; reflexivity|rewrite Ha2; lia|exact Hfr2|simpl in *; lia|exact
            Egjc|].
      repeat (constructor; [first [exact Hzc|exact Egjc]|]). first [exact Htc0|exact Htc]. }
    apply (Hclose [] (tl0 ++ [F32.minus_one]) [CallPlayTone (pitch notes j); CallStopTone
        (pitch notes c)]).
    + rewrite E3, ?E2. unfold advancing, s1. fields.
      repeat apply conj; auto; try reflexivity; try (simpl in *; rewrite ?length_app in *;
          simpl in *; lia);
        try (apply unmatched_snoc; assumption).
    + rewrite E3, ?E2. exact s0_current.
    + rewrite E3, ?E2. reflexivity.
    + rewrite E3, ?E2. unfold s1. fields. rewrite <- ?app_assoc. reflexivity.
    + cbn [In]. intuition congruence.
    + cbn [In]. intuition congruence.
    + intros E. first [discriminate E|split; reflexivity].
  - (* equal up to the sign, the rest and the note active *)
    assert (E2 : s2 = set_frequencies (F32.zero :: normalize (pitch notes c) :: x0 :: tl0)
        (emit (CallPlayTone (pitch notes j)) s1)).
    { unfold s2. rewrite Enf1, Ecur1.
      rewrite (play_tone_found (pitch notes j) (normalize (pitch notes c)) [F32.zero] [] (x0 ::
          tl0) s1 He1 Hi1 Hfr1 Ha1 Enorm ltac:(constructor)).
      rewrite decide_True by reflexivity. reflexivity. }
    assert (Enf2 : forall i, note_frequency s2 i = pitch notes i) by (intros i; rewrite E2;
        exact (Enf1 i)).
    assert (Ecur2 : current_note s2 = j) by (rewrite E2; exact Ecur1).
    assert (Hi2 : audio_initialized s2 = true) by (rewrite E2; exact Hi1).
    assert (Hp2 : playing_note s2 = true) by (rewrite E2; exact Hp1).
    assert (Ha2 : active_tones s2 = 2) by (rewrite E2; exact Ha1).
    assert (Hfr2 : frequencies s2 = F32.zero :: normalize (pitch notes c) :: x0 :: tl0) by
        (rewrite E2; reflexivity).
    assert (E3 : s3 = set_active_tones 1 (set_state_changed true (set_frequencies (F32.zero ::
        (x0 :: tl0) ++ [F32.minus_one]) (emit (CallStopTone (pitch notes c)) s2)))).
    { unfold s3. rewrite !Enf2, Ecur2, Eraw. cbn [negb].
      assert (Egjc : F32.eqb (normalize (pitch notes j)) (normalize (pitch notes c)) = true) by
          (rewrite eqb_sym; exact Enorm).
      rewrite (stop_tone_at (pitch notes c) (normalize (pitch notes c)) [F32.zero] (x0 :: tl0)
          s2 Hi2 Hp2);
        [cbv zeta; rewrite Ha2; reflexivity|rewrite Ha2; lia|exact Hfr2|simpl in *; lia|exact
            Hnc|].
      repeat (constructor; [first [exact Hzc|exact Egjc]|]). first [exact Htc0|exact Htc]. }
    apply (Hclose [] ((x0 :: tl0) ++ [F32.minus_one]) [CallPlayTone (pitch notes j);
        CallStopTone (pitch notes c)]).
    + rewrite E3, ?E2. unfold advancing, s1. fields.
      repeat apply conj; auto; try reflexivity; try (simpl in *; rewrite ?length_app in *;
          simpl in *; lia);
        try (apply unmatched_snoc; assumption).
    + rewrite E3, ?E2. exact s0_current.
    + rewrite E3, ?E2. reflexivity.
    + rewrite E3, ?E2. unfold s1. fields. rewrite <- ?app_assoc. reflexivity.
    + cbn [In]. intuition congruence.
    + cbn [In]. intuition congruence.
    + intros E. first [discriminate E|split; reflexivity].
  - (* another note, no tone active *)
    assert (E2 : s2 = emit DriverStart (set_frequencies (normalize (pitch notes j) :: tl0)
        (set_playing_note true (set_state_changed true (set_active_tones 1 (emit (CallPlayTone
            (pitch notes j)) s1)))))).
    { unfold s2. rewrite Enf1, Ecur1.
      rewrite (play_tone_pushes (pitch notes j) x0 [] tl0 s1 He1 Hi1 Hfr1 Ha1);
        [cbv zeta; rewrite Ha1; reflexivity|simpl; stacksize; lia|repeat (constructor; [first
            [exact Hzj|exact Enorm]|]); constructor]. }
    assert (Enf2 : forall i, note_frequency s2 i = pitch notes i) by (intros i; rewrite E2;
        exact (Enf1 i)).
    assert (Ecur2 : current_note s2 = j) by (rewrite E2; exact Ecur1).
    assert (Hi2 : audio_initialized s2 = true) by (rewrite E2; exact Hi1).
    assert (Hp2 : playing_note s2 = true) by (rewrite E2; reflexivity).
    assert (Ha2 : active_tones s2 = 1) by (rewrite E2; reflexivity).
    assert (Hfr2 : frequencies s2 = normalize (pitch notes j) :: tl0) by (rewrite E2;
        reflexivity).
    assert (E3 : s3 = emit (CallStopTone (pitch notes c)) s2).
    { unfold s3. rewrite !Enf2, Ecur2, Eraw. cbn [negb].
      apply stop_tone_miss; [exact Hi2|]. intros _. rewrite Hfr2. split.
      - simpl in *. lia.
      - assert (Egjc : F32.eqb (normalize (pitch notes j)) (normalize (pitch notes c)) = false)
          by (rewrite eqb_sym; exact Enorm).
        repeat (constructor; [first [exact Hzc|exact Egjc]|]). exact Htc0. }
    apply (Hclose [normalize (pitch notes j)] (tl0) [CallPlayTone (pitch notes j); DriverStart;
        CallStopTone (pitch notes c)]).
    + rewrite E3, ?E2. unfold advancing, s1. fields.
      repeat apply conj; auto; try reflexivity; try (simpl in *; rewrite ?length_app in *;
          simpl in *; lia);
        try (apply unmatched_snoc; assumption).
    + rewrite E3, ?E2. exact s0_current.
    + rewrite E3, ?E2. reflexivity.
    + rewrite E3, ?E2. unfold s1. fields. rewrite <- ?app_assoc. reflexivity.
    + cbn [In]. intuition congruence.
    + cbn [In]. intuition congruence.
    + intros E. first [discriminate E|split; reflexivity].
  - (* another note, the note active *)
    assert (E2 : s2 = set_frequencies (normalize (pitch notes c) :: normalize (pitch notes j)
        :: tl0) (set_playing_note true (set_state_changed true (set_active_tones 2 (emit
            (CallPlayTone (pitch notes j)) s1))))).
    { unfold s2. rewrite Enf1, Ecur1.
      rewrite (play_tone_pushes (pitch notes j) x0 [normalize (pitch notes c)] tl0 s1 He1 Hi1
          Hfr1 Ha1);
        [cbv zeta; rewrite Ha1; reflexivity|simpl; stacksize; lia|repeat (constructor; [first
            [exact Hzj|exact Enorm]|]); constructor]. }
    assert (Enf2 : forall i, note_frequency s2 i = pitch notes i) by (intros i; rewrite E2;
        exact (Enf1 i)).
    assert (Ecur2 : current_note s2 = j) by (rewrite E2; exact Ecur1).
    assert (Hi2 : audio_initialized s2 = true) by (rewrite E2; exact Hi1).
    assert (Hp2 : playing_note s2 = true) by (rewrite E2; reflexivity).
    assert (Ha2 : active_tones s2 = 2) by (rewrite E2; reflexivity).
    assert (Hfr2 : frequencies s2 = normalize (pitch notes c) :: normalize (pitch notes j) ::
        tl0) by (rewrite E2; reflexivity).
    assert (E3 : s3 = set_active_tones 1 (set_state_changed true (set_frequencies (normalize
        (pitch notes j) :: tl0 ++ [F32.minus_one]) (emit (CallStopTone (pitch notes c)) s2)))).
    { unfold s3. rewrite !Enf2, Ecur2, Eraw. cbn [negb].
      assert (Egjc : F32.eqb (normalize (pitch notes j)) (normalize (pitch notes c)) = false)
          by (rewrite eqb_sym; exact Enorm).
      rewrite (stop_tone_at (pitch notes c) (normalize (pitch notes c)) [] (normalize (pitch
          notes j) :: tl0) s2 Hi2 Hp2);
        [cbv zeta; rewrite Ha2; reflexivity|rewrite Ha2; lia|exact Hfr2|simpl in *; lia|exact
            Hnc|].
      repeat (constructor; [first [exact Hzc|exact Egjc]|]). first [exact Htc0|exact Htc]. }
    apply (Hclose [normalize (pitch notes j)] (tl0 ++ [F32.minus_one]) [CallPlayTone (pitch
        notes j); CallStopTone (pitch notes c)]).
    + rewrite E3, ?E2. unfold advancing, s1. fields.
      repeat apply conj; auto; try reflexivity; try (simpl in *; rewrite ?length_app in *;
          simpl in *; lia);
        try (apply unmatched_snoc; assumption).
    + rewrite E3, ?E2. exact s0_current.
    + rewrite E3, ?E2. reflexivity.
    + rewrite E3, ?E2. unfold s1. fields. rewrite <- ?app_assoc. reflexivity.
    + cbn [In]. intuition congruence.
    + cbn [In]. intuition congruence.
    + intros E. first [discriminate E|split; reflexivity].
  - (* another note, the rest active *)
    assert (E2 : s2 = set_frequencies (F32.zero :: normalize (pitch notes j) :: tl0)
        (set_playing_note true (set_state_changed true (set_active_tones 2 (emit (CallPlayTone
            (pitch notes j)) s1))))).
    { unfold s2. rewrite Enf1, Ecur1.
      rewrite (play_tone_pushes (pitch notes j) x0 [F32.zero] tl0 s1 He1 Hi1 Hfr1 Ha1);
        [cbv zeta; rewrite Ha1; reflexivity|simpl; stacksize; lia|repeat (constructor; [first
            [exact Hzj|exact Enorm]|]); constructor]. }
    assert (Enf2 : forall i, note_frequency s2 i = pitch notes i) by (intros i; rewrite E2;
        exact (Enf1 i)).
    assert (Ecur2 : current_note s2 = j) by (rewrite E2; exact Ecur1).
    assert (Hi2 : audio_initialized s2 = true) by (rewrite E2; exact Hi1).
    assert (Hp2 : playing_note s2 = true) by (rewrite E2; reflexivity).
    assert (Ha2 : active_tones s2 = 2) by (rewrite E2; reflexivity).
    assert (Hfr2 : frequencies s2 = F32.zero :: normalize (pitch notes j) :: tl0) by (rewrite
        E2; reflexivity).
    assert (E3 : s3 = emit (CallStopTone (pitch notes c)) s2).
    { unfold s3. rewrite !Enf2, Ecur2, Eraw. cbn [negb].
      apply stop_tone_miss; [exact Hi2|]. intros _. rewrite Hfr2. split.
      - simpl in *. lia.
      - assert (Egjc : F32.eqb (normalize (pitch notes j)) (normalize (pitch notes c)) = false)
          by (rewrite eqb_sym; exact Enorm).
        repeat (constructor; [first [exact Hzc|exact Egjc]|]). exact Htc0. }
    apply (Hclose [normalize (pitch notes j)] (tl0) [CallPlayTone (pitch notes j); CallStopTone
        (pitch notes c)]).
    + rewrite E3, ?E2. unfold advancing, s1. fields.
      repeat apply conj; auto; try reflexivity; try (simpl in *; rewrite ?length_app in *;
          simpl in *; lia);
        try (apply unmatched_snoc; assumption).
    + rewrite E3, ?E2. exact s0_current.
    + rewrite E3, ?E2. reflexivity.
    + rewrite E3, ?E2. unfold s1. fields. rewrite <- ?app_assoc. reflexivity.
    + cbn [In]. intuition congruence.
    + cbn [In]. intuition congruence.
    + intros E. first [discriminate E|split; reflexivity].
  - (* another note, the rest and the note active *)
    assert (E2 : s2 = set_frequencies (F32.zero :: normalize (pitch notes c) :: normalize
        (pitch notes j) :: tl0) (set_playing_note true (set_state_changed true
            (set_active_tones 3 (emit (CallPlayTone (pitch notes j)) s1))))).
    { unfold s2. rewrite Enf1, Ecur1.
      rewrite (play_tone_pushes (pitch notes j) x0 [F32.zero; normalize (pitch notes c)] tl0 s1
          He1 Hi1 Hfr1 Ha1);
        [cbv zeta; rewrite Ha1; reflexivity|simpl; stacksize; lia|repeat (constructor; [first
            [exact Hzj|exact Enorm]|]); constructor]. }
    assert (Enf2 : forall i, note_frequency s2 i = pitch notes i) by (intros i; rewrite E2;
        exact (Enf1 i)).
    assert (Ecur2 : current_note s2 = j) by (rewrite E2; exact Ecur1).
    assert (Hi2 : audio_initialized s2 = true) by (rewrite E2; exact Hi1).
    assert (Hp2 : playing_note s2 = true) by (rewrite E2; reflexivity).
    assert (Ha2 : active_tones s2 = 3) by (rewrite E2; reflexivity).
    assert (Hfr2 : frequencies s2 = F32.zero :: normalize (pitch notes c) :: normalize (pitch
        notes j) :: tl0) by (rewrite E2; reflexivity).
    assert (E3 : s3 = set_active_tones 2 (set_state_changed true (set_frequencies (F32.zero ::
        normalize (pitch notes j) :: tl0 ++ [F32.minus_one]) (emit (CallStopTone (pitch notes
            c)) s2)))).
    { unfold s3. rewrite !Enf2, Ecur2, Eraw. cbn [negb].
      assert (Egjc : F32.eqb (normalize (pitch notes j)) (normalize (pitch notes c)) = false)
          by (rewrite eqb_sym; exact Enorm).
      rewrite (stop_tone_at (pitch notes c) (normalize (pitch notes c)) [F32.zero] (normalize
          (pitch notes j) :: tl0) s2 Hi2 Hp2);
        [cbv zeta; rewrite Ha2; reflexivity|rewrite Ha2; lia|exact Hfr2|simpl in *; lia|exact
            Hnc|].
      repeat (constructor; [first [exact Hzc|exact Egjc]|]). first [exact Htc0|exact Htc]. }
    apply (Hclose [normalize (pitch notes j)] (tl0 ++ [F32.minus_one]) [CallPlayTone (pitch
        notes j); CallStopTone (pitch notes c)]).
    + rewrite E3, ?E2. unfold advancing, s1. fields.
      repeat apply conj; auto; try reflexivity; try (simpl in *; rewrite ?length_app in *;
          simpl in *; lia);
        try (apply unmatched_snoc; assumption).
    + rewrite E3, ?E2. exact s0_current.
    + rewrite E3, ?E2. reflexivity.
    + rewrite E3, ?E2. unfold s1. fields. rewrite <- ?app_assoc. reflexivity.
    + cbn [In]. intuition congruence.
    + cbn [In]. intuition congruence.
    + intros E. first [discriminate E|split; reflexivity].
Qed.

End Advance.

Section Rest.

Context `{platform}.

Variable notes : list note.
Hypothesis notes_voiced : voiced notes.

(** The tie-break of the melody block: the rest is requested, then the
    note that is over is released. *)
Lemma rest_sequenced (base cp tl : list float) (c : Z) (end_ : float) (s1 : state) :
  advancing notes base cp tl c s1 -> current_note s1 = c -> note_resting s1 = true ->
  c + 1 < Z.of_nat (length notes) ->
  F32.eqb (pitch notes c) (pitch notes (c + 1)) = true ->
  let s2 := audio_play_tone F32.zero s1 in
  let s3 := audio_stop_tone (note_frequency s2 c) s2 in
  let s4 := carry_overshoot end_ s3 in
  let s5 := set_note_length (F32.mul (F32.of_int 2) (tempo_scale s4)) s4 in
  exists tl' evs,
    sequenced notes [F32.zero] [] tl' s5 /\ at_rest notes [F32.zero] [] s5
    /\ note_resting s5 = true
    /\ trace s5 = trace s1 ++ evs
    /\ (base = [F32.zero] -> ~ In DriverStop evs)
    /\ (base = [] -> exists e2, evs = CallPlayTone F32.zero :: e2 /\ ~ In DriverStop e2).
Proof.
  intros (base_cases & c_range & s1_initialized & s1_enabled & s1_song & s1_count
          & s1_once & s1_playing & s1_cells & s1_length & s1_active & s1_note
          & s1_tail & cp_cases) s1_current s1_resting Hnext Hraw s2 s3 s4 s5.
  pose proof (voiced_number notes notes_voiced c c_range) as Hnc.
  pose proof (zero_unvoiced notes notes_voiced c c_range) as Hzc.
  pose proof (voiced_nonzero notes notes_voiced c c_range) as Hcz.
  pose proof (unmatched_at notes tl c s1_tail c_range) as Htc.
  pose proof normalize_zero as Enz.
  assert (Hzz : F32.eqb F32.zero (normalize F32.zero) = true)
    by (rewrite Enz; reflexivity).
  assert (Hcz' : F32.eqb (normalize (pitch notes c)) (normalize F32.zero) = false)
    by (rewrite Enz; exact Hcz).
  assert (Enf1 : forall i, note_frequency s1 i = pitch notes i)
    by (intros i; unfold note_frequency, song, pitch; rewrite s1_song; reflexivity).
  assert (Hclose : forall tl' evs,
            sequenced notes [F32.zero] [] tl' s3 -> playing_melody s3 = true ->
            current_note s3 = c -> note_resting s3 = true ->
            trace s3 = trace s1 ++ evs ->
            (base = [F32.zero] -> ~ In DriverStop evs) ->
            (base = [] ->
             exists e2, evs = CallPlayTone F32.zero :: e2 /\ ~ In DriverStop e2) ->
            exists tl' evs,
              sequenced notes [F32.zero] [] tl' s5 /\ at_rest notes [F32.zero] [] s5
              /\ note_resting s5 = true
              /\ trace s5 = trace s1 ++ evs
              /\ (base = [F32.zero] -> ~ In DriverStop evs)
              /\ (base = [] ->
                  exists e2, evs = CallPlayTone F32.zero :: e2 /\ ~ In DriverStop e2)).
  { intros tl' evs Hseq Hm Hcur Hrest Htr Hstop Hreq. exists tl', evs.
    split; [exact Hseq|]. split; [|split; [exact Hrest|]].
    - intros _. change (current_note s5) with (current_note s3).
      change (playing_melody s5) with (playing_melody s3). rewrite Hcur.
      repeat apply conj; auto.
    - split; [exact Htr|]. split; [exact Hstop|exact Hreq]. }
  clearbody s5. clear s4.
  destruct tl as [|x0 tl0];
    [destruct base_cases as [->| ->], cp_cases as [->| ->]; discriminate|].
  pose proof (unmatched_tail notes x0 tl0 s1_tail) as Htl0.
  pose proof Htc as Htc'. apply Forall_cons in Htc' as [_ Htc0].
  destruct base_cases as [Eb|Eb], cp_cases as [Ecp|Ecp].
  all: rewrite Eb, Ecp in *.
  all: cbn [app length] in s1_cells, s1_length, s1_active.
  all: change (Z.of_nat 0) with 0 in s1_active; change (Z.of_nat 1) with 1 in s1_active;
       change (Z.of_nat 2) with 2 in s1_active.
  all: assert (Hp1 : playing_note s1 = (1 <=? active_tones s1)) by exact s1_note;
       rewrite s1_active in Hp1; cbn in Hp1.
  - (* no tone active *)
    assert (E2 : s2
                 = emit DriverStart (set_frequencies (F32.zero :: tl0) (set_playing_note true
                     (set_state_changed true (set_active_tones 1 (emit (CallPlayTone F32.zero)
                         s1)))))).
    { unfold s2.
      rewrite (play_tone_pushes F32.zero x0 [] tl0 s1 s1_enabled s1_initialized
                 s1_cells s1_active);
        [cbv zeta; rewrite s1_active, Enz; reflexivity|simpl; stacksize; lia|
         repeat (constructor; [exact Hcz'|]); constructor]. }
    assert (Enf2 : forall i, note_frequency s2 i = pitch notes i)
      by (intros i; rewrite E2; exact (Enf1 i)).
    assert (Hi2 : audio_initialized s2 = true) by (rewrite E2; exact s1_initialized).
    assert (Hp2 : playing_note s2 = true) by (rewrite E2; reflexivity).
    assert (Ha2 : active_tones s2 = 1) by (rewrite E2; reflexivity).
    assert (Hfr2 : frequencies s2 = F32.zero :: tl0) by (rewrite E2; reflexivity).
    assert (E3 : s3 = emit (CallStopTone (pitch notes c)) s2).
    { unfold s3. rewrite Enf2.
      apply stop_tone_miss; [exact Hi2|]. intros _. rewrite Hfr2. split.
      - simpl in *. lia.
      - repeat (constructor; [exact Hzc|]). first [exact Htc0|exact Htc]. }
    apply (Hclose (tl0) [CallPlayTone F32.zero; DriverStart; CallStopTone (pitch notes c)]).
    + rewrite E3, E2. unfold sequenced. fields.
      repeat apply conj; auto; try reflexivity;
        try (simpl in *; rewrite ?length_app in *; simpl in *; lia);
        try (apply (unmatched_snoc notes (x0 :: tl0)); assumption);
        try (apply unmatched_snoc; assumption).
    + rewrite E3, E2. exact s1_playing.
    + rewrite E3, E2. exact s1_current.
    + rewrite E3, E2. exact s1_resting.
    + rewrite E3, E2. fields. rewrite <- ?app_assoc. reflexivity.
    + intros _. cbn [In]. intuition congruence.
    + intros E. first [discriminate E|eexists; split; [reflexivity|]].
      all: cbn [In]; intuition congruence.
  - (* the note active *)
    assert (E2 : s2
                 = set_frequencies (normalize (pitch notes c) :: F32.zero :: tl0)
                     (set_playing_note true (set_state_changed true (set_active_tones 2 (emit
                         (CallPlayTone F32.zero) s1))))).
    { unfold s2.
      rewrite (play_tone_pushes F32.zero x0 [normalize (pitch notes c)] tl0 s1 s1_enabled
          s1_initialized
                 s1_cells s1_active);
        [cbv zeta; rewrite s1_active, Enz; reflexivity|simpl; stacksize; lia|
         repeat (constructor; [exact Hcz'|]); constructor]. }
    assert (Enf2 : forall i, note_frequency s2 i = pitch notes i)
      by (intros i; rewrite E2; exact (Enf1 i)).
    assert (Hi2 : audio_initialized s2 = true) by (rewrite E2; exact s1_initialized).
    assert (Hp2 : playing_note s2 = true) by (rewrite E2; reflexivity).
    assert (Ha2 : active_tones s2 = 2) by (rewrite E2; reflexivity).
    assert (Hfr2 : frequencies s2 = normalize (pitch notes c) :: F32.zero :: tl0) by (rewrite
        E2; reflexivity).
    assert (E3 : s3
                 = set_active_tones 1 (set_state_changed true (set_frequencies (F32.zero ::
                     (tl0) ++ [F32.minus_one]) (emit (CallStopTone (pitch notes c)) s2)))).
    { unfold s3. rewrite Enf2.
      rewrite (stop_tone_at (pitch notes c) (normalize (pitch notes c)) [] (F32.zero :: tl0) s2
          Hi2 Hp2);
        [cbv zeta; rewrite Ha2; reflexivity|rewrite Ha2; lia|exact Hfr2|simpl in *; lia|
         exact Hnc|].
      repeat (constructor; [exact Hzc|]). first [exact Htc0|exact Htc]. }
    apply (Hclose ((tl0) ++ [F32.minus_one]) [CallPlayTone F32.zero; CallStopTone (pitch notes
        c)]).
    + rewrite E3, E2. unfold sequenced. fields.
      repeat apply conj; auto; try reflexivity;
        try (simpl in *; rewrite ?length_app in *; simpl in *; lia);
        try (apply (unmatched_snoc notes (x0 :: tl0)); assumption);
        try (apply unmatched_snoc; assumption).
    + rewrite E3, E2. exact s1_playing.
    + rewrite E3, E2. exact s1_current.
    + rewrite E3, E2. exact s1_resting.
    + rewrite E3, E2. fields. rewrite <- ?app_assoc. reflexivity.
    + intros _. cbn [In]. intuition congruence.
    + intros E. first [discriminate E|eexists; split; [reflexivity|]].
      all: cbn [In]; intuition congruence.
  - (* the rest active *)
    assert (E2 : s2 = set_frequencies (F32.zero :: x0 :: tl0) (emit (CallPlayTone F32.zero) s1)).
    { unfold s2.
      rewrite (play_tone_found F32.zero F32.zero [] [] (x0 :: tl0) s1 s1_enabled
                 s1_initialized s1_cells s1_active Hzz ltac:(repeat (constructor; [exact
                     Hcz'|]); constructor)).
      rewrite decide_True by reflexivity. reflexivity. }
    assert (Enf2 : forall i, note_frequency s2 i = pitch notes i)
      by (intros i; rewrite E2; exact (Enf1 i)).
    assert (Hi2 : audio_initialized s2 = true) by (rewrite E2; exact s1_initialized).
    assert (Hp2 : playing_note s2 = true) by (rewrite E2; exact Hp1).
    assert (Ha2 : active_tones s2 = 1) by (rewrite E2; exact s1_active).
    assert (Hfr2 : frequencies s2 = F32.zero :: x0 :: tl0) by (rewrite E2; reflexivity).
    assert (E3 : s3 = emit (CallStopTone (pitch notes c)) s2).
    { unfold s3. rewrite Enf2.
      apply stop_tone_miss; [exact Hi2|]. intros _. rewrite Hfr2. split.
      - simpl in *. lia.
      - repeat (constructor; [exact Hzc|]). first [exact Htc0|exact Htc]. }
    apply (Hclose (x0 :: tl0) [CallPlayTone F32.zero; CallStopTone (pitch notes c)]).
    + rewrite E3, E2. unfold sequenced. fields.
      repeat apply conj; auto; try reflexivity;
        try (simpl in *; rewrite ?length_app in *; simpl in *; lia);
        try (apply (unmatched_snoc notes (x0 :: tl0)); assumption);
        try (apply unmatched_snoc; assumption).
    + rewrite E3, E2. exact s1_playing.
    + rewrite E3, E2. exact s1_current.
    + rewrite E3, E2. exact s1_resting.
    + rewrite E3, E2. fields. rewrite <- ?app_assoc. reflexivity.
    + intros _. cbn [In]. intuition congruence.
    + intros E. first [discriminate E|eexists; split; [reflexivity|]].
      all: cbn [In]; intuition congruence.
  - (* the rest and the note active *)
    assert (E2 : s2 = set_frequencies (normalize (pitch notes c) :: F32.zero :: x0 :: tl0)
        (emit (CallPlayTone F32.zero) s1)).
    { unfold s2.
      rewrite (play_tone_found F32.zero F32.zero [] [normalize (pitch notes c)] (x0 :: tl0) s1
          s1_enabled
                 s1_initialized s1_cells s1_active Hzz ltac:(repeat (constructor; [exact
                     Hcz'|]); constructor)).
      rewrite decide_False by discriminate. rewrite Enz. reflexivity. }
    assert (Enf2 : forall i, note_frequency s2 i = pitch notes i)
      by (intros i; rewrite E2; exact (Enf1 i)).
    assert (Hi2 : audio_initialized s2 = true) by (rewrite E2; exact s1_initialized).
    assert (Hp2 : playing_note s2 = true) by (rewrite E2; exact Hp1).
    assert (Ha2 : active_tones s2 = 2) by (rewrite E2; exact s1_active).
    assert (Hfr2 : frequencies s2 = normalize (pitch notes c) :: F32.zero :: x0 :: tl0) by
        (rewrite E2; reflexivity).
    assert (E3 : s3
                 = set_active_tones 1 (set_state_changed true (set_frequencies (F32.zero :: (x0
                     :: tl0) ++ [F32.minus_one]) (emit (CallStopTone (pitch notes c)) s2)))).
    { unfold s3. rewrite Enf2.
      rewrite (stop_tone_at (pitch notes c) (normalize (pitch notes c)) [] (F32.zero :: x0 ::
          tl0) s2 Hi2 Hp2);
        [cbv zeta; rewrite Ha2; reflexivity|rewrite Ha2; lia|exact Hfr2|simpl in *; lia|
         exact Hnc|].
      repeat (constructor; [exact Hzc|]). first [exact Htc0|exact Htc]. }
    apply (Hclose ((x0 :: tl0) ++ [F32.minus_one]) [CallPlayTone F32.zero; CallStopTone (pitch
        notes c)]).
    + rewrite E3, E2. unfold sequenced. fields.
      repeat apply conj; auto; try reflexivity;
        try (simpl in *; rewrite ?length_app in *; simpl in *; lia);
        try (apply (unmatched_snoc notes (x0 :: tl0)); assumption);
        try (apply unmatched_snoc; assumption).
    + rewrite E3, E2. exact s1_playing.
    + rewrite E3, E2. exact s1_current.
    + rewrite E3, E2. exact s1_resting.
    + rewrite E3, E2. fields. rewrite <- ?app_assoc. reflexivity.
    + intros _. cbn [In]. intuition congruence.
    + intros E. first [discriminate E|eexists; split; [reflexivity|]].
      all: cbn [In]; intuition congruence.
Qed.

End Rest.

Section Sequencer.

Context `{platform}.

Variable notes : list note.
Hypothesis notes_voiced : voiced notes.
Hypothesis notes_fit : 1 <= Z.of_nat (length notes) <= 65535.

Lemma sequenced_stack (base cp tl : list float) (s : state) :
  sequenced notes base cp tl s -> stack s = base ++ cp.
Proof.
  intros (_ & _ & _ & _ & _ & Hfr & _ & Ha & _). unfold stack.
  rewrite Ha, Hfr, Nat2Z.id, app_assoc. apply take_app_length.
Qed.

(** Variables the invariant does not read. *)
Lemma sequenced_same (base cp tl : list float) (s s' : state) :
  sequencer s' = (playing_melody s, notes_pointer s, notes_count s, notes_repeat s,
                  note_length s', note_tempo s', current_note s, note_position s',
                  note_resting s, click s', audio_initialized s, audio_enable s,
                  vibrato s', glissando s') ->
  frequencies s' = frequencies s -> active_tones s' = active_tones s ->
  playing_note s' = playing_note s ->
  sequenced notes base cp tl s -> sequenced notes base cp tl s'.
Proof.
  unfold sequencer, sequenced. intros E Ef Ea Ep.
  injection E as Em Enp Enc Er Ecur Erest Ei Ee.
  rewrite Em, Enp, Enc, Er, Ecur, Erest, Ei, Ee, Ef, Ea, Ep. auto.
Qed.

(** The end of the melody: the note that is over is released. *)
Lemma end_sequenced (base cp tl : list float) (c : Z) (s : state) :
  advancing notes base cp tl c s -> note_resting s = false ->
  let s3 := audio_stop_tone (note_frequency s c) (set_playing_melody false s) in
  exists tl' evs,
    sequenced notes base [] tl' s3 /\ playing_melody s3 = false
    /\ note_resting s3 = false
    /\ trace s3 = trace s ++ evs
    /\ ~ In (CallPlayTone F32.zero) evs
    /\ (base = [F32.zero] -> ~ In DriverStop evs)
    /\ (base = [F32.zero] -> evs = [CallStopTone (pitch notes c)]).
Proof.
  intros (base_cases & c_range & s_initialized & s_enabled & s_song & s_count
          & s_once & s_playing & s_cells & s_length & s_active & s_note
          & s_tail & cp_cases) s_resting s3.
  pose proof (voiced_number notes notes_voiced c c_range) as Hnc.
  pose proof (zero_unvoiced notes notes_voiced c c_range) as Hzc.
  pose proof (unmatched_at notes tl c s_tail c_range) as Htc.
  set (s1 := set_playing_melody false s) in *.
  assert (Enf : note_frequency s c = pitch notes c)
    by (unfold note_frequency, song, pitch; rewrite s_song; reflexivity).
  assert (Hi1 : audio_initialized s1 = true) by exact s_initialized.
  unfold s3. rewrite Enf. clear s3.
  destruct base_cases as [Eb|Eb], cp_cases as [Ecp|Ecp].
  all: rewrite Eb, Ecp in *.
  all: cbn [app length] in s_cells, s_length, s_active.
  all: change (Z.of_nat 0) with 0 in s_active; change (Z.of_nat 1) with 1 in s_active;
       change (Z.of_nat 2) with 2 in s_active.
  all: assert (Hp1 : playing_note s1 = (1 <=? active_tones s)) by exact s_note;
       rewrite s_active in Hp1;
       cbn [Z.leb Z.compare Pos.compare Pos.compare_cont] in Hp1.
  all: assert (Ha1 : active_tones s1 = active_tones s) by reflexivity;
       rewrite s_active in Ha1.
  all: assert (Hfr1 : frequencies s1 = frequencies s) by reflexivity;
       rewrite s_cells in Hfr1.
  - (* no tone active *)
    rewrite stop_tone_miss by (try exact Hi1; intros E; congruence).
    exists tl, [CallStopTone (pitch notes c)].
    unfold sequenced, s1. fields.
    repeat apply conj; auto; try discriminate; cbn [In]; intuition congruence.
  - (* the note active *)
    rewrite (stop_tone_at (pitch notes c) (normalize (pitch notes c)) [] tl s1
               Hi1 Hp1); [|rewrite Ha1; lia|exact Hfr1|exact s_length|exact Hnc|exact Htc].
    cbv zeta. rewrite Ha1. change (1 =? 1) with true. cbv iota.
    exists (tl ++ [F32.minus_one]), [CallStopTone (pitch notes c); DriverStop].
    unfold sequenced, s1. fields.
    repeat apply conj; auto; try discriminate; try reflexivity;
      try (intros E; discriminate E).
    + simpl in *. rewrite ?length_app in *. simpl in *. lia.
    + apply unmatched_snoc, s_tail.
    + rewrite <- app_assoc. reflexivity.
    + cbn [In]. intuition congruence.
  - (* the rest active *)
    rewrite stop_tone_miss.
    2: exact Hi1.
    2:{ intros _. rewrite Hfr1. split; [exact s_length|].
        constructor; [exact Hzc|exact Htc]. }
    exists tl, [CallStopTone (pitch notes c)].
    unfold sequenced, s1. fields.
    repeat apply conj; auto; try discriminate; cbn [In]; intuition congruence.
  - (* the rest and the note active *)
    rewrite (stop_tone_at (pitch notes c) (normalize (pitch notes c)) [F32.zero] tl s1
               Hi1 Hp1); [|rewrite Ha1; lia|exact Hfr1|exact s_length|exact Hnc|exact Htc].
    cbv zeta. rewrite Ha1. change (2 =? 1) with false. cbv iota.
    exists (tl ++ [F32.minus_one]), [CallStopTone (pitch notes c)].
    unfold sequenced, s1. fields.
    repeat apply conj; auto; try discriminate; try reflexivity.
    + simpl in *. rewrite ?length_app in *. simpl in *. lia.
    + apply unmatched_snoc, s_tail.
    + cbn [In]. intuition congruence.
    + intros _. cbn [In]. intuition congruence.
Qed.

Lemma at_rest_same (base cp : list float) (s s' : state) :
  note_resting s' = note_resting s -> playing_melody s' = playing_melody s ->
  current_note s' = current_note s ->
  at_rest notes base cp s -> at_rest notes base cp s'.
Proof. unfold at_rest. intros -> -> ->. auto. Qed.

Lemma at_rest_sounding (base cp : list float) (s : state) :
  note_resting s = false -> at_rest notes base cp s.
Proof. unfold at_rest. intros E E'. congruence. Qed.

Lemma latch_sequenced (base cp tl : list float) (g : bool) (s : state) :
  sequenced notes base cp tl s -> at_rest notes base cp s ->
  sequenced notes base cp tl (snd (latch_stage g s))
  /\ at_rest notes base cp (snd (latch_stage g s))
  /\ trace (snd (latch_stage g s)) = trace s
  /\ current_note (snd (latch_stage g s)) = current_note s
  /\ note_resting (snd (latch_stage g s)) = note_resting s
  /\ playing_melody (snd (latch_stage g s)) = playing_melody s.
Proof.
  intros Hs Hr. unfold latch_stage.
  destruct (state_changed s); cbn [snd].
  - split; [apply (sequenced_same base cp tl s); [reflexivity..|exact Hs]|].
    split; [apply (at_rest_same base cp s); [reflexivity..|exact Hr]|].
    repeat apply conj; reflexivity.
  - split; [exact Hs|]. split; [exact Hr|]. repeat apply conj; reflexivity.
Qed.

Lemma song_pitch (s : state) (i : Z) :
  notes_pointer s = Song notes -> note_frequency s i = pitch notes i.
Proof. intros E. unfold note_frequency, song, pitch. rewrite E. reflexivity. Qed.

(** The melody block on a playing melody. *)
Lemma stage_sequenced (base cp tl : list float) (step : Z) (end_ : float) (g : bool)
    (s : state) :
  base = [] \/ base = [F32.zero] ->
  sequenced notes base cp tl s -> at_rest notes base cp s -> playing_melody s = true ->
  exists r s' base' cp' tl' evs,
    (melody_stage step end_ g s = Return true s'
     \/ (melody_stage step end_ g s = Continue r s' /\ playing_melody s' = true))
    /\ sequenced notes base' cp' tl' s' /\ at_rest notes base' cp' s'
    /\ trace s' = trace s ++ evs
    /\ ((base' = base /\ (base = [] -> ~ In (CallPlayTone F32.zero) evs)
         /\ (base = [F32.zero] -> ~ In DriverStop evs))
        \/ (base = [] /\ base' = [F32.zero]
            /\ exists e2, evs = CallPlayTone F32.zero :: e2 /\ ~ In DriverStop e2))
    /\ (note_resting s = true -> note_over step end_ s = true ->
        evs = [CallPlayTone (pitch notes (current_note s + 1))]
        /\ cp' = [normalize (pitch notes (current_note s + 1))]
        /\ current_note s' = current_note s + 1 /\ note_resting s' = false)
    /\ (base = [F32.zero] -> note_over step end_ s = true ->
        Z.of_nat (length notes) <= current_note s + 1 ->
        evs = [CallStopTone (pitch notes (current_note s))]
        /\ playing_melody s' = false)
    /\ (note_resting s = false -> note_over step end_ s = true ->
        current_note s + 1 < Z.of_nat (length notes) ->
        F32.eqb (pitch notes (current_note s)) (pitch notes (current_note s + 1)) = true ->
        note_resting s' = true /\ base' = [F32.zero]).
Proof.
  intros Hb Hs Hr Hm.
  pose proof Hs as (Hi & He & Hnp & Hn & Hrep & Hfr & Hl & Ha & Hp & Htl & Hrange & Hcp).
  specialize (Hrange Hm).
  destruct (note_over step end_ s) eqn:Hover.
  2:{ exists false, (stepped step s), base, cp, tl, [].
      split; [right; split; [apply melody_stage_wait; assumption|exact Hm]|].
      split; [apply (sequenced_same base cp tl s); [reflexivity..|exact Hs]|].
      split; [apply (at_rest_same base cp s); [reflexivity..|exact Hr]|].
      split; [symmetry; apply app_nil_r|].
      split; [left; cbn [In]; tauto|].
      split; [intros _ E; discriminate E|].
      split; intros _ E; discriminate E. }
  assert (Ecur : current_note (advanced step s) = current_note s + 1).
  { unfold advanced. fields. apply wrap16_small. lia. }
  assert (Hadv : advancing notes base cp tl (current_note s) (advanced step s)).
  { unfold advancing, advanced, stepped. fields.
    repeat apply conj; auto; try lia.
    destruct Hcp as [E|(_ & _ & E)]; auto. }
  assert (Epitch : forall i, note_frequency s i = pitch notes i)
    by (intros i; apply song_pitch, Hnp).
  destruct (notes_count s <=? current_note (advanced step s)) eqn:Hend.
  - (* the last note is over *)
    assert (Hlast : Z.of_nat (length notes) <= current_note s + 1)
      by (rewrite Ecur, Hn in Hend; apply Z.leb_le in Hend; exact Hend).
    assert (Hrest : note_resting s = false).
    { destruct (note_resting s) eqn:E; [|reflexivity].
      destruct (Hr E) as (_ & _ & _ & Hlt & _). lia. }
    destruct (end_sequenced base cp tl (current_note s) (advanced step s) Hadv Hrest)
      as (tl' & evs & Q1 & Q2 & Q3 & Q4 & Q5 & Q6 & Q7).
    change (note_frequency (advanced step s)) with (note_frequency s) in *.
    exists true,
      (audio_stop_tone (note_frequency s (current_note s))
         (set_playing_melody false (advanced step s))), base, [], tl', evs.
    split; [left; apply melody_stage_end; assumption|].
    split; [exact Q1|].
    split; [apply at_rest_sounding, Q3|].
    split; [exact Q4|].
    split; [left; auto|].
    split; [intros E; congruence|].
    split; [intros Eb _ _; split; [apply Q7, Eb|exact Q2]|].
    intros _ _ E. lia.
  - assert (Hnext : current_note s + 1 < Z.of_nat (length notes))
      by (rewrite Ecur, Hn in Hend; apply Z.leb_gt in Hend; exact Hend).
    destruct (negb (note_resting s)
              && F32.eqb (note_frequency s (current_note s))
                   (note_frequency s (current_note (advanced step s)))) eqn:Htie.
    + (* the next note has the pitch of this one: the rest *)
      apply andb_prop in Htie as [Hrest Hraw]. apply negb_true_iff in Hrest.
      pose proof Hraw as Hraw'. rewrite !Epitch, Ecur in Hraw'.
      set (s1 := set_current_note (current_note s)
                   (set_note_resting true (advanced step s))).
      assert (Hadv1 : advancing notes base cp tl (current_note s) s1)
        by exact Hadv.
      destruct (rest_sequenced notes notes_voiced base cp tl (current_note s) end_ s1
                  Hadv1 eq_refl eq_refl Hnext Hraw')
        as (tl' & evs & Q1 & Q2 & Q3 & Q4 & Q5 & Q6).
      change (note_frequency (audio_play_tone F32.zero s1))
        with (note_frequency (audio_play_tone F32.zero s1)) in *.
      eexists true, _, [F32.zero], [], tl', evs.
      split.
      { right. split; [apply melody_stage_rest; assumption|].
        apply (Q2 Q3). }
      split; [exact Q1|].
      split; [exact Q2|].
      split; [exact Q4|].
      split.
      { destruct Hb as [Eb|Eb].
        - right. auto.
        - left. split; [symmetry; exact Eb|]. split; [intros E; congruence|exact Q5]. }
      split; [intros E; congruence|].
      split; [intros _ _ E; lia|].
      intros _ _ _ _. split; [exact Q3|reflexivity].
    + (* the next note *)
      assert (Hraw : F32.eqb (pitch notes (current_note s))
                       (pitch notes (current_note s + 1)) = true ->
                     note_resting s = true).
      { intros E. rewrite !Epitch, Ecur, E, andb_true_r in Htie.
        apply negb_false_iff in Htie. exact Htie. }
      assert (Hj : 0 <= current_note s + 1 < Z.of_nat (length notes)) by lia.
      destruct (advance_sequenced notes notes_voiced base cp tl (current_note s)
                  (current_note s + 1) end_ (advanced step s) Hadv Hj Ecur)
        as (cp' & tl' & evs & Q1 & Q2 & Q3 & Q4 & Q5 & Q6 & Q7 & Q8).
      { intros E. destruct (Hr (Hraw E)) as (Eb & Ec & _). auto. }
      eexists true, _, base, cp', tl', evs.
      split.
      { right. split; [apply melody_stage_next; assumption|exact Q3]. }
      split; [exact Q1|].
      split; [apply at_rest_sounding, Q2|].
      split; [exact Q5|].
      split; [left; auto|].
      split; [|split; [intros _ _ E; lia|]].
      * intros E _. destruct (Hr E) as (_ & _ & _ & _ & Eraw).
        destruct (Q8 Eraw) as [E1 E2]. auto.
      * intros E _ _ Eraw. rewrite (Hraw Eraw) in E. discriminate E.
Qed.

(** One call of [audio_advance_state]. *)
Lemma tick_sequenced (base cp tl : list float) (t : Z * float) (s : state) :
  base = [] \/ base = [F32.zero] ->
  sequenced notes base cp tl s -> at_rest notes base cp s ->
  exists base' cp' tl' evs,
    sequenced notes base' cp' tl' (tick t s) /\ at_rest notes base' cp' (tick t s)
    /\ trace (tick t s) = trace s ++ evs
    /\ ((base' = base /\ (base = [] -> ~ In (CallPlayTone F32.zero) evs)
         /\ (base = [F32.zero] -> ~ In DriverStop evs))
        \/ (base = [] /\ base' = [F32.zero]
            /\ exists e2, evs = CallPlayTone F32.zero :: e2 /\ ~ In DriverStop e2))
    /\ (note_resting s = true -> note_over (fst t) (snd t) s = true ->
        evs = [CallPlayTone (pitch notes (current_note s + 1))]
        /\ cp' = [normalize (pitch notes (current_note s + 1))]
        /\ current_note (tick t s) = current_note s + 1
        /\ note_resting (tick t s) = false)
    /\ (base = [F32.zero] -> playing_melody s = true ->
        note_over (fst t) (snd t) s = true ->
        Z.of_nat (length notes) <= current_note s + 1 ->
        evs = [CallStopTone (pitch notes (current_note s))]
        /\ playing_melody (tick t s) = false)
    /\ (playing_melody s = true -> note_resting s = false ->
        note_over (fst t) (snd t) s = true ->
        current_note s + 1 < Z.of_nat (length notes) ->
        F32.eqb (pitch notes (current_note s)) (pitch notes (current_note s + 1)) = true ->
        note_resting (tick t s) = true /\ base' = [F32.zero]).
Proof.
  intros Hb Hs Hr. unfold tick, audio_advance_state.
  destruct (playing_melody s) eqn:Hm.
  - destruct (stage_sequenced base cp tl (fst t) (snd t) (note_stage s) s Hb Hs Hr Hm)
      as (r & s' & base' & cp' & tl' & evs & [E|[E Hm']]
          & Q1 & Q2 & Q3 & Q4 & Q5 & Q6 & Q7).
    + rewrite E. cbn [snd]. exists base', cp', tl', evs.
      split; [exact Q1|]. split; [exact Q2|]. split; [exact Q3|].
      split; [exact Q4|]. split; [exact Q5|].
      split; [intros Eb _; exact (Q6 Eb)|intros _; exact Q7].
    + rewrite E, idle_stage_melody by exact Hm'.
      destruct (latch_sequenced base' cp' tl' r s' Q1 Q2)
        as (L1 & L2 & L3 & L4 & L5 & L6).
      exists base', cp', tl', evs. rewrite L3, L4, L5, L6.
      split; [exact L1|]. split; [exact L2|]. split; [exact Q3|].
      split; [exact Q4|]. split; [exact Q5|].
      split; [intros Eb _; exact (Q6 Eb)|intros _; exact Q7].
  - rewrite melody_stage_idle by exact Hm.
    pose proof Hs as (Hi & He & Hnp & Hn & Hrep & Hfr & Hl & Ha & Hp & Htl & _ & Hcp).
    assert (Ecp : cp = []) by (destruct Hcp as [E|(E & _)]; [exact E|congruence]).
    assert (Hidle : exists evs,
               sequenced notes base cp (drop (length base)
                                          (frequencies (idle_stage s))) (idle_stage s)
               /\ at_rest notes base cp (idle_stage s)
               /\ trace (idle_stage s) = trace s ++ evs
               /\ (base = [] -> ~ In (CallPlayTone F32.zero) evs)
               /\ (base = [F32.zero] -> ~ In DriverStop evs)).
    { assert (Hl' : length (frequencies s) = AUDIO_TONE_STACKSIZE)
        by (rewrite Hfr; exact Hl).
      unfold idle_stage. rewrite Hm, Hp, Ha, Ecp. cbn [negb andb].
      destruct Hb as [Eb|Eb]; rewrite Eb, Ecp in *; cbn [app length] in *.
      - change (1 <=? Z.of_nat 0) with false. cbn [negb andb].
        rewrite audio_stop_all_ready by exact Hi.
        exists [DriverStop].
        rewrite silence_frequencies by exact Hl'.
        unfold sequenced, at_rest. rewrite silence_frequencies by exact Hl'.
        unfold silence. fields. cbn [drop app].
        repeat apply conj; auto; try discriminate; try reflexivity.
        + intros i _. apply Forall_forall. intros x Hx.
          apply elem_of_replicate in Hx as [-> _]. apply minus_one_normalize.
        + intros E. destruct (Hr E) as (E' & _). discriminate E'.
        + cbn [In]. intuition congruence.
      - change (1 <=? Z.of_nat 1) with true. cbn [negb andb].
        exists []. rewrite Hfr. cbn [drop].
        split; [exact Hs|]. split; [exact Hr|].
        split; [symmetry; apply app_nil_r|]. cbn [In]. tauto. }
    destruct Hidle as (evs & I1 & I2 & I3 & I4 & I5).
    destruct (latch_sequenced _ _ _ (note_stage s) (idle_stage s) I1 I2)
      as (L1 & L2 & L3 & L4 & L5 & L6).
    exists base, cp, (drop (length base) (frequencies (idle_stage s))), evs.
    rewrite L3.
    split; [exact L1|]. split; [exact L2|]. split; [exact I3|].
    split; [left; auto|].
    split; [|split; [intros _ E; discriminate E|intros E; discriminate E]].
    intros E. destruct (Hr E) as (_ & _ & E' & _). congruence.
Qed.

(** The melody before and after its first rest. *)
Lemma tick_after_rest (tr0 : list event) (t : Z * float) (s : state) :
  after_rest notes tr0 s -> after_rest notes tr0 (tick t s).
Proof.
  intros (cp & tl & l1 & l2 & Hs & Hr & Htr & Hl1 & Hl2).
  destruct (tick_sequenced [F32.zero] cp tl t s (or_intror eq_refl) Hs Hr)
    as (base' & cp' & tl' & evs & Q1 & Q2 & Q3 & [(Eb & _ & Q4)|(Eb & _)] & _);
    [|discriminate Eb].
  rewrite Eb in *.
  exists cp', tl', l1, (l2 ++ evs).
  split; [exact Q1|]. split; [exact Q2|]. split; [|split; [exact Hl1|]].
  - rewrite Q3, Htr, <- !app_assoc. reflexivity.
  - intros E. apply in_app_or in E as [E|E]; [exact (Hl2 E)|exact (Q4 eq_refl E)].
Qed.

Lemma tick_before_rest (tr0 : list event) (t : Z * float) (s : state) :
  before_rest notes tr0 s ->
  before_rest notes tr0 (tick t s) \/ after_rest notes tr0 (tick t s).
Proof.
  intros (cp & tl & new & Hs & Hrest & Htr & Hnew).
  destruct (tick_sequenced [] cp tl t s (or_introl eq_refl) Hs
              (at_rest_sounding [] cp s Hrest))
    as (base' & cp' & tl' & evs & Q1 & Q2 & Q3
        & [(Eb & Q4 & _)|(_ & Eb & e2 & Ee & Q4)] & _).
  - left. rewrite Eb in *. exists cp', tl', (new ++ evs).
    split; [exact Q1|]. split; [|split].
    + destruct (note_resting (tick t s)) eqn:E; [|reflexivity].
      destruct (Q2 E) as (E' & _). discriminate E'.
    + rewrite Q3, Htr, <- app_assoc. reflexivity.
    + intros E. apply in_app_or in E as [E|E]; [exact (Hnew E)|exact (Q4 eq_refl E)].
  - right. rewrite Eb in *. exists cp', tl', new, e2.
    split; [exact Q1|]. split; [exact Q2|]. split; [|split; [exact Hnew|exact Q4]].
    rewrite Q3, Htr, Ee, <- app_assoc. reflexivity.
Qed.

Lemma run_after_rest (tr0 : list event) (ts : list (Z * float)) (s : state) :
  after_rest notes tr0 s -> after_rest notes tr0 (run_ticks ts s).
Proof.
  revert s. induction ts as [|t ts IH]; intros s Hs; [exact Hs|].
  apply (IH (tick t s)), tick_after_rest, Hs.
Qed.

Lemma run_before_rest (tr0 : list event) (ts : list (Z * float)) (s : state) :
  before_rest notes tr0 s ->
  before_rest notes tr0 (run_ticks ts s) \/ after_rest notes tr0 (run_ticks ts s).
Proof.
  revert s. induction ts as [|t ts IH]; intros s Hs; [left; exact Hs|].
  destruct (tick_before_rest tr0 t s Hs) as [Hb|Ha].
  - apply (IH (tick t s)), Hb.
  - right. apply (run_after_rest tr0 ts (tick t s)), Ha.
Qed.

(** The rest is requested when the note that is over and the next one
    compare equal. *)
Lemma tick_inserts_rest (tr0 : list event) (t : Z * float) (s : state) :
  before_rest notes tr0 s \/ after_rest notes tr0 s ->
  playing_melody s = true -> note_resting s = false ->
  note_over (fst t) (snd t) s = true ->
  current_note s + 1 < Z.of_nat (length notes) ->
  F32.eqb (pitch notes (current_note s)) (pitch notes (current_note s + 1)) = true ->
  note_resting (tick t s) = true /\ after_rest notes tr0 (tick t s).
Proof.
  intros [Hb|Ha] Hm Hrest Hover Hnext Heq.
  - destruct Hb as (cp & tl & new & Hs & _ & Htr & Hnew).
    destruct (tick_sequenced [] cp tl t s (or_introl eq_refl) Hs
                (at_rest_sounding [] cp s Hrest))
      as (base' & cp' & tl' & evs & Q1 & Q2 & Q3 & Q4 & _ & _ & Q7).
    destruct (Q7 Hm Hrest Hover Hnext Heq) as (Er & Eb).
    split; [exact Er|].
    destruct Q4 as [(Eb' & _)|(_ & _ & e2 & Ee & Q4)]; [congruence|].
    rewrite Eb in *. exists cp', tl', new, e2.
    split; [exact Q1|]. split; [exact Q2|]. split; [|split; [exact Hnew|exact Q4]].
    rewrite Q3, Htr, Ee, <- app_assoc. reflexivity.
  - split; [|apply tick_after_rest, Ha].
    destruct Ha as (cp & tl & l1 & l2 & Hs & Hr & _).
    destruct (tick_sequenced [F32.zero] cp tl t s (or_intror eq_refl) Hs Hr)
      as (base' & cp' & tl' & evs & _ & _ & _ & _ & _ & _ & Q7).
    exact (proj1 (Q7 Hm Hrest Hover Hnext Heq)).
Qed.

Lemma after_rest_requested (tr0 : list event) (s : state) :
  after_rest notes tr0 s -> In (CallPlayTone F32.zero) (drop (length tr0) (trace s)).
Proof.
  intros (cp & tl & l1 & l2 & _ & _ & Htr & _). rewrite Htr, drop_app_length.
  apply in_or_app. right. left. reflexivity.
Qed.

(** [audio_play_melody] starts the melody before its first rest. *)
Lemma melody_before_rest (s0 : state) :
  audio_enable s0 = true -> audio_initialized s0 = true -> tone_inv s0 ->
  (playing_note s0 = false -> quiet_tail notes (drop 1 (frequencies s0))) ->
  let s1 := audio_play_melody (Song notes) (Z.of_nat (length notes)) false s0 in
  before_rest notes (trace s1) s1.
Proof.
  intros He Hi Hinv Htl s1.
  destruct (play_melody_start s0 (Song notes) (Z.of_nat (length notes)) false He Hi Hinv)
    as (sx & E & Esx & Hl).
  unfold s1. rewrite E. clear E s1.
  assert (Hx : audio_initialized sx = true /\ audio_enable sx = true
               /\ unmatched notes (drop 1 (frequencies sx))).
  { rewrite Esx. destruct (playing_note s0) eqn:Ep.
    - split; [exact Hi|]. split; [exact He|].
      rewrite silence_frequencies by apply Hinv.
      change (drop 1 (replicate AUDIO_TONE_STACKSIZE F32.minus_one))
        with (replicate 7 F32.minus_one).
      intros i _. apply Forall_forall. intros x Hx.
      apply elem_of_replicate in Hx as [-> _]. apply minus_one_normalize.
    - split; [exact Hi|]. split; [exact He|].
      intros i Hlt. apply (Htl eq_refl i Hlt). }
  destruct Hx as (Hix & Hex & Htlx).
  assert (Epitch : note_frequency (set_notes_pointer (Song notes) s0) 0 = pitch notes 0)
    by (apply song_pitch; reflexivity).
  rewrite Epitch.
  destruct (frequencies sx) as [|x tl] eqn:Efr; [discriminate Hl|].
  exists [normalize (pitch notes 0)], tl, [].
  split.
  { unfold sequenced. fields.
    split; [exact Hix|]. split; [exact Hex|].
    repeat (split; [reflexivity|]).
    split; [exact Hl|].
    repeat (split; [reflexivity|]).
    split; [exact Htlx|].
    split; [intros _; unfold note in *; lia|].
    right. auto. }
  split; [reflexivity|].
  split; [symmetry; apply app_nil_r|].
  intros [].
Qed.

End Sequencer.

(** * The properties *)

Section Properties.

Context `{platform}.

(** ** The tone stack *)

(** C1, as the code has it: a request for a frequency that is already
    active moves the matching cell to the top of the stack. The cells above
    it move down by one and keep their order; the cell at the top compares
    equal to the requested frequency. Apart from that and the record of the
    call nothing changes: the number of active tones, the cells past the
    stack, [playing_note] and [state_changed] stay, and [audio_driver_start]
    is not called. When the matching cell is the top one the stack is left
    as it is. *)
Theorem play_tone_present_moves_to_top (s : state) (f : float) :
  audio_enable s = true -> audio_initialized s = true -> tone_inv s ->
  is_active f s = true ->
  let s' := audio_play_tone f s in
  exists (i : nat) (top : float),
    (i < length (stack s))%nat
    /\ F32.eqb (stack s !!! i) (normalize f) = true
    /\ F32.eqb top (normalize f) = true
    /\ stack s' = delete i (stack s) ++ [top]
    /\ (S i = length (stack s) -> stack s' = stack s)
    /\ drop (length (stack s)) (frequencies s') = drop (length (stack s)) (frequencies s)
    /\ s' = set_frequencies (frequencies s') (emit (CallPlayTone f) s).
Proof.
  intros He Hi Hinv Hact s'. pose proof Hinv as [Hl Hc Hd Hp _].
  pose proof (stack_length s Hinv) as Hlen.
  assert (Hle : (Z.to_nat (active_tones s) <= length (frequencies s))%nat)
    by (stacksize; lia).
  destruct (scan_down (frequencies s) (normalize f) (Z.to_nat (active_tones s)))
    as [i|] eqn:E.
  2:{ apply scan_down_stack in E; [|exact Hle]. unfold is_active in Hact. congruence. }
  assert (Es' : s' = set_frequencies
                  (take i (frequencies s)
                     ++ take (Z.to_nat (active_tones s) - 1 - i) (drop (S i) (frequencies s))
                     ++ (if decide (S i = Z.to_nat (active_tones s))
                         then frequencies s !!! i else normalize f)
                     :: drop (Z.to_nat (active_tones s)) (frequencies s))
                  (emit (CallPlayTone f) s)).
  { unfold s'. rewrite audio_play_tone_ready by assumption.
    rewrite (request_tone_found _ _ i); [reflexivity|exact Hle|exact E]. }
  apply scan_down_Some in E as (Hlt & Heq & _).
  assert (Htop : F32.eqb (if decide (S i = Z.to_nat (active_tones s))
                          then frequencies s !!! i else normalize f) (normalize f) = true)
    by (clear -Heq; case_decide;
        [|apply (eqb_refl_l _ (frequencies s !!! i)); rewrite eqb_sym]; exact Heq).
  set (top := if decide (S i = Z.to_nat (active_tones s))
              then frequencies s !!! i else normalize f) in *.
  exists i, top.
  assert (Hst : stack s = take i (frequencies s) ++ frequencies s !!! i
                  :: take (Z.to_nat (active_tones s) - 1 - i) (drop (S i) (frequencies s)))
    by (apply take_split; lia).
  assert (Hti : length (take i (frequencies s)) = i) by (apply length_take_le; lia).
  assert (Hst' : stack s' = delete i (stack s) ++ [top]).
  { rewrite Es'. unfold stack at 1. simpl. rewrite take_rotated by lia.
    rewrite Hst, (delete_at _ _ _ _ Hti), <- app_assoc. reflexivity. }
  repeat split.
  - lia.
  - unfold stack. rewrite lookup_total_take_lt by lia. exact Heq.
  - exact Htop.
  - exact Hst'.
  - intros Hlast. rewrite Hlen in Hlast. rewrite Hst', Hst, (delete_at _ _ _ _ Hti).
    replace (Z.to_nat (active_tones s) - 1 - i)%nat with 0%nat by lia.
    unfold top. rewrite decide_True by exact Hlast. simpl. rewrite app_nil_r.
    reflexivity.
  - rewrite Es', Hlen. simpl. apply drop_rotated. lia.
  - rewrite Es' at 1. rewrite Es'. reflexivity.
Qed.

(** C6: whatever was called before, after any run of [audio_play_tone]
    calls the stack holds at most [AUDIO_TONE_STACKSIZE] tones, and no two
    of them compare equal ([==]); when none of them is a NaN no value
    occurs twice. *)
Theorem stack_capacity_invariant (cs : list call) (fs : list float) :
  let s := play_tones fs (run cs initial_state) in
  0 <= active_tones s <= Z.of_nat AUDIO_TONE_STACKSIZE
  /\ length (stack s) = Z.to_nat (active_tones s)
  /\ distinct (stack s)
  /\ (Forall (fun x => F32.eqb x x = true) (stack s) -> NoDup (stack s)).
Proof.
  intros s.
  assert (Hinv : tone_inv s) by apply play_tones_inv, reachable_inv.
  repeat split; try apply Hinv.
  - apply stack_length, Hinv.
  - apply distinct_NoDup, Hinv.
Qed.

(** C7: a request for a frequency that is not active, made on a full stack,
    drops the cell at index 0, moves the others down by one and puts the
    new frequency at the top; so after [AUDIO_TONE_STACKSIZE + 1] requests
    for different frequencies on an empty stack the first one is gone and
    the others are there in the order of the requests. *)
Theorem eviction_order (s : state) (f : float) (fs : list float) :
  audio_enable s = true -> audio_initialized s = true -> tone_inv s ->
  (active_tones s = Z.of_nat AUDIO_TONE_STACKSIZE -> is_active f s = false ->
   active_tones (audio_play_tone f s) = Z.of_nat AUDIO_TONE_STACKSIZE
   /\ stack (audio_play_tone f s) = drop 1 (stack s) ++ [normalize f])
  /\ (active_tones s = 0 -> length fs = S AUDIO_TONE_STACKSIZE ->
      distinct (map normalize fs) ->
      stack (play_tones fs s) = drop 1 (map normalize fs)).
Proof.
  assert (Hfull : forall s f,
    audio_enable s = true -> audio_initialized s = true -> tone_inv s ->
    active_tones s = Z.of_nat AUDIO_TONE_STACKSIZE -> is_active f s = false ->
    active_tones (audio_play_tone f s) = Z.of_nat AUDIO_TONE_STACKSIZE
    /\ stack (audio_play_tone f s) = drop 1 (stack s) ++ [normalize f]).
  { clear s f fs. intros s f He Hi Hinv Ha Hact. pose proof Hinv as [Hl Hc _ _ _].
    rewrite audio_play_tone_ready by assumption.
    rewrite request_tone_evict; simpl; try assumption.
    - split; [exact Ha|]. unfold stack. simpl. rewrite Ha. stacksize.
      change (Z.to_nat 8) with 8%nat.
      rewrite !take_ge; [reflexivity|lia|].
      rewrite length_app, length_drop, Hl. simpl. lia.
    - apply scan_down_stack; [simpl; stacksize; lia|exact Hact]. }
  intros He Hi Hinv. split; [apply Hfull; assumption|].
  intros Ha Hlen Hd.
  induction fs as [|f9 fs8 _] using rev_ind; [discriminate|].
  rewrite length_app in Hlen. simpl in Hlen.
  assert (Hst : stack s = []) by (unfold stack; rewrite Ha; reflexivity).
  rewrite map_app in Hd. simpl in Hd.
  destruct (play_tones_append fs8 s He Hi Hinv) as (Hs8 & He8 & Hi8 & Hinv8).
  { rewrite Hst. simpl. lia. }
  { rewrite Hst. simpl. eapply distinct_sublist; [|exact Hd]. apply sublist_inserts_r.
    reflexivity. }
  rewrite Hst in Hs8. simpl in Hs8.
  unfold play_tones. rewrite fold_left_app. simpl. fold (play_tones fs8 s).
  destruct (Hfull (play_tones fs8 s) f9 He8 Hi8 Hinv8) as [_ Hs9].
  - pose proof (stack_length _ Hinv8) as Hl8. rewrite Hs8, length_map in Hl8.
    stacksize. lia.
  - unfold is_active. rewrite Hs8. apply existsb_false_Forall.
    pose proof (distinct_delete _ (length (map normalize fs8)) Hd) as Hf.
    rewrite delete_middle, read_at, app_nil_r in Hf. apply Hf.
    rewrite length_app. simpl. lia.
  - rewrite Hs9, Hs8, map_app. simpl.
    destruct fs8; simpl in *; [stacksize; lia|reflexivity].
Qed.

(** C10: in every state the public functions can reach, [playing_note] is
    set exactly when there is an active tone, and [audio_stop_tone] leaves
    [active_tones] alone unless [playing_note] is set and its search loop
    found a match; it then takes one off a count of at least one. *)
Theorem playing_note_iff_active (cs : list call) :
  let s := run cs initial_state in
  (playing_note s = true <-> 1 <= active_tones s)
  /\ 0 <= active_tones s <= Z.of_nat AUDIO_TONE_STACKSIZE
  /\ forall f,
       active_tones (audio_stop_tone f s) = active_tones s
       \/ (playing_note s = true
           /\ is_Some (scan_down (frequencies s) (normalize f) AUDIO_TONE_STACKSIZE)
           /\ 1 <= active_tones s
           /\ active_tones (audio_stop_tone f s) = active_tones s - 1).
Proof.
  intros s. pose proof (reachable_inv cs) as Hinv. fold s in Hinv.
  pose proof Hinv as [Hl Hc Hd Hp Hlive].
  assert (Hiff : playing_note s = true <-> 1 <= active_tones s)
    by (rewrite Hp; apply Z.leb_le).
  split; [exact Hiff|]. split; [exact Hc|]. intros f.
  destruct (playing_note s) eqn:Hplay.
  - rewrite audio_stop_tone_ready by auto. rewrite Hplay.
    destruct (scan_down (frequencies s) (normalize f) AUDIO_TONE_STACKSIZE) as [i|] eqn:E.
    + right. assert (Hpos : 1 <= active_tones s) by (apply Hiff; reflexivity).
      repeat split; [eauto|exact Hpos|].
      rewrite (release_tone_found _ _ i); [|exact Hl|simpl; stacksize; lia|exact E].
      cbv zeta. destruct (_ =? 1); reflexivity.
    + left. unfold release_tone. simpl. rewrite E. reflexivity.
  - left. unfold audio_stop_tone. rewrite stop_tone_unfold. cbv zeta. simpl.
    rewrite Hplay. reflexivity.
Qed.

(** ** Tempo *)

(** C8: [audio_set_tempo] stores 10 for an argument below 10 and the
    argument otherwise; [audio_increase_tempo] stores [min 255 (t + d)] and
    [audio_decrease_tempo] stores [max 10 (t - d)]; none of them wraps. *)
Theorem tempo_clamps (s : state) (d : Z) :
  0 <= note_tempo s <= 255 -> 0 <= d <= 255 ->
  note_tempo (audio_set_tempo d s) = (if d <? 10 then 10 else d)
  /\ note_tempo (audio_increase_tempo d s) = Z.min 255 (note_tempo s + d)
  /\ note_tempo (audio_decrease_tempo d s) = Z.max 10 (note_tempo s - d).
Proof.
  intros Ht Hd. unfold audio_set_tempo, audio_increase_tempo, audio_decrease_tempo.
  repeat split.
  - destruct (d <? 10); reflexivity.
  - destruct (Z.ltb_spec (255 - note_tempo s) d); simpl; [lia|].
    unfold wrap8. rewrite Z.mod_small; lia.
  - destruct (Z.leb_spec (note_tempo s - 10) d); simpl; [lia|].
    unfold wrap8. rewrite Z.mod_small; lia.
Qed.

End Properties.

(** ** Melodies *)

Section Melodies.

Context `{platform}.

(** Every tempo of one byte but 0, checked one by one. *)
Lemma each_tempo (P : Z -> bool) :
  forallb P (map Z.of_nat (seq 1 255)) = true ->
  forall T, 1 <= T <= 255 -> P T = true.
Proof.
  intros Hall T HT. rewrite forallb_forall in Hall. apply Hall.
  apply in_map_iff. exists (Z.to_nat T). split; [lia|]. apply in_seq. lia.
Qed.

(** Three ticks of 1000 units end the melody of C2 at every such tempo. *)
Lemma same_note_twice_ends T :
  1 <= T <= 255 ->
  fst (run_phases (F32.of_int 4) (F32.of_int 4) T (replicate 3 (1000, F32.one)) First 0)
  = Done.
Proof.
  intros HT.
  pose (P := fun T => match fst (run_phases (F32.of_int 4) (F32.of_int 4) T
                                   (replicate 3 (1000, F32.one)) First 0) with
                      | Done => true
                      | _ => false
                      end).
  assert (HP : P T = true) by (apply each_tempo; [vm_compute; reflexivity|exact HT]).
  unfold P in HP. destruct (fst _); try discriminate HP. reflexivity.
Qed.

(** C2: the melody [(440,4),(440,4)], played without repeat on a ready
    subsystem. After any run of ticks the sequencer is in one of four
    phases, in this order: on the first note; on the inserted rest; on the
    second note; done. From the call of [audio_play_melody] on, the
    frequencies requested are 440, then 0 once the rest has started, then
    440 again once the second note has started, and nothing more; the
    frequency 440 is released when the rest starts (after 0 is requested),
    and again at the end. On the rest [note_resting] is set, [current_note]
    is still 0, [note_length] is 2 units at the current tempo, and the
    stack holds the frequency 0 alone. At every tempo from 1 to 255 three
    ticks of 1000 units take the melody to its end. *)
Theorem rest_inserted_between_equal_notes (s0 : state) :
  ready (F32.of_int 440) s0 ->
  let s1 := audio_play_melody (Song same_note_twice) 2 false s0 in
  (forall ts : list (Z * float),
     let s := run_ticks ts s1 in
     let new := drop (length (trace s0)) (trace s) in
     exists p : phase,
       new = (if playing_note s0 then [DriverStop] else [])
               ++ [CallPlayTone (F32.of_int 440); DriverStart]
               ++ phase_events (F32.of_int 440) p
       /\ requested new
          = match p with
            | First => [F32.of_int 440]
            | Rest => [F32.of_int 440; F32.zero]
            | Second | Done => [F32.of_int 440; F32.zero; F32.of_int 440]
            end
       /\ released new
          = match p with
            | First => []
            | Rest | Second => [F32.of_int 440]
            | Done => [F32.of_int 440; F32.of_int 440]
            end
       /\ note_resting s = match p with Rest => true | _ => false end
       /\ current_note s = match p with First | Rest => 0 | Second => 1 | Done => 2 end
       /\ playing_melody s = match p with Done => false | _ => true end
       /\ (p = Rest ->
           note_length s = F32.mul (F32.of_int 2) (tempo_scale s)
           /\ stack s = [F32.zero]))
  /\ (1 <= note_tempo s0 <= 255 ->
      playing_melody (run_ticks (replicate 3 (1000, F32.one)) s1) = false).
Proof.
  intros Hr s1.
  assert (Hrun := fun ts => same_note_run (F32.of_int 440) (F32.of_int 4) (F32.of_int 4)
                              s0 ts eq_refl eq_refl Hr).
  cbv zeta in Hrun. fold same_note_twice in Hrun. fold s1 in Hrun.
  split.
  - intros ts s new. destruct (Hrun ts) as (Et & tl & chg & E).
    set (p := fst (run_phases _ _ _ ts First 0)) in E.
    exists p.
    assert (En : new = (if playing_note s0 then [DriverStop] else [])
                         ++ [CallPlayTone (F32.of_int 440); DriverStart]
                         ++ phase_events (F32.of_int 440) p).
    { unfold new, s. rewrite E, phase_trace, Et, <- !app_assoc.
      rewrite drop_app_length. reflexivity. }
    split; [exact En|]. rewrite En. unfold s. rewrite E.
    destruct (playing_note s0), p; repeat split; try discriminate; reflexivity.
  - intros HT. destruct (Hrun (replicate 3 (1000, F32.one))) as (_ & tl & chg & E).
    rewrite E, same_note_twice_ends by exact HT. reflexivity.
Qed.

(** C9, as the code has it: a melody whose frequencies are numbers other
    than 0, played without repeat on an enabled, initialized subsystem
    whose unused cells hold no note of the melody. The call that ends a
    note followed by one of the same frequency requests the silent
    frequency 0 and starts the rest. While the rest lasts the stack is 0
    alone, and the call that ends the rest requests the frequency of the
    repeated note and releases nothing: the stack is then 0 with that note
    above it. Once 0 has been requested it stays at the bottom of the stack
    for good, and [audio_driver_stop] is not called any more. The call that
    ends the last note only releases its frequency, and when the melody is
    over the stack still holds 0: [active_tones] is 1 and [playing_note] is
    true. *)
Theorem rest_tone_stays_active (notes : list note) (s0 : state) (ts : list (Z * float)) :
  voiced notes -> 1 <= Z.of_nat (length notes) <= 65535 ->
  audio_enable s0 = true -> audio_initialized s0 = true -> tone_inv s0 ->
  (playing_note s0 = false -> quiet_tail notes (drop 1 (frequencies s0))) ->
  let s1 := audio_play_melody (Song notes) (Z.of_nat (length notes)) false s0 in
  let s := run_ticks ts s1 in
  let new := drop (length (trace s1)) (trace s) in
  (playing_melody s = true -> note_resting s = false ->
   current_note s + 1 < Z.of_nat (length notes) ->
   F32.eqb (pitch notes (current_note s)) (pitch notes (current_note s + 1)) = true ->
   forall t, note_over (fst t) (snd t) s = true ->
     note_resting (tick t s) = true
     /\ In (CallPlayTone F32.zero) (drop (length (trace s1)) (trace (tick t s))))
  /\ (note_resting s = true ->
      stack s = [F32.zero]
      /\ current_note s + 1 < Z.of_nat (length notes)
      /\ F32.eqb (pitch notes (current_note s)) (pitch notes (current_note s + 1)) = true
      /\ forall t, note_over (fst t) (snd t) s = true ->
           trace (tick t s)
           = trace s ++ [CallPlayTone (pitch notes (current_note s + 1))]
           /\ stack (tick t s)
              = [F32.zero; normalize (pitch notes (current_note s + 1))]
           /\ current_note (tick t s) = current_note s + 1
           /\ note_resting (tick t s) = false)
  /\ (In (CallPlayTone F32.zero) new ->
      (stack s = [F32.zero]
       \/ stack s = [F32.zero; normalize (pitch notes (current_note s))])
      /\ playing_note s = true
      /\ (exists l1 l2, new = l1 ++ CallPlayTone F32.zero :: l2
                        /\ ~ In (CallPlayTone F32.zero) l1 /\ ~ In DriverStop l2)
      /\ (playing_melody s = true ->
          Z.of_nat (length notes) <= current_note s + 1 ->
          forall t, note_over (fst t) (snd t) s = true ->
            trace (tick t s) = trace s ++ [CallStopTone (pitch notes (current_note s))]
            /\ playing_melody (tick t s) = false)
      /\ (playing_melody s = false -> stack s = [F32.zero] /\ active_tones s = 1)).
Proof.
  intros Hv Hn He Hi Hinv Htl s1 s new.
  pose proof (melody_before_rest notes Hn s0 He Hi Hinv Htl) as Hstart.
  cbv zeta in Hstart. fold s1 in Hstart.
  apply (run_before_rest notes Hv Hn (trace s1) ts) in Hstart. fold s in Hstart.
  split.
  { intros Hm Hrest Hnext Heq t Hover.
    destruct (tick_inserts_rest notes Hv Hn (trace s1) t s Hstart Hm Hrest Hover Hnext Heq)
      as (Er & Ha).
    split; [exact Er|apply (after_rest_requested notes (trace s1)), Ha]. }
  destruct Hstart as [(cp & tl & evs & Hs & Hrest & Htr & Hnew)
                     |(cp & tl & l1 & l2 & Hs & Hr & Htr & Hl1 & Hl2)].
  - (* no rest so far *)
    assert (En : new = evs) by (unfold new; rewrite Htr; apply drop_app_length).
    split; [intros E; congruence|].
    intros Hin. rewrite En in Hin. destruct (Hnew Hin).
  - (* a rest was inserted *)
    assert (En : new = l1 ++ CallPlayTone F32.zero :: l2)
      by (unfold new; rewrite Htr; apply drop_app_length).
    pose proof (sequenced_stack notes [F32.zero] cp tl s Hs) as Hstack.
    pose proof Hs as (_ & _ & _ & _ & _ & _ & _ & Ha & Hp & _ & _ & Hcp).
    split.
    + intros Hrest. destruct (Hr Hrest) as (_ & Ecp & _ & Hnext & Heq).
      split; [rewrite Hstack, Ecp; reflexivity|].
      split; [exact Hnext|]. split; [exact Heq|].
      intros t Hover.
      destruct (tick_sequenced notes Hv Hn [F32.zero] cp tl t s (or_intror eq_refl) Hs Hr)
        as (base' & cp' & tl' & evs & Q1 & _ & Q3 & Q4 & Q5 & _).
      destruct (Q5 Hrest Hover) as (Eevs & Ecp' & Ecur & Erest).
      destruct Q4 as [(Eb & _)|(Eb & _)]; [|discriminate Eb].
      rewrite Q3, Eevs, (sequenced_stack notes base' cp' tl' _ Q1), Eb, Ecp'.
      auto.
    + intros _.
      assert (Hactive : 1 <= active_tones s)
        by (rewrite Ha, length_app; cbn [length]; lia).
      split.
      { rewrite Hstack. destruct Hcp as [->|(_ & _ & ->)]; auto. }
      split; [rewrite Hp; apply Z.leb_le, Hactive|].
      split; [exists l1, l2; auto|].
      split.
      * intros Hm Hlast t Hover.
        destruct (tick_sequenced notes Hv Hn [F32.zero] cp tl t s (or_intror eq_refl)
                    Hs Hr)
          as (base' & cp' & tl' & evs & _ & _ & Q3 & _ & _ & Q6 & _).
        destruct (Q6 eq_refl Hm Hover Hlast) as (Eevs & Em).
        rewrite Q3, Eevs. auto.
      * intros Hm.
        assert (Ecp : cp = []) by (destruct Hcp as [E|(E & _)]; [exact E|congruence]).
        rewrite Hstack, Ha, Ecp. auto.
Qed.

End Melodies.

(** ** The stages of [audio_advance_state] *)

Section Stages.

Context `{platform}.

Lemma melody_stage_return step end_ g s :
  melody_ends step end_ s = true ->
  melody_stage step end_ g s
  = Return true (audio_stop_tone (note_frequency s (current_note s))
                   (set_playing_melody false (advanced step s))).
Proof.
  unfold melody_ends. intros E.
  apply andb_prop in E as [E Hr]. apply andb_prop in E as [E He].
  apply andb_prop in E as [Hm Hg]. apply negb_true_iff in Hr.
  apply melody_stage_end; assumption.
Qed.

Lemma melody_stage_continue step end_ g s :
  melody_ends step end_ s = false ->
  exists g' s',
    melody_stage step end_ g s = Continue g' s'
    /\ g' = (if playing_melody s then note_over step end_ s else g).
Proof.
  unfold melody_ends. intros E. destruct (playing_melody s) eqn:Hm.
  2:{ rewrite melody_stage_idle by exact Hm. eauto. }
  destruct (note_over step end_ s) eqn:Hg.
  2:{ rewrite melody_stage_wait by assumption. eauto. }
  cbn [andb] in E. unfold melody_stage. rewrite Hm. cbv zeta.
  fold (stepped step s). fold (note_over step end_ s). rewrite Hg.
  change (current_note (stepped step s)) with (current_note s). fold (advanced step s).
  change (notes_count (advanced step s)) with (notes_count s).
  change (notes_repeat (advanced step s)) with (notes_repeat s).
  rewrite E.
  match goal with |- context [if ?c then Continue _ _ else _] => destruct c end; eauto.
Qed.

Lemma release_tone_latch f s :
  state_changed s = true -> state_changed (release_tone f s) = true.
Proof.
  intros Hc. unfold release_tone. destruct (scan_down _ _ _); [|exact Hc].
  cbv zeta. destruct (_ =? 0); destruct (_ <? _); reflexivity.
Qed.

Lemma release_tone_melody f s : playing_melody (release_tone f s) = playing_melody s.
Proof.
  pose proof (release_tone_sequencer f s) as E. unfold sequencer in E.
  injection E. auto.
Qed.

(** C4, as the code has it. A call of [audio_advance_state] on which no
    melody ends evaluates the melody block, then the [audio_stop_all] of an
    idle subsystem, then the latch: [state_changed] is false afterwards, and
    the call returns true when it was set, [goto_next_note] otherwise. The
    call on which a melody that does not repeat ends returns true from
    inside the melody block, after [audio_stop_tone] on the last frequency:
    neither the [audio_stop_all] of an idle subsystem nor the latch is
    evaluated, and a latch that is set stays set. An [audio_stop_all] is an
    [audio_driver_stop] whatever the state. *)
Theorem advance_state_stages (step : Z) (end_ : float) (s : state) :
  let r := audio_advance_state step end_ s in
  if melody_ends step end_ s then
    r = (true, audio_stop_tone (note_frequency s (current_note s))
                 (set_playing_melody false (advanced step s)))
    /\ (audio_initialized s = true ->
        playing_melody (snd r) = false
        /\ (state_changed s = true -> state_changed (snd r) = true))
  else
    exists (goto_next_note : bool) (s' : state),
      melody_stage step end_ (note_stage s) s = Continue goto_next_note s'
      /\ goto_next_note = (if playing_melody s then note_over step end_ s else note_stage s)
      /\ r = latch_stage goto_next_note (idle_stage s')
      /\ idle_stage s'
         = (if negb (playing_note s') && negb (playing_melody s')
            then audio_stop_all s' else s')
      /\ state_changed (snd r) = false
      /\ fst r = (if state_changed (idle_stage s') then true else goto_next_note)
      /\ (audio_initialized s' = true ->
          trace (audio_stop_all s') = trace s' ++ [DriverStop]).
Proof.
  intros r. destruct (melody_ends step end_ s) eqn:E.
  - assert (Er : r = (true, audio_stop_tone (note_frequency s (current_note s))
                              (set_playing_melody false (advanced step s)))).
    { unfold r, audio_advance_state. rewrite melody_stage_return by exact E. reflexivity. }
    split; [exact Er|]. intros Hi. rewrite Er. cbn [snd].
    rewrite audio_stop_tone_ready by exact Hi.
    change (playing_note (set_playing_melody false (advanced step s)))
      with (playing_note s).
    destruct (playing_note s).
    + rewrite release_tone_melody. split; [reflexivity|].
      intros Hc. apply release_tone_latch. exact Hc.
    + split; [reflexivity|]. intros Hc. exact Hc.
  - destruct (melody_stage_continue step end_ (note_stage s) s E) as (g' & s' & Em & Eg).
    exists g', s'.
    assert (Er : r = latch_stage g' (idle_stage s')).
    { unfold r, audio_advance_state. rewrite Em. reflexivity. }
    split; [exact Em|]. split; [exact Eg|]. split; [exact Er|]. split; [reflexivity|].
    rewrite Er. unfold latch_stage.
    destruct (state_changed (idle_stage s')) eqn:Hc.
    + split; [reflexivity|]. split; [reflexivity|].
      intros Hi. rewrite audio_stop_all_ready by exact Hi. reflexivity.
    + split; [exact Hc|]. split; [reflexivity|].
      intros Hi. rewrite audio_stop_all_ready by exact Hi. reflexivity.
Qed.

End Stages.

(** ** The length of a melody *)

Section Duration.

Context `{platform}.

(** C3, as far as the code keeps it. A melody that does not repeat, with no
    two notes of one pitch in a row, whose notes last whole numbers
    [L1 .. Ln] of time units (the duration times 60 / tempo), each at least
    1 and below [2^23], is played on an enabled, initialized subsystem, with ticks of end
    fraction 1 whose steps are positive and not longer than any note. Then
    after any number of ticks the melody still plays exactly when the steps
    so far sum to less than [L1 + .. + Ln]: the tick that ends the melody
    takes the elapsed time to the sum of the note lengths or beyond, by less
    than its own step. *)
Theorem melody_duration_conserved
    (notes : list note) (Ls steps : list Z) (s0 : state) :
  audio_enable s0 = true -> audio_initialized s0 = true ->
  0 < Z.of_nat (length notes) < 65536 ->
  Forall2 (fun (nt : note) L =>
             1 <= L < 2 ^ 23 /\ F32.mul (snd nt) (tempo_scale s0) = F32.of_int L)
          notes Ls ->
  (forall i, (S i < length notes)%nat ->
             F32.eqb (fst (notes !!! i)) (fst (notes !!! S i)) = false) ->
  Forall (fun st => 1 <= st /\ Forall (fun L => st <= L) Ls) steps ->
  let s1 := audio_play_melody (Song notes) (Z.of_nat (length notes)) false s0 in
  let after (k : nat) := run_ticks (map (fun st => (st, F32.one)) (take k steps)) s1 in
  (forall k, playing_melody (after k) = (total (take k steps) <? total Ls))
  /\ (forall k st,
        steps !! k = Some st ->
        playing_melody (after k) = true -> playing_melody (after (S k)) = false ->
        total Ls <= total (take (S k) steps) < total Ls + st).
Proof.
  intros He Hi Hn Hw Hnr Hst s1 after.
  assert (Hplay : forall k, playing_melody (after k) = (total (take k steps) <? total Ls)).
  { intros k. apply (elapsed_playing notes Ls (note_tempo s0)); [exact Hw|].
    rewrite <- (Z.add_0_l (total (take k steps))).
    apply elapsed_run; [lia|exact Hw|exact Hnr|apply Forall_take; exact Hst|].
    apply play_melody_elapsed; [exact Hw|exact He|exact Hi|reflexivity|lia]. }
  split; [exact Hplay|].
  intros k st Hk Hon Hoff. rewrite Hplay in Hon, Hoff.
  apply Z.ltb_lt in Hon. apply Z.ltb_ge in Hoff.
  rewrite (total_take_S _ _ _ Hk) in *. lia.
Qed.

End Duration.
(** ** The functions around the tone stack *)

Section Silence.

Context `{platform}.

(** X1: [audio_stop_all] leaves the subsystem silent whatever was going on,
    also when it has to initialize the subsystem first and the startup song
    starts: no tone is active, neither a note nor a melody plays, all eight
    cells hold -1, every [audio_get_frequency] is 0, and the last call to
    the driver is [audio_driver_stop]. *)
Theorem audio_stop_all_silences (s : state) :
  tone_inv s ->
  let s' := audio_stop_all s in
  audio_get_number_of_active_tones s' = 0
  /\ audio_is_playing_note s' = false
  /\ audio_is_playing_melody s' = false
  /\ frequencies s' = replicate AUDIO_TONE_STACKSIZE F32.minus_one
  /\ audio_initialized s' = true
  /\ (forall i, 0 <= i -> audio_get_frequency i s' = F32.zero)
  /\ trace s' = trace (if audio_initialized s then s else audio_init s) ++ [DriverStop].
Proof.
  intros Hinv s'. unfold s', audio_stop_all. rewrite stop_all_unfold.
  assert (Hl : length (frequencies (ensure_init audio_init s)) = AUDIO_TONE_STACKSIZE)
    by (apply ensure_init_inv; [apply audio_init_inv|exact Hinv]).
  repeat apply conj; try reflexivity.
  - apply silence_frequencies, Hl.
  - unfold silence. simpl. apply ensure_init_initialized, audio_init_initialized.
  - intros i Hi. unfold audio_get_frequency, silence. simpl.
    destruct (Z.leb_spec 0 i); [reflexivity|lia].
Qed.

(** X2: on an enabled, initialized subsystem [audio_play_melody] takes the
    stack over: the tones that were active are dropped, and the only active
    tone is the (normalized) frequency of the first note. The melody plays
    from note 0 at position 0 with the given count and repeat flag, and the
    note length is the first duration times 60 / tempo. *)
Theorem play_melody_replaces_tones (s : state) (notes : list note) (n : Z) (r : bool) :
  audio_enable s = true -> audio_initialized s = true -> tone_inv s ->
  (0 < length notes)%nat ->
  let s' := audio_play_melody (Song notes) n r s in
  stack s' = [normalize (pitch notes 0)]
  /\ audio_get_number_of_active_tones s' = 1
  /\ audio_is_playing_note s' = true
  /\ audio_is_playing_melody s' = true
  /\ notes_pointer s' = Song notes /\ notes_count s' = n /\ notes_repeat s' = r
  /\ current_note s' = 0 /\ note_position s' = 0 /\ note_resting s' = false
  /\ note_length s'
     = F32.mul (snd (notes !!! 0%nat))
               (F32.div (F32.of_int 60) (F32.of_int (note_tempo s))).
Proof.
  intros He Hi Hinv _ s'.
  destruct (play_melody_start s (Song notes) n r He Hi Hinv) as (s0 & E & E0 & Hl0).
  unfold audio_get_number_of_active_tones, audio_is_playing_note,
    audio_is_playing_melody, s'.
  rewrite E. unfold stack. fields.
  destruct (frequencies s0) as [|x fr]; [discriminate|].
  repeat apply conj; reflexivity.
Qed.

End Silence.

Section Top.

Context `{platform} `{voices}.

(** X3: the tone requested last is the one [audio_get_frequency] reports at
    index 0. After [audio_play_tone f] on an enabled subsystem, for [f] a
    number, a note plays, at least one tone is active, and the frequency at
    index 0 compares equal to the normalized [f]: whether [f] was active
    before, was pushed, or took the place of the oldest tone of a full
    stack. *)
Theorem play_tone_on_top (s : state) (f : float) :
  audio_enable s = true -> tone_inv s -> F32.eqb f f = true ->
  let s' := audio_play_tone f s in
  audio_is_playing_note s' = true
  /\ 1 <= audio_get_number_of_active_tones s' <= Z.of_nat AUDIO_TONE_STACKSIZE
  /\ F32.eqb (audio_get_frequency 0 s') (normalize f) = true.
Proof.
  intros He Hinv Hf s'. unfold s', audio_play_tone. rewrite play_tone_unfold. cbv zeta.
  change (audio_enable (emit (CallPlayTone f) s)) with (audio_enable s). rewrite He.
  set (s1 := ensure_init audio_init (emit (CallPlayTone f) s)).
  assert (H1 : tone_inv s1)
    by (apply ensure_init_inv; [apply audio_init_inv|auto with tone_inv]).
  destruct (request_tone_top (normalize f) s1 H1 (normalize_eqb f Hf)) as [Ha Htop].
  split; [apply request_tone_playing, H1|]. split; [exact Ha|].
  unfold audio_get_frequency, audio_get_number_of_active_tones in *.
  destruct (Z.leb_spec (active_tones (request_tone (normalize f) s1)) 0); [lia|].
  rewrite Z.sub_0_r. exact Htop.
Qed.

(** X4: [audio_get_frequency] lists the active tones newest first: index
    [i] below the number of active tones gives entry [i] of the reversed
    stack, and every index from that number on gives 0. *)
Theorem get_frequency_newest_first (s : state) :
  tone_inv s ->
  map (fun i => audio_get_frequency (Z.of_nat i) s) (seq 0 (length (stack s)))
  = reverse (stack s)
  /\ forall i, audio_get_number_of_active_tones s <= i -> audio_get_frequency i s = F32.zero.
Proof.
  intros Hinv. pose proof (stack_length s Hinv) as Hlen. split.
  - apply list_eq. intros i. rewrite list_lookup_fmap.
    destruct (decide (i < length (stack s))%nat) as [Hi|Hi].
    + rewrite lookup_seq_lt by exact Hi. simpl.
      rewrite get_frequency_stack by (try exact Hinv; lia).
      rewrite Nat2Z.id. symmetry. apply list_lookup_lookup_total_lt.
      rewrite length_reverse. exact Hi.
    + rewrite lookup_seq_ge by lia. simpl. symmetry.
      apply lookup_ge_None. rewrite length_reverse. lia.
  - intros i Hi. unfold audio_get_frequency, audio_get_number_of_active_tones in *.
    destruct (Z.leb_spec (active_tones s) i); [reflexivity|lia].
Qed.

(** X5: [audio_get_processed_frequency] is [voice_envelope] applied to what
    [audio_get_frequency] reports, with two exceptions that give 0 and
    leave the envelope uncalled: an index from the number of active tones
    on, and a tone whose frequency is 0 or below (a rest). [glissando]
    changes nothing: its two glide branches test the local [frequency],
    which is 0 there, against 0, and [pow] is never called. *)
Theorem processed_frequency_is_envelope (s : state) (vs : voices_state) (i : Z) :
  tone_inv s -> 0 <= i <= 255 ->
  audio_get_processed_frequency i s vs
  = if (audio_get_number_of_active_tones s <=? i)
       || F32.leb (audio_get_frequency i s) F32.zero
    then (F32.zero, vs)
    else voice_envelope (audio_get_frequency i s) vs.
Proof.
  intros [Hl Hc _ _ _] Hi. stacksize.
  unfold audio_get_processed_frequency, audio_get_frequency,
    audio_get_number_of_active_tones.
  destruct (Z.leb_spec (active_tones s) i) as [Hle|Hlt]; [reflexivity|].
  cbn [orb]. cbv zeta.
  assert (E8 : to_int8 (active_tones s - i - 1) = active_tones s - i - 1)
    by (unfold to_int8; rewrite Z.mod_small; lia).
  rewrite E8.
  destruct (F32.leb (frequencies s !!! Z.to_nat (active_tones s - i - 1)) F32.zero);
    [reflexivity|].
  change (negb (F32.eqb F32.zero (F32.of_int 0))) with false. cbn [andb].
  destruct (glissando s); reflexivity.
Qed.

End Top.

Section RoundTrip.

Context `{platform}.

(** X6: [audio_stop_tone f] undoes [audio_play_tone f]. On an enabled,
    initialized subsystem with a free cell, for [f] a number that is not
    active and that no cell above the new top compares equal to, stopping
    the tone right after requesting it gives back the stack, the number of
    active tones and [playing_note]; the sequencer is untouched, the driver
    is started and stopped again exactly when the stack was empty, and
    [state_changed] is left set. *)
Theorem stop_tone_undoes_play_tone (s : state) (f : float) :
  audio_enable s = true -> audio_initialized s = true -> tone_inv s ->
  F32.eqb f f = true -> is_active f s = false ->
  active_tones s < Z.of_nat AUDIO_TONE_STACKSIZE ->
  Forall (fun x => F32.eqb x (normalize f) = false)
         (drop (S (Z.to_nat (active_tones s))) (frequencies s)) ->
  let s' := audio_stop_tone f (audio_play_tone f s) in
  stack s' = stack s
  /\ active_tones s' = active_tones s
  /\ playing_note s' = playing_note s
  /\ sequencer s' = sequencer s
  /\ state_changed s' = true
  /\ trace s'
     = trace s ++ (if active_tones s =? 0
                   then [CallPlayTone f; DriverStart; CallStopTone f; DriverStop]
                   else [CallPlayTone f; CallStopTone f]).
Proof.
  intros He Hi Hinv Hf Hact Hfree Htail s'.
  pose proof Hinv as [Hl Hc _ Hp _]. stacksize.
  set (a := Z.to_nat (active_tones s)) in *.
  assert (E : scan_down (frequencies s) (normalize f) a = None)
    by (apply scan_down_stack; [fold a; lia|exact Hact]).
  set (s1 := audio_play_tone f s).
  assert (E1 : s1 = let s' := set_frequencies (<[a := normalize f]> (frequencies s))
                      (set_playing_note true (set_state_changed true
                         (set_active_tones (active_tones s + 1)
                            (emit (CallPlayTone f) s)))) in
                    if active_tones s =? 0 then emit DriverStart s' else s').
  { unfold s1. rewrite audio_play_tone_ready by assumption.
    rewrite request_tone_push by (simpl; stacksize; first [lia|exact E]).
    reflexivity. }
  assert (Hfr1 : frequencies s1 = <[a := normalize f]> (frequencies s))
    by (rewrite E1; cbv zeta; destruct (_ =? 0); reflexivity).
  assert (Ha1 : active_tones s1 = active_tones s + 1)
    by (rewrite E1; cbv zeta; destruct (_ =? 0); reflexivity).
  assert (Hp1 : playing_note s1 = true)
    by (rewrite E1; cbv zeta; destruct (_ =? 0); reflexivity).
  assert (Hi1 : audio_initialized s1 = true)
    by (rewrite E1; cbv zeta; destruct (_ =? 0); exact Hi).
  assert (Hseq1 : sequencer s1 = sequencer s)
    by (apply audio_play_tone_sequencer; assumption).
  assert (Htr1 : trace s1 = trace s ++ (if active_tones s =? 0
                                        then [CallPlayTone f; DriverStart]
                                        else [CallPlayTone f])).
  { rewrite E1. cbv zeta. destruct (_ =? 0); simpl; [|reflexivity].
    rewrite <- app_assoc. reflexivity. }
  assert (E2 : scan_down (frequencies s1) (normalize f) AUDIO_TONE_STACKSIZE = Some a).
  { apply scan_down_at; stacksize.
    - lia.
    - rewrite Hfr1, list_lookup_total_insert_eq by lia. apply normalize_eqb, Hf.
    - intros k Hk. rewrite Hfr1, list_lookup_total_insert_ne by lia.
      apply (Forall_drop_lookup (fun x => F32.eqb x (normalize f) = false)
               (frequencies s) (S a) k); [exact Htail|lia]. }
  assert (Es' : s' = let s2 := set_active_tones (active_tones s)
                        (set_state_changed true
                           (set_frequencies
                              (delete a (<[a := normalize f]> (frequencies s))
                                 ++ [F32.minus_one])
                              (emit (CallStopTone f) s1))) in
                     if active_tones s =? 0
                     then set_playing_note false (emit DriverStop s2) else s2).
  { unfold s'. fold s1. rewrite audio_stop_tone_ready by exact Hi1. rewrite Hp1.
    rewrite (release_tone_found (normalize f) (emit (CallStopTone f) s1) a).
    2:{ fields. rewrite Hfr1, length_insert. exact Hl. }
    2:{ fields. rewrite Ha1. lia. }
    2:{ exact E2. }
    cbv zeta. fields. rewrite Ha1, Hfr1.
    replace (active_tones s + 1 - 1) with (active_tones s) by lia.
    replace (active_tones s + 1 =? 1) with (active_tones s =? 0)
      by (destruct (Z.eqb_spec (active_tones s) 0), (Z.eqb_spec (active_tones s + 1) 1);
          try reflexivity; lia).
    reflexivity. }
  assert (Hst : take a (delete a (<[a := normalize f]> (frequencies s))
                          ++ [F32.minus_one]) = take a (frequencies s)).
  { rewrite take_app_le
      by (rewrite length_delete, length_insert;
          [lia|apply lookup_lt_is_Some; rewrite length_insert; lia]).
    rewrite take_delete_ge by (rewrite length_insert; lia).
    apply take_insert_ge. lia. }
  rewrite Es'. cbv zeta.
  destruct (Z.eqb_spec (active_tones s) 0) as [H0|H0].
  - unfold stack. simpl. fold a. rewrite Hst.
    repeat apply conj; try reflexivity.
    + rewrite Hp. symmetry. apply Z.leb_gt. lia.
    + exact Hseq1.
    + rewrite Htr1, <- !app_assoc. reflexivity.
  - unfold stack. simpl. fold a. rewrite Hst.
    repeat apply conj; try reflexivity.
    + rewrite Hp1, Hp. symmetry. apply Z.leb_le. lia.
    + exact Hseq1.
    + rewrite Htr1, <- !app_assoc. reflexivity.
Qed.

(** X7: [audio_stop_tone] searches all eight cells, not only the active
    ones. When a note plays and [f] is not active but some cell past the
    stack compares equal to it (after [audio_init] the unused cells hold 0),
    the call still counts one tone less: the newest tone leaves the stack,
    the other tones stay, and the driver is stopped when it was the only
    one. *)
Theorem stop_tone_stale_cell (s : state) (f : float) :
  audio_initialized s = true -> tone_inv s -> playing_note s = true ->
  is_active f s = false ->
  existsb (fun y => F32.eqb y (normalize f))
          (drop (Z.to_nat (active_tones s)) (frequencies s)) = true ->
  let s' := audio_stop_tone f s in
  active_tones s' = active_tones s - 1
  /\ stack s' = take (Z.to_nat (active_tones s) - 1) (stack s)
  /\ playing_note s' = (2 <=? active_tones s)
  /\ state_changed s' = true.
Proof.
  intros Hi Hinv Hplay Hact Hstale s'.
  pose proof Hinv as [Hl Hc _ Hp _]. stacksize.
  set (a := Z.to_nat (active_tones s)) in *.
  assert (Ha : 1 <= active_tones s)
    by (rewrite Hplay in Hp; symmetry in Hp; apply Z.leb_le in Hp; exact Hp).
  assert (E : scan_down (frequencies s) (normalize f) a = None)
    by (apply scan_down_stack; [fold a; lia|exact Hact]).
  destruct (scan_down (frequencies s) (normalize f) AUDIO_TONE_STACKSIZE) as [j|] eqn:Ej.
  2:{ exfalso. rewrite scan_down_None in Ej.
      assert (Hnone : existsb (fun y => F32.eqb y (normalize f))
                        (drop a (frequencies s)) = false).
      { apply existsb_false_Forall, Forall_lookup. intros k y Hk.
        rewrite lookup_drop in Hk. pose proof (lookup_lt_Some _ _ _ Hk) as Hlt.
        apply list_lookup_total_correct in Hk. rewrite <- Hk.
        apply Ej. stacksize. lia. }
      congruence. }
  assert (Hj : (a <= j < 8)%nat).
  { pose proof Ej as Ej'. apply scan_down_Some in Ej' as (Hlt & He & _).
    stacksize. split; [|exact Hlt].
    destruct (le_lt_dec a j) as [Hle|Hgt]; [exact Hle|].
    rewrite scan_down_None in E. rewrite (E j Hgt) in He. discriminate. }
  assert (Es' : s' = let s2 := set_active_tones (active_tones s - 1)
                        (set_state_changed true
                           (set_frequencies (delete j (frequencies s) ++ [F32.minus_one])
                              (emit (CallStopTone f) s))) in
                     if active_tones s =? 1
                     then set_playing_note false (emit DriverStop s2) else s2).
  { unfold s'. rewrite audio_stop_tone_ready by exact Hi. rewrite Hplay.
    rewrite (release_tone_found _ _ j) by (simpl; stacksize; first [lia|assumption]).
    reflexivity. }
  assert (Hst : take (Z.to_nat (active_tones s - 1))
                  (delete j (frequencies s) ++ [F32.minus_one])
                = take (a - 1) (take a (frequencies s))).
  { replace (Z.to_nat (active_tones s - 1)) with (a - 1)%nat by lia.
    rewrite take_take, Nat.min_l by lia.
    rewrite take_app_le
      by (rewrite length_delete; [lia|apply lookup_lt_is_Some; lia]).
    apply take_delete_ge. lia. }
  rewrite Es'. cbv zeta.
  destruct (Z.eqb_spec (active_tones s) 1) as [H1|H1].
  - unfold stack. simpl. fold a. rewrite Hst.
    repeat apply conj; try reflexivity.
    symmetry. apply Z.leb_gt. lia.
  - unfold stack. simpl. fold a. rewrite Hst.
    repeat apply conj; try reflexivity.
    rewrite Hplay. symmetry. apply Z.leb_le. lia.
Qed.

End RoundTrip.

Section Click.

Context `{platform}.

(** X17: [audio_play_click] plays its click as a melody of its own. On an
    enabled, initialized subsystem the tones that were active are dropped
    and the [click] array plays once from its first note: without a delay
    it has one note, of the given frequency, which is the active tone; with
    a delay it has two, and the first, which is the active tone, is a rest
    of frequency 0 before the note of the given frequency. *)
Theorem audio_play_click_song (s : state) (delay : Z) (f : float) (duration : Z) :
  audio_enable s = true -> audio_initialized s = true -> tone_inv s ->
  0 <= delay <= 65535 ->
  let s' := audio_play_click delay f duration s in
  notes_pointer s' = ClickSong /\ notes_repeat s' = false
  /\ audio_is_playing_melody s' = true /\ audio_is_playing_note s' = true
  /\ current_note s' = 0
  /\ if delay =? 0
     then notes_count s' = 1 /\ stack s' = [normalize f] /\ note_frequency s' 0 = f
     else notes_count s' = 2 /\ stack s' = [F32.zero]
          /\ note_frequency s' 0 = F32.zero /\ note_frequency s' 1 = f.
Proof.
  intros He Hi Hv Hd s'. unfold s', audio_play_click. cbv zeta.
  rewrite (delay_leb_zero delay Hd).
  destruct (delay =? 0).
  - match goal with |- context [audio_play_melody _ _ _ ?s1] =>
      destruct (play_melody_start s1 ClickSong 1 false He Hi
                  (inv_set_click _ _ Hv)) as (s0 & E & E0 & Hl0) end.
    rewrite E. unfold stack, note_frequency, song, audio_is_playing_melody,
      audio_is_playing_note. fields.
    destruct (frequencies s0) as [|x fr]; [discriminate|].
    assert (Ec : click s0 = click (set_click [(f, F32.mul
                   (F32.of_int (64 ÷ 60 * note_tempo s))
                   (F32.div (F32.of_int duration) (F32.of_int 1000)));
                   (F32.zero, F32.zero)] s))
      by (rewrite E0; destruct (playing_note _); reflexivity).
    rewrite Ec. repeat apply conj; reflexivity.
  - match goal with |- context [audio_play_melody _ _ _ ?s1] =>
      destruct (play_melody_start s1 ClickSong 2 false He Hi
                  (inv_set_click _ _ Hv)) as (s0 & E & E0 & Hl0) end.
    rewrite E. unfold stack, note_frequency, song, audio_is_playing_melody,
      audio_is_playing_note. fields.
    destruct (frequencies s0) as [|x fr]; [discriminate|].
    assert (Ec : click s0 = click (set_click [(F32.zero, F32.mul
                   (F32.of_int (64 ÷ 60 * note_tempo s))
                   (F32.div (F32.of_int delay) (F32.of_int 1000)));
                   (f, F32.mul
                   (F32.of_int (64 ÷ 60 * note_tempo s))
                   (F32.div (F32.of_int duration) (F32.of_int 1000)))] s))
      by (rewrite E0; destruct (playing_note _); reflexivity).
    rewrite Ec. repeat apply conj; try reflexivity.
Qed.

(** X18: [audio_stop_tone] of an active tone removes that tone and no
    other. On an initialized subsystem, for [f] active and no cell past the
    stack comparing equal to it, the matching entry leaves the stack, the
    others keep their order, one tone less is active, [f] is not active any
    more, and the driver is stopped exactly when it was the last tone. *)
Theorem stop_tone_removes (s : state) (f : float) :
  audio_initialized s = true -> tone_inv s -> is_active f s = true ->
  Forall (fun x => F32.eqb x (normalize f) = false)
         (drop (Z.to_nat (active_tones s)) (frequencies s)) ->
  let s' := audio_stop_tone f s in
  exists i : nat,
    (i < length (stack s))%nat
    /\ F32.eqb (stack s !!! i) (normalize f) = true
    /\ stack s' = delete i (stack s)
    /\ audio_get_number_of_active_tones s' = audio_get_number_of_active_tones s - 1
    /\ is_active f s' = false
    /\ audio_is_playing_note s' = (2 <=? active_tones s)
    /\ trace s' = trace s ++ (if active_tones s =? 1
                              then [CallStopTone f; DriverStop]
                              else [CallStopTone f]).
Proof.
  intros Hi Hinv Hact Htail s'.
  pose proof (stack_length s Hinv) as Hlen.
  pose proof Hinv as [Hl Hc Hd Hp _]. stacksize.
  set (a := Z.to_nat (active_tones s)) in *.
  destruct (scan_down (frequencies s) (normalize f) a) as [i|] eqn:E.
  2:{ apply scan_down_stack in E; [|fold a; lia]. unfold is_active in Hact. congruence. }
  apply scan_down_Some in E as (Hia & Hei & Hki).
  assert (Ha : 1 <= active_tones s) by lia.
  assert (Hplay : playing_note s = true) by (rewrite Hp; apply Z.leb_le; exact Ha).
  assert (E8 : scan_down (frequencies s) (normalize f) AUDIO_TONE_STACKSIZE = Some i).
  { apply scan_down_at; stacksize; [lia|exact Hei|].
    intros k Hk. destruct (le_lt_dec a k) as [Hge|Hlt]; [|apply Hki; lia].
    apply (Forall_drop_lookup (fun x => F32.eqb x (normalize f) = false)
             (frequencies s) a k); [exact Htail|lia]. }
  assert (Es' : s' = let s2 := set_active_tones (active_tones s - 1)
                        (set_state_changed true
                           (set_frequencies (delete i (frequencies s) ++ [F32.minus_one])
                              (emit (CallStopTone f) s))) in
                     if active_tones s =? 1
                     then set_playing_note false (emit DriverStop s2) else s2).
  { unfold s'. rewrite audio_stop_tone_ready by exact Hi. rewrite Hplay.
    rewrite (release_tone_found _ _ i) by (simpl; stacksize; first [lia|assumption]).
    reflexivity. }
  assert (Hst : take (Z.to_nat (active_tones s - 1))
                  (delete i (frequencies s) ++ [F32.minus_one])
                = delete i (stack s)).
  { rewrite take_app_le
      by (rewrite length_delete; [lia|apply lookup_lt_is_Some; lia]).
    unfold stack. fold a.
    replace (take a (frequencies s))
      with (take (S (Z.to_nat (active_tones s - 1))) (frequencies s))
      by (f_equal; lia).
    apply take_delete_lt. lia. }
  assert (Hcell : stack s !!! i = frequencies s !!! i)
    by (unfold stack; fold a; apply lookup_total_take_lt; lia).
  assert (Hgone : existsb (fun y => F32.eqb y (normalize f)) (delete i (stack s)) = false).
  { apply existsb_false_Forall.
    eapply Forall_impl; [apply (distinct_delete (stack s) i Hd); lia|].
    intros y Hy. cbv beta in Hy. apply (eqb_false_trans y (stack s !!! i)); [exact Hy|].
    rewrite Hcell. exact Hei. }
  assert (Hstack' : stack s' = delete i (stack s))
    by (rewrite Es'; cbv zeta; destruct (_ =? 1); unfold stack at 1; fields; exact Hst).
  assert (Ha' : active_tones s' = active_tones s - 1)
    by (rewrite Es'; cbv zeta; destruct (_ =? 1); reflexivity).
  assert (Hp' : playing_note s' = (2 <=? active_tones s)).
  { rewrite Es'. cbv zeta. destruct (Z.eqb_spec (active_tones s) 1) as [H1|H1]; fields.
    - symmetry. apply Z.leb_gt. lia.
    - rewrite Hplay. symmetry. apply Z.leb_le. lia. }
  assert (Htr' : trace s' = trace s ++ (if active_tones s =? 1
                                        then [CallStopTone f; DriverStop]
                                        else [CallStopTone f])).
  { rewrite Es'. cbv zeta. destruct (_ =? 1); fields; [|reflexivity].
    rewrite <- app_assoc. reflexivity. }
  exists i. unfold audio_get_number_of_active_tones, audio_is_playing_note, is_active.
  rewrite Hstack'. repeat apply conj.
  - lia.
  - rewrite Hcell. exact Hei.
  - reflexivity.
  - exact Ha'.
  - exact Hgone.
  - exact Hp'.
  - exact Htr'.
Qed.

End Click.

(** ** The driver, the sequencer and the switches *)

Section Driver.

Context `{platform}.

(** X8: the driver runs exactly while a note plays. Whatever calls of
    [audio_init] and of the tone, melody, click, tick and tempo functions
    (the functions of [call]) were made since power-up, the last of
    [audio_driver_start] and [audio_driver_stop] was a start when
    [audio_is_playing_note] holds and a stop (or neither was called) when it
    does not. *)
Theorem driver_runs_while_note_plays (cs : list call) :
  running (trace (run cs initial_state)) = audio_is_playing_note (run cs initial_state).
Proof. apply (run_drv cs initial_state initial_state_drv). Qed.

(** X9: the driver is initialized once, and before it is used. Whatever
    calls of the functions of [call] were made since power-up,
    [audio_driver_initialize] was called once when [audio_initialized] is
    set and never otherwise, and when the driver was called at all, that
    call was the first; a note only plays on an initialized subsystem. *)
Theorem driver_initialized_once (cs : list call) :
  let s := run cs initial_state in
  initializations (trace s) = (if audio_initialized s then 1%nat else 0%nat)
  /\ first_driver_call (trace s)
     = (if audio_initialized s then Some DriverInitialize else None)
  /\ (audio_is_playing_note s = true -> audio_initialized s = true).
Proof.
  intros s. destruct (run_drv cs initial_state initial_state_drv) as [Hv _ Hn Hf].
  repeat apply conj; [exact Hn|exact Hf|apply Hv].
Qed.

(** X10: while a melody plays, the current note is one of its notes. After
    [audio_play_melody] of [n] notes (1 to 65535) on an enabled,
    initialized subsystem and any number of ticks, of any step and end
    fraction, the song and its count are as given, and as long as the
    melody plays [current_note] is below [n]; a repeating melody plays
    on. *)
Theorem melody_stays_in_song (s : state) (np : song_ref) (n : Z) (r : bool)
    (ts : list (Z * float)) :
  audio_enable s = true -> audio_initialized s = true -> 1 <= n <= 65535 ->
  let s' := run_ticks ts (audio_play_melody np n r s) in
  notes_pointer s' = np /\ notes_count s' = n /\ notes_repeat s' = r
  /\ (audio_is_playing_melody s' = true -> 0 <= current_note s' < n)
  /\ (r = true -> audio_is_playing_melody s' = true).
Proof.
  intros He Hi Hn s'.
  assert (H0 : in_song np n r (audio_play_melody np n r s)).
  { rewrite audio_play_melody_ready by assumption. cbv zeta.
    match goal with |- in_song _ _ _ (audio_play_tone ?f ?s1) =>
      apply (in_song_cursor _ _ _ _ true true 0); auto; [|lia];
      rewrite (cursor_play_tone f s1)
    end.
    - unfold cursor. fields. destruct (playing_note s); fields; rewrite Hi; reflexivity.
    - fields. destruct (playing_note s); fields; exact Hi. }
  destruct (run_ticks_in_song np n r ts Hn _ H0) as (_ & Hnp & Hc & Hr & Hcur & Hrep).
  repeat apply conj; assumption.
Qed.

(** X11: raising the tempo and lowering it by the same amount gives the
    tempo back unless a bound was hit: [audio_decrease_tempo d] after
    [audio_increase_tempo d] when the sum stays within 255, and
    [audio_increase_tempo d] after [audio_decrease_tempo d] when the
    difference stays at 10 or above. *)
Theorem tempo_round_trip (s : state) (d : Z) :
  10 <= note_tempo s <= 255 -> 0 <= d <= 255 ->
  (note_tempo s + d <= 255 ->
   note_tempo (audio_decrease_tempo d (audio_increase_tempo d s)) = note_tempo s)
  /\ (10 <= note_tempo s - d ->
      note_tempo (audio_increase_tempo d (audio_decrease_tempo d s)) = note_tempo s).
Proof.
  intros Ht Hd. unfold audio_decrease_tempo, audio_increase_tempo. split; intros Hb.
  - destruct (Z.ltb_spec (255 - note_tempo s) d); [lia|]. fields.
    rewrite wrap8_small by lia.
    destruct (Z.leb_spec (note_tempo s + d - 10) d); fields; [lia|].
    rewrite wrap8_small by lia. lia.
  - destruct (Z.leb_spec (note_tempo s - 10) d); fields.
    + destruct (Z.ltb_spec (255 - 10) d); [lia|]. fields.
      rewrite wrap8_small by lia. lia.
    + rewrite wrap8_small by lia.
      destruct (Z.ltb_spec (255 - (note_tempo s - d)) d); [lia|]. fields.
      rewrite wrap8_small by lia. lia.
Qed.

(** X12: a disabled subsystem only gets quieter. On an initialized
    subsystem with audio disabled, whatever calls of the functions of
    [call] follow, audio stays disabled, the stack holds a part of the tones
    it held, in their order, [audio_driver_start] is never called, and no
    melody starts. *)
Theorem disabled_only_fades (s : state) (cs : list call) :
  audio_enable s = false -> audio_initialized s = true -> tone_inv s ->
  let s' := run cs s in
  audio_enable s' = false
  /\ stack s' `sublist_of` stack s
  /\ audio_get_number_of_active_tones s' <= audio_get_number_of_active_tones s
  /\ starts (trace s') = starts (trace s)
  /\ (audio_is_playing_melody s = false -> audio_is_playing_melody s' = false).
Proof.
  intros He Hi Hv s'.
  destruct (run_quieter cs s s (quieter_refl s He Hi Hv)) as [He' _ Hv' Hs Ht Hm].
  repeat apply conj; try assumption.
  apply sublist_length in Hs.
  rewrite (stack_length s Hv), (stack_length _ Hv') in Hs.
  destruct Hv as [_ Hc _ _ _], Hv' as [_ Hc' _ _ _].
  unfold audio_get_number_of_active_tones. fold s' in Hs. lia.
Qed.

(** X14: the first [audio_init]. On a subsystem that is not initialized
    the call initializes the driver and takes the enable bit from the
    platform. When that bit is set the startup song plays: its first note
    is the only active tone and the driver is started. When it is clear
    nothing else happens. A second [audio_init] changes nothing. *)
Theorem audio_init_first_call (s : state) :
  audio_initialized s = false -> tone_inv s ->
  let s' := audio_init s in
  audio_initialized s' = true
  /\ audio_enable s' = stored_enable
  /\ audio_init s' = s'
  /\ if stored_enable
     then audio_is_playing_melody s' = true
          /\ audio_is_playing_note s' = true
          /\ stack s' = [normalize (pitch STARTUP_SONG 0)]
          /\ notes_pointer s' = Song STARTUP_SONG
          /\ notes_count s' = wrap16 (Z.of_nat (length STARTUP_SONG))
          /\ notes_repeat s' = false
          /\ trace s' = trace s ++ [DriverInitialize; CallPlayTone (pitch STARTUP_SONG 0);
                                    DriverStart]
     else s' = set_audio_initialized true (emit DriverInitialize (set_audio_enable false s)).
Proof.
  intros Hi Hv s'.
  assert (Hi' : audio_initialized s' = true) by apply audio_init_initialized.
  split; [exact Hi'|]. rewrite (audio_init_done s' Hi').
  unfold s'. rewrite audio_init_unfold, Hi. cbv zeta. fields. rewrite Hi. cbn [negb].
  destruct stored_enable eqn:Es; [|repeat apply conj; reflexivity].
  set (s1 := set_audio_initialized true (emit DriverInitialize (set_audio_enable true s))).
  assert (Hp : playing_note s = false).
  { destruct Hv as [_ _ _ _ Hlive]. destruct (playing_note s); [|reflexivity].
    rewrite Hlive in Hi by reflexivity. discriminate. }
  assert (Hv1 : tone_inv s1)
    by (unfold s1; auto using inv_set_audio_initialized with tone_inv).
  destruct (play_melody_start s1 (Song STARTUP_SONG)
              (wrap16 (Z.of_nat (length STARTUP_SONG))) false eq_refl eq_refl Hv1)
    as (s0 & E & E0 & Hl0).
  change (playing_note s1) with (playing_note s) in E0. rewrite Hp in E0.
  rewrite E. unfold stack. fields.
  destruct (frequencies s0) as [|x fr]; [discriminate|].
  rewrite E0. unfold s1. fields. rewrite <- !app_assoc.
  repeat apply conj; reflexivity.
Qed.

End Driver.

Section Switches.

Context `{platform} `{board}.

(** X13: [audio_off] leaves the subsystem silent and disabled, and it stays
    that way. Called on an initialized subsystem, whatever the timer does
    during the wait: audio is disabled and the EEPROM is told so, no tone is
    active, neither a note nor a melody plays, all cells hold -1 and the
    driver is stopped; and after any calls of the functions of [call] that
    follow the subsystem still is disabled and silent and the driver has not
    been started again. *)
Theorem audio_off_silences (ticks : list (Z * float)) (b : board_state) (cs : list call) :
  audio_initialized (audio b) = true -> driver_inv (audio b) ->
  let b' := audio_off ticks b in
  audio_is_on b' = false
  /\ eeprom_audio b' = eeprom_audio b ++ [false]
  /\ switched_off (audio b')
  /\ frequencies (audio b') = replicate AUDIO_TONE_STACKSIZE F32.minus_one
  /\ running (trace (audio b')) = false
  /\ let s := run cs (audio b') in
     switched_off s /\ running (trace s) = false
     /\ starts (trace s) = starts (trace (audio b')).
Proof.
  intros Hi Hd b'.
  set (s1 := run_ticks ticks (PLAY_SONG AUDIO_OFF_SONG (audio b))).
  assert (Hd1 : driver_inv s1)
    by (unfold s1, PLAY_SONG; apply run_ticks_drv; apply audio_play_melody_drv; exact Hd).
  assert (Eb : audio b' = set_audio_enable false (audio_stop_all s1)) by reflexivity.
  assert (Ee : eeprom_audio b' = eeprom_audio b ++ [false]) by reflexivity.
  assert (Hd2 : driver_inv (audio b'))
    by (rewrite Eb; apply drv_set_audio_enable, audio_stop_all_drv, Hd1).
  assert (Hi2 : audio_initialized (audio b') = true).
  { rewrite Eb. unfold audio_stop_all. rewrite stop_all_unfold. fields.
    apply ensure_init_initialized, audio_init_initialized. }
  assert (Hoff : switched_off (audio b')).
  { rewrite Eb in *. unfold switched_off. repeat apply conj; try reflexivity.
    exact Hi2. }
  assert (Hfr : frequencies (audio b') = replicate AUDIO_TONE_STACKSIZE F32.minus_one).
  { rewrite Eb. unfold audio_stop_all. rewrite stop_all_unfold.
    change (frequencies (set_audio_enable false ?x)) with (frequencies x).
    apply silence_frequencies, ensure_init_inv; [apply audio_init_inv|apply Hd1]. }
  clearbody b'. destruct Hoff as (_ & He2 & Hp2 & Hm2 & Ha2).
  assert (Hq : quieter (audio b') (run cs (audio b')))
    by (apply run_quieter, quieter_refl; [exact He2|exact Hi2|apply Hd2]).
  pose proof (run_drv cs _ Hd2) as Hd3.
  pose proof (quieter_silent _ _ Hq Ha2 Hm2) as Hoff3.
  repeat apply conj.
  - exact He2.
  - exact Ee.
  - exact Hi2.
  - exact He2.
  - exact Hp2.
  - exact Hm2.
  - exact Ha2.
  - exact Hfr.
  - destruct Hd2 as [_ Hr _ _]. rewrite Hr. exact Hp2.
  - apply Hoff3.
  - apply Hoff3.
  - apply Hoff3.
  - apply Hoff3.
  - apply Hoff3.
  - destruct Hd3 as [_ Hr _ _]. rewrite Hr. apply Hoff3.
  - apply Hq.
Qed.

(** X15: [audio_toggle] switches audio off without stopping what plays.
    When audio is on, the call clears the enable bit, tells the EEPROM, does
    not call [audio_on_user], and leaves the tones, the melody and the
    driver as they are; from then on, under the functions of [call], the
    stack only loses tones and the driver is not started again. When audio
    is off, the call sets the bit, tells the EEPROM and calls
    [audio_on_user]. *)
Theorem audio_toggle_off_keeps_tones (b : board_state) (cs : list call) :
  audio_initialized (audio b) = true -> tone_inv (audio b) ->
  let b' := audio_toggle b in
  if audio_is_on b
  then b' = {| audio := set_audio_enable false (audio b);
               eeprom_audio := eeprom_audio b ++ [false] |}
       /\ audio_is_on b' = false
       /\ stack (audio b') = stack (audio b)
       /\ stack (run cs (audio b')) `sublist_of` stack (audio b)
       /\ starts (trace (run cs (audio b'))) = starts (trace (audio b))
  else b' = audio_on_user {| audio := set_audio_enable true (audio b);
                             eeprom_audio := eeprom_audio b ++ [true] |}.
Proof.
  intros Hi Hv b'. unfold audio_is_on.
  destruct (audio_enable (audio b)) eqn:He.
  - assert (Eb : b' = {| audio := set_audio_enable false (audio b);
                         eeprom_audio := eeprom_audio b ++ [false] |})
      by (unfold b', audio_toggle, eeconfig_update_audio, with_audio;
          cbv zeta; fields; rewrite He; reflexivity).
    rewrite Eb. cbn [audio].
    assert (Hq : quieter (set_audio_enable false (audio b))
                   (run cs (set_audio_enable false (audio b))))
      by (apply run_quieter, quieter_refl;
          [reflexivity|exact Hi|apply inv_set_audio_enable, Hv]).
    repeat apply conj; try reflexivity; apply Hq.
  - unfold b', audio_toggle, eeconfig_update_audio, with_audio.
    cbv zeta. fields. rewrite He. reflexivity.
Qed.

(** X16: [audio_on] enables audio and starts [AUDIO_ON_SONG]. On an
    initialized subsystem, with an [audio_on_user] that leaves the
    variables of the audio subsystem alone: audio is on, the tones that
    were active are dropped, the only active tone is the first note of the
    song, and the song plays once from its first note. *)
Theorem audio_on_plays_song (b : board_state) :
  audio_initialized (audio b) = true -> tone_inv (audio b) ->
  (0 < length AUDIO_ON_SONG)%nat ->
  (forall b0, audio (audio_on_user b0) = audio b0) ->
  let b' := audio_on b in
  audio_is_on b' = true
  /\ stack (audio b') = [normalize (pitch AUDIO_ON_SONG 0)]
  /\ audio_is_playing_note (audio b') = true
  /\ audio_is_playing_melody (audio b') = true
  /\ notes_pointer (audio b') = Song AUDIO_ON_SONG
  /\ notes_count (audio b') = wrap16 (Z.of_nat (length AUDIO_ON_SONG))
  /\ notes_repeat (audio b') = false
  /\ current_note (audio b') = 0.
Proof.
  intros Hi Hv _ Hhook b'.
  assert (Eb : audio b' = PLAY_SONG AUDIO_ON_SONG (set_audio_enable true (audio b)))
    by (unfold b', audio_on, with_audio; cbv zeta; cbn [audio]; rewrite Hhook;
        reflexivity).
  unfold audio_is_on, audio_is_playing_note, audio_is_playing_melody.
  rewrite Eb. unfold PLAY_SONG.
  destruct (play_melody_start (set_audio_enable true (audio b)) (Song AUDIO_ON_SONG)
              (wrap16 (Z.of_nat (length AUDIO_ON_SONG))) false eq_refl Hi
              (inv_set_audio_enable _ _ Hv)) as (s0 & E & E0 & Hl0).
  rewrite E. unfold stack. fields.
  destruct (frequencies s0) as [|x fr]; [discriminate|].
  assert (He0 : audio_enable s0 = true)
    by (rewrite E0; destruct (playing_note _); reflexivity).
  repeat apply conj; try reflexivity. exact He0.
Qed.

End Switches.

Section OneTone.

Context `{platform}.

(** X19: a melody plays one tone at a time and leaves silence. For a
    melody of 1 to 65535 notes whose frequencies are numbers and in which no
    note is followed by one of equal normalized frequency, started on an
    enabled, initialized subsystem (with no stale cell that compares equal
    to a note, when nothing played before), after any number of ticks of any
    step and end fraction: while the melody plays, the normalized frequency
    of the current note is the only active tone and the driver runs; once it
    is over, no tone is active and the driver is stopped. *)
Theorem melody_plays_one_tone (notes : list note) (r : bool) (ts : list (Z * float))
    (s : state) :
  audio_enable s = true -> audio_initialized s = true -> driver_inv s ->
  1 <= Z.of_nat (length notes) <= 65535 -> melodic notes r ->
  (playing_note s = false -> quiet_tail notes (drop 1 (frequencies s))) ->
  let s' := run_ticks ts (audio_play_melody (Song notes) (Z.of_nat (length notes)) r s) in
  if audio_is_playing_melody s'
  then stack s' = [normalize (pitch notes (current_note s'))]
       /\ 0 <= current_note s' < Z.of_nat (length notes)
       /\ audio_get_number_of_active_tones s' = 1
       /\ running (trace s') = true
  else stack s' = []
       /\ audio_get_number_of_active_tones s' = 0
       /\ audio_is_playing_note s' = false
       /\ running (trace s') = false.
Proof.
  intros He Hi Hd Hn Hmel Htail s'.
  assert (Hsolo : solo notes r s').
  { apply run_ticks_solo; [exact Hn|exact Hmel|].
    apply play_melody_solo; try assumption. apply Hd. }
  assert (Hdrv : driver_inv s')
    by (apply run_ticks_drv, audio_play_melody_drv, Hd).
  destruct Hdrv as [_ Hrun _ _].
  destruct Hsolo as (_ & _ & _ & _ & _ & _ & Hpm).
  unfold audio_is_playing_melody, audio_get_number_of_active_tones,
    audio_is_playing_note, stack.
  clearbody s'. destruct (playing_melody s').
  - destruct Hpm as (Hcur & Ha & Hp & tl & Hfr & _).
    rewrite Hrun, Ha, Hfr. repeat apply conj; auto; lia.
  - destruct Hpm as (Ha & Hp). rewrite Hrun, Ha. repeat apply conj; auto.
Qed.

End OneTone.

(** * Concrete runs *)

Section Runs.

#[local] Existing Instance reference_platform.

Lemma quiet_inv : tone_inv quiet.
Proof.
  split; [reflexivity|vm_compute; split; discriminate|exact I|reflexivity|reflexivity].
Defined.

Lemma two_tones_inv : tone_inv two_tones.
Proof.
  split; [reflexivity|vm_compute; split; discriminate| |reflexivity|reflexivity].
  vm_compute. repeat constructor.
Defined.

(** C1 as stated fails: 1 Hz is active in [two_tones], and requesting it
    again turns the stack [1; 2] into [2; 1]. *)
Lemma play_tone_present_reorders :
  is_active (F32.of_int 1) two_tones = true
  /\ stack two_tones = [F32.of_int 1; F32.of_int 2]
  /\ stack (audio_play_tone (F32.of_int 1) two_tones) = [F32.of_int 2; F32.of_int 1]
  /\ stack (audio_play_tone (F32.of_int 1) two_tones) <> stack two_tones.
Proof.
  repeat split; try (vm_compute; reflexivity).
  vm_compute. discriminate.
Qed.

Lemma play_tone_present_moves_to_top_witness :
  audio_enable two_tones = true /\ audio_initialized two_tones = true
  /\ tone_inv two_tones /\ is_active (F32.of_int 1) two_tones = true
  /\ exists (i : nat) (top : float),
       (i < length (stack two_tones))%nat
       /\ F32.eqb (stack two_tones !!! i) (normalize (F32.of_int 1)) = true
       /\ F32.eqb top (normalize (F32.of_int 1)) = true
       /\ stack (audio_play_tone (F32.of_int 1) two_tones)
          = delete i (stack two_tones) ++ [top]
       /\ (S i = length (stack two_tones)
           -> stack (audio_play_tone (F32.of_int 1) two_tones) = stack two_tones)
       /\ drop (length (stack two_tones))
               (frequencies (audio_play_tone (F32.of_int 1) two_tones))
          = drop (length (stack two_tones)) (frequencies two_tones)
       /\ audio_play_tone (F32.of_int 1) two_tones
          = set_frequencies (frequencies (audio_play_tone (F32.of_int 1) two_tones))
              (emit (CallPlayTone (F32.of_int 1)) two_tones).
Proof.
  split; [reflexivity|]. split; [reflexivity|]. split; [exact two_tones_inv|].
  split; [reflexivity|].
  apply (play_tone_present_moves_to_top two_tones (F32.of_int 1));
    [reflexivity|reflexivity|exact two_tones_inv|reflexivity].
Defined.

Lemma full_stack_inv : tone_inv full_stack.
Proof.
  split; [reflexivity|vm_compute; split; discriminate| |reflexivity|reflexivity].
  vm_compute. repeat constructor.
Defined.

Lemma eviction_order_witness :
  (stack full_stack = take 8 nine
   /\ stack (audio_play_tone (F32.of_int 9) full_stack) = drop 1 nine)
  /\ stack (play_tones nine quiet) = drop 1 nine.
Proof.
  split.
  - split; [reflexivity|].
    refine (proj2 (proj1 (eviction_order full_stack (F32.of_int 9) []
                            _ _ full_stack_inv) _ _)); reflexivity.
  - refine (proj2 (eviction_order quiet (F32.of_int 9) nine _ _ quiet_inv) _ _ _);
      try reflexivity.
    vm_compute. repeat constructor.
Defined.

Lemma tempo_clamps_witness :
  (0 <= note_tempo quiet <= 255 /\ 0 <= 200 <= 255)
  /\ note_tempo (audio_set_tempo 200 quiet) = 200
  /\ note_tempo (audio_increase_tempo 200 quiet) = 255
  /\ note_tempo (audio_decrease_tempo 200 quiet) = 10.
Proof.
  split; [vm_compute; repeat split; discriminate|].
  apply (tempo_clamps quiet 200); vm_compute; split; discriminate.
Defined.

(** ** Melodies on the quiet subsystem *)

Lemma quiet_ready (f : float) : ready f quiet.
Proof.
  split; [reflexivity|]. split; [reflexivity|]. split; [exact quiet_inv|].
  intros _. split; [reflexivity|].
  change (drop 1 (frequencies quiet)) with (replicate 7 F32.minus_one).
  repeat constructor; apply minus_one_normalize.
Defined.

Lemma rest_inserted_between_equal_notes_witness :
  ready (F32.of_int 440) quiet /\ 1 <= note_tempo quiet <= 255
  /\ playing_melody
       (run_ticks (replicate 3 (1000, F32.one))
          (audio_play_melody (Song same_note_twice) 2 false quiet)) = false.
Proof.
  split; [apply quiet_ready|]. split; [vm_compute; split; discriminate|].
  apply (proj2 (rest_inserted_between_equal_notes quiet (quiet_ready _))).
  vm_compute. split; discriminate.
Defined.

(** C9 as stated fails when a note of the melody has the frequency 0 or a
    frequency that is not a number. In [(440,4),(440,4),(0,4)] the third
    note requests 0 once more, and the end of the melody releases it: no
    tone is left and [audio_driver_stop] is called. In [(0,4),(0,4)] the
    release that follows the request of the rest removes the rest itself.
    In [(440,4),(440,4),(NaN,4)] the last note is never found again: it
    stays on the stack above the rest, and two tones are active at the
    end. *)
Lemma melody_end_after_rest :
  (let s1 := audio_play_melody (Song repeat_zero) 3 false quiet in
   let s := run_ticks (replicate 4 (1000, F32.one)) s1 in
   drop (length (trace s1)) (trace s)
   = [CallPlayTone F32.zero; CallStopTone (F32.of_int 440);
      CallPlayTone (F32.of_int 440); CallPlayTone F32.zero;
      CallStopTone (F32.of_int 440); CallStopTone F32.zero; DriverStop]
   /\ playing_melody s = false
   /\ stack s = [] /\ active_tones s = 0 /\ playing_note s = false)
  /\ (let s1 := audio_play_melody (Song zero_twice) 2 false quiet in
      let s := run_ticks (replicate 3 (1000, F32.one)) s1 in
      drop (length (trace s1)) (trace s)
      = [CallPlayTone F32.zero; CallStopTone F32.zero; DriverStop;
         CallPlayTone F32.zero; DriverStart; CallStopTone F32.zero; DriverStop]
      /\ playing_melody s = false
      /\ stack s = [] /\ active_tones s = 0 /\ playing_note s = false)
  /\ (let s1 := audio_play_melody (Song repeat_nan) 3 false quiet in
      let s := run_ticks (replicate 4 (1000, F32.one)) s1 in
      drop (length (trace s1)) (trace s)
      = [CallPlayTone F32.zero; CallStopTone (F32.of_int 440);
         CallPlayTone (F32.of_int 440); CallPlayTone S754_nan;
         CallStopTone (F32.of_int 440); CallStopTone S754_nan]
      /\ playing_melody s = false
      /\ stack s = [F32.zero; S754_nan] /\ active_tones s = 2).
Proof. repeat apply conj; vm_compute; reflexivity. Qed.

Lemma repeat_octave_voiced : voiced repeat_octave.
Proof. repeat (constructor; [split; reflexivity|]). constructor. Defined.

Lemma rest_tone_stays_active_witness :
  (voiced repeat_octave /\ 1 <= Z.of_nat (length repeat_octave) <= 65535
   /\ audio_enable quiet = true /\ audio_initialized quiet = true /\ tone_inv quiet
   /\ (playing_note quiet = false ->
       quiet_tail repeat_octave (drop 1 (frequencies quiet))))
  /\ (let s := audio_play_melody (Song repeat_octave) 3 false quiet in
      playing_melody s = true /\ note_resting s = false /\ current_note s = 0
      /\ note_over 1000 F32.one s = true
      /\ note_resting (tick (1000, F32.one) s) = true
      /\ In (CallPlayTone F32.zero)
            (drop (length (trace s)) (trace (tick (1000, F32.one) s))))
  /\ (let s := run_ticks (replicate 1 (1000, F32.one))
                 (audio_play_melody (Song repeat_octave) 3 false quiet) in
      note_resting s = true /\ note_over 1000 F32.one s = true
      /\ stack s = [F32.zero]
      /\ trace (tick (1000, F32.one) s) = trace s ++ [CallPlayTone (F32.of_int 440)]
      /\ stack (tick (1000, F32.one) s) = [F32.zero; F32.of_int 440])
  /\ (let s := run_ticks (replicate 3 (1000, F32.one))
                 (audio_play_melody (Song repeat_octave) 3 false quiet) in
      playing_melody s = true /\ current_note s = 2
      /\ note_over 1000 F32.one s = true
      /\ stack s = [F32.zero; F32.of_int 880]
      /\ trace (tick (1000, F32.one) s) = trace s ++ [CallStopTone (F32.of_int 880)]
      /\ playing_melody (tick (1000, F32.one) s) = false)
  /\ (let s := run_ticks (replicate 4 (1000, F32.one))
                 (audio_play_melody (Song repeat_octave) 3 false quiet) in
      playing_melody s = false
      /\ stack s = [F32.zero] /\ active_tones s = 1 /\ playing_note s = true).
Proof.
  assert (Hn : 1 <= Z.of_nat (length repeat_octave) <= 65535) by (simpl; lia).
  assert (Htail : playing_note quiet = false ->
                  quiet_tail repeat_octave (drop 1 (frequencies quiet))).
  { intros _ i Hi. split; [reflexivity|].
    change (drop 1 (frequencies quiet)) with (replicate 7 F32.minus_one).
    repeat constructor; apply minus_one_normalize. }
  split.
  { split; [exact repeat_octave_voiced|]. split; [exact Hn|].
    split; [reflexivity|]. split; [reflexivity|]. split; [exact quiet_inv|exact Htail]. }
  change (Z.of_nat (length repeat_octave)) with 3 in Hn.
  split; [|split; [|split]].
  - pose proof (rest_tone_stays_active repeat_octave quiet []
                  repeat_octave_voiced Hn eq_refl eq_refl quiet_inv Htail) as W.
    cbv zeta in W. change (Z.of_nat (length repeat_octave)) with 3 in W.
    cbn [run_ticks fold_left] in W.
    destruct W as (W & _). cbv zeta.
    set (s := audio_play_melody (Song repeat_octave) 3 false quiet) in *.
    assert (Hm : playing_melody s = true) by (vm_compute; reflexivity).
    assert (Hrest : note_resting s = false) by (vm_compute; reflexivity).
    assert (Ecur : current_note s = 0) by (vm_compute; reflexivity).
    assert (Hover : note_over (fst (1000, F32.one)) (snd (1000, F32.one)) s = true)
      by (vm_compute; reflexivity).
    rewrite Ecur in W.
    destruct (W Hm Hrest ltac:(simpl; lia) eq_refl (1000, F32.one) Hover) as (Er & Hin).
    split; [exact Hm|]. split; [exact Hrest|]. split; [exact Ecur|].
    split; [exact Hover|]. split; [exact Er|exact Hin].
  - pose proof (rest_tone_stays_active repeat_octave quiet (replicate 1 (1000, F32.one))
                  repeat_octave_voiced Hn eq_refl eq_refl quiet_inv Htail) as W.
    cbv zeta in W. change (Z.of_nat (length repeat_octave)) with 3 in W.
    destruct W as (_ & W & _). cbv zeta.
    set (s := run_ticks (replicate 1 (1000, F32.one))
                (audio_play_melody (Song repeat_octave) 3 false quiet)) in *.
    assert (Hrest : note_resting s = true) by (vm_compute; reflexivity).
    assert (Hover : note_over (fst (1000, F32.one)) (snd (1000, F32.one)) s = true)
      by (vm_compute; reflexivity).
    assert (Ecur : current_note s = 0) by (vm_compute; reflexivity).
    destruct (W Hrest) as (Hstack & _ & _ & Hstep).
    destruct (Hstep (1000, F32.one) Hover) as (Htr & Hst & _).
    rewrite Ecur in Htr, Hst.
    split; [exact Hrest|]. split; [exact Hover|]. split; [exact Hstack|].
    split; [exact Htr|exact Hst].
  - pose proof (rest_tone_stays_active repeat_octave quiet (replicate 3 (1000, F32.one))
                  repeat_octave_voiced Hn eq_refl eq_refl quiet_inv Htail) as W.
    cbv zeta in W. change (Z.of_nat (length repeat_octave)) with 3 in W.
    destruct W as (_ & _ & W). cbv zeta.
    set (s1 := audio_play_melody (Song repeat_octave) 3 false quiet) in *.
    set (s := run_ticks (replicate 3 (1000, F32.one)) s1) in *.
    assert (Hin : In (CallPlayTone F32.zero) (drop (length (trace s1)) (trace s)))
      by (vm_compute; left; reflexivity).
    assert (Hm : playing_melody s = true) by (vm_compute; reflexivity).
    assert (Hover : note_over (fst (1000, F32.one)) (snd (1000, F32.one)) s = true)
      by (vm_compute; reflexivity).
    assert (Ecur : current_note s = 2) by (vm_compute; reflexivity).
    destruct (W Hin) as (Hstack & _ & _ & Hend & _).
    rewrite Ecur in Hstack, Hend.
    destruct (Hend Hm ltac:(simpl; lia) (1000, F32.one) Hover) as (Htr & Hm').
    split; [exact Hm|]. split; [exact Ecur|]. split; [exact Hover|].
    split; [|split; [exact Htr|exact Hm']].
    destruct Hstack as [E|E]; [|exact E].
    exfalso. assert (E' : stack s <> [F32.zero]) by (vm_compute; discriminate).
    exact (E' E).
  - pose proof (rest_tone_stays_active repeat_octave quiet (replicate 4 (1000, F32.one))
                  repeat_octave_voiced Hn eq_refl eq_refl quiet_inv Htail) as W.
    cbv zeta in W. change (Z.of_nat (length repeat_octave)) with 3 in W.
    destruct W as (_ & _ & W). cbv zeta.
    set (s1 := audio_play_melody (Song repeat_octave) 3 false quiet) in *.
    set (s := run_ticks (replicate 4 (1000, F32.one)) s1) in *.
    assert (Hin : In (CallPlayTone F32.zero) (drop (length (trace s1)) (trace s)))
      by (vm_compute; left; reflexivity).
    assert (Hm : playing_melody s = false) by (vm_compute; reflexivity).
    destruct (W Hin) as (_ & Hp & _ & _ & Hdone).
    destruct (Hdone Hm) as (Hstack & Ha).
    split; [exact Hm|]. split; [exact Hstack|]. split; [exact Ha|exact Hp].
Defined.

(** ** A click *)

(** C4 as stated fails on the call that ends the click: the latch is set
    and the call returns true, but the latch is not cleared, and the
    [audio_stop_all] of an idle subsystem is not run although neither a note
    nor a melody is active afterwards (the one [audio_driver_stop] is the one
    of [audio_stop_tone]). Both happen on the next call. *)
Lemma melody_end_leaves_latch :
  let r := audio_advance_state 1 F32.one click_state in
  let r' := audio_advance_state 1 F32.one (snd r) in
  (playing_melody click_state = true /\ state_changed click_state = true)
  /\ (fst r = true /\ playing_melody (snd r) = false /\ playing_note (snd r) = false
      /\ state_changed (snd r) = true
      /\ trace (snd r)
         = trace click_state ++ [CallStopTone (F32.of_int 1000); DriverStop]
      /\ r <> latch_stage true (idle_stage (snd r)))
  /\ (fst r' = true /\ state_changed (snd r') = false
      /\ trace (snd r') = trace (snd r) ++ [DriverStop]).
Proof.
  repeat apply conj; try (vm_compute; reflexivity).
  vm_compute. discriminate.
Qed.

(** C5, what the code does. The click is a melody of one note that does not
    repeat, and the first tick ends it with an [audio_driver_stop]. But
    [(64 / 60)] is a division of two [int]s and yields 1: the duration
    stored for the note is 120 * (5 / 1000), and [note_length] is that times
    60 / 120, which is 10066329 / 2^25, just below 0.3. With the quotient
    64 / 60 taken in [float] the length would be 10737418 / 2^25, the
    [float] next to 0.32. The fraction 31 / 100 lies between the two. *)
Theorem click_note_length :
  note_tempo quiet = 120
  /\ (notes_pointer click_state = ClickSong /\ notes_count click_state = 1
      /\ notes_repeat click_state = false)
  /\ note_duration click_state 0
     = F32.mul (F32.of_int (1 * 120)) (F32.div (F32.of_int 5) (F32.of_int 1000))
  /\ note_length click_state
     = F32.mul (note_duration click_state 0) (F32.div (F32.of_int 60) (F32.of_int 120))
  /\ note_length click_state = S754_finite false 10066329 (-25)
  /\ click_length_spec = S754_finite false 10737418 (-25)
  /\ F32.ltb (note_length click_state) (F32.div (F32.of_int 31) (F32.of_int 100)) = true
  /\ F32.ltb (F32.div (F32.of_int 31) (F32.of_int 100)) click_length_spec = true
  /\ (let s := tick (1, F32.one) click_state in
      playing_melody s = false /\ playing_note s = false
      /\ trace s = trace click_state ++ [CallStopTone (F32.of_int 1000); DriverStop]).
Proof. repeat apply conj; vm_compute; reflexivity. Qed.

(** ** The length of a melody *)

(** C3 as stated fails. At 60 beats per minute two notes of duration 4 last
    8 time units. With ticks of 10 units the first tick ends the first note
    only: the melody ends on the second tick, 20 units after its start.
    With ticks of 1 unit and two notes of one pitch the rest between them
    adds 2 units: the melody ends on the tenth tick. At 120 beats per minute
    three notes of duration 5 last 7.5 time units. With ticks of 1 unit each
    of them takes 3 ticks, the half unit of overshoot being cut off when it
    is carried: the melody ends on the ninth tick. *)
Lemma melody_duration_not_conserved :
  (Forall (fun nt : note => F32.mul (snd nt) (tempo_scale slow) = F32.of_int 4) two_notes
   /\ Forall (fun nt : note => F32.mul (snd nt) (tempo_scale slow) = F32.of_int 4)
             same_note_twice)
  /\ (let s1 := audio_play_melody (Song two_notes) 2 false slow in
      playing_melody (run_ticks [(10, F32.one)] s1) = true
      /\ playing_melody (run_ticks [(10, F32.one); (10, F32.one)] s1) = false)
  /\ (let s1 := audio_play_melody (Song same_note_twice) 2 false slow in
      playing_melody (run_ticks (replicate 9 (1, F32.one)) s1) = true
      /\ playing_melody (run_ticks (replicate 10 (1, F32.one)) s1) = false)
  /\ (Forall (fun nt : note =>
                F32.mul (snd nt) (tempo_scale quiet) = F32.div (F32.of_int 5) (F32.of_int 2))
             odd_notes
      /\ let s1 := audio_play_melody (Song odd_notes) 3 false quiet in
         playing_melody (run_ticks (replicate 8 (1, F32.one)) s1) = true
         /\ playing_melody (run_ticks (replicate 9 (1, F32.one)) s1) = false).
Proof.
  split; [split; repeat constructor|].
  repeat apply conj; try (vm_compute; reflexivity).
  repeat constructor.
Qed.

Lemma melody_duration_conserved_witness :
  let steps := [2; 1; 2; 2; 2; 1; 2; 2; 1] in
  let s1 := audio_play_melody (Song three_notes) 3 false quiet in
  let after (k : nat) := run_ticks (map (fun st => (st, F32.one)) (take k steps)) s1 in
  (audio_enable quiet = true /\ audio_initialized quiet = true
   /\ 0 < Z.of_nat (length three_notes) < 65536
   /\ Forall2 (fun (nt : note) L =>
                 1 <= L < 2 ^ 23 /\ F32.mul (snd nt) (tempo_scale quiet) = F32.of_int L)
              three_notes [4; 2; 8]
   /\ (forall i, (S i < length three_notes)%nat ->
                 F32.eqb (fst (three_notes !!! i)) (fst (three_notes !!! S i)) = false)
   /\ Forall (fun st => 1 <= st /\ Forall (fun L => st <= L) [4; 2; 8]) steps)
  /\ (forall k, playing_melody (after k) = (total (take k steps) <? 14))
  /\ (forall k st,
        steps !! k = Some st ->
        playing_melody (after k) = true -> playing_melody (after (S k)) = false ->
        14 <= total (take (S k) steps) < 14 + st).
Proof.
  intros steps s1 after.
  assert (Hn : 0 < Z.of_nat (length three_notes) < 65536) by (simpl; lia).
  assert (Hw : Forall2 (fun (nt : note) L =>
                          1 <= L < 2 ^ 23
                          /\ F32.mul (snd nt) (tempo_scale quiet) = F32.of_int L)
                       three_notes [4; 2; 8])
    by (repeat constructor; try lia; vm_compute; reflexivity).
  assert (Hr : forall i, (S i < length three_notes)%nat ->
                 F32.eqb (fst (three_notes !!! i)) (fst (three_notes !!! S i)) = false)
    by (intros [|[|i]] Hi; simpl in Hi; try lia; vm_compute; reflexivity).
  assert (Hs : Forall (fun st => 1 <= st /\ Forall (fun L => st <= L) [4; 2; 8]) steps)
    by (repeat constructor; lia).
  split; [repeat split; try assumption; try reflexivity; lia|].
  exact (melody_duration_conserved three_notes [4; 2; 8] steps quiet
           eq_refl eq_refl Hn Hw Hr Hs).
Defined.

(** ** The other functions on the reference platform *)

Lemma started_inv : tone_inv started.
Proof.
  split; [reflexivity|vm_compute; split; discriminate| |reflexivity|reflexivity].
  vm_compute. repeat constructor.
Defined.

Lemma muted_inv : tone_inv muted.
Proof.
  split; [reflexivity|vm_compute; split; discriminate| |reflexivity|reflexivity].
  vm_compute. repeat constructor.
Defined.

Lemma two_tones_drv : driver_inv two_tones.
Proof. split; [exact two_tones_inv|reflexivity|reflexivity|reflexivity]. Defined.

Lemma audio_stop_all_silences_witness :
  tone_inv two_tones
  /\ audio_get_number_of_active_tones (audio_stop_all two_tones) = 0
  /\ audio_is_playing_note (audio_stop_all two_tones) = false.
Proof.
  split; [exact two_tones_inv|].
  pose proof (audio_stop_all_silences two_tones two_tones_inv) as W.
  exact (conj (proj1 W) (proj1 (proj2 W))).
Defined.

Lemma play_melody_replaces_tones_witness :
  (audio_enable two_tones = true /\ audio_initialized two_tones = true
   /\ tone_inv two_tones /\ (0 < length two_notes)%nat)
  /\ stack (audio_play_melody (Song two_notes) 2 false two_tones)
     = [normalize (pitch two_notes 0)].
Proof.
  split.
  - split; [reflexivity|]. split; [reflexivity|]. split; [exact two_tones_inv|].
    simpl. lia.
  - refine (proj1 (play_melody_replaces_tones two_tones two_notes 2 false
                     _ _ two_tones_inv _)); [reflexivity|reflexivity|simpl; lia].
Defined.

Lemma play_tone_on_top_witness :
  (audio_enable two_tones = true /\ tone_inv two_tones
   /\ F32.eqb (F32.of_int 3) (F32.of_int 3) = true)
  /\ F32.eqb (audio_get_frequency 0 (audio_play_tone (F32.of_int 3) two_tones))
             (normalize (F32.of_int 3)) = true.
Proof.
  split.
  - split; [reflexivity|]. split; [exact two_tones_inv|reflexivity].
  - refine (proj2 (proj2 (play_tone_on_top two_tones (F32.of_int 3)
                            _ two_tones_inv _))); reflexivity.
Defined.

Lemma get_frequency_newest_first_witness :
  tone_inv two_tones
  /\ map (fun i => audio_get_frequency (Z.of_nat i) two_tones)
         (seq 0 (length (stack two_tones)))
     = reverse (stack two_tones).
Proof.
  split; [exact two_tones_inv|].
  exact (proj1 (get_frequency_newest_first two_tones two_tones_inv)).
Defined.

Lemma stop_tone_undoes_play_tone_witness :
  (audio_enable two_tones = true /\ audio_initialized two_tones = true
   /\ tone_inv two_tones /\ F32.eqb (F32.of_int 3) (F32.of_int 3) = true
   /\ is_active (F32.of_int 3) two_tones = false
   /\ active_tones two_tones < Z.of_nat AUDIO_TONE_STACKSIZE
   /\ Forall (fun x => F32.eqb x (normalize (F32.of_int 3)) = false)
             (drop (S (Z.to_nat (active_tones two_tones))) (frequencies two_tones)))
  /\ stack (audio_stop_tone (F32.of_int 3) (audio_play_tone (F32.of_int 3) two_tones))
     = stack two_tones.
Proof.
  assert (Hfree : active_tones two_tones < Z.of_nat AUDIO_TONE_STACKSIZE)
    by (vm_compute; reflexivity).
  assert (Htail : Forall (fun x => F32.eqb x (normalize (F32.of_int 3)) = false)
                    (drop (S (Z.to_nat (active_tones two_tones)))
                       (frequencies two_tones))).
  { change (drop (S (Z.to_nat (active_tones two_tones))) (frequencies two_tones))
      with (replicate 5 F32.minus_one).
    repeat (constructor; [vm_compute; reflexivity|]). constructor. }
  split.
  - split; [reflexivity|]. split; [reflexivity|]. split; [exact two_tones_inv|].
    split; [reflexivity|]. split; [reflexivity|]. split; [exact Hfree|exact Htail].
  - refine (proj1 (stop_tone_undoes_play_tone two_tones (F32.of_int 3)
                     _ _ two_tones_inv _ _ Hfree Htail)); reflexivity.
Defined.

(** After [audio_init] the first note of the startup song plays and the
    unused cells hold 0: [audio_stop_tone(0)] stops that note. *)
Lemma stop_tone_stale_cell_witness :
  (audio_initialized started = true /\ tone_inv started /\ playing_note started = true
   /\ is_active F32.zero started = false
   /\ existsb (fun y => F32.eqb y (normalize F32.zero))
              (drop (Z.to_nat (active_tones started)) (frequencies started)) = true)
  /\ stack started = [F32.of_int 440]
  /\ active_tones (audio_stop_tone F32.zero started) = 0
  /\ playing_note (audio_stop_tone F32.zero started) = false.
Proof.
  split.
  - split; [reflexivity|]. split; [exact started_inv|].
    split; [reflexivity|]. split; reflexivity.
  - split; [reflexivity|].
    pose proof (stop_tone_stale_cell started F32.zero eq_refl started_inv
                  eq_refl eq_refl eq_refl) as W.
    exact (conj (proj1 W) (proj1 (proj2 (proj2 W)))).
Defined.

Lemma melody_stays_in_song_witness :
  (audio_enable quiet = true /\ audio_initialized quiet = true /\ 1 <= 2 <= 65535)
  /\ audio_is_playing_melody
       (run_ticks (replicate 5 (1000, F32.one))
          (audio_play_melody (Song two_notes) 2 true quiet)) = true.
Proof.
  split.
  - split; [reflexivity|]. split; [reflexivity|lia].
  - refine (proj2 (proj2 (proj2 (proj2
             (melody_stays_in_song quiet (Song two_notes) 2 true
                (replicate 5 (1000, F32.one)) _ _ _)))) _);
      first [reflexivity|lia].
Defined.

Lemma tempo_round_trip_witness :
  (10 <= note_tempo quiet <= 255 /\ 0 <= 50 <= 255
   /\ note_tempo quiet + 50 <= 255 /\ 10 <= note_tempo quiet - 50)
  /\ note_tempo (audio_decrease_tempo 50 (audio_increase_tempo 50 quiet))
     = note_tempo quiet
  /\ note_tempo (audio_increase_tempo 50 (audio_decrease_tempo 50 quiet))
     = note_tempo quiet.
Proof.
  assert (Ht : 10 <= note_tempo quiet <= 255) by (vm_compute; split; discriminate).
  assert (Hd : 0 <= 50 <= 255) by lia.
  assert (H1 : note_tempo quiet + 50 <= 255) by (vm_compute; discriminate).
  assert (H2 : 10 <= note_tempo quiet - 50) by (vm_compute; discriminate).
  split; [repeat split; assumption|].
  split.
  - exact (proj1 (tempo_round_trip quiet 50 Ht Hd) H1).
  - exact (proj2 (tempo_round_trip quiet 50 Ht Hd) H2).
Defined.

Lemma disabled_only_fades_witness :
  (audio_enable muted = false /\ audio_initialized muted = true /\ tone_inv muted)
  /\ stack (run [PlayTone (F32.of_int 3); StopTone (F32.of_int 1)] muted)
     `sublist_of` stack muted.
Proof.
  split.
  - split; [reflexivity|]. split; [reflexivity|exact muted_inv].
  - refine (proj1 (proj2 (disabled_only_fades muted
                            [PlayTone (F32.of_int 3); StopTone (F32.of_int 1)]
                            _ _ muted_inv))); reflexivity.
Defined.

Lemma audio_init_first_call_witness :
  (audio_initialized initial_state = false /\ tone_inv initial_state)
  /\ audio_initialized (audio_init initial_state) = true
  /\ audio_enable (audio_init initial_state) = stored_enable.
Proof.
  split.
  - split; [reflexivity|exact initial_state_inv].
  - pose proof (audio_init_first_call initial_state eq_refl initial_state_inv) as W.
    exact (conj (proj1 W) (proj1 (proj2 W))).
Defined.

Lemma audio_play_click_song_witness :
  (audio_enable two_tones = true /\ audio_initialized two_tones = true
   /\ tone_inv two_tones /\ 0 <= 10 <= 65535)
  /\ notes_pointer (audio_play_click 10 (F32.of_int 1000) 5 two_tones) = ClickSong
  /\ notes_repeat (audio_play_click 10 (F32.of_int 1000) 5 two_tones) = false.
Proof.
  split.
  - split; [reflexivity|]. split; [reflexivity|]. split; [exact two_tones_inv|lia].
  - assert (Hd : 0 <= 10 <= 65535) by lia.
    pose proof (audio_play_click_song two_tones 10 (F32.of_int 1000) 5
                  eq_refl eq_refl two_tones_inv Hd) as W.
    exact (conj (proj1 W) (proj1 (proj2 W))).
Defined.

Lemma stop_tone_removes_witness :
  (audio_initialized two_tones = true /\ tone_inv two_tones
   /\ is_active (F32.of_int 1) two_tones = true
   /\ Forall (fun x => F32.eqb x (normalize (F32.of_int 1)) = false)
              (drop (Z.to_nat (active_tones two_tones)) (frequencies two_tones)))
  /\ exists i : nat,
       stack (audio_stop_tone (F32.of_int 1) two_tones) = delete i (stack two_tones).
Proof.
  assert (Htail : Forall (fun x => F32.eqb x (normalize (F32.of_int 1)) = false)
                    (drop (Z.to_nat (active_tones two_tones)) (frequencies two_tones))).
  { change (drop (Z.to_nat (active_tones two_tones)) (frequencies two_tones))
      with (replicate 6 F32.minus_one).
    repeat (constructor; [vm_compute; reflexivity|]). constructor. }
  split.
  - split; [reflexivity|]. split; [exact two_tones_inv|]. split; [reflexivity|exact Htail].
  - destruct (stop_tone_removes two_tones (F32.of_int 1) eq_refl two_tones_inv
                eq_refl Htail) as (i & _ & _ & W & _).
    exists i. exact W.
Defined.

Lemma quiet_drv : driver_inv quiet.
Proof. split; [exact quiet_inv|reflexivity|reflexivity|reflexivity]. Defined.

Lemma two_notes_melodic : melodic two_notes false.
Proof.
  split; [repeat constructor|]. split; [|discriminate].
  intros i Hi. destruct i as [|i]; [reflexivity|]. simpl in Hi. lia.
Defined.

Lemma melody_plays_one_tone_witness :
  (audio_enable quiet = true /\ audio_initialized quiet = true /\ driver_inv quiet
   /\ 1 <= Z.of_nat (length two_notes) <= 65535 /\ melodic two_notes false
   /\ (playing_note quiet = false -> quiet_tail two_notes (drop 1 (frequencies quiet))))
  /\ stack (run_ticks (replicate 3 (1000, F32.one))
              (audio_play_melody (Song two_notes) (Z.of_nat (length two_notes)) false
                 quiet)) = [].
Proof.
  assert (Hn : 1 <= Z.of_nat (length two_notes) <= 65535) by (simpl; lia).
  assert (Htail : playing_note quiet = false ->
                  quiet_tail two_notes (drop 1 (frequencies quiet))).
  { intros _ i Hi. split; [reflexivity|].
    change (drop 1 (frequencies quiet)) with (replicate 7 F32.minus_one).
    repeat constructor; apply minus_one_normalize. }
  split.
  - split; [reflexivity|]. split; [reflexivity|]. split; [exact quiet_drv|].
    split; [exact Hn|]. split; [exact two_notes_melodic|exact Htail].
  - pose proof (melody_plays_one_tone two_notes false (replicate 3 (1000, F32.one))
                  quiet eq_refl eq_refl quiet_drv Hn two_notes_melodic Htail) as W.
    cbv zeta in W.
    assert (E : audio_is_playing_melody
                  (run_ticks (replicate 3 (1000, F32.one))
                     (audio_play_melody (Song two_notes) (Z.of_nat (length two_notes))
                        false quiet)) = false)
      by (vm_compute; reflexivity).
    rewrite E in W. exact (proj1 W).
Defined.

#[local] Existing Instance reference_voices.
#[local] Existing Instance reference_board.

Lemma processed_frequency_is_envelope_witness :
  (tone_inv two_tones /\ 0 <= 0 <= 255)
  /\ audio_get_processed_frequency 0 two_tones tt
     = voice_envelope (audio_get_frequency 0 two_tones) tt.
Proof.
  split.
  - split; [exact two_tones_inv|lia].
  - refine (processed_frequency_is_envelope two_tones tt 0 two_tones_inv _). lia.
Defined.

Lemma audio_off_silences_witness :
  (audio_initialized (audio playing_board) = true /\ driver_inv (audio playing_board))
  /\ audio_is_on (audio_off [(1000, F32.one)] playing_board) = false
  /\ eeprom_audio (audio_off [(1000, F32.one)] playing_board) = [false].
Proof.
  split.
  - split; [reflexivity|exact two_tones_drv].
  - pose proof (audio_off_silences [(1000, F32.one)] playing_board
                  [PlayTone (F32.of_int 440)] eq_refl two_tones_drv) as W.
    exact (conj (proj1 W) (proj1 (proj2 W))).
Defined.

Lemma audio_toggle_off_keeps_tones_witness :
  (audio_initialized (audio playing_board) = true /\ tone_inv (audio playing_board))
  /\ audio_is_on (audio_toggle playing_board) = false
  /\ stack (audio (audio_toggle playing_board)) = stack (audio playing_board).
Proof.
  split.
  - split; [reflexivity|exact two_tones_inv].
  - pose proof (audio_toggle_off_keeps_tones playing_board
                  [StopTone (F32.of_int 2)] eq_refl two_tones_inv) as W.
    exact (conj (proj1 (proj2 W)) (proj1 (proj2 (proj2 W)))).
Defined.

Lemma audio_on_plays_song_witness :
  (audio_initialized (audio playing_board) = true /\ tone_inv (audio playing_board)
   /\ (0 < length AUDIO_ON_SONG)%nat
   /\ (forall b0, audio (audio_on_user b0) = audio b0))
  /\ audio_is_on (audio_on playing_board) = true
  /\ stack (audio (audio_on playing_board)) = [normalize (pitch AUDIO_ON_SONG 0)].
Proof.
  assert (Hsong : (0 < length AUDIO_ON_SONG)%nat) by (simpl; lia).
  assert (Hhook : forall b0, audio (audio_on_user b0) = audio b0)
    by (intros b0; reflexivity).
  split.
  - split; [reflexivity|]. split; [exact two_tones_inv|]. split; assumption.
  - pose proof (audio_on_plays_song playing_board eq_refl two_tones_inv Hsong Hhook) as W.
    exact (conj (proj1 W) (proj1 (proj2 W))).
Defined.

End Runs.
